(** * strmthumbnail: bounded task queue, batch orchestrator, job pipeline
      and duration cache

    A shallow embedding of the JavaScript sources

      - [strmthumbnail/src/utils/taskQueue.js]     (modules [TaskQueue]
        and [QueueControl])
      - [strmthumbnail/src/routes/video.js]        (modules [VideoRoutes]
        and [AuthService])
      - [strmthumbnail/src/middleware/auth.js]     (in module [AuthService])
      - [src/services/videoService.js]             (modules [VideoService],
        [Nfo] and [Scan])
      - [strmthumbnail/src/services/cacheService.js] (modules [CacheService]
        and [CacheControl])
      - [strmthumbnail/server.js]                  (modules [LegacyServer]
        and [LegacyRoutes])

    Conventions.  JavaScript numbers that stand for durations and offsets
    are the doubles of IEEE 754, with [NaN] and the infinities; a finite
    double is given as the rational ([Q]) it is, and a product or a sum
    is the exact result rounded to the nearest double, ties to even
    ([Js.round64]).  Counters are integers ([Z]).  Strings are byte strings, and
    [toLowerCase] acts on the ASCII letters, which is what hostnames are
    made of.  What the sources obtain from the platform or from the
    outside world (the [validator] and [path] libraries, the [URL] parser,
    the file system, HTTP, ffprobe and ffmpeg, [Math.random]) is a field of
    the class [Platform] or of the record [world]. *)

From Stdlib Require Import ZArith QArith Qminmax Qround Qpower Qabs String
  Ascii List Bool Lia Lqa Sorted.
From stdpp Require Import base option gmap strings list fin_maps.

Open Scope string_scope.
Open Scope list_scope.

(** ** JavaScript strings and numbers *)

Module Js.

(** [c.toLowerCase()] on one ASCII character. *)
Definition lower_ascii (c : ascii) : ascii :=
  let n := nat_of_ascii c in
  if (65 <=? n)%nat && (n <=? 90)%nat then ascii_of_nat (n + 32) else c.

(** [s.toLowerCase()] *)
Fixpoint toLowerCase (s : string) : string :=
  match s with
  | EmptyString => EmptyString
  | String c s' => String (lower_ascii c) (toLowerCase s')
  end.

(** [s.startsWith(p)] *)
Definition startsWith (s p : string) : bool := String.prefix p s.

(** [s.includes(p)]: [p] occurs in [s] at some offset. *)
Fixpoint includes (s p : string) : bool :=
  if String.prefix p s then true
  else match s with
       | EmptyString => false
       | String _ s' => includes s' p
       end.

(** [s.slice(n)] *)
Fixpoint drop (n : nat) (s : string) : string :=
  match n, s with
  | O, _ => s
  | S _, EmptyString => EmptyString
  | S n', String _ s' => drop n' s'
  end.

(** [s.replace(pattern, replacement)] with a string pattern: the first
    occurrence only. *)
Fixpoint replace (s pattern replacement : string) : string :=
  if String.prefix pattern s then replacement +:+ drop (String.length pattern) s
  else match s with
       | EmptyString => EmptyString
       | String c s' => String c (replace s' pattern replacement)
       end.

(** A JavaScript number: a finite value, [NaN] or an infinity.  The
    finite numbers are the doubles of IEEE 754 (binary64), each of which is
    a rational; the sign of zero is not kept. *)
Inductive number : Type :=
| NaN
| Infinity (negative : bool)
| Fin (q : Q).

(** [2^e] *)
Definition pow2 (e : Z) : Q := (2 ^ e)%Q.

(** For a positive [q], the [e] with [2^e <= q < 2^(e+1)]. *)
Definition floor_log2 (q : Q) : Z :=
  let l := (Z.log2 (Qnum q) - Z.log2 (Zpos (Qden q)))%Z in
  if Qle_bool (pow2 l) q then l else (l - 1)%Z.

(** The integer nearest to [q], the even one of two that are as near. *)
Definition rne (q : Q) : Z :=
  let f := Qfloor q in
  match Qcompare (q - inject_Z f) (1 # 2) with
  | Lt => f
  | Gt => (f + 1)%Z
  | Eq => if Z.even f then f else (f + 1)%Z
  end.

(** The multiple of [2^s] nearest to [q], ties going to the even
    multiple. *)
Definition round_at (s : Z) (q : Q) : Q :=
  (inject_Z (rne (q * pow2 (- s))) * pow2 s)%Q.

(** The spacing of the doubles around [q] is [2^(quantum q)]: 53
    significant bits, and [2^-1074] below [2^-1022]. *)
Definition quantum (q : Q) : Z :=
  (Z.max (floor_log2 (Qabs q)) (-1022) - 52)%Z.

(** The double nearest to [q], ties going to the even one, as long as
    it is finite. *)
Definition round64 (q : Q) : Q := Qred (round_at (quantum q) q).

(** The number an exact result is rounded to: the nearest double, or an
    infinity when that is beyond the largest double. *)
Definition of_Q (q : Q) : number :=
  let r := round64 q in
  if Qle_bool (pow2 1024) (Qabs r) then Infinity (negb (Qle_bool 0 r))
  else Fin r.

(** The number a decimal literal of the source denotes. *)
Definition literal (q : Q) : number := of_Q q.

(** [isNaN(x)] on a number *)
Definition isNaN (x : number) : bool :=
  match x with NaN => true | _ => false end.

(** Truthiness of a number: [0] and [NaN] are falsy. *)
Definition truthy (x : number) : bool :=
  match x with
  | NaN => false
  | Infinity _ => true
  | Fin q => negb (Qeq_bool q 0)
  end.

(** [x * y] *)
Definition mul (x y : number) : number :=
  match x, y with
  | NaN, _ | _, NaN => NaN
  | Fin a, Fin b => of_Q (a * b)
  | Infinity s, Infinity t => Infinity (xorb s t)
  | Infinity s, Fin b | Fin b, Infinity s =>
      match Qcompare b 0 with
      | Eq => NaN
      | Gt => Infinity s
      | Lt => Infinity (negb s)
      end
  end.

(** [x + y] *)
Definition add (x y : number) : number :=
  match x, y with
  | NaN, _ | _, NaN => NaN
  | Fin a, Fin b => of_Q (a + b)
  | Infinity s, Infinity t => if Bool.eqb s t then Infinity s else NaN
  | Infinity s, Fin _ | Fin _, Infinity s => Infinity s
  end.

(** [x / 2]: the quotient by 2 is the product with one half, which is
    a double. *)
Definition half (x : number) : number := mul x (Fin (1 # 2)).

(** [Math.min(x, y)] *)
Definition min (x y : number) : number :=
  match x, y with
  | NaN, _ | _, NaN => NaN
  | Infinity true, _ | _, Infinity true => Infinity true
  | Infinity false, z | z, Infinity false => z
  | Fin a, Fin b => Fin (Qmin a b)
  end.

(** The values the cache stores and JSON carries (scalars). *)
Inductive value : Type :=
| VUndefined
| VNull
| VBool (b : bool)
| VNum (x : number)
| VStr (s : string).

End Js.

(** ** Errors thrown by the services *)

Inductive error : Type :=
| InvalidUrlFormat        (* validateUrl: not a well-formed http/https URL *)
| InternalAddress         (* validateUrl: blocked hostname pattern *)
| SystemDirectory         (* validatePath: blocked directory prefix *)
| ReadFailed              (* fs.readFile rejected *)
| Unreachable             (* processVideo: the HEAD check failed *)
| ProbeTimeout            (* getVideoDuration: timer fired first *)
| ProbeFailed             (* getVideoDuration: ffprobe reported an error *)
| DurationUnparsable      (* getVideoDuration: falsy or NaN duration *)
| SampleFailed            (* legacy getVideoDuration: sample download/probe *)
| ExtractionFailed        (* ffmpeg/sharp error or timeout *)
| ThumbnailTooSmall       (* output below 1000 bytes *)
| WriteFailed             (* fs.writeFile rejected *)
| NotAFunction            (* TypeError: task is not a function *)
| NotAString              (* TypeError: the path argument must be a string *)
| Nullish                 (* the value null or undefined, thrown as it is *)
| NoMessage.              (* TypeError: reading [message] of null or undefined *)

Inductive result (A : Type) : Type :=
| Ok (a : A)
| Throw (e : error).
Arguments Ok {A} a.
Arguments Throw {A} e.

(** ** strmthumbnail/src/services/cacheService.js *)

Module CacheService.

(** The cache file as [fs.readFile] followed by [JSON.parse] sees it:
    absent ([ENOENT]), not parsable, or a JSON object. *)
Inductive file : Type :=
| Missing
| Unparsable
| Document (members : gmap string Js.value).

Record disk : Type := {
  content : file;
  writable : bool          (* whether [fs.writeFile] succeeds *)
}.

(** The fields [cache] (a [Map]) and [isDirty] of an instance. *)
Record t : Type := {
  cache : gmap string Js.value;
  isDirty : bool
}.

(** [new CacheService(config, logger)] *)
Definition create : t := {| cache := ∅; isDirty := false |}.

(** How [JSON.stringify] renders one member of an object: a member
    that is [undefined] is left out, a number that is not finite is
    written as [null]. *)
Definition json_member (v : Js.value) : option Js.value :=
  match v with
  | Js.VUndefined => None
  | Js.VNum Js.NaN | Js.VNum (Js.Infinity _) => Some Js.VNull
  | _ => Some v
  end.

(** [JSON.stringify(Object.fromEntries(this.cache), null, 2)], read
    back as a document. *)
Definition stringify (m : gmap string Js.value) : gmap string Js.value :=
  omap json_member m.

(** [load()] *)
Definition load (c : t) (d : disk) : t :=
  match content d with
  | Document cacheData =>
      {| cache := map_fold (fun key value m => <[key := value]> m) (cache c) cacheData;
         isDirty := false |}
  | Missing | Unparsable => c
  end.

(** [save()]: the returned boolean, the instance and the disk. *)
Definition save (c : t) (d : disk) : bool * t * disk :=
  if negb (isDirty c) then (true, c, d)
  else if writable d then
    (true,
     {| cache := cache c; isDirty := false |},
     {| content := Document (stringify (cache c)); writable := writable d |})
  else (false, c, d).

(** [get(key)]: [undefined] when the key is absent. *)
Definition get (c : t) (key : string) : Js.value :=
  default Js.VUndefined (cache c !! key).

(** [set(key, value)] *)
Definition set (c : t) (key : string) (value : Js.value) : t :=
  {| cache := <[key := value]> (cache c); isDirty := true |}.

(** [has(key)] *)
Definition has (c : t) (key : string) : bool :=
  bool_decide (is_Some (cache c !! key)).

End CacheService.

(** ** Platform interface *)

(** Library functions the services call and that are not part of the
    repository. *)
Class Platform : Type := {
  (* validator.isURL(url, { protocols: [http, https], require_protocol: true }) *)
  isURL : string -> bool;
  (* new URL(url).hostname *)
  url_hostname : string -> string;
  (* path.resolve(p) *)
  path_resolve : string -> string;
  (* path.basename(p, ext) *)
  path_basename : string -> string -> string;
  (* path.dirname(p) *)
  path_dirname : string -> string;
  (* path.join(a, b) *)
  path_join : string -> string -> string;
  (* s.trim() *)
  trim : string -> string;
  (* Number(s): the numeric value of a string *)
  string_to_number : string -> Js.number
}.

(** The number a value stands for in arithmetic. *)
Definition toNumber `{Platform} (v : Js.value) : Js.number :=
  match v with
  | Js.VUndefined => Js.NaN
  | Js.VNull => Js.Fin 0
  | Js.VBool b => Js.Fin (if b then 1 else 0)
  | Js.VNum x => x
  | Js.VStr s => string_to_number s
  end.

(** ** The event stream *)

Inductive level : Type := info | error_level | success_level.

(** The text of a log line, by the template that builds it. *)
Inductive message : Type :=
| MsgConcurrency (threads : Z) (files : nat)   (* announcement of the batch *)
| MsgSkipped (baseName : string)
| MsgStart (baseName : string)
| MsgProbing
| MsgThumbnail
| MsgNfo (nfoName : string)
| MsgSuccess (baseName : string)
| MsgFailure (baseName : string) (e : error).

(** The object [progress] of a batch. *)
Record progress : Type := {
  total : Z;
  processed : Z;
  success : Z;
  failed : Z
}.

(** What [sendEvent] writes to the response. *)
Inductive event : Type :=
| Log (m : message) (l : level)
| Progress (p : progress)
| Failed (file : string)
| Complete (p : progress) (failedFiles : list string).

(** ** The outside world of one job *)

(** The answers the file system, the network and the external tools give
    to the job that asks. *)
Inductive probe_outcome : Type :=
| ProbeTimesOut
| ProbeErrors
| ProbeReports (duration : Js.number).  (* metadata.format.duration; absent counts as NaN *)

Record world : Type := {
  fs_access : string -> bool;                (* fs.access(p) resolves *)
  fs_readFile : string -> option string;     (* None: rejects *)
  http_head : string -> bool;                (* axios.head(url) resolves *)
  ffprobe : string -> probe_outcome;
  ffmpeg_frame : string -> Js.number -> string -> bool;  (* ffmpeg and sharp both succeed *)
  fs_stat_size : string -> option Z;
  fs_writeFile : string -> bool;
  curl_sample : string -> string -> bool;    (* legacy: range download succeeds *)
  random : Q                                 (* Math.random() *)
}.

(** What a job does to the outside, in order. *)
Inductive effect : Type :=
| FsAccess (p : string)
| FsReadFile (p : string)
| HttpHead (url : string)
| Ffprobe (target : string)
| CurlSample (url : string) (tmp : string)
| FfmpegFrame (url : string) (seek : Js.number) (out : string)
| FsStat (p : string)
| FsWriteFile (p : string)
| FsUnlink (p : string)
| Send (e : event).

(** The effects that reach the network. *)
Definition is_network (e : effect) : bool :=
  match e with
  | HttpHead _ | Ffprobe _ | CurlSample _ _ | FfmpegFrame _ _ _ => true
  | _ => false
  end.

(** ** Job computations

    A computation of a job reads and updates the duration cache, appends
    to the trace of its effects, and returns or throws. *)

Module Job.

Record state : Type := {
  cache : CacheService.t;
  trace : list effect
}.

Definition M (A : Type) : Type := state -> result A * state.

Definition ret {A} (a : A) : M A := fun s => (Ok a, s).

Definition throw {A} (e : error) : M A := fun s => (Throw e, s).

Definition bind {A B} (m : M A) (k : A -> M B) : M B :=
  fun s => match m s with
           | (Ok a, s') => k a s'
           | (Throw e, s') => (Throw e, s')
           end.

(** [try { m } catch (e) { handler e }] *)
Definition try_catch {A} (m : M A) (handler : error -> M A) : M A :=
  fun s => match m s with
           | (Ok a, s') => (Ok a, s')
           | (Throw e, s') => handler e s'
           end.

(** A synchronous function that may throw, run inside a job. *)
Definition lift {A} (r : result A) : M A := fun s => (r, s).

Definition perform (e : effect) : M unit :=
  fun s => (Ok tt, {| cache := cache s; trace := trace s ++ [e] |}).

Definition cache_has (key : string) : M bool :=
  fun s => (Ok (CacheService.has (cache s) key), s).

Definition cache_get (key : string) : M Js.value :=
  fun s => (Ok (CacheService.get (cache s) key), s).

Definition cache_set (key : string) (v : Js.value) : M unit :=
  fun s => (Ok tt, {| cache := CacheService.set (cache s) key v; trace := trace s |}).

Definition start (c : CacheService.t) : state := {| cache := c; trace := [] |}.

End Job.

Notation "'let*' x := m 'in' k" := (Job.bind m (fun x => k))
  (at level 10, x name, m at level 100, k at level 200).

(** ** src/services/videoService.js *)

Module VideoService.

Definition blockedPatterns : list string :=
  [ "localhost"; "127.0.0.1"; "0.0.0.0"; "::1";
    "169.254"; "192.168"; "10."; "172.16" ].

(** [validateUrl(url)]: format check, then the hostname is searched for
    every blocked pattern. *)
Definition validateUrl `{Platform} (url : string) : result bool :=
  if negb (isURL url) then Throw InvalidUrlFormat
  else
    let hostname := Js.toLowerCase (url_hostname url) in
    if existsb (fun pattern => Js.includes hostname pattern) blockedPatterns
    then Throw InternalAddress
    else Ok true.

Definition blockedPaths : list string :=
  [ "/etc"; "/sys"; "/proc"; "/dev"; "/root"; "/boot";
    "/usr/bin"; "/usr/sbin" ].

(** [validatePath(filePath)] *)
Definition validatePath `{Platform} (filePath : string) : result string :=
  let resolvedPath := path_resolve filePath in
  if existsb (fun blocked => Js.startsWith resolvedPath blocked) blockedPaths
  then Throw SystemDirectory
  else Ok resolvedPath.

(** The options of a batch that a job reads ([processConfig]). *)
Inductive position : Type :=
| Named (s : string)
| Seconds (x : Js.number).

Record config : Type := {
  outputDir : string;                    (* the empty string when absent *)
  coverMode : string;
  thumbnailPosition : option position;   (* None when absent *)
  concurrency : option Z                 (* parseInt(processConfig.concurrency); None is NaN *)
}.

(** [config.thumbnailPosition || 'middle'] *)
Definition position_or_middle (cfg : config) : position :=
  match thumbnailPosition cfg with
  | Some (Named s) => if String.eqb s "" then Named "middle" else Named s
  | Some (Seconds x) => if Js.truthy x then Seconds x else Named "middle"
  | None => Named "middle"
  end.

(** [getVideoDuration(videoUrl)] *)
Definition getVideoDuration `{Platform} (w : world) (videoUrl : string)
  : Job.M Js.value :=
  let cacheKey := "duration:" +:+ videoUrl in
  let* hit := Job.cache_has cacheKey in
  if hit then Job.cache_get cacheKey
  else
    let* _ := Job.lift (validateUrl videoUrl) in
    let* _ := Job.perform (Ffprobe videoUrl) in
    match ffprobe w videoUrl with
    | ProbeTimesOut => Job.throw ProbeTimeout
    | ProbeErrors => Job.throw ProbeFailed
    | ProbeReports duration =>
        if negb (Js.truthy duration) || Js.isNaN duration
        then Job.throw DurationUnparsable
        else
          let* _ := Job.cache_set cacheKey (Js.VNum duration) in
          Job.ret (Js.VNum duration)
    end.

(** The [switch (position)] of [generateThumbnail]; [rnd] is the value
    of [Math.random()]. *)
Definition seekTime (pos : position) (duration : Js.number) (rnd : Q)
  : Js.number :=
  match pos with
  | Named s =>
      if String.eqb s "start" then
        Js.min (Js.Fin 5) (Js.mul duration (Js.literal (5 # 100)))
      else if String.eqb s "middle" then Js.half duration
      else if String.eqb s "end" then Js.mul duration (Js.literal (95 # 100))
      else if String.eqb s "auto" then
        Js.mul duration
          (Js.add (Js.literal (1 # 10))
             (Js.mul (Js.Fin rnd) (Js.literal (8 # 10))))
      else Js.half duration
  | Seconds x => x
  end.

(** [generateThumbnail(videoUrl, outputPath, duration, { position })].
    The extraction by ffmpeg into a temporary file, the rewriting of that
    file by sharp into [safeOutputPath] and the removal of the temporary
    file are the one effect [FfmpegFrame], which succeeds when both tools
    do.  Its [catch] logs and throws the error again. *)
Definition generateThumbnail `{Platform} (w : world)
    (videoUrl outputPath : string) (duration : Js.value) (pos : position)
  : Job.M unit :=
  let* safeOutputPath := Job.lift (validatePath outputPath) in
  let seek := seekTime pos (toNumber duration) (random w) in
  let* _ := Job.perform (FfmpegFrame videoUrl seek safeOutputPath) in
  if negb (ffmpeg_frame w videoUrl seek safeOutputPath)
  then Job.throw ExtractionFailed
  else
    let* _ := Job.perform (FsStat safeOutputPath) in
    match fs_stat_size w safeOutputPath with
    | None => Job.throw ExtractionFailed
    | Some size =>
        if (size <? 1000)%Z then Job.throw ThumbnailTooSmall else Job.ret tt
    end.

(** [generateNFO(strmFile, videoUrl, thumbName, metadata)] *)
Definition generateNFO (w : world) (strmFile : string) : Job.M string :=
  let nfoFile := Js.replace strmFile ".strm" ".nfo" in
  let* _ := Job.perform (FsWriteFile nfoFile) in
  if fs_writeFile w nfoFile then Job.ret nfoFile else Job.throw WriteFailed.

(** [checkVideoUrl(videoUrl)] *)
Definition checkVideoUrl `{Platform} (w : world) (videoUrl : string)
  : Job.M bool :=
  Job.try_catch
    (let* _ := Job.lift (validateUrl videoUrl) in
     let* _ := Job.perform (HttpHead videoUrl) in
     if http_head w videoUrl then Job.ret true else Job.throw Unreachable)
    (fun _ => Job.ret false).

(** The object [processVideo] returns; an absent [skipped] reads as
    false. *)
Record outcome : Type := {
  success : bool;
  skipped : bool;
  file : option string;
  reason : option error
}.

Definition sendLog (m : message) (l : level) : Job.M unit :=
  Job.perform (Send (Log m l)).

(** The path [outputThumb] of [processVideo]. *)
Definition outputThumb_of `{Platform} (strmFile : string) (cfg : config)
  : string :=
  let baseName := path_basename strmFile ".strm" in
  let dirName := path_dirname strmFile in
  if String.eqb (outputDir cfg) ""
  then path_join dirName (baseName +:+ ".jpg")
  else path_join (outputDir cfg) (baseName +:+ ".jpg").

(** [processVideo(strmFile, config, sendEvent)] *)
Definition processVideo `{Platform} (w : world) (strmFile : string)
    (cfg : config) : Job.M outcome :=
  let baseName := path_basename strmFile ".strm" in
  let* safeStrmFile := Job.lift (validatePath strmFile) in
  Job.try_catch
    (let outputThumb := outputThumb_of strmFile cfg in
     let* exists_ :=
       if String.eqb (coverMode cfg) "1"
       then (let* _ := Job.perform (FsAccess outputThumb) in
             Job.ret (fs_access w outputThumb))
       else Job.ret false in
     if exists_ then
       let* _ := sendLog (MsgSkipped baseName) info in
       Job.ret {| success := true; skipped := true;
                  file := None; reason := None |}
     else
       let* _ := Job.perform (FsReadFile safeStrmFile) in
       let* videoUrl :=
         match fs_readFile w safeStrmFile with
         | Some text => Job.ret (trim text)
         | None => Job.throw ReadFailed
         end in
       let* _ := Job.lift (validateUrl videoUrl) in
       let* _ := sendLog (MsgStart baseName) info in
       let* isAvailable := checkVideoUrl w videoUrl in
       if negb isAvailable then Job.throw Unreachable
       else
         let* _ := sendLog MsgProbing info in
         let* duration := getVideoDuration w videoUrl in
         let* _ := sendLog MsgThumbnail info in
         let* _ := generateThumbnail w videoUrl outputThumb duration
                     (position_or_middle cfg) in
         let* _ := generateNFO w safeStrmFile in
         let* _ := sendLog (MsgNfo (Js.replace (path_basename safeStrmFile "")
                                   ".strm" ".nfo")) info in
         let* _ := sendLog (MsgSuccess baseName) info in
         Job.ret {| success := true; skipped := false;
                    file := Some safeStrmFile; reason := None |})
    (fun e =>
       let* _ := sendLog (MsgFailure baseName e) error_level in
       Job.ret {| success := false; skipped := false;
                  file := Some safeStrmFile; reason := Some e |}).

End VideoService.

(** ** strmthumbnail/server.js: the duration probe of the legacy server *)

Module LegacyServer.

(** [getVideoDuration(videoUrl, baseName)].  [execPromise] of ffprobe
    rejects on a timeout or a non-zero exit ([ProbeTimesOut],
    [ProbeErrors]); otherwise [ProbeReports] carries
    [parseFloat(stdout.trim())].  The map [videoCache] is the [cache]
    field of the job state. *)
Definition getVideoDuration `{Platform} (w : world) (tmpDir : string)
    (videoUrl baseName : string) : Job.M Js.value :=
  let cacheKey := "duration:" +:+ videoUrl in
  let* hit := Job.cache_has cacheKey in
  if hit then Job.cache_get cacheKey
  else
    let* duration :=
      Job.try_catch
        (let* _ := Job.perform (Ffprobe videoUrl) in
         match ffprobe w videoUrl with
         | ProbeReports x => Job.ret x
         | ProbeTimesOut => Job.throw ProbeTimeout
         | ProbeErrors => Job.throw ProbeFailed
         end)
        (fun _ =>
           let tmpVideo := path_join tmpDir (baseName +:+ "_sample.mp4") in
           Job.try_catch
             (let* _ := Job.perform (CurlSample videoUrl tmpVideo) in
              if negb (curl_sample w videoUrl tmpVideo)
              then Job.throw SampleFailed
              else
                let* _ := Job.perform (Ffprobe tmpVideo) in
                match ffprobe w tmpVideo with
                | ProbeReports x =>
                    let* _ := Job.perform (FsUnlink tmpVideo) in
                    Job.ret x
                | ProbeTimesOut => Job.throw ProbeTimeout
                | ProbeErrors => Job.throw ProbeFailed
                end)
             (fun _ =>
                let* _ := Job.perform (FsUnlink tmpVideo) in
                Job.throw SampleFailed)) in
    if negb (Js.truthy duration) || Js.isNaN duration
    then Job.throw DurationUnparsable
    else
      let* _ := Job.cache_set cacheKey (Js.VNum duration) in
      Job.ret (Js.VNum duration).

End LegacyServer.

(** ** strmthumbnail/src/utils/taskQueue.js *)

Module TaskQueue.

Record stats : Type := {
  total : Z;
  completed : Z;
  failed : Z;
  active : Z
}.

(** What [add] is given as its [task]: a function, which is the job
    number [j] of the caller, or the object [{ task, priority }] that
    [enqueue] pushes on the queue and [processNext] hands over. *)
Inductive callee : Type :=
| Job (j : nat)
| Entry (j : nat) (priority : Z).

(** How a promise settles; [V] is the type of the values jobs return. *)
Inductive settlement (V : Type) : Type :=
| Resolved (v : V)
| Rejected (e : error).
Arguments Resolved {V} v.
Arguments Rejected {V} e.

(** Where one call of [add] stands. *)
Inductive phase (V : Type) : Type :=
| Polling (c : callee)          (* in the [while] loop, waiting for the timer *)
| Awaiting (j : nat)            (* at [await task()], job [j] in flight *)
| Settled (o : settlement V).   (* the promise [add] returned is settled *)
Arguments Polling {V} c.
Arguments Awaiting {V} j.
Arguments Settled {V} o.

(** The fields of a queue ([logger] tells whether the queue was given a
    logger or has [null] for it), the calls of [add] made so far (a call
    is known by its index, which is the handle of the promise it returned)
    and, as instrumentation, the value [running] had before each
    [this.running++]. *)
Record t (V : Type) : Type := {
  concurrency : Z;
  running : Z;
  queue : list (nat * Z);
  logger : bool;
  st : stats;
  calls : list (phase V);
  dispatched_at : list Z
}.
Arguments concurrency {V} _.
Arguments logger {V} _.
Arguments running {V} _.
Arguments queue {V} _.
Arguments st {V} _.
Arguments calls {V} _.
Arguments dispatched_at {V} _.

Section Queue.
Context {V : Type}.

(** [new TaskQueue(concurrency, logger)] *)
Definition create (limit : Z) (logger : bool) : t V := {|
  concurrency := limit; running := 0; queue := []; logger := logger;
  st := {| total := 0; completed := 0; failed := 0; active := 0 |};
  calls := []; dispatched_at := []
|}.

Definition with_running (r : Z) (q : t V) : t V := {|
  concurrency := concurrency q; running := r; queue := queue q;
  logger := logger q;
  st := {| total := total (st q); completed := completed (st q);
           failed := failed (st q); active := r |};
  calls := calls q; dispatched_at := dispatched_at q
|}.

Definition with_stats (s : stats) (q : t V) : t V := {|
  concurrency := concurrency q; running := running q; queue := queue q;
  logger := logger q; st := s; calls := calls q; dispatched_at := dispatched_at q
|}.

Definition with_queue (l : list (nat * Z)) (q : t V) : t V := {|
  concurrency := concurrency q; running := running q; queue := l;
  logger := logger q; st := st q; calls := calls q; dispatched_at := dispatched_at q
|}.

Definition with_calls (l : list (phase V)) (q : t V) : t V := {|
  concurrency := concurrency q; running := running q; queue := queue q;
  logger := logger q; st := st q; calls := l; dispatched_at := dispatched_at q
|}.

Definition set_phase (h : nat) (p : phase V) (q : t V) : t V :=
  with_calls (<[h := p]> (calls q)) q.

Definition count_total (q : t V) : t V :=
  with_stats {| total := total (st q) + 1; completed := completed (st q);
                failed := failed (st q); active := active (st q) |} q.

Definition count_completed (q : t V) : t V :=
  with_stats {| total := total (st q); completed := completed (st q) + 1;
                failed := failed (st q); active := active (st q) |} q.

Definition count_failed (q : t V) : t V :=
  with_stats {| total := total (st q); completed := completed (st q);
                failed := failed (st q) + 1; active := active (st q) |} q.

(** [this.running++; this.stats.active = this.running;] *)
Definition take_slot (q : t V) : t V :=
  let q' := with_running (running q + 1) q in
  {| concurrency := concurrency q'; running := running q';
     queue := queue q'; logger := logger q'; st := st q'; calls := calls q';
     dispatched_at := dispatched_at q ++ [running q] |}.

(** The [finally] block of [add], [processNext] being [next]:
    [this.running--; this.stats.active = this.running; this.processNext();] *)
Definition release (next : t V -> t V) (q : t V) : t V :=
  next (with_running (running q - 1) q).

(** [add] from the end of its [while] loop: the slot is taken and
    [task()] is called.  A job is then in flight.  An [Entry] is not a
    function: the call throws a [TypeError], which [catch] counts and
    throws again, and [finally] runs. *)
Definition dispatch (next : t V -> t V) (c : callee) (h : nat) (q : t V)
  : t V :=
  let q := take_slot q in
  match c with
  | Job j => set_phase h (Awaiting j) q
  | Entry _ _ =>
      set_phase h (Settled (Rejected NotAFunction))
        (release next (count_failed q))
  end.

(** One test of the [while] loop of call [h]. *)
Definition poll (next : t V -> t V) (c : callee) (h : nat) (q : t V) : t V :=
  if (running q >=? concurrency q)%Z then q else dispatch next c h q.

(** [add(task)] up to its first suspension. *)
Definition add_with (next : t V -> t V) (c : callee) (q : t V) : t V :=
  let h := length (calls q) in
  poll next c h (with_calls (calls q ++ [Polling c]) (count_total q)).

(** [processNext()], by recursion on the entries that wait: the list
    [waiting] is the field [queue] of [q]. *)
Fixpoint processNext_on (waiting : list (nat * Z)) (q : t V) : t V :=
  match waiting with
  | [] => q
  | (j, priority) :: rest =>
      if (running q <? concurrency q)%Z
      then add_with (processNext_on rest) (Entry j priority) (with_queue rest q)
      else q
  end.

(** [processNext()] *)
Definition processNext (q : t V) : t V := processNext_on (queue q) q.

(** [add(task)] up to its first suspension. *)
Definition add (c : callee) (q : t V) : t V := add_with processNext c q.

(** [this.queue.sort((a, b) => b.priority - a.priority)]: a stable
    sort, highest priority first. *)
Fixpoint insert_entry (x : nat * Z) (l : list (nat * Z)) : list (nat * Z) :=
  match l with
  | [] => [x]
  | y :: l' =>
      if (snd y <=? snd x)%Z then x :: y :: l' else y :: insert_entry x l'
  end.

Definition sort_entries (l : list (nat * Z)) : list (nat * Z) :=
  foldr insert_entry [] l.

(** [enqueue(task, priority)] *)
Definition enqueue (j : nat) (priority : Z) (q : t V) : t V :=
  processNext (with_queue (sort_entries (queue q ++ [(j, priority)])) q).

(** The timer of the polling call [h] fires. *)
Definition wake (h : nat) (q : t V) : t V :=
  match calls q !! h with
  | Some (Polling c) => poll processNext c h q
  | _ => q
  end.

(** What the promise of [add] settles with when its job settles with
    [o].  A value is returned as it is.  An error is thrown again by
    [catch], after [error.message] was read for the logger if there is
    one: when the job rejected with [null] or [undefined] that read throws
    a [TypeError], which takes the place of the rejection. *)
Definition caught (logger : bool) (o : settlement V) : settlement V :=
  match o with
  | Rejected Nullish => if logger then Rejected NoMessage else o
  | _ => o
  end.

(** The promise of the job that call [h] awaits settles with [o]:
    the [try], [catch] and [finally] of [add], then its own promise
    settles. *)
Definition settle (h : nat) (o : settlement V) (q : t V) : t V :=
  match calls q !! h with
  | Some (Awaiting _) =>
      let q' := match o with
                | Resolved _ => count_completed q
                | Rejected _ => count_failed q
                end in
      set_phase h (Settled (caught (logger q) o)) (release processNext q')
  | _ => q
  end.

(** What happens to a queue, one step at a time. *)
Inductive input : Type :=
| Add (j : nat)
| Enqueue (j : nat) (priority : Z)
| Timer (h : nat)
| Settle (h : nat) (o : settlement V).

Definition step (q : t V) (i : input) : t V :=
  match i with
  | Add j => add (Job j) q
  | Enqueue j priority => enqueue j priority q
  | Timer h => wake h q
  | Settle h o => settle h o q
  end.

Definition run (q : t V) (inputs : list input) : t V :=
  fold_left step inputs q.

End Queue.

End TaskQueue.

(** ** strmthumbnail/src/routes/video.js: POST /process *)

Module VideoRoutes.

(** The values of [config.get] the handler reads. *)
Record settings : Type := {
  defaultConcurrency : Z;
  minConcurrency : Z;
  maxConcurrency : Z
}.

(** The concurrency the queue is created with,
    [Math.floor(concurrency)] after the adjustment by batch size;
    [requested] is [parseInt(processConfig.concurrency)], [None] for
    [NaN]. *)
Definition resolve_concurrency (cfg : settings) (requested : option Z)
    (n : nat) : Z :=
  let c := match requested with
           | Some r => if (r =? 0)%Z then defaultConcurrency cfg else r
           | None => defaultConcurrency cfg
           end in
  if (n <? 10)%nat then Z.min c (minConcurrency cfg)
  else if (100 <? n)%nat then Z.min (3 * c / 2) (maxConcurrency cfg)
  else c.

(** The handler after [await Promise.all(...)]: still waiting, past
    [res.end()], or left by the rejection of [Promise.all]. *)
Inductive status : Type :=
| Waiting
| Ended
| Aborted (e : error).

(** One request: the queue, whose job [j] is the closure made for
    [files[j]], the objects [progress] and [failedFiles] the closures
    share, and the events written to the response so far. *)
Record t : Type := {
  q : TaskQueue.t unit;
  files : list string;
  counters : progress;
  failedFiles : list string;
  stream : list event;
  handler : status
}.

Definition with_q (q' : TaskQueue.t unit) (s : t) : t := {|
  q := q'; files := files s; counters := counters s;
  failedFiles := failedFiles s; stream := stream s; handler := handler s
|}.

Definition with_counters (p : progress) (s : t) : t := {|
  q := q s; files := files s; counters := p;
  failedFiles := failedFiles s; stream := stream s; handler := handler s
|}.

Definition with_handler (h : status) (s : t) : t := {|
  q := q s; files := files s; counters := counters s;
  failedFiles := failedFiles s; stream := stream s; handler := h
|}.

(** [sendEvent(data)] *)
Definition sendEvent (e : event) (s : t) : t := {|
  q := q s; files := files s; counters := counters s;
  failedFiles := failedFiles s; stream := stream s ++ [e];
  handler := handler s
|}.

Definition push_failed (file : string) (s : t) : t := {|
  q := q s; files := files s; counters := counters s;
  failedFiles := failedFiles s ++ [file]; stream := stream s;
  handler := handler s
|}.

Definition incr_success (p : progress) : progress :=
  {| total := total p; processed := processed p;
     success := success p + 1; failed := failed p |}.

Definition incr_failed (p : progress) : progress :=
  {| total := total p; processed := processed p;
     success := success p; failed := failed p + 1 |}.

Definition incr_processed (p : progress) : progress :=
  {| total := total p; processed := processed p + 1;
     success := success p; failed := failed p |}.

(** The closure of [file] from the return of [processVideo] on. *)
Definition on_result (file : string) (result : VideoService.outcome)
    (s : t) : t :=
  let s :=
    if VideoService.success result then
      if negb (VideoService.skipped result)
      then with_counters (incr_success (counters s)) s
      else s
    else
      sendEvent (Failed file)
        (push_failed file (with_counters (incr_failed (counters s)) s)) in
  let s := with_counters (incr_processed (counters s)) s in
  sendEvent (Progress (counters s)) s.

Definition rejection (p : TaskQueue.phase unit) : option error :=
  match p with
  | TaskQueue.Settled (TaskQueue.Rejected e) => Some e
  | _ => None
  end.

Definition resolved (p : TaskQueue.phase unit) : bool :=
  match p with
  | TaskQueue.Settled (TaskQueue.Resolved _) => true
  | _ => false
  end.

(** [await Promise.all(tasks.map(task => taskQueue.add(task)))] and
    what follows it: a rejected handle makes the handler throw; once
    every handle is resolved the handler sends [complete] and ends the
    response. *)
Definition promise_all (s : t) : t :=
  match handler s with
  | Waiting =>
      match omap rejection (TaskQueue.calls (q s)) with
      | e :: _ => with_handler (Aborted e) s
      | [] =>
          if forallb resolved (TaskQueue.calls (q s))
          then with_handler Ended
                 (sendEvent (Complete (counters s) (failedFiles s)) s)
          else s
      end
  | _ => s
  end.

(** The handler up to [await Promise.all(...)], on a queue created with
    a logger or without one. *)
Definition start_with (logger : bool) (cfg : settings)
    (requested : option Z) (batch : list string) : t :=
  let n := length batch in
  let c := resolve_concurrency cfg requested n in
  let s := {|
    q := TaskQueue.create c logger;
    files := batch;
    counters := {| total := Z.of_nat n; processed := 0;
                   success := 0; failed := 0 |};
    failedFiles := [];
    stream := [Log (MsgConcurrency c n) info];
    handler := Waiting
  |} in
  promise_all
    (with_q (fold_left (fun q j => TaskQueue.add (TaskQueue.Job j) q)
               (seq 0 n) (q s)) s).

(** The handler of [POST /process] up to [await Promise.all(...)]: its
    queue is [new TaskQueue(Math.floor(concurrency), logger)]. *)
Definition start (cfg : settings) (requested : option Z)
    (batch : list string) : t :=
  start_with true cfg requested batch.

(** What happens during a request, one step at a time: a timer of the
    queue fires, the job of call [h] sends a log line, or
    [processVideo] of that job returns or throws. *)
Inductive input : Type :=
| Timer (h : nat)
| Says (h : nat) (m : message) (l : level)
| Returns (h : nat) (result : VideoService.outcome)
| Throws (h : nat) (e : error).

Definition step (s : t) (i : input) : t :=
  match i with
  | Timer h => with_q (TaskQueue.wake h (q s)) s
  | Says h m l =>
      match TaskQueue.calls (q s) !! h with
      | Some (TaskQueue.Awaiting _) => sendEvent (Log m l) s
      | _ => s
      end
  | Returns h result =>
      match TaskQueue.calls (q s) !! h with
      | Some (TaskQueue.Awaiting j) =>
          match files s !! j with
          | Some file =>
              let s := on_result file result s in
              promise_all
                (with_q (TaskQueue.settle h (TaskQueue.Resolved tt) (q s)) s)
          | None => s
          end
      | _ => s
      end
  | Throws h e =>
      match TaskQueue.calls (q s) !! h with
      | Some (TaskQueue.Awaiting _) =>
          promise_all
            (with_q (TaskQueue.settle h (TaskQueue.Rejected e) (q s)) s)
      | _ => s
      end
  end.

Definition run (s : t) (inputs : list input) : t := fold_left step inputs s.

(** The inputs of job [h] when it runs [processVideo] on [file] in the
    world [w], from its dispatch to its return, and the cache it
    leaves. *)
Definition job_inputs `{Platform} (w : world) (cfg : VideoService.config)
    (cache : CacheService.t) (h : nat) (file : string)
  : list input * CacheService.t :=
  let '(r, st) := VideoService.processVideo w file cfg (Job.start cache) in
  let says := omap (fun e => match e with
                             | Send (Log m l) => Some (Says h m l)
                             | _ => None
                             end) (Job.trace st) in
  (Timer h :: says ++ [match r with
                       | Ok result => Returns h result
                       | Throw e => Throws h e
                       end],
   Job.cache st).

(** The schedule in which the jobs run to their end one after the
    other, in the order of submission. *)
Fixpoint sequential `{Platform} (w : world) (cfg : VideoService.config)
    (cache : CacheService.t) (h : nat) (batch : list string) : list input :=
  match batch with
  | [] => []
  | file :: rest =>
      let '(inputs, cache') := job_inputs w cfg cache h file in
      inputs ++ sequential w cfg cache' (S h) rest
  end.

(** A whole request under the sequential schedule. *)
Definition process `{Platform} (w : world) (cfg : settings)
    (options : VideoService.config) (batch : list string) : t :=
  run (start cfg (VideoService.concurrency options) batch)
      (sequential w options CacheService.create 0 batch).

End VideoRoutes.

(** ** A concrete platform

    Enough of the library functions to run the model on examples:
    absolute, already normalised POSIX paths and plain
    [scheme://host/path] URLs. *)

Module SimplePlatform.

(** Characters of [s] up to the first one satisfying [stop]. *)
Fixpoint take_until (stop : ascii -> bool) (s : string) : string :=
  match s with
  | EmptyString => EmptyString
  | String c s' => if stop c then EmptyString else String c (take_until stop s')
  end.

Definition ends_host (c : ascii) : bool :=
  (Ascii.eqb c "/" || Ascii.eqb c ":" || Ascii.eqb c "?" || Ascii.eqb c "#")%bool.

Definition after_scheme (url : string) : option string :=
  if String.prefix "http://" url then Some (String.substring 7 (String.length url - 7) url)
  else if String.prefix "https://" url then Some (String.substring 8 (String.length url - 8) url)
  else None.

Definition hostname (url : string) : string :=
  match after_scheme url with
  | Some rest => take_until ends_host rest
  | None => EmptyString
  end.

Definition is_url (url : string) : bool :=
  match after_scheme url with
  | Some rest => negb (String.eqb (take_until ends_host rest) EmptyString)
  | None => false
  end.

(** The part of a path after its last slash. *)
Fixpoint file_name (p : string) : string :=
  match p with
  | EmptyString => EmptyString
  | String c p' =>
      if Js.includes p' "/" then file_name p'
      else if Ascii.eqb c "/" then p' else p
  end.

(** The part of a path before its last slash. *)
Fixpoint dir_name (p : string) : string :=
  match p with
  | EmptyString => EmptyString
  | String c p' =>
      if Js.includes p' "/" then String c (dir_name p') else EmptyString
  end.

(** [s] without the suffix [ext], when it ends with it. *)
Fixpoint strip_suffix (ext s : string) : string :=
  if String.eqb s ext then EmptyString
  else match s with
       | EmptyString => EmptyString
       | String c s' => String c (strip_suffix ext s')
       end.

Definition is_space (c : ascii) : bool :=
  (Ascii.eqb c " " || Ascii.eqb c "009" || Ascii.eqb c "010" || Ascii.eqb c "013")%bool.

Fixpoint trim_left (s : string) : string :=
  match s with
  | String c s' => if is_space c then trim_left s' else s
  | EmptyString => EmptyString
  end.

Fixpoint trim_right (s : string) : string :=
  match s with
  | EmptyString => EmptyString
  | String c s' =>
      let rest := trim_right s' in
      if is_space c && String.eqb rest EmptyString then EmptyString
      else String c rest
  end.

Definition platform : Platform := {|
  isURL := is_url;
  url_hostname := hostname;
  path_resolve := fun p => p;
  path_basename := fun p ext => strip_suffix ext (file_name p);
  path_dirname := dir_name;
  path_join := fun a b => a +:+ "/" +:+ b;
  trim := fun s => trim_right (trim_left s);
  string_to_number := fun _ => Js.NaN
|}.

End SimplePlatform.

(** ** Worlds for examples *)

Module Example.

(** Every strm file holds [url]; the remote host answers, the probe
    reports [duration] seconds, extraction and writes succeed, and a
    cover is on disk already when [cover] is set. *)
Definition world_of (url : string) (duration : Q) (cover : bool) : world := {|
  fs_access := fun _ => cover;
  fs_readFile := fun _ => Some url;
  http_head := fun _ => true;
  ffprobe := fun _ => ProbeReports (Js.Fin duration);
  ffmpeg_frame := fun _ _ _ => true;
  fs_stat_size := fun _ => Some 48000%Z;
  fs_writeFile := fun _ => true;
  curl_sample := fun _ _ => true;
  random := 0
|}.


(** The strm file at path [p] holds the URL [http://example.com] followed
    by [p]; hosts answer except for the URLs that contain [bad]; the
    probe reports [duration] seconds; no cover is on disk. *)
Definition world_batch (duration : Q) : world := {|
  fs_access := fun _ => false;
  fs_readFile := fun p => Some ("http://example.com" +:+ p);
  http_head := fun url => negb (Js.includes url "bad");
  ffprobe := fun _ => ProbeReports (Js.Fin duration);
  ffmpeg_frame := fun _ _ _ => true;
  fs_stat_size := fun _ => Some 48000%Z;
  fs_writeFile := fun _ => true;
  curl_sample := fun _ _ => true;
  random := 0
|}.

Definition options (mode : string) : VideoService.config := {|
  VideoService.outputDir := "";
  VideoService.coverMode := mode;
  VideoService.thumbnailPosition := None;
  VideoService.concurrency := None
|}.

Definition settings : VideoRoutes.settings := {|
  VideoRoutes.defaultConcurrency := 4;
  VideoRoutes.minConcurrency := 2;
  VideoRoutes.maxConcurrency := 8
|}.

End Example.

(** ** src/services/videoService.js: the text of an NFO file *)

Module Nfo.

(** The character [U+0022]. *)
Definition dquote : ascii := "034"%char.

(** The replacement function of [escapeXml], on one character; a
    character that is none of the five of its class is left as it
    is. *)
Definition escape_char (c : ascii) : string :=
  if Ascii.eqb c "<" then "&lt;"
  else if Ascii.eqb c ">" then "&gt;"
  else if Ascii.eqb c "&" then "&amp;"
  else if Ascii.eqb c "'" then "&apos;"
  else if Ascii.eqb c dquote then "&quot;"
  else String c EmptyString.

(** [unsafe.replace] with the global pattern of [escapeXml]: every
    match is replaced. *)
Fixpoint escape (unsafe : string) : string :=
  match unsafe with
  | EmptyString => EmptyString
  | String c rest => escape_char c +:+ escape rest
  end.

(** [escapeXml(unsafe)]: the empty string for what is not a string. *)
Definition escapeXml (unsafe : Js.value) : string :=
  match unsafe with
  | Js.VStr s => escape s
  | _ => EmptyString
  end.

(** The characters [escapeXml] replaces. *)
Definition is_markup (c : ascii) : bool :=
  (Ascii.eqb c "<" || Ascii.eqb c ">" || Ascii.eqb c "'"
   || Ascii.eqb c dquote)%bool.

End Nfo.

(** ** src/services/videoService.js: the scan for strm files *)

Module Scan.

(** What [fs.readdir(dir, { withFileTypes: true })] lists: a regular
    file, a directory together with what [readdir] gives for it ([None]
    when it rejects), or an entry that is neither (a link, a socket, a
    device). *)
#[warnings="-register-all"] Inductive dirent : Type :=
| File (name : string)
| Directory (name : string) (listing : option (list dirent))
| Special (name : string).

(** [s.endsWith(suffix)] *)
Fixpoint endsWith (s suffix : string) : bool :=
  if String.eqb s suffix then true
  else match s with
       | EmptyString => false
       | String _ s' => endsWith s' suffix
       end.

(** The body of the loop of [scanDirectory] for one entry of [dir],
    with the recursive call for a directory; a directory that cannot be
    read gives no file ([catch] logs a warning). *)
Fixpoint scanEntry `{Platform} (extension dir : string) (entry : dirent)
  : list string :=
  match entry with
  | Directory name listing =>
      let fullPath := path_join dir name in
      match listing with
      | Some entries => flat_map (scanEntry extension fullPath) entries
      | None => []
      end
  | File name =>
      let fullPath := path_join dir name in
      if endsWith fullPath extension then [fullPath] else []
  | Special _ => []
  end.

(** [scanDirectory(dir, extension)]; [listing] is what [readdir] gives
    for [dir]. *)
Definition scanDirectory `{Platform} (dir : string)
    (listing : option (list dirent)) (extension : string) : list string :=
  match listing with
  | Some entries => flat_map (scanEntry extension dir) entries
  | None => []
  end.

(** [scanStrmFiles(directory)]: its [catch] logs and throws again. *)
Definition scanStrmFiles `{Platform} (directory : string)
    (listing : option (list dirent)) : result (list string) :=
  match VideoService.validatePath directory with
  | Throw e => Throw e
  | Ok safeDirectory => Ok (scanDirectory safeDirectory listing ".strm")
  end.

End Scan.

(** ** strmthumbnail/src/utils/taskQueue.js: the control methods *)

Module QueueControl.

(** A queue together with the property [paused] that [pause] and
    [resume] set on it; the constructor does not define it, and
    [undefined] reads as false. *)
Record t (V : Type) : Type := {
  base : TaskQueue.t V;
  paused : bool
}.
Arguments base {V} _.
Arguments paused {V} _.

Section Control.
Context {V : Type}.

(** [new TaskQueue(concurrency, logger)] *)
Definition create (limit : Z) (logger : bool) : t V :=
  {| base := TaskQueue.create limit logger; paused := false |}.

Definition with_concurrency (c : Z) (q : TaskQueue.t V) : TaskQueue.t V := {|
  TaskQueue.concurrency := c;
  TaskQueue.logger := TaskQueue.logger q;
  TaskQueue.running := TaskQueue.running q;
  TaskQueue.queue := TaskQueue.queue q;
  TaskQueue.st := TaskQueue.st q;
  TaskQueue.calls := TaskQueue.calls q;
  TaskQueue.dispatched_at := TaskQueue.dispatched_at q
|}.

(** The loop
    [while (this.running < this.concurrency && this.queue.length > 0)
       this.processNext();]
    of [setConcurrency].  A turn of the loop takes at least one entry off
    the queue, so the loop makes at most as many turns as the queue is
    long: [turns] is that bound. *)
Fixpoint processWaiting (turns : nat) (q : TaskQueue.t V) : TaskQueue.t V :=
  match turns with
  | O => q
  | S turns' =>
      if (TaskQueue.running q <? TaskQueue.concurrency q)%Z
         && (0 <? length (TaskQueue.queue q))%nat
      then processWaiting turns' (TaskQueue.processNext q)
      else q
  end.

(** [setConcurrency(concurrency)]; [None] when it throws, which leaves
    the queue as it was. *)
Definition setConcurrency (concurrency : Z) (q : TaskQueue.t V)
  : option (TaskQueue.t V) :=
  if (concurrency <? 1)%Z then None
  else
    let q := with_concurrency concurrency q in
    Some (processWaiting (length (TaskQueue.queue q)) q).

(** [pause()] *)
Definition pause (q : t V) : t V := {| base := base q; paused := true |}.

(** [resume()] *)
Definition resume (q : t V) : t V :=
  {| base := TaskQueue.processNext (base q); paused := false |}.

(** [clear()]: the number of entries removed, and the queue. *)
Definition clear (q : TaskQueue.t V) : nat * TaskQueue.t V :=
  (length (TaskQueue.queue q), TaskQueue.with_queue [] q).

(** The test of the loop of [drain()], negated: [drain] returns at the
    first of its timer ticks at which this holds. *)
Definition drained (q : TaskQueue.t V) : bool :=
  negb ((0 <? TaskQueue.running q)%Z || (0 <? length (TaskQueue.queue q))%nat).

(** [resetStats()] *)
Definition resetStats (q : TaskQueue.t V) : TaskQueue.t V :=
  TaskQueue.with_stats
    {| TaskQueue.total := 0; TaskQueue.completed := 0;
       TaskQueue.failed := 0; TaskQueue.active := TaskQueue.running q |} q.

(** What is done to a queue, one step at a time: the inputs of
    [TaskQueue.step], and the calls of the control methods. *)
Inductive command : Type :=
| Plain (i : @TaskQueue.input V)
| SetConcurrency (concurrency : Z)
| Pause
| Resume
| Clear
| ResetStats.

Definition on_base (f : TaskQueue.t V -> TaskQueue.t V) (q : t V) : t V :=
  {| base := f (base q); paused := paused q |}.

Definition step (q : t V) (c : command) : t V :=
  match c with
  | Plain i => on_base (fun b => TaskQueue.step b i) q
  | SetConcurrency concurrency =>
      on_base (fun b => default b (setConcurrency concurrency b)) q
  | Pause => pause q
  | Resume => resume q
  | Clear => on_base (fun b => snd (clear b)) q
  | ResetStats => on_base resetStats q
  end.

Definition run (q : t V) (commands : list command) : t V :=
  fold_left step commands q.

End Control.

End QueueControl.

(** ** strmthumbnail/src/services/cacheService.js: the remaining methods *)

Module CacheControl.

(** [delete(key)]: what [Map.delete] returns, and the instance. *)
Definition delete (c : CacheService.t) (key : string)
  : bool * CacheService.t :=
  let result := CacheService.has c key in
  (result,
   if result
   then {| CacheService.cache := base.delete key (CacheService.cache c);
           CacheService.isDirty := true |}
   else c).

(** [clear()] *)
Definition clear (c : CacheService.t) : CacheService.t :=
  {| CacheService.cache := ∅; CacheService.isDirty := true |}.

(** [save()] in its parts.  Up to [await fs.writeFile(...)]: the text it
    hands over, [None] when nothing is dirty and it returns at once. *)
Definition save_begin (c : CacheService.t) : option (gmap string Js.value) :=
  if negb (CacheService.isDirty c) then None
  else Some (CacheService.stringify (CacheService.cache c)).

(** [fs.writeFile(this.cacheFile, text)]: whether it resolved, and the
    disk. *)
Definition writeFile (document : gmap string Js.value) (d : CacheService.disk)
  : bool * CacheService.disk :=
  if CacheService.writable d
  then (true, {| CacheService.content := CacheService.Document document;
                 CacheService.writable := true |})
  else (false, d).

(** [save()] from the settlement of [fs.writeFile] on. *)
Definition save_end (written : bool) (c : CacheService.t)
  : bool * CacheService.t :=
  if written
  then (true, {| CacheService.cache := CacheService.cache c;
                 CacheService.isDirty := false |})
  else (false, c).

(** The callback of the timer of [startAutoSave]. *)
Definition autoSave (c : CacheService.t) (d : CacheService.disk)
  : CacheService.t * CacheService.disk :=
  if CacheService.isDirty c
  then let '(_, c', d') := CacheService.save c d in (c', d')
  else (c, d).

(** An instance and the disk it saves to. *)
Record state : Type := {
  service : CacheService.t;
  disk : CacheService.disk
}.

(** [init()] on a new instance: [load()], then the timer is started. *)
Definition init (d : CacheService.disk) : state :=
  {| service := CacheService.load CacheService.create d; disk := d |}.

(** What happens to the instance after [init], one step at a time; a
    [save] runs to its end before the next step.  [OpWritable] is the disk
    becoming writable or not. *)
Inductive op : Type :=
| OpSet (key : string) (value : Js.value)
| OpDelete (key : string)
| OpClear
| OpSave
| OpAutoSave
| OpClose
| OpWritable (b : bool).

Definition step (s : state) (o : op) : state :=
  match o with
  | OpSet key value =>
      {| service := CacheService.set (service s) key value; disk := disk s |}
  | OpDelete key =>
      {| service := snd (delete (service s) key); disk := disk s |}
  | OpClear => {| service := clear (service s); disk := disk s |}
  | OpSave | OpClose =>
      let '(_, c, d) := CacheService.save (service s) (disk s) in
      {| service := c; disk := d |}
  | OpAutoSave =>
      let '(c, d) := autoSave (service s) (disk s) in
      {| service := c; disk := d |}
  | OpWritable b =>
      {| service := service s;
         disk := {| CacheService.content := CacheService.content (disk s);
                    CacheService.writable := b |} |}
  end.

Definition run (s : state) (ops : list op) : state := fold_left step ops s.

(** What a value of the [Map] is, for [cleanOldEntries]: a scalar, or
    an object, of which only the property [timestamp] is read
    ([VUndefined] when it has none). *)
Inductive stored : Type :=
| Scalar (v : Js.value)
| Object (timestamp : Js.value).

(** [value.timestamp]; [None] when the read throws a [TypeError],
    which it does on [null] and [undefined].  A number, a string or a
    boolean has no such property. *)
Definition timestamp_of (value : stored) : option Js.value :=
  match value with
  | Scalar Js.VUndefined | Scalar Js.VNull => None
  | Scalar _ => Some Js.VUndefined
  | Object timestamp => Some timestamp
  end.

(** Truthiness of a value. *)
Definition truthy (v : Js.value) : bool :=
  match v with
  | Js.VUndefined | Js.VNull => false
  | Js.VBool b => b
  | Js.VNum x => Js.truthy x
  | Js.VStr s => negb (String.eqb s EmptyString)
  end.

(** [(now - timestamp) > maxAge], the clock and the age being
    integers. *)
Definition older `{Platform} (now maxAge : Z) (timestamp : Js.value) : bool :=
  match Js.add (Js.Fin (inject_Z now))
          (Js.mul (Js.Fin (-1)) (toNumber timestamp)) with
  | Js.Fin age => negb (Qle_bool age (inject_Z maxAge))
  | Js.Infinity negative => negb negative
  | Js.NaN => false
  end.

(** The [Map] in the order of insertion, which is the order in which
    [cleanOldEntries] goes through it, and [isDirty]. *)
Record entries : Type := {
  listed : list (string * stored);
  dirty : bool
}.

(** The loop of [cleanOldEntries] from the entries [rest] on, [kept]
    being what is left of the entries before them: the number of
    entries deleted, [None] when the read of [value.timestamp] throws
    its [TypeError], and the entries that are left. *)
Fixpoint cleanLoop `{Platform} (now maxAge : Z) (cleaned : nat)
    (kept rest : list (string * stored))
  : option nat * list (string * stored) :=
  match rest with
  | [] => (Some cleaned, kept)
  | (key, value) :: rest' =>
      match timestamp_of value with
      | None => (None, kept ++ rest)
      | Some timestamp =>
          if truthy timestamp && older now maxAge timestamp
          then cleanLoop now maxAge (S cleaned) kept rest'
          else cleanLoop now maxAge cleaned (kept ++ [(key, value)]) rest'
      end
  end.

(** [cleanOldEntries(maxAge)] at the time [now]: what it returns,
    [None] when it throws, and the instance. *)
Definition cleanOldEntries `{Platform} (now maxAge : Z) (c : entries)
  : option nat * entries :=
  match cleanLoop now maxAge 0 [] (listed c) with
  | (Some cleaned, remaining) =>
      (Some cleaned,
       {| listed := remaining;
          dirty := if (0 <? cleaned)%nat then true else dirty c |})
  | (None, remaining) => (None, {| listed := remaining; dirty := dirty c |})
  end.

End CacheControl.

(** ** strmthumbnail/src/routes/video.js: the authentication service
       and strmthumbnail/src/middleware/auth.js *)

Module AuthService.

(** [crypto.createHash('sha256').update(password).digest('hex')] *)
Class Crypto : Type := {
  sha256 : string -> string
}.

(** A value of the [Map] [sessions]. *)
Record session : Type := {
  username : string;
  expiresAt : Z
}.

(** The members of the authentication file that the service reads. *)
Record authConfig : Type := {
  config_username : string;
  passwordHash : string
}.

(** The authentication file as [getAuthConfig] sees it, [None] when
    [fs.readFile] or [JSON.parse] fails, and whether [fs.writeFile]
    succeeds. *)
Record disk : Type := {
  file : option authConfig;
  writable : bool
}.

(** The fields [sessions] and [sessionExpiry] of an instance. *)
Record t : Type := {
  sessions : gmap string session;
  sessionExpiry : Z
}.

(** A token as the callers have it: [None] is [undefined]; [undefined]
    and the empty string are falsy. *)
Definition present (token : option string) : option string :=
  match token with
  | Some s => if String.eqb s EmptyString then None else Some s
  | None => None
  end.

(** What [login] returns. *)
Inductive login_result : Type :=
| LoggedIn (token username : string)
| BadCredentials
| LoginFailed.          (* the authentication file could not be read *)

(** [login(username, password)] at the time [now]; [token] is what
    [generateToken()] returns. *)
Definition login `{Crypto} (now : Z) (token : string)
    (username password : string) (d : disk) (s : t) : login_result * t :=
  match file d with
  | None => (LoginFailed, s)
  | Some config =>
      if String.eqb username (config_username config)
         && String.eqb (sha256 password) (passwordHash config)
      then (LoggedIn token username,
            {| sessions :=
                 <[token := {| username := username;
                               expiresAt := now + sessionExpiry s |}]>
                   (sessions s);
               sessionExpiry := sessionExpiry s |})
      else (BadCredentials, s)
  end.

(** [logout(token)] *)
Definition logout (token : option string) (s : t) : t :=
  match present token with
  | Some tok => {| sessions := base.delete tok (sessions s);
                   sessionExpiry := sessionExpiry s |}
  | None => s
  end.

(** What [verifySession] returns. *)
Inductive verdict : Type :=
| Valid (username : string)
| Unauthorized
| Expired.

(** [verifySession(token)] at the time [now]. *)
Definition verifySession (now : Z) (token : option string) (s : t)
  : verdict * t :=
  match present token with
  | None => (Unauthorized, s)
  | Some tok =>
      match sessions s !! tok with
      | None => (Unauthorized, s)
      | Some session =>
          if (now >? expiresAt session)%Z
          then (Expired,
                {| sessions := base.delete tok (sessions s);
                   sessionExpiry := sessionExpiry s |})
          else (Valid (username session),
                {| sessions :=
                     <[tok := {| username := username session;
                                 expiresAt := now + sessionExpiry s |}]>
                       (sessions s);
                   sessionExpiry := sessionExpiry s |})
      end
  end.

(** What [changePassword] returns. *)
Inductive change_result : Type :=
| Changed
| WrongOldPassword
| ChangeFailed.         (* the authentication file could not be read *)

(** [changePassword(oldPassword, newPassword)]: what [saveAuthConfig]
    returns is not looked at. *)
Definition changePassword `{Crypto} (oldPassword newPassword : string)
    (d : disk) (s : t) : change_result * t * disk :=
  match file d with
  | None => (ChangeFailed, s, d)
  | Some config =>
      if negb (String.eqb (sha256 oldPassword) (passwordHash config))
      then (WrongOldPassword, s, d)
      else
        let config' := {| config_username := config_username config;
                          passwordHash := sha256 newPassword |} in
        let d' := if writable d
                  then {| file := Some config'; writable := writable d |}
                  else d in
        (Changed, {| sessions := ∅; sessionExpiry := sessionExpiry s |}, d')
  end.

(** The session is past its time at [now]. *)
Definition lapsed (now : Z) (session : session) : bool :=
  (now >? expiresAt session)%Z.

(** [cleanExpiredSessions()] at the time [now]: the number of sessions
    deleted, and the instance. *)
Definition cleanExpiredSessions (now : Z) (s : t) : nat * t :=
  (base.size (base.filter (fun entry => lapsed now (snd entry) = true) (sessions s)),
   {| sessions := base.filter (fun entry => lapsed now (snd entry) = false)
                    (sessions s);
      sessionExpiry := sessionExpiry s |}).

(** [getSessionStats()] at the time [now]: [total] and [active]. *)
Definition getSessionStats (now : Z) (s : t) : nat * nat :=
  (base.size (sessions s),
   base.size (base.filter (fun entry => lapsed now (snd entry) = false)
                (sessions s))).

(** The token [requireAuth] takes from the header [Authorization],
    [None] when the request has none. *)
Definition bearer (authorization : option string) : option string :=
  match authorization with
  | Some header => Some (Js.replace header "Bearer " EmptyString)
  | None => None
  end.

(** [requireAuth(req, res, next)]: the user attached to the request
    when [next] is called, [None] when the answer is 401. *)
Definition requireAuth (now : Z) (authorization : option string) (s : t)
  : option string * t :=
  match verifySession now (bearer authorization) s with
  | (Valid user, s') => (Some user, s')
  | (_, s') => (None, s')
  end.

(** The requests that carry [token] at the times [times], one after
    the other: the verdicts, and the instance. *)
Fixpoint verifications (times : list Z) (token : option string) (s : t)
  : list verdict * t :=
  match times with
  | [] => ([], s)
  | now :: later =>
      let '(v, s') := verifySession now token s in
      let '(vs, s'') := verifications later token s' in
      (v :: vs, s'')
  end.

End AuthService.

(** A stand-in for the hash function, for examples. *)
Module AuthExample.

#[local] Instance crypto : AuthService.Crypto :=
  {| AuthService.sha256 := fun password => "sha256:" +:+ password |}.

Definition disk (w : bool) : AuthService.disk :=
  {| AuthService.file :=
       Some {| AuthService.config_username := "admin";
               AuthService.passwordHash := "sha256:emby123456" |};
     AuthService.writable := w |}.

Definition service : AuthService.t :=
  {| AuthService.sessions := ∅; AuthService.sessionExpiry := 1000 |}.

End AuthExample.

(** ** strmthumbnail/server.js: POST /api/process and the bookkeeping
       of [processVideo] *)

Module LegacyRoutes.

(** The literals of the handler: [parseInt(config.concurrency) || 4],
    [Math.min(concurrency, 2)] and [Math.min(concurrency * 1.5, 8)]. *)
Definition settings : VideoRoutes.settings := {|
  VideoRoutes.defaultConcurrency := 4;
  VideoRoutes.minConcurrency := 2;
  VideoRoutes.maxConcurrency := 8
|}.

(** How the [try] of [processVideo] ends: the cover exists and the job
    is skipped, the NFO file was written, or an error was thrown, which
    [catch] receives. *)
Inductive ending : Type :=
| Skips
| Succeeds
| Fails (e : error).

(** Where the job of a file stands: before the end of its [try], or
    past it, with the progress event that follows [finally] still to be
    sent or not (the skipped job sends its own and returns). *)
Inductive stage : Type :=
| Fresh
| Counted (progress_pending : bool).

(** One request.  The queue of [server.js] has the fields [concurrency],
    [running] and [queue] only, nothing is ever put on its [queue], and
    its [add] has no [catch]; the statistics of the queue of the request
    are not read. *)
Record t : Type := {
  request : VideoRoutes.t;
  stages : list stage
}.

(** The handler up to [await Promise.all(...)].  The [add] of the queue
    of [server.js] has no [catch]: what its job rejects with is what its
    promise rejects with, as for a queue without a logger. *)
Definition start (requested : option Z) (batch : list string) : t := {|
  request := VideoRoutes.start_with false settings requested batch;
  stages := replicate (length batch) Fresh
|}.

(** [processVideo(strmFile, config, progress, sendEvent, failedFiles)]
    for a string [strmFile], by what it does to the outside: the body up
    to the last [await] of [try], or to the throw that [catch] receives,
    and [finally].  The statements that follow that [await] in [try], and
    those of [catch], work on the objects the jobs of a request share; they
    are [count], below.  [ffmpeg_frame] of the world tells whether the
    [ffmpeg] command succeeds; [tmpDir] is [TMP_DIR]. *)
Definition processVideo `{Platform} (w : world) (tmpDir strmFile : string)
    (cfg : VideoService.config) : Job.M ending :=
  let baseName := path_basename strmFile ".strm" in
  let* e :=
    Job.try_catch
      (let outputThumb := VideoService.outputThumb_of strmFile cfg in
       let* exists_ :=
         if String.eqb (VideoService.coverMode cfg) "1"
         then (let* _ := Job.perform (FsAccess outputThumb) in
               Job.ret (fs_access w outputThumb))
         else Job.ret false in
       if exists_ then Job.ret Skips
       else
         let* _ := Job.perform (FsReadFile strmFile) in
         let* videoUrl :=
           match fs_readFile w strmFile with
           | Some text => Job.ret (trim text)
           | None => Job.throw ReadFailed
           end in
         let* _ := VideoService.sendLog (MsgStart baseName) info in
         let* _ := Job.perform (HttpHead videoUrl) in
         if negb (http_head w videoUrl) then Job.throw Unreachable
         else
           let* duration :=
             LegacyServer.getVideoDuration w tmpDir videoUrl baseName in
           let midTime := Js.half (toNumber duration) in
           let* _ := Job.perform (FfmpegFrame videoUrl midTime outputThumb) in
           if negb (ffmpeg_frame w videoUrl midTime outputThumb)
           then Job.throw ExtractionFailed
           else
             let* _ := Job.perform (FsStat outputThumb) in
             match fs_stat_size w outputThumb with
             | None => Job.throw ExtractionFailed
             | Some size =>
                 if (size <? 1000)%Z then Job.throw ThumbnailTooSmall
                 else
                   let nfoFile := Js.replace strmFile ".strm" ".nfo" in
                   let* _ := Job.perform (FsWriteFile nfoFile) in
                   if fs_writeFile w nfoFile then Job.ret Succeeds
                   else Job.throw WriteFailed
             end)
      (fun error => Job.ret (Fails error)) in
  let* _ :=
    Job.perform (FsUnlink (path_join tmpDir (baseName +:+ "_sample.mp4"))) in
  Job.ret e.

(** The statements of [processVideo] that follow its last [await]
    inside [try] or [catch], which run without interruption. *)
Definition count `{Platform} (file : string) (e : ending)
    (r : VideoRoutes.t) : VideoRoutes.t :=
  let baseName := path_basename file ".strm" in
  match e with
  | Skips =>
      let r := VideoRoutes.sendEvent (Log (MsgSkipped baseName) info) r in
      let r := VideoRoutes.with_counters
                 (VideoRoutes.incr_success
                    (VideoRoutes.incr_processed (VideoRoutes.counters r))) r in
      VideoRoutes.sendEvent (Progress (VideoRoutes.counters r)) r
  | Succeeds =>
      let nfoFile := Js.replace file ".strm" ".nfo" in
      let r := VideoRoutes.sendEvent
                 (Log (MsgNfo (path_basename nfoFile EmptyString)) info) r in
      let r := VideoRoutes.sendEvent
                 (Log (MsgSuccess baseName) success_level) r in
      VideoRoutes.with_counters
        (VideoRoutes.incr_success
           (VideoRoutes.incr_processed (VideoRoutes.counters r))) r
  | Fails e =>
      let r := VideoRoutes.sendEvent
                 (Log (MsgFailure baseName e) error_level) r in
      let r := VideoRoutes.sendEvent (Failed file) r in
      let r := VideoRoutes.push_failed file r in
      VideoRoutes.with_counters
        (VideoRoutes.incr_failed
           (VideoRoutes.incr_processed (VideoRoutes.counters r))) r
  end.

(** What happens during a request, one step at a time: a timer of the
    queue fires; the job of call [h] sends a log line; its [try] ends;
    its [finally] is done, it sends the progress event if that is still
    to be sent, and returns; or the promise of the job is rejected.  The
    first two statements of [processVideo], [path.basename] and
    [path.dirname], stand before its [try]: they throw when an element
    of [files] is not a string, and the promise of that job is rejected
    ([NotAString]). *)
Inductive input : Type :=
| Timer (h : nat)
| Says (h : nat) (m : message) (l : level)
| Ends (h : nat) (e : ending)
| Finishes (h : nat)
| Rejects (h : nat) (e : error).

Definition step `{Platform} (s : t) (i : input) : t :=
  let r := request s in
  match i with
  | Timer h =>
      {| request := VideoRoutes.with_q (TaskQueue.wake h (VideoRoutes.q r)) r;
         stages := stages s |}
  | Says h m l =>
      match TaskQueue.calls (VideoRoutes.q r) !! h with
      | Some (TaskQueue.Awaiting j) =>
          match stages s !! j with
          | Some Fresh =>
              {| request := VideoRoutes.sendEvent (Log m l) r;
                 stages := stages s |}
          | _ => s
          end
      | _ => s
      end
  | Ends h e =>
      match TaskQueue.calls (VideoRoutes.q r) !! h with
      | Some (TaskQueue.Awaiting j) =>
          match stages s !! j, VideoRoutes.files r !! j with
          | Some Fresh, Some file =>
              {| request := count file e r;
                 stages :=
                   <[j := Counted (match e with Skips => false | _ => true end)]>
                     (stages s) |}
          | _, _ => s
          end
      | _ => s
      end
  | Finishes h =>
      match TaskQueue.calls (VideoRoutes.q r) !! h with
      | Some (TaskQueue.Awaiting j) =>
          match stages s !! j with
          | Some (Counted progress_pending) =>
              let r := if progress_pending
                       then VideoRoutes.sendEvent
                              (Progress (VideoRoutes.counters r)) r
                       else r in
              {| request :=
                   VideoRoutes.promise_all
                     (VideoRoutes.with_q
                        (TaskQueue.settle h (TaskQueue.Resolved tt)
                           (VideoRoutes.q r)) r);
                 stages := stages s |}
          | _ => s
          end
      | _ => s
      end
  | Rejects h e =>
      match TaskQueue.calls (VideoRoutes.q r) !! h with
      | Some (TaskQueue.Awaiting _) =>
          {| request :=
               VideoRoutes.promise_all
                 (VideoRoutes.with_q
                    (TaskQueue.settle h (TaskQueue.Rejected e)
                       (VideoRoutes.q r)) r);
             stages := stages s |}
      | _ => s
      end
  end.

Definition run `{Platform} (s : t) (inputs : list input) : t :=
  fold_left step inputs s.

(** The inputs of job [h] when it runs [processVideo] on [file] in the
    world [w], from its dispatch to its return, and the cache it
    leaves. *)
Definition job_inputs `{Platform} (w : world) (tmpDir : string)
    (cfg : VideoService.config) (cache : CacheService.t) (h : nat)
    (file : string) : list input * CacheService.t :=
  let '(r, st) := processVideo w tmpDir file cfg (Job.start cache) in
  let says := omap (fun e => match e with
                             | Send (Log m l) => Some (Says h m l)
                             | _ => None
                             end) (Job.trace st) in
  (Timer h :: says ++ match r with
                      | Ok e => [Ends h e; Finishes h]
                      | Throw e => [Rejects h e]
                      end,
   Job.cache st).

(** The schedule in which the jobs run to their end one after the
    other, in the order of submission. *)
Fixpoint sequential `{Platform} (w : world) (tmpDir : string)
    (cfg : VideoService.config) (cache : CacheService.t) (h : nat)
    (batch : list string) : list input :=
  match batch with
  | [] => []
  | file :: rest =>
      let '(inputs, cache') := job_inputs w tmpDir cfg cache h file in
      inputs ++ sequential w tmpDir cfg cache' (S h) rest
  end.

End LegacyRoutes.

(** * Vocabulary of the properties

    The predicates in which the properties below are stated. *)

(** The hostnames of the private addresses: [127.0.0.1] and the dotted
    quads under [169.254], [10], [192.168] and [172.16]. *)
Definition private_host (h : string) : Prop :=
  h = "127.0.0.1" \/
  exists rest, h = "169.254." +:+ rest \/ h = "10." +:+ rest \/
               h = "192.168." +:+ rest \/ h = "172.16." +:+ rest.

(** No effect of the trace reaches the network. *)
Definition no_network (tr : list effect) : bool :=
  forallb (fun e => negb (is_network e)) tr.

(** The durations that pass the guard [!duration || isNaN(duration)]. *)
Definition passes_guard (x : Js.number) : bool :=
  negb (negb (Js.truthy x) || Js.isNaN x).



(** The job state after the effects [es]. *)
Definition traced (st : Job.state) (es : list effect) : Job.state :=
  {| Job.cache := Job.cache st; Job.trace := Job.trace st ++ es |}.


(** [q] is a double: rounding leaves it as it is. *)
Definition is_double (q : Q) : Prop := Js.of_Q q = Js.Fin (Qred q).

(** How many elements of [l] satisfy [f]. *)
Definition tally {A : Type} (f : A -> bool) (l : list A) : nat :=
  length (List.filter f l).
Arguments tally : simpl never.

(** The call has its job in flight. *)
Definition in_flight {V : Type} (p : TaskQueue.phase V) : bool :=
  match p with TaskQueue.Awaiting _ => true | _ => false end.

(** The promise of the call is settled. *)
Definition is_settled {V : Type} (p : TaskQueue.phase V) : bool :=
  match p with TaskQueue.Settled _ => true | _ => false end.

(** [q'] continues [q]: the limit and the running count are the same,
    the calls of [q] are as they were, the calls made since are settled,
    and every dispatch made since took place below the limit. *)
Definition continues {V : Type} (q q' : TaskQueue.t V) : Prop :=
  TaskQueue.concurrency q' = TaskQueue.concurrency q
  /\ TaskQueue.running q' = TaskQueue.running q
  /\ (exists extra, TaskQueue.calls q' = TaskQueue.calls q ++ extra
                    /\ Forall (fun p => is_settled p = true) extra)
  /\ (exists log, TaskQueue.dispatched_at q' = TaskQueue.dispatched_at q ++ log
                  /\ Forall (fun r => (r < TaskQueue.concurrency q)%Z) log).

(** The invariant of a queue whose limit is [limit]: [running] counts
    the jobs in flight and is at most the limit, and every dispatch took
    place below the limit. *)
Definition bounded {V : Type} (limit : Z) (q : TaskQueue.t V) : Prop :=
  TaskQueue.concurrency q = limit
  /\ TaskQueue.running q = Z.of_nat (tally in_flight (TaskQueue.calls q))
  /\ (TaskQueue.running q <= limit)%Z
  /\ Forall (fun r => (r < limit)%Z) (TaskQueue.dispatched_at q).

(** The queue of a request: nothing is ever enqueued, and every call of
    [add] was given a job. *)
Definition jobs_only (q : TaskQueue.t unit) : Prop :=
  TaskQueue.queue q = []
  /\ forall h j priority,
       TaskQueue.calls q !! h
         <> Some (TaskQueue.Polling (TaskQueue.Entry j priority)).

(** No call of a freshly filled queue is settled. *)
Definition unsettled (p : TaskQueue.phase unit) : Prop :=
  match p with TaskQueue.Settled _ => False | _ => True end.

(** The call was given a job, not a queue entry. *)
Definition job_call (p : TaskQueue.phase unit) : Prop :=
  match p with
  | TaskQueue.Polling (TaskQueue.Entry _ _) => False
  | _ => True
  end.

(** What the accounting asks of one event of a batch of [n] files.
    With [strict], which is for batches in which no job is skipped, a
    snapshot has [processed] equal to [success + failed]. *)
Definition accounted (strict : bool) (n : Z) (e : event) : Prop :=
  match e with
  | Progress p =>
      total p = n
      /\ (0 <= success p)%Z /\ (0 <= failed p)%Z
      /\ (success p + failed p <= processed p)%Z
      /\ (processed p <= n)%Z
      /\ (strict = true -> processed p = (success p + failed p)%Z)
  | Complete p _ => total p = n /\ processed p = n
  | _ => True
  end.

(** The invariant of a request. *)
Definition orderly (strict : bool) (s : VideoRoutes.t) : Prop :=
  jobs_only (VideoRoutes.q s)
  /\ length (TaskQueue.calls (VideoRoutes.q s)) = length (VideoRoutes.files s)
  /\ accounted strict (Z.of_nat (length (VideoRoutes.files s)))
       (Progress
          {| total := total (VideoRoutes.counters s);
             processed := Z.of_nat (tally VideoRoutes.resolved
                                      (TaskQueue.calls (VideoRoutes.q s)));
             success := success (VideoRoutes.counters s);
             failed := failed (VideoRoutes.counters s) |})
  /\ processed (VideoRoutes.counters s)
     = Z.of_nat (tally VideoRoutes.resolved (TaskQueue.calls (VideoRoutes.q s)))
  /\ Forall (accounted strict (Z.of_nat (length (VideoRoutes.files s))))
       (VideoRoutes.stream s).

(** An input that leaves the strict accounting intact: not the return
    of a skipped job. *)
Definition counted (i : VideoRoutes.input) : Prop :=
  match i with
  | VideoRoutes.Returns _ result =>
      VideoService.success result = true -> VideoService.skipped result = false
  | _ => True
  end.

(** The input is the return of a skipped job that is in flight. *)
Definition returns_skipped (s : VideoRoutes.t) (i : VideoRoutes.input) : bool :=
  match i with
  | VideoRoutes.Returns h result =>
      match TaskQueue.calls (VideoRoutes.q s) !! h with
      | Some (TaskQueue.Awaiting j) =>
          match VideoRoutes.files s !! j with
          | Some _ =>
              VideoService.success result && VideoService.skipped result
          | None => false
          end
      | _ => false
      end
  | _ => false
  end.

(** How many jobs return skipped in the course of [inputs], from the
    state [s] on. *)
Fixpoint skipped_jobs (s : VideoRoutes.t) (inputs : list VideoRoutes.input)
  : nat :=
  match inputs with
  | [] => 0
  | i :: rest =>
      ((if returns_skipped s i then 1 else 0)
       + skipped_jobs (VideoRoutes.step s i) rest)%nat
  end.

(** By how much [processed] exceeds [success + failed]. *)
Definition uncounted (p : progress) : Z :=
  (processed p - (success p + failed p))%Z.

(** The event is a complete event. *)
Definition is_complete (e : event) : bool :=
  match e with Complete _ _ => true | _ => false end.

(** The stream holds no complete event. *)
Definition no_complete (l : list event) : Prop :=
  Forall (fun e => is_complete e = false) l.

(** The files of the [failed] events of a stream, in order. *)
Definition failed_of (l : list event) : list string :=
  omap (fun e => match e with Failed file => Some file | _ => None end) l.

(** The handler of a request against the calls of its queue.  While it
    waits no call is rejected and some call is not resolved, and no
    complete event was sent.  Once it has ended every call is resolved
    and the stream ends with its only complete event, which carries the
    counters and the failed files as they are.  When it was aborted some
    call is rejected and no complete event was sent.  Throughout, the
    failed files are those of the failed events. *)
Definition closing (s : VideoRoutes.t) : Prop :=
  VideoRoutes.failedFiles s = failed_of (VideoRoutes.stream s)
  /\ match VideoRoutes.handler s with
     | VideoRoutes.Waiting =>
         no_complete (VideoRoutes.stream s)
         /\ (forall i e, TaskQueue.calls (VideoRoutes.q s) !! i
                         <> Some (TaskQueue.Settled (TaskQueue.Rejected e)))
         /\ (exists i p, TaskQueue.calls (VideoRoutes.q s) !! i = Some p
                         /\ VideoRoutes.resolved p = false)
     | VideoRoutes.Ended =>
         (forall i p, TaskQueue.calls (VideoRoutes.q s) !! i = Some p ->
                      VideoRoutes.resolved p = true)
         /\ exists before,
             VideoRoutes.stream s
               = before ++ [Complete (VideoRoutes.counters s)
                              (VideoRoutes.failedFiles s)]
             /\ no_complete before
     | VideoRoutes.Aborted _ =>
         no_complete (VideoRoutes.stream s)
         /\ exists i e, TaskQueue.calls (VideoRoutes.q s) !! i
                          = Some (TaskQueue.Settled (TaskQueue.Rejected e))
     end.

(** An input other than a throw of [processVideo]. *)
Definition contained (i : VideoRoutes.input) : Prop :=
  match i with VideoRoutes.Throws _ _ => False | _ => True end.

(** No call of the queue of the request is rejected. *)
Definition unrejected (s : VideoRoutes.t) : Prop :=
  forall i e, TaskQueue.calls (VideoRoutes.q s) !! i
              <> Some (TaskQueue.Settled (TaskQueue.Rejected e)).

(** The counter [failed] is the number of failed files. *)
Definition failures_counted (s : VideoRoutes.t) : Prop :=
  failed (VideoRoutes.counters s)
  = Z.of_nat (length (VideoRoutes.failedFiles s)).

(** The request after the jobs before [h] have run to their end one
    after the other: their calls are settled; from [h] on come the jobs in
    flight, up to some [k], and then the jobs that poll for a slot; the
    running count is the number of jobs in flight. *)
Definition staged (limit : Z) (h : nat) (s : VideoRoutes.t) : Prop :=
  let calls := TaskQueue.calls (VideoRoutes.q s) in
  TaskQueue.queue (VideoRoutes.q s) = []
  /\ TaskQueue.concurrency (VideoRoutes.q s) = limit
  /\ length calls = length (VideoRoutes.files s)
  /\ exists k,
       (h <= k)%nat /\ (k <= length calls)%nat
       /\ TaskQueue.running (VideoRoutes.q s) = Z.of_nat (k - h)
       /\ (forall i, (i < h)%nat -> exists o, calls !! i = Some (TaskQueue.Settled o))
       /\ (forall i, (h <= i < k)%nat -> calls !! i = Some (TaskQueue.Awaiting i))
       /\ (forall i, (k <= i < length calls)%nat ->
                     calls !! i = Some (TaskQueue.Polling (TaskQueue.Job i))).

(** The input is a log line of the job of call [h]. *)
Definition says_of (h : nat) (i : VideoRoutes.input) : Prop :=
  match i with VideoRoutes.Says h' _ _ => h' = h | _ => False end.

(** The regular files with the extension that can be reached from the
    entries of [dir] through directories that can be read. *)
Inductive reachable `{Platform} (extension : string)
  : string -> list Scan.dirent -> string -> Prop :=
| reachable_here (dir : string) (entries : list Scan.dirent) (name : string) :
    In (Scan.File name) entries ->
    Scan.endsWith (path_join dir name) extension = true ->
    reachable extension dir entries (path_join dir name)
| reachable_below (dir : string) (entries sub : list Scan.dirent)
    (name p : string) :
    In (Scan.Directory name (Some sub)) entries ->
    reachable extension (path_join dir name) sub p ->
    reachable extension dir entries p.

(** What [scanEntry] finds for one entry. *)
Definition entry_yields `{Platform} (extension dir : string) (entry : Scan.dirent)
    (p : string) : Prop :=
  match entry with
  | Scan.File name =>
      p = path_join dir name
      /\ Scan.endsWith (path_join dir name) extension = true
  | Scan.Directory name (Some sub) =>
      reachable extension (path_join dir name) sub p
  | _ => False
  end.

(** The calls of a queue in which the jobs [0], ..., [n - 1] were added
    and all poll for a slot. *)
Definition all_polling (n : nat) : list (TaskQueue.phase unit) :=
  map (fun j => TaskQueue.Polling (TaskQueue.Job j)) (seq 0 n).

(** The call is resolved. *)
Definition call_resolved {V : Type} (p : TaskQueue.phase V) : bool :=
  match p with TaskQueue.Settled (TaskQueue.Resolved _) => true | _ => false end.

(** The call is rejected. *)
Definition call_rejected {V : Type} (p : TaskQueue.phase V) : bool :=
  match p with TaskQueue.Settled (TaskQueue.Rejected _) => true | _ => false end.

(** The call polls for a slot. *)
Definition call_polling {V : Type} (p : TaskQueue.phase V) : bool :=
  match p with TaskQueue.Polling _ => true | _ => false end.

(** The queue after [processNext] has handed the [n] entries that wait
    to [add], each of which fails to be called. *)
Definition flushed {V : Type} (n : nat) (q : TaskQueue.t V) : TaskQueue.t V := {|
  TaskQueue.concurrency := TaskQueue.concurrency q;
  TaskQueue.running := TaskQueue.running q;
  TaskQueue.queue := [];
  TaskQueue.logger := TaskQueue.logger q;
  TaskQueue.st :=
    {| TaskQueue.total := TaskQueue.total (TaskQueue.st q) + Z.of_nat n;
       TaskQueue.completed := TaskQueue.completed (TaskQueue.st q);
       TaskQueue.failed := TaskQueue.failed (TaskQueue.st q) + Z.of_nat n;
       TaskQueue.active := TaskQueue.running q |};
  TaskQueue.calls :=
    TaskQueue.calls q
    ++ replicate n (TaskQueue.Settled (TaskQueue.Rejected NotAFunction));
  TaskQueue.dispatched_at :=
    TaskQueue.dispatched_at q ++ replicate n (TaskQueue.running q)
|}.

(** The statistics of a queue agree with its calls. *)
Definition tallied {V : Type} (q : TaskQueue.t V) : Prop :=
  TaskQueue.total (TaskQueue.st q) = Z.of_nat (length (TaskQueue.calls q))
  /\ TaskQueue.completed (TaskQueue.st q)
     = Z.of_nat (tally call_resolved (TaskQueue.calls q))
  /\ TaskQueue.failed (TaskQueue.st q)
     = Z.of_nat (tally call_rejected (TaskQueue.calls q))
  /\ TaskQueue.active (TaskQueue.st q) = TaskQueue.running q.

(** The order of the waiting queue: [a] may stand before [b]. *)
Definition outranks (a b : nat * Z) : Prop := (snd b <= snd a)%Z.

(** The command is not a call of [resetStats]. *)
Definition keeps_stats {V : Type} (c : @QueueControl.command V) : Prop :=
  match c with QueueControl.ResetStats => False | _ => True end.

(** The command does not set a limit above [L]. *)
Definition within {V : Type} (L : Z) (c : @QueueControl.command V) : Prop :=
  match c with
  | QueueControl.SetConcurrency x => (x <= L)%Z
  | _ => True
  end.

(** The invariant of a queue under its control methods, [L] being the
    largest limit ever in force: [running] counts the jobs in flight and
    is at most [L]; with [stats_too], the statistics agree with the
    calls. *)
Definition consistent {V : Type} (stats_too : bool) (L : Z)
    (q : TaskQueue.t V) : Prop :=
  TaskQueue.running q = Z.of_nat (tally in_flight (TaskQueue.calls q))
  /\ (TaskQueue.running q <= L)%Z
  /\ (TaskQueue.concurrency q <= L)%Z
  /\ (stats_too = true -> tallied q).

(** The largest limit in force during a run of commands on a queue
    created with [limit] (and at least zero). *)
Definition largest_limit {V : Type} (limit : Z)
    (commands : list (@QueueControl.command V)) : Z :=
  fold_right (fun c m => match c with
                         | QueueControl.SetConcurrency x => Z.max x m
                         | _ => m
                         end) (Z.max 0 limit) commands.

(** The command is not a call of [pause]. *)
Definition not_pause {V : Type} (c : @QueueControl.command V) : bool :=
  match c with QueueControl.Pause => false | _ => true end.

(** The document holds nothing [JSON.stringify] would write
    differently, as is the case of what [JSON.parse] returns. *)
Definition json_document (d : CacheService.disk) : Prop :=
  match CacheService.content d with
  | CacheService.Document members => CacheService.stringify members = members
  | _ => True
  end.

(** The entry is an object with a truthy [timestamp] older than
    [maxAge]. *)
Definition expired `{Platform} (now maxAge : Z)
    (entry : string * CacheControl.stored) : bool :=
  match snd entry with
  | CacheControl.Object timestamp =>
      CacheControl.truthy timestamp && CacheControl.older now maxAge timestamp
  | CacheControl.Scalar _ => false
  end.

(** The value is neither [null] nor [undefined]. *)
Definition readable (entry : string * CacheControl.stored) : Prop :=
  CacheControl.timestamp_of (snd entry) <> None.

(** What a new instance would load from the disk is the cache of [c] as
    [JSON.stringify] renders it. *)
Definition saved (c : CacheService.t) (d : CacheService.disk) : Prop :=
  CacheService.cache (CacheService.load CacheService.create d)
  = CacheService.stringify (CacheService.cache c).

(** Every time of the list is at most [expiry] after the one before it,
    the first at most [expiry] after [last]. *)
Fixpoint in_time (expiry last : Z) (times : list Z) : Prop :=
  match times with
  | [] => True
  | now :: later => (now <= last + expiry)%Z /\ in_time expiry now later
  end.

(** The job is past the end of its [try]. *)
Definition is_counted (st : LegacyRoutes.stage) : bool :=
  match st with LegacyRoutes.Counted _ => true | LegacyRoutes.Fresh => false end.

(** What call [h] of a legacy request may be: polling for or running the
    job [h], resolved, the job being past its [try], or rejected. *)
Definition legacy_call (stages : list LegacyRoutes.stage) (h : nat)
    (p : TaskQueue.phase unit) : Prop :=
  match p with
  | TaskQueue.Polling c => c = TaskQueue.Job h
  | TaskQueue.Awaiting j => j = h
  | TaskQueue.Settled (TaskQueue.Resolved _) =>
      exists pending, stages !! h = Some (LegacyRoutes.Counted pending)
  | TaskQueue.Settled (TaskQueue.Rejected _) => True
  end.

(** An input other than the rejection of a job. *)
Definition returning (i : LegacyRoutes.input) : Prop :=
  match i with LegacyRoutes.Rejects _ _ => False | _ => True end.

(** The invariant of a legacy request. *)
Definition legacy_orderly (s : LegacyRoutes.t) : Prop :=
  let r := LegacyRoutes.request s in
  let n := length (VideoRoutes.files r) in
  TaskQueue.queue (VideoRoutes.q r) = []
  /\ length (TaskQueue.calls (VideoRoutes.q r)) = n
  /\ length (LegacyRoutes.stages s) = n
  /\ (forall h p, TaskQueue.calls (VideoRoutes.q r) !! h = Some p ->
                  legacy_call (LegacyRoutes.stages s) h p)
  /\ total (VideoRoutes.counters r) = Z.of_nat n
  /\ processed (VideoRoutes.counters r)
     = Z.of_nat (tally is_counted (LegacyRoutes.stages s))
  /\ processed (VideoRoutes.counters r)
     = (success (VideoRoutes.counters r) + failed (VideoRoutes.counters r))%Z
  /\ (0 <= success (VideoRoutes.counters r))%Z
  /\ (0 <= failed (VideoRoutes.counters r))%Z
  /\ Forall (accounted true (Z.of_nat n)) (VideoRoutes.stream r)
  /\ closing r.

(** * Properties *)

(** ** Substring search *)

Lemma prefix_append (p s : string) : String.prefix p (p +:+ s) = true.
Proof.
  induction p as [|c p IH]; simpl.
  - now destruct s.
  - destruct (ascii_dec c c); [exact IH | congruence].
Qed.

Lemma includes_prefix (s p : string) :
  String.prefix p s = true -> Js.includes s p = true.
Proof. intros Hp. destruct s; cbn [Js.includes]; now rewrite Hp. Qed.

Lemma includes_append (a p b : string) : Js.includes (a +:+ p +:+ b) p = true.
Proof.
  induction a as [|c a IH].
  - change ("" +:+ p +:+ b) with (p +:+ b). apply includes_prefix, prefix_append.
  - change (String c a +:+ p +:+ b) with (String c (a +:+ p +:+ b)).
    cbn [Js.includes].
    destruct (String.prefix p (String c (a +:+ p +:+ b))); [reflexivity | exact IH].
Qed.

Lemma toLowerCase_append (a b : string) :
  Js.toLowerCase (a +:+ b) = Js.toLowerCase a +:+ Js.toLowerCase b.
Proof. induction a as [|c a IH]; simpl; [reflexivity | now rewrite IH]. Qed.

Lemma includes_toLowerCase (a p b : string) :
  Js.toLowerCase p = p ->
  Js.includes (Js.toLowerCase (a +:+ p +:+ b)) p = true.
Proof.
  intros Hp. rewrite !toLowerCase_append, Hp. apply includes_append.
Qed.

(** ** Duration cache *)

Lemma fold_insert_lookup (base data : gmap string Js.value) (key : string) :
  map_fold (fun k v m => <[k := v]> m) base data !! key =
  match data !! key with
  | Some v => Some v
  | None => base !! key
  end.
Proof.
  revert key.
  apply (map_fold_weak_ind
           (fun r (m : gmap string Js.value) =>
              forall key, r !! key = match m !! key with
                                     | Some v => Some v
                                     | None => base !! key
                                     end)).
  - intros key. now rewrite lookup_empty.
  - intros i x m r Hi IH key.
    destruct (decide (i = key)) as [->|Hne].
    + now rewrite !lookup_insert_eq.
    + rewrite !lookup_insert_ne by done. apply IH.
Qed.

Lemma stringify_lookup (m : gmap string Js.value) (key : string) :
  CacheService.stringify m !! key = m !! key ≫= CacheService.json_member.
Proof. apply lookup_omap. Qed.

(** ** URL validation *)

Section UrlValidation.
Context `{Platform}.

Lemma validateUrl_blocked (url pattern before after : string) :
  In pattern VideoService.blockedPatterns ->
  Js.toLowerCase pattern = pattern ->
  url_hostname url = before +:+ pattern +:+ after ->
  VideoService.validateUrl url =
    Throw (if isURL url then InternalAddress else InvalidUrlFormat).
Proof.
  intros Hin Hlow Hhost. unfold VideoService.validateUrl.
  destruct (isURL url); cbn [negb]; [|reflexivity].
  assert (existsb (fun p => Js.includes (Js.toLowerCase (url_hostname url)) p)
            VideoService.blockedPatterns = true) as ->; [|reflexivity].
  apply existsb_exists. exists pattern. split; [exact Hin|].
  rewrite Hhost. now apply includes_toLowerCase.
Qed.

Lemma validateUrl_accepts (url : string) :
  isURL url = true ->
  existsb (fun p => Js.includes (Js.toLowerCase (url_hostname url)) p)
    VideoService.blockedPatterns = false ->
  VideoService.validateUrl url = Ok true.
Proof.
  intros Hurl Hnone. unfold VideoService.validateUrl.
  now rewrite Hurl, Hnone.
Qed.

End UrlValidation.

Lemma private_host_blocked `{Platform} (url : string) :
  private_host (url_hostname url) ->
  VideoService.validateUrl url =
    Throw (if isURL url then InternalAddress else InvalidUrlFormat).
Proof.
  intros [Hh | [rest [Hh | [Hh | [Hh | Hh]]]]].
  - apply (validateUrl_blocked url "127.0.0.1" "" ""); [cbn; tauto | reflexivity | exact Hh].
  - apply (validateUrl_blocked url "169.254" "" ("." +:+ rest));
      [cbn; tauto | reflexivity | exact Hh].
  - apply (validateUrl_blocked url "10." "" rest); [cbn; tauto | reflexivity | exact Hh].
  - apply (validateUrl_blocked url "192.168" "" ("." +:+ rest));
      [cbn; tauto | reflexivity | exact Hh].
  - apply (validateUrl_blocked url "172.16" "" ("." +:+ rest));
      [cbn; tauto | reflexivity | exact Hh].
Qed.

(** C10.  [validateUrl] looks for its blocked patterns anywhere in the
    hostname: a URL whose hostname contains [10.], [172.16], [192.168],
    [169.254], [localhost] or [127.0.0.1] at any offset is rejected (as an
    internal address when the format check passes), the public name
    [cdn10.example.com] among them, while the private address [172.17.0.1],
    like every hostname that contains none of the patterns, is accepted
    when the format check passes. *)
Theorem validateUrl_substring_match `{Platform} (url : string) :
  (forall pattern before after,
      In pattern ["10."; "172.16"; "192.168"; "169.254"; "localhost"; "127.0.0.1"] ->
      url_hostname url = before +:+ pattern +:+ after ->
      VideoService.validateUrl url =
        Throw (if isURL url then InternalAddress else InvalidUrlFormat))
  /\ (isURL url = true -> url_hostname url = "cdn10.example.com" ->
      VideoService.validateUrl url = Throw InternalAddress)
  /\ (isURL url = true -> url_hostname url = "172.17.0.1" ->
      VideoService.validateUrl url = Ok true)
  /\ (isURL url = true ->
      (forall pattern, In pattern VideoService.blockedPatterns ->
         Js.includes (Js.toLowerCase (url_hostname url)) pattern = false) ->
      VideoService.validateUrl url = Ok true).
Proof.
  split; [|split; [|split]].
  - intros pattern before after Hin Hhost.
    apply (validateUrl_blocked url pattern before after); [| |exact Hhost];
      cbn in Hin; cbn;
      repeat (destruct Hin as [<- | Hin]; [tauto || reflexivity|]);
      contradiction.
  - intros Hurl Hhost.
    rewrite (validateUrl_blocked url "10." "cdn" "example.com");
      [now rewrite Hurl | cbn; tauto | reflexivity | exact Hhost].
  - intros Hurl Hhost. apply validateUrl_accepts; [exact Hurl|].
    rewrite Hhost. reflexivity.
  - intros Hurl Hnone. apply validateUrl_accepts; [exact Hurl|].
    destruct (existsb _ _) eqn:Hex; [|reflexivity].
    apply existsb_exists in Hex as (pattern & Hin & Hp).
    rewrite (Hnone pattern Hin) in Hp. discriminate.
Qed.

Lemma validateUrl_substring_match_witness :
  VideoService.validateUrl (H := SimplePlatform.platform)
    "http://cdn10.example.com/a.mp4" = Throw InternalAddress
  /\ VideoService.validateUrl (H := SimplePlatform.platform)
       "http://172.17.0.1/a.mp4" = Ok true
  /\ VideoService.validateUrl (H := SimplePlatform.platform)
       "https://my-localhost.example.org/a.mp4" = Throw InternalAddress.
Proof.
  split; [|split].
  - apply (proj1 (proj2 (validateUrl_substring_match
                           (H := SimplePlatform.platform)
                           "http://cdn10.example.com/a.mp4"))); reflexivity.
  - apply (proj1 (proj2 (proj2 (validateUrl_substring_match
                                  (H := SimplePlatform.platform)
                                  "http://172.17.0.1/a.mp4")))); reflexivity.
  - apply (proj1 (validateUrl_substring_match (H := SimplePlatform.platform)
                    "https://my-localhost.example.org/a.mp4")
             "localhost" "my-" ".example.org"); [cbn; tauto | reflexivity].
Defined.

(** ** Jobs that carry a private address *)

Lemma validatePath_cases `{Platform} (p : string) :
  VideoService.validatePath p = Ok (path_resolve p) \/
  VideoService.validatePath p = Throw SystemDirectory.
Proof.
  unfold VideoService.validatePath.
  destruct (existsb _ _); [right | left]; reflexivity.
Qed.

(** C6, as the code has it.  Take a job whose strm file holds a URL with
    one of the private hostnames.  [validateUrl] rejects that URL, and the
    job performs no network effect whatever its options.  When the path of
    the strm file passes [validatePath] and the job is not skipped for an
    existing cover, it returns the failed outcome that carries the error of
    [validateUrl]. *)
Theorem private_url_job `{Platform} (w : world) (cfg : VideoService.config)
    (strmFile text : string) (c0 : CacheService.t) :
  fs_readFile w (path_resolve strmFile) = Some text ->
  private_host (url_hostname (trim text)) ->
  let rejection := if isURL (trim text) then InternalAddress else InvalidUrlFormat in
  let run := VideoService.processVideo w strmFile cfg (Job.start c0) in
  VideoService.validateUrl (trim text) = Throw rejection
  /\ no_network (Job.trace (snd run)) = true
  /\ (VideoService.validatePath strmFile = Ok (path_resolve strmFile) ->
      String.eqb (VideoService.coverMode cfg) "1"
        && fs_access w (VideoService.outputThumb_of strmFile cfg) = false ->
      fst run = Ok {| VideoService.success := false;
                      VideoService.skipped := false;
                      VideoService.file := Some (path_resolve strmFile);
                      VideoService.reason := Some rejection |}).
Proof.
  intros Hread Hpriv rejection run.
  pose proof (private_host_blocked (trim text) Hpriv) as Hval.
  fold rejection in Hval.
  split; [exact Hval|].
  subst run. unfold VideoService.processVideo, Job.bind, Job.lift, Job.try_catch.
  destruct (validatePath_cases strmFile) as [Hpath | Hpath]; rewrite Hpath.
  - destruct (String.eqb (VideoService.coverMode cfg) "1") eqn:Hmode.
    + cbn [Job.perform Job.ret Job.start Job.trace Job.cache].
      destruct (fs_access w (VideoService.outputThumb_of strmFile cfg)) eqn:Hcover.
      * split; [reflexivity | discriminate].
      * unfold VideoService.sendLog, Job.perform, Job.ret, Job.throw.
        cbn [Job.trace Job.cache].
        rewrite Hread, Hval. cbn. split; [reflexivity | intros _ _; reflexivity].
    + cbn [Job.perform Job.ret Job.start Job.trace Job.cache].
      unfold VideoService.sendLog, Job.perform, Job.ret, Job.throw.
      cbn [Job.trace Job.cache].
      rewrite Hread, Hval. cbn. split; [reflexivity | intros _ _; reflexivity].
  - cbn. split; [reflexivity | discriminate].
Qed.

Lemma private_url_job_witness :
  fst (VideoService.processVideo (H := SimplePlatform.platform)
         (Example.world_of "http://192.168.1.20/movie.mp4" 120 false)
         "/media/movie.strm" (Example.options "1")
         (Job.start CacheService.create))
  = Ok {| VideoService.success := false;
          VideoService.skipped := false;
          VideoService.file := Some "/media/movie.strm";
          VideoService.reason := Some InternalAddress |}.
Proof.
  apply (private_url_job (H := SimplePlatform.platform)
           (Example.world_of "http://192.168.1.20/movie.mp4" 120 false)
           (Example.options "1") "/media/movie.strm"
           "http://192.168.1.20/movie.mp4" CacheService.create).
  - reflexivity.
  - right. exists "1.20". right. right. left. reflexivity.
  - reflexivity.
  - reflexivity.
Defined.

(** A job in the mode that keeps existing covers, whose cover exists,
    returns the skipped outcome without reading its URL, private or not. *)
Lemma private_url_job_skipped :
  private_host (url_hostname (Platform := SimplePlatform.platform)
                  "http://127.0.0.1/movie.mp4")
  /\ fs_readFile (Example.world_of "http://127.0.0.1/movie.mp4" 120 true)
       "/media/movie.strm" = Some "http://127.0.0.1/movie.mp4"
  /\ fst (VideoService.processVideo (H := SimplePlatform.platform)
            (Example.world_of "http://127.0.0.1/movie.mp4" 120 true)
            "/media/movie.strm" (Example.options "1")
            (Job.start CacheService.create))
     = Ok {| VideoService.success := true;
             VideoService.skipped := true;
             VideoService.file := None;
             VideoService.reason := None |}.
Proof.
  split; [left; reflexivity | split; reflexivity].
Qed.

(** ** Binary64 arithmetic *)

Section Binary64.
Local Open Scope Q_scope.

Lemma pow2_pos (e : Z) : 0 < Js.pow2 e.
Proof. apply Qpower_0_lt. reflexivity. Qed.

Lemma pow2_plus (a b : Z) : Js.pow2 (a + b) == Js.pow2 a * Js.pow2 b.
Proof. apply Qpower_plus. discriminate. Qed.

Lemma pow2_le (a b : Z) : (a <= b)%Z -> Js.pow2 a <= Js.pow2 b.
Proof. intros H. apply Qpower_le_compat_l; [exact H | discriminate]. Qed.

Lemma pow2_lt (a b : Z) : (a < b)%Z -> Js.pow2 a < Js.pow2 b.
Proof. intros H. apply Qpower_lt_compat_l; [exact H | reflexivity]. Qed.

Lemma pow2_inv (s : Z) : Js.pow2 (- s) * Js.pow2 s == 1.
Proof. rewrite <- pow2_plus. now replace (- s + s)%Z with 0%Z by lia. Qed.

Lemma pow2_Z (n : Z) : (0 <= n)%Z -> Js.pow2 n == inject_Z (2 ^ n).
Proof. intros H. unfold Js.pow2. now rewrite Zpower_Qpower. Qed.

Lemma rne_bounds (q : Q) : (Qfloor q <= Js.rne q <= Qfloor q + 1)%Z.
Proof.
  unfold Js.rne. destruct (Qcompare _ _); [destruct (Z.even _)| |]; lia.
Qed.

Lemma rne_inject (k : Z) : Js.rne (inject_Z k) = k.
Proof.
  unfold Js.rne. rewrite Qfloor_Z.
  assert (inject_Z k - inject_Z k == 0) as -> by ring.
  reflexivity.
Qed.

Lemma rne_mono (a b : Q) : a <= b -> (Js.rne a <= Js.rne b)%Z.
Proof.
  intros Hab.
  pose proof (Qfloor_resp_le _ _ Hab) as Hf.
  pose proof (rne_bounds a) as Ha. pose proof (rne_bounds b) as Hb.
  destruct (Z.eq_dec (Qfloor a) (Qfloor b)) as [Heq|Hne]; [|lia].
  unfold Js.rne in *. rewrite <- Heq in *.
  destruct (Qcompare_spec (a - inject_Z (Qfloor a)) (1 # 2)) as [Ea|Ea|Ea];
    destruct (Qcompare_spec (b - inject_Z (Qfloor a)) (1 # 2)) as [Eb|Eb|Eb];
    try destruct (Z.even (Qfloor a)); try lia; exfalso; lra.
Qed.

Lemma rne_comp (a b : Q) : a == b -> Js.rne a = Js.rne b.
Proof.
  intros E. apply Z.le_antisymm; apply rne_mono; rewrite E; apply Qle_refl.
Qed.

Lemma round_at_mono (s : Z) (a b : Q) : a <= b -> Js.round_at s a <= Js.round_at s b.
Proof.
  intros Hab. unfold Js.round_at.
  pose proof (pow2_pos s) as Hs. pose proof (pow2_pos (- s)) as Hs'.
  apply Qmult_le_compat_r; [|lra].
  rewrite <- Zle_Qle. apply rne_mono.
  apply Qmult_le_compat_r; [exact Hab | lra].
Qed.

Lemma round_at_exact (s k : Z) :
  Js.round_at s (inject_Z k * Js.pow2 s) == inject_Z k * Js.pow2 s.
Proof.
  unfold Js.round_at.
  assert (inject_Z k * Js.pow2 s * Js.pow2 (- s) == inject_Z k) as E.
  { rewrite <- Qmult_assoc, (Qmult_comm (Js.pow2 s)), pow2_inv. ring. }
  now rewrite (rne_comp _ _ E), rne_inject.
Qed.

Lemma floor_log2_spec (q : Q) :
  0 < q -> Js.pow2 (Js.floor_log2 q) <= q < Js.pow2 (Js.floor_log2 q + 1).
Proof.
  intros Hq. destruct q as [a b]. unfold Js.floor_log2. cbn [Qnum Qden].
  assert (0 < a)%Z as Ha by (unfold Qlt in Hq; cbn in Hq; lia).
  pose proof (Z.log2_spec a Ha) as [La Ua].
  pose proof (Z.log2_spec (Zpos b) ltac:(lia)) as [Lb Ub].
  pose proof (Z.log2_nonneg a) as Na.
  pose proof (Z.log2_nonneg (Zpos b)) as Nb.
  set (la := Z.log2 a) in *. set (lb := Z.log2 (Zpos b)) in *.
  assert (a # b == inject_Z a / inject_Z (Zpos b)) as Hdiv by apply Qmake_Qdiv.
  assert (0 < inject_Z (Zpos b)) as Hb by (rewrite <- (Zlt_Qlt 0); lia).
  assert (Js.pow2 la <= inject_Z a) as La'
    by (rewrite pow2_Z by lia; now rewrite <- Zle_Qle).
  assert (inject_Z a < Js.pow2 (la + 1)) as Ua'
    by (rewrite pow2_Z by lia; rewrite <- Zlt_Qlt; now rewrite <- Z.add_1_r in Ua).
  assert (Js.pow2 lb <= inject_Z (Zpos b)) as Lb'
    by (rewrite pow2_Z by lia; now rewrite <- Zle_Qle).
  assert (inject_Z (Zpos b) < Js.pow2 (lb + 1)) as Ub'
    by (rewrite pow2_Z by lia; rewrite <- Zlt_Qlt; now rewrite <- Z.add_1_r in Ub).
  pose proof (pow2_pos lb) as Plb. pose proof (pow2_pos (la - lb)) as Pl.
  pose proof (pow2_pos (la - lb - 1)) as Pl1.
  assert (Js.pow2 (la - lb + 1) * Js.pow2 lb == Js.pow2 (la + 1)) as E1
    by (rewrite <- pow2_plus; now replace (la - lb + 1 + lb)%Z with (la + 1)%Z by lia).
  assert (Js.pow2 (la - lb - 1) * Js.pow2 (lb + 1) == Js.pow2 la) as E2
    by (rewrite <- pow2_plus; now replace (la - lb - 1 + (lb + 1))%Z with la by lia).
  assert ((a # b) * inject_Z (Zpos b) == inject_Z a) as Hab.
  { rewrite Hdiv. field. lra. }
  assert (a # b < Js.pow2 (la - lb + 1)) as Hup.
  { apply (Qmult_lt_r _ _ (inject_Z (Zpos b))); [exact Hb|].
    rewrite Hab. apply (Qlt_le_trans _ (Js.pow2 (la + 1))); [exact Ua'|].
    rewrite <- E1. apply Qmult_le_l; [apply pow2_pos | exact Lb']. }
  assert (Js.pow2 (la - lb - 1) <= a # b) as Hlow.
  { apply (Qmult_le_r _ _ (inject_Z (Zpos b))); [exact Hb|].
    rewrite Hab. apply (Qle_trans _ (Js.pow2 la)); [|exact La'].
    rewrite <- E2. apply Qmult_le_l; [apply pow2_pos|]. lra. }
  destruct (Qle_bool (Js.pow2 (la - lb)) (a # b)) eqn:Hle.
  - apply Qle_bool_iff in Hle. now split.
  - assert (a # b < Js.pow2 (la - lb)) as Hlt.
    { apply Qnot_le_lt. intros H. apply Qle_bool_iff in H. congruence. }
    split; [exact Hlow|]. now replace (la - lb - 1 + 1)%Z with (la - lb)%Z by lia.
Qed.

Lemma floor_log2_mono (a b : Q) :
  0 < a -> a <= b -> (Js.floor_log2 a <= Js.floor_log2 b)%Z.
Proof.
  intros Ha Hab.
  destruct (floor_log2_spec a Ha) as [La _].
  destruct (floor_log2_spec b ltac:(lra)) as [_ Ub].
  destruct (Z_le_gt_dec (Js.floor_log2 a) (Js.floor_log2 b)) as [|Hgt]; [assumption|].
  pose proof (pow2_le (Js.floor_log2 b + 1) (Js.floor_log2 a) ltac:(lia)). lra.
Qed.

Lemma round_at_zero (s : Z) (q : Q) : q == 0 -> Js.round_at s q == 0.
Proof.
  intros E. unfold Js.round_at.
  assert (q * Js.pow2 (- s) == inject_Z 0) as E0 by (rewrite E; ring).
  rewrite (rne_comp _ _ E0), rne_inject. ring.
Qed.

Lemma round_at_nonneg (s : Z) (q : Q) : 0 <= q -> 0 <= Js.round_at s q.
Proof.
  intros Hq. pose proof (round_at_mono s 0 q Hq) as H.
  pose proof (round_at_zero s 0 ltac:(reflexivity)) as H0. lra.
Qed.

Lemma Qabs_nonneg_eq (q : Q) : 0 <= q -> Qabs q = q.
Proof.
  destruct q as [a b]. unfold Qle, Qabs. cbn. intros H.
  now rewrite Z.abs_eq by lia.
Qed.

Lemma round64_eq (q : Q) : Js.round64 q == Js.round_at (Js.quantum q) q.
Proof. apply Qred_correct. Qed.

(** Rounding keeps the order of numbers that are not negative. *)
Lemma round64_mono (a b : Q) : 0 <= a -> a <= b -> Js.round64 a <= Js.round64 b.
Proof.
  intros Ha Hab. rewrite !round64_eq.
  destruct (Qlt_le_dec 0 a) as [Hpos|Hzero].
  - unfold Js.quantum. rewrite !Qabs_nonneg_eq by lra.
    pose proof (floor_log2_mono a b Hpos Hab) as He.
    set (ea := Js.floor_log2 a) in *. set (eb := Js.floor_log2 b) in *.
    destruct (Z.eq_dec (Z.max ea (-1022)) (Z.max eb (-1022))) as [Heq|Hne].
    + rewrite Heq. now apply round_at_mono.
    + assert (Z.max ea (-1022) < Z.max eb (-1022))%Z as Hlt by lia.
      assert (Z.max eb (-1022) = eb) as Eb by lia.
      set (sa := (Z.max ea (-1022) - 52)%Z). set (sb := (Z.max eb (-1022) - 52)%Z).
      destruct (floor_log2_spec a Hpos) as [_ Ua]. fold ea in Ua.
      destruct (floor_log2_spec b ltac:(lra)) as [Lb _]. fold eb in Lb.
      assert (Js.pow2 (sa + 53) == inject_Z (2 ^ 53) * Js.pow2 sa) as ET.
      { rewrite pow2_plus, (pow2_Z 53) by lia. ring. }
      assert (Js.pow2 eb == inject_Z (2 ^ 52) * Js.pow2 sb) as EB.
      { replace eb with (52 + sb)%Z at 1 by (unfold sb; lia).
        rewrite pow2_plus, (pow2_Z 52) by lia. ring. }
      assert (Js.round_at sa a <= Js.pow2 (sa + 53)) as H1.
      { rewrite ET, <- round_at_exact. apply round_at_mono. rewrite <- ET.
        apply Qlt_le_weak, (Qlt_le_trans _ _ _ Ua), pow2_le. unfold sa. lia. }
      assert (Js.pow2 eb <= Js.round_at sb b) as H2.
      { rewrite EB, <- round_at_exact. apply round_at_mono. now rewrite <- EB. }
      pose proof (pow2_le (sa + 53) eb ltac:(unfold sa; lia)). lra.
  - assert (a == 0) as E by lra.
    rewrite (round_at_zero _ a E). apply round_at_nonneg. lra.
Qed.

Lemma double_spec (q : Q) :
  is_double q -> Js.round64 q == q /\ Qabs q < Js.pow2 1024.
Proof.
  unfold is_double, Js.of_Q. intros H.
  destruct (Qle_bool (Js.pow2 1024) (Qabs (Js.round64 q))) eqn:Hb; [discriminate|].
  injection H as H.
  assert (Js.round64 q == q) as E by (rewrite H; apply Qred_correct).
  split; [exact E|].
  apply Qnot_le_lt. intros Hle. rewrite <- E in Hle.
  apply Qle_bool_iff in Hle. congruence.
Qed.

Lemma round64_nonneg (q : Q) : 0 <= q -> 0 <= Js.round64 q.
Proof. intros H. rewrite round64_eq. now apply round_at_nonneg. Qed.

(** A result between zero and a double is rounded to a double between
    them. *)
Lemma of_Q_fin (q D : Q) :
  0 <= q -> q <= D -> is_double D ->
  Js.of_Q q = Js.Fin (Js.round64 q) /\ 0 <= Js.round64 q <= D.
Proof.
  intros H0 HD Hd. destruct (double_spec D Hd) as [E HB].
  pose proof (round64_nonneg q H0) as Hn.
  pose proof (round64_mono q D H0 HD) as Hm. rewrite E in Hm.
  split; [|now split].
  unfold Js.of_Q. cbn zeta.
  destruct (Qle_bool (Js.pow2 1024) (Qabs (Js.round64 q))) eqn:Hb; [|reflexivity].
  apply Qle_bool_iff in Hb. rewrite Qabs_pos in Hb by exact Hn.
  rewrite Qabs_pos in HB by lra. lra.
Qed.

Lemma floor_log2_unique (q : Q) (e : Z) :
  Js.pow2 e <= q -> q < Js.pow2 (e + 1) -> Js.floor_log2 q = e.
Proof.
  intros L U. pose proof (pow2_pos e) as P.
  destruct (floor_log2_spec q ltac:(lra)) as [L' U'].
  destruct (Z_lt_le_dec (Js.floor_log2 q) e) as [H|H].
  - pose proof (pow2_le (Js.floor_log2 q + 1) e ltac:(lia)). lra.
  - destruct (Z_lt_le_dec e (Js.floor_log2 q)) as [H'|H']; [|lia].
    pose proof (pow2_le (e + 1) (Js.floor_log2 q) ltac:(lia)). lra.
Qed.

(** The largest double below 1 is [1 - 2^-53]. *)
Lemma double_below_one (r : Q) :
  is_double r -> 0 <= r -> r < 1 -> r <= 1 - (1 # 9007199254740992).
Proof.
  intros Hd H0 H1. destruct (double_spec r Hd) as [E _].
  destruct (Qlt_le_dec r (1 # 2)) as [Hs|Hl]; [lra|].
  assert (Js.floor_log2 r = (-1)%Z) as He.
  { apply floor_log2_unique.
    - now change (Js.pow2 (-1)) with (1 # 2).
    - now change (Js.pow2 (-1 + 1)) with 1. }
  rewrite round64_eq in E. unfold Js.quantum in E.
  rewrite Qabs_nonneg_eq, He in E by exact H0.
  change (Z.max (-1) (-1022) - 52)%Z with (-53)%Z in E.
  unfold Js.round_at in E.
  set (k := Js.rne (r * Js.pow2 (- -53))) in *.
  change (Js.pow2 (-53)) with (1 # 9007199254740992) in E.
  assert (k < 9007199254740992)%Z as Hk.
  { rewrite Zlt_Qlt.
    change (inject_Z 9007199254740992) with (9007199254740992 # 1). lra. }
  assert (k <= 9007199254740991)%Z as Hk' by lia.
  rewrite Zle_Qle in Hk'.
  change (inject_Z 9007199254740991) with (9007199254740991 # 1) in Hk'. lra.
Qed.

Lemma round_at_comp (s : Z) (a b : Q) :
  a == b -> Js.round_at s a == Js.round_at s b.
Proof.
  intros E. unfold Js.round_at.
  assert (a * Js.pow2 (- s) == b * Js.pow2 (- s)) as E' by (now rewrite E).
  now rewrite (rne_comp _ _ E').
Qed.

(** Half of a double that is at least [2^-1021] is a double. *)
Lemma round64_half (d : Q) :
  is_double d -> Js.pow2 (-1021) <= d ->
  Js.round64 (d * (1 # 2)) == d * (1 # 2).
Proof.
  intros Hd Hl. destruct (double_spec d Hd) as [E _].
  pose proof (pow2_pos (-1021)) as P.
  destruct (floor_log2_spec d ltac:(lra)) as [L U].
  set (e := Js.floor_log2 d) in *.
  assert (-1021 <= e)%Z as He.
  { destruct (Z_le_gt_dec (-1021) e) as [|Hgt]; [assumption|].
    pose proof (pow2_le (e + 1) (-1021) ltac:(lia)). lra. }
  assert (Js.pow2 (e - 1) * 2 == Js.pow2 e) as E1.
  { change 2 with (Js.pow2 1). rewrite <- pow2_plus.
    now replace (e - 1 + 1)%Z with e by lia. }
  assert (Js.pow2 e * 2 == Js.pow2 (e + 1)) as E2.
  { change 2 with (Js.pow2 1). now rewrite <- pow2_plus. }
  assert (Js.floor_log2 (d * (1 # 2)) = (e - 1)%Z) as Eh.
  { apply floor_log2_unique.
    - lra.
    - replace (e - 1 + 1)%Z with e by lia. lra. }
  rewrite round64_eq in E. unfold Js.quantum in E.
  rewrite Qabs_nonneg_eq in E by lra. fold e in E.
  replace (Z.max e (-1022)) with e in E by lia.
  rewrite round64_eq. unfold Js.quantum.
  rewrite Qabs_nonneg_eq, Eh by lra.
  replace (Z.max (e - 1) (-1022) - 52)%Z with (e - 52 - 1)%Z by lia.
  set (s := (e - 52)%Z) in *.
  set (k := Js.rne (d * Js.pow2 (- s))) in *.
  assert (Js.pow2 (s - 1) * 2 == Js.pow2 s) as E3.
  { change 2 with (Js.pow2 1). rewrite <- pow2_plus.
    now replace (s - 1 + 1)%Z with s by lia. }
  unfold Js.round_at in E. fold k in E.
  assert (d * (1 # 2) == inject_Z k * Js.pow2 (s - 1)) as Eq.
  { rewrite <- E. rewrite <- E3. field. }
  rewrite (round_at_comp _ _ _ Eq), round_at_exact. now rewrite Eq.
Qed.

(** The product of a double that is not negative and a factor between
    zero and one: the nearest double, which is not beyond the double. *)
Lemma mul_fraction (d c : Q) :
  is_double d -> 0 <= d -> 0 <= c -> c <= 1 ->
  Js.mul (Js.Fin d) (Js.Fin c) = Js.Fin (Js.round64 (d * c))
  /\ 0 <= Js.round64 (d * c) <= d.
Proof.
  intros Hd H0 Hc0 Hc1. cbn [Js.mul].
  apply of_Q_fin; [nra | nra | exact Hd].
Qed.

Lemma one_is_double : is_double 1.
Proof. reflexivity. Qed.

End Binary64.

(** ** The extraction offset *)

Section Offset.
Local Open Scope Q_scope.

(** The literals of the [switch], as doubles. *)
Lemma offset_literals :
  Js.literal (5 # 100) = Js.Fin (Js.round64 (5 # 100))
  /\ Js.literal (95 # 100) = Js.Fin (Js.round64 (95 # 100))
  /\ Js.literal (1 # 10) = Js.Fin (Js.round64 (1 # 10))
  /\ Js.literal (8 # 10) = Js.Fin (Js.round64 (8 # 10)).
Proof. repeat split; reflexivity. Qed.

(** The sum [0.1 + r * 0.8] for a draw [r]: a double between the double
    [0.1] and the double [0.9]. *)
Lemma auto_factor (r : Q) :
  is_double r -> 0 <= r -> r < 1 ->
  let x := Js.round64 (Js.round64 (1 # 10)
                       + Js.round64 (r * Js.round64 (8 # 10))) in
  Js.add (Js.literal (1 # 10)) (Js.mul (Js.Fin r) (Js.literal (8 # 10)))
  = Js.Fin x
  /\ Js.round64 (1 # 10) <= x /\ x <= Js.round64 (9 # 10).
Proof.
  intros Hd H0 H1 x.
  pose proof (double_below_one r Hd H0 H1) as Hr.
  destruct offset_literals as (_ & _ & -> & ->).
  set (c01 := Js.round64 (1 # 10)) in *. set (c08 := Js.round64 (8 # 10)) in *.
  assert (c01 == 3602879701896397 # 36028797018963968) as E01 by reflexivity.
  assert (c08 == 3602879701896397 # 4503599627370496) as E08 by reflexivity.
  destruct (of_Q_fin (r * c08) 1 ltac:(nra) ltac:(nra) one_is_double)
    as [Et [Lt _]].
  cbn [Js.mul]. rewrite Et. cbn [Js.add].
  set (t := Js.round64 (r * c08)) in *.
  assert (t <= Js.round64 ((1 - (1 # 9007199254740992)) * c08)) as Ut.
  { apply round64_mono; nra. }
  assert (Js.round64 ((1 - (1 # 9007199254740992)) * c08)
          == 7205759403792793 # 9007199254740992) as Emax by reflexivity.
  rewrite Emax in Ut.
  destruct (of_Q_fin (c01 + t) 1 ltac:(lra) ltac:(lra) one_is_double)
    as [Ex _].
  split; [exact Ex|]. subst x. fold c01 c08 t. split.
  - assert (c01 == Js.round64 c01) as E by reflexivity.
    rewrite E at 1. apply round64_mono; lra.
  - apply (Qle_trans _ (Js.round64
                          (c01 + (7205759403792793 # 9007199254740992)))).
    + apply round64_mono; lra.
    + apply Qle_bool_iff. reflexivity.
Qed.

End Offset.

(** C7, as the code has it.  The offsets are computed in the arithmetic
    of doubles, in which a product is the double nearest to the exact
    product and a literal is the double nearest to what it says.  For a
    positive duration [d] and the value [r] of [Math.random()], a double
    that is at least 0 and below 1, the offset is
    [Math.min(5, d * 0.05)] for [start]; [d / 2] for [middle], which is
    half of [d] itself unless [d] is below [2^-1021]; [d * 0.95] for
    [end]; [d * (0.1 + r * 0.8)] for [auto], which lies between the
    doubles [d * 0.1] and [d * 0.9], both included; and the number itself
    for a numeric position. *)
Theorem seekTime_policy (d r : Q) (x : Js.number) :
  is_double d -> (0 < d)%Q ->
  is_double r -> (0 <= r)%Q -> (r < 1)%Q ->
  VideoService.seekTime (VideoService.Named "start") (Js.Fin d) r
    = Js.Fin (Qmin 5 (Js.round64 (d * Js.round64 (5 # 100))))
  /\ (VideoService.seekTime (VideoService.Named "middle") (Js.Fin d) r
        = Js.Fin (Js.round64 (d * (1 # 2)))
      /\ ((Js.pow2 (-1021) <= d)%Q ->
          (Js.round64 (d * (1 # 2)) == d * (1 # 2))%Q))
  /\ VideoService.seekTime (VideoService.Named "end") (Js.Fin d) r
     = Js.Fin (Js.round64 (d * Js.round64 (95 # 100)))
  /\ (exists q,
        VideoService.seekTime (VideoService.Named "auto") (Js.Fin d) r
        = Js.Fin q
        /\ q = Js.round64
                 (d * Js.round64 (Js.round64 (1 # 10)
                                  + Js.round64 (r * Js.round64 (8 # 10))))
        /\ (Js.round64 (d * Js.round64 (1 # 10)) <= q)%Q
        /\ (q <= Js.round64 (d * Js.round64 (9 # 10)))%Q)
  /\ VideoService.seekTime (VideoService.Seconds x) (Js.Fin d) r = x.
Proof.
  intros Hd Hpos Hr Hr0 Hr1.
  assert (0 <= d)%Q as Hd0 by lra.
  assert (Js.round64 (5 # 100) == 3602879701896397 # 72057594037927936)%Q
    as E005 by reflexivity.
  assert (Js.round64 (95 # 100) == 4278419646001971 # 4503599627370496)%Q
    as E095 by reflexivity.
  assert (Js.round64 (1 # 10) == 3602879701896397 # 36028797018963968)%Q
    as E01 by reflexivity.
  assert (Js.round64 (9 # 10) == 8106479329266893 # 9007199254740992)%Q
    as E09 by reflexivity.
  destruct offset_literals as (L005 & L095 & _ & _).
  split; [|split; [|split; [|split]]].
  - cbn [VideoService.seekTime String.eqb Ascii.eqb Bool.eqb].
    rewrite L005.
    destruct (mul_fraction d (Js.round64 (5 # 100)) Hd Hd0 ltac:(lra) ltac:(lra))
      as [-> _].
    reflexivity.
  - split.
    + cbn [VideoService.seekTime String.eqb Ascii.eqb Bool.eqb]. unfold Js.half.
      now destruct (mul_fraction d (1 # 2) Hd Hd0 ltac:(lra) ltac:(lra)) as [-> _].
    + intros Hl. now apply round64_half.
  - cbn [VideoService.seekTime String.eqb Ascii.eqb Bool.eqb].
    rewrite L095.
    now destruct (mul_fraction d (Js.round64 (95 # 100)) Hd Hd0
                    ltac:(lra) ltac:(lra)) as [-> _].
  - destruct (auto_factor r Hr Hr0 Hr1) as (Ex & Lx & Ux).
    cbn zeta in Ex, Lx, Ux.
    set (f := Js.round64 (Js.round64 (1 # 10)
                          + Js.round64 (r * Js.round64 (8 # 10)))) in *.
    exists (Js.round64 (d * f)).
    cbn [VideoService.seekTime String.eqb Ascii.eqb Bool.eqb].
    rewrite Ex.
    destruct (mul_fraction d f Hd Hd0 ltac:(lra) ltac:(lra)) as [-> _].
    split; [reflexivity | split; [reflexivity | split]].
    + apply round64_mono; nra.
    + apply round64_mono; nra.
  - reflexivity.
Qed.

Lemma seekTime_policy_witness :
  VideoService.seekTime (VideoService.Named "start") (Js.Fin 120) (1 # 2)
    = Js.Fin (Qmin 5 (Js.round64 (120 * Js.round64 (5 # 100))))
  /\ (VideoService.seekTime (VideoService.Named "middle") (Js.Fin 120) (1 # 2)
        = Js.Fin (Js.round64 (120 * (1 # 2)))
      /\ ((Js.pow2 (-1021) <= 120)%Q ->
          (Js.round64 (120 * (1 # 2)) == 120 * (1 # 2))%Q))
  /\ VideoService.seekTime (VideoService.Named "end") (Js.Fin 120) (1 # 2)
     = Js.Fin (Js.round64 (120 * Js.round64 (95 # 100)))
  /\ (exists q,
        VideoService.seekTime (VideoService.Named "auto") (Js.Fin 120) (1 # 2)
        = Js.Fin q
        /\ q = Js.round64
                 (120 * Js.round64 (Js.round64 (1 # 10)
                                    + Js.round64 ((1 # 2) * Js.round64 (8 # 10))))
        /\ (Js.round64 (120 * Js.round64 (1 # 10)) <= q)%Q
        /\ (q <= Js.round64 (120 * Js.round64 (9 # 10)))%Q)
  /\ VideoService.seekTime (VideoService.Seconds (Js.Fin 42)) (Js.Fin 120) (1 # 2)
     = Js.Fin 42.
Proof.
  apply (seekTime_policy 120 (1 # 2) (Js.Fin 42));
    [reflexivity | reflexivity | reflexivity | unfold Qle; simpl; lia
    | reflexivity].
Defined.

(** The offsets of a video of two minutes, [Math.random()] giving one
    half. *)
Example seekTime_of_two_minutes :
  VideoService.seekTime (VideoService.Named "start") (Js.Fin 120) (1 # 2)
    = Js.Fin 5
  /\ VideoService.seekTime (VideoService.Named "middle") (Js.Fin 120) (1 # 2)
     = Js.Fin 60
  /\ VideoService.seekTime (VideoService.Named "end") (Js.Fin 120) (1 # 2)
     = Js.Fin 114
  /\ VideoService.seekTime (VideoService.Named "auto") (Js.Fin 120) (1 # 2)
     = Js.Fin 60.
Proof. repeat split; reflexivity. Qed.

(** When [Math.random()] returns 0 the [auto] offset of a video of 100
    seconds is 10% of the duration itself, not a point beyond it. *)
Lemma seekTime_auto_at_zero :
  exists q, VideoService.seekTime (VideoService.Named "auto") (Js.Fin 100) 0
            = Js.Fin q
            /\ (q == (10 # 100) * 100)%Q.
Proof. exists 10%Q. split; reflexivity. Qed.

(** Rounding can put the [auto] offset below the tenth of the duration:
    for the double [80.21], [Math.random()] giving 0, the offset is the
    double [8.020999999999999], which is less than the duration divided by
    ten. *)
Example seekTime_auto_below_tenth :
  exists d q,
    Js.literal (8021 # 100) = Js.Fin d
    /\ VideoService.seekTime (VideoService.Named "auto") (Js.Fin d) 0
       = Js.Fin q
    /\ (q < d * (1 # 10))%Q.
Proof.
  exists (5644276970490429 # 70368744177664)%Q,
         (4515421576392343 # 562949953421312)%Q.
  repeat split; reflexivity.
Qed.

(** And it can reach nine tenths of the duration: for [71.25], with
    the largest value [Math.random()] can give, the offset is [64.125]. *)
Example seekTime_auto_at_ninety :
  VideoService.seekTime (VideoService.Named "auto") (Js.Fin (7125 # 100))
    (1 - (1 # 9007199254740992))
  = Js.Fin (513 # 8)
  /\ ((513 # 8) == (9 # 10) * (7125 # 100))%Q.
Proof. split; reflexivity. Qed.

(** ** Obtaining a duration *)

Lemma passes_guard_spec (x : Js.number) :
  passes_guard x = true <->
  match x with
  | Js.NaN => False
  | Js.Infinity _ => True
  | Js.Fin q => ~ (q == 0)%Q
  end.
Proof.
  destruct x as [| neg | q]; cbn; try tauto; try (split; [discriminate | tauto]).
  unfold passes_guard. cbn. rewrite orb_false_r, negb_involutive.
  rewrite negb_true_iff. split.
  - intros Hq Heq. apply Qeq_bool_iff in Heq. congruence.
  - intros Hq. destruct (Qeq_bool q 0) eqn:E; [|reflexivity].
    apply Qeq_bool_iff in E. contradiction.
Qed.

Section Durations.
Context `{Platform}.
Variable w : world.







End Durations.




(** ** Round trip of the duration cache *)

Lemma cache_round_trip_value (c : CacheService.t) (d : CacheService.disk)
    (key : string) (v : Js.value) :
  CacheService.writable d = true ->
  CacheService.json_member v = Some v ->
  CacheService.save (CacheService.set c key v) d
  = (true,
     {| CacheService.cache := <[key := v]> (CacheService.cache c);
        CacheService.isDirty := false |},
     {| CacheService.content :=
          CacheService.Document
            (CacheService.stringify (<[key := v]> (CacheService.cache c)));
        CacheService.writable := true |})
  /\ CacheService.get
       (CacheService.load CacheService.create
          (snd (CacheService.save (CacheService.set c key v) d))) key = v.
Proof.
  intros Hw Hv. unfold CacheService.save, CacheService.set. cbn.
  rewrite Hw. split; [reflexivity|].
  unfold CacheService.load, CacheService.get. cbn.
  rewrite fold_insert_lookup, stringify_lookup, lookup_insert_eq. cbn.
  now rewrite Hv.
Qed.

(** C9, as the code has it.  For every key [url] and every scalar value
    [d]: after [set(url, d)] and [save()] on a disk that accepts the
    write, [save] reports success, and a fresh instance that runs [load()]
    on the file answers [get(url)] with [d] when [d] is a finite number, a
    string, a boolean, [null] or [undefined], and with [null] when [d] is
    [NaN] or an infinity, which [JSON.stringify] writes as [null]. *)
Theorem cache_round_trip (c : CacheService.t) (disk : CacheService.disk)
    (url : string) (d : Js.value) :
  CacheService.writable disk = true ->
  let saved := CacheService.save (CacheService.set c url d) disk in
  fst (fst saved) = true
  /\ CacheService.get (CacheService.load CacheService.create (snd saved)) url
     = match d with
       | Js.VNum Js.NaN | Js.VNum (Js.Infinity _) => Js.VNull
       | _ => d
       end.
Proof.
  intros Hw saved. subst saved.
  unfold CacheService.save, CacheService.set. cbn. rewrite Hw.
  split; [reflexivity|].
  unfold CacheService.load, CacheService.get. cbn.
  rewrite fold_insert_lookup, stringify_lookup, lookup_insert_eq.
  now destruct d as [| | b | [| negative | q] | t].
Qed.

Lemma cache_round_trip_witness :
  CacheService.get
    (CacheService.load CacheService.create
       (snd (CacheService.save
               (CacheService.set CacheService.create
                  "duration:http://example.com/movie.mp4"
                  (Js.VNum (Js.Fin (247 # 2))))
               {| CacheService.content := CacheService.Missing;
                  CacheService.writable := true |})))
    "duration:http://example.com/movie.mp4"
  = Js.VNum (Js.Fin (247 # 2)).
Proof.
  apply (cache_round_trip CacheService.create
           {| CacheService.content := CacheService.Missing;
              CacheService.writable := true |}
           "duration:http://example.com/movie.mp4"
           (Js.VNum (Js.Fin (247 # 2)))).
  reflexivity.
Defined.

(** An infinite duration passes the guard of [getVideoDuration], which
    stores it; the file holds [null] for it, and that is what a fresh
    instance answers. *)
Lemma cache_round_trip_loses_infinity :
  passes_guard (Js.Infinity false) = true
  /\ CacheService.get
       (CacheService.load CacheService.create
          (snd (CacheService.save
                  (CacheService.set CacheService.create
                     "duration:http://example.com/live.m3u8"
                     (Js.VNum (Js.Infinity false)))
                  {| CacheService.content := CacheService.Missing;
                     CacheService.writable := true |})))
       "duration:http://example.com/live.m3u8"
     = Js.VNull.
Proof. split; reflexivity. Qed.

(** A number that is not finite does not survive the file: it is written
    as [null]. *)
Lemma cache_round_trip_not_finite (c : CacheService.t) (url : string) :
  CacheService.get
    (CacheService.load CacheService.create
       (snd (CacheService.save (CacheService.set c url (Js.VNum Js.NaN))
               {| CacheService.content := CacheService.Missing;
                  CacheService.writable := true |}))) url
  = Js.VNull.
Proof.
  unfold CacheService.save, CacheService.set, CacheService.load, CacheService.get.
  cbn. now rewrite fold_insert_lookup, stringify_lookup, lookup_insert_eq.
Qed.

(** ** The task queue: the bound on running jobs *)

Lemma tally_app {A : Type} (f : A -> bool) (l1 l2 : list A) :
  tally f (l1 ++ l2) = (tally f l1 + tally f l2)%nat.
Proof. unfold tally. now rewrite List.filter_app, length_app. Qed.

Lemma tally_insert {A : Type} (f : A -> bool) (l : list A) (h : nat) (x y : A) :
  l !! h = Some x ->
  (tally f (<[h := y]> l) + (if f x then 1 else 0)
   = tally f l + (if f y then 1 else 0))%nat.
Proof.
  revert h. induction l as [|a l IH]; intros [|h] Hh; try discriminate.
  - injection Hh as ->. unfold tally. cbn.
    destruct (f x), (f y); cbn; lia.
  - specialize (IH h Hh). unfold tally in *.
    change (<[S h := y]> (a :: l)) with (a :: <[h := y]> l).
    cbn [List.filter]. destruct (f a); cbn [length]; lia.
Qed.

Lemma tally_none {A : Type} (f : A -> bool) (l : list A) :
  Forall (fun x => f x = false) l -> tally f l = 0%nat.
Proof.
  induction 1 as [|x l Hx _ IH]; [reflexivity|].
  unfold tally in *. cbn. now rewrite Hx.
Qed.

Section QueueBound.
Context {V : Type}.

Lemma continues_same (q q' : TaskQueue.t V) :
  TaskQueue.concurrency q' = TaskQueue.concurrency q ->
  TaskQueue.running q' = TaskQueue.running q ->
  TaskQueue.calls q' = TaskQueue.calls q ->
  TaskQueue.dispatched_at q' = TaskQueue.dispatched_at q ->
  continues q q'.
Proof.
  intros Hc Hr Hl Hd. repeat split; [exact Hc | exact Hr | |].
  - exists []. rewrite app_nil_r. split; [exact Hl | constructor].
  - exists []. rewrite app_nil_r. split; [exact Hd | constructor].
Qed.

Lemma continues_trans (q1 q2 q3 : TaskQueue.t V) :
  continues q1 q2 -> continues q2 q3 -> continues q1 q3.
Proof.
  intros (Hc1 & Hr1 & (e1 & He1 & Hs1) & (l1 & Hl1 & Hb1))
         (Hc2 & Hr2 & (e2 & He2 & Hs2) & (l2 & Hl2 & Hb2)).
  repeat split; [congruence | congruence | |].
  - exists (e1 ++ e2). rewrite He2, He1, app_assoc. split; [reflexivity|].
    apply Forall_app. now split.
  - exists (l1 ++ l2). rewrite Hl2, Hl1, app_assoc. split; [reflexivity|].
    apply Forall_app. split; [exact Hb1|]. now rewrite <- Hc1.
Qed.

(** An entry handed to [add] below the limit takes a slot, fails to be
    called and gives the slot back. *)
Lemma add_entry_continues (next : TaskQueue.t V -> TaskQueue.t V)
    (j : nat) (priority : Z) (q : TaskQueue.t V) :
  (forall q0, continues q0 (next q0)) ->
  (TaskQueue.running q < TaskQueue.concurrency q)%Z ->
  continues q (TaskQueue.add_with next (TaskQueue.Entry j priority) q).
Proof.
  intros Hnext Hlt.
  unfold TaskQueue.add_with, TaskQueue.poll. cbn.
  destruct (Z.geb_spec (TaskQueue.running q) (TaskQueue.concurrency q)) as [Hge|_];
    [lia|].
  unfold TaskQueue.dispatch, TaskQueue.release, TaskQueue.set_phase.
  match goal with |- continues _ (TaskQueue.with_calls _ (next ?q2)) =>
    destruct (Hnext q2) as (Hc & Hr & (extra & He & Hs) & (log & Hl & Hb));
    cbn in Hc, Hr, He, Hl, Hb
  end.
  repeat split; cbn.
  - exact Hc.
  - rewrite Hr. lia.
  - exists (TaskQueue.Settled (TaskQueue.Rejected NotAFunction) :: extra).
    split; [|now constructor].
    rewrite He, <- app_assoc.
    replace (length (TaskQueue.calls q))
      with (length (TaskQueue.calls q) + 0)%nat by lia.
    now rewrite insert_app_r.
  - exists (TaskQueue.running q :: log).
    split; [now rewrite Hl, <- app_assoc|].
    constructor; [exact Hlt | exact Hb].
Qed.

Lemma processNext_on_continues (waiting : list (nat * Z)) (q : TaskQueue.t V) :
  continues q (TaskQueue.processNext_on waiting q).
Proof.
  revert q. induction waiting as [|[j priority] rest IH]; intros q; cbn.
  - now apply continues_same.
  - destruct (Z.ltb_spec (TaskQueue.running q) (TaskQueue.concurrency q)) as [Hlt|_].
    + apply (continues_trans q (TaskQueue.with_queue rest q)).
      * now apply continues_same.
      * apply add_entry_continues; [exact IH | exact Hlt].
    + now apply continues_same.
Qed.

Lemma processNext_continues (q : TaskQueue.t V) :
  continues q (TaskQueue.processNext q).
Proof. apply processNext_on_continues. Qed.

Lemma settled_not_in_flight (extra : list (TaskQueue.phase V)) :
  Forall (fun p => is_settled p = true) extra ->
  Forall (fun p => in_flight p = false) extra.
Proof. intros Hs. eapply Forall_impl; [exact Hs|]. now intros [c|j|o]. Qed.

Lemma bounded_continues (limit : Z) (q q' : TaskQueue.t V) :
  bounded limit q -> continues q q' -> bounded limit q'.
Proof.
  intros (Hc & Hr & Hle & Hd) (Hc' & Hr' & (extra & He & Hs) & (log & Hl & Hb)).
  repeat split.
  - congruence.
  - rewrite Hr', He, tally_app, (tally_none in_flight extra), Nat.add_0_r;
      [exact Hr | now apply settled_not_in_flight].
  - now rewrite Hr'.
  - rewrite Hl. apply Forall_app. split; [exact Hd | now rewrite <- Hc].
Qed.

(** The calls of [q] with the one at [h] replaced, in a state that
    continues one with the calls of [q]. *)
Lemma tally_set_phase (q q' : TaskQueue.t V) (h : nat)
    (old new : TaskQueue.phase V) :
  continues q q' ->
  TaskQueue.calls q !! h = Some old ->
  (tally in_flight (<[h := new]> (TaskQueue.calls q'))
     + (if in_flight old then 1 else 0)
   = tally in_flight (TaskQueue.calls q) + (if in_flight new then 1 else 0))%nat.
Proof.
  intros (_ & _ & (extra & He & Hs) & _) Hold.
  rewrite He, insert_app_l by (now apply lookup_lt_Some in Hold).
  rewrite tally_app, (tally_none in_flight extra), Nat.add_0_r
    by (now apply settled_not_in_flight).
  now apply tally_insert.
Qed.

Lemma dispatch_bounded (limit : Z) (c : TaskQueue.callee) (h : nat)
    (q : TaskQueue.t V) :
  bounded limit q ->
  (TaskQueue.running q < limit)%Z ->
  TaskQueue.calls q !! h = Some (TaskQueue.Polling c) ->
  bounded limit (TaskQueue.dispatch TaskQueue.processNext c h q).
Proof.
  intros (Hc & Hr & Hle & Hd) Hlt Hh.
  unfold TaskQueue.dispatch. destruct c as [j | j priority].
  - repeat split; cbn.
    + exact Hc.
    + pose proof (tally_insert in_flight (TaskQueue.calls q) h
                    (TaskQueue.Polling (TaskQueue.Job j))
                    (TaskQueue.Awaiting j) Hh) as Ht.
      cbn in Ht. lia.
    + lia.
    + apply Forall_app. split; [exact Hd | constructor; [exact Hlt | constructor]].
  - unfold TaskQueue.release, TaskQueue.set_phase.
    match goal with |- bounded _ (TaskQueue.with_calls _ (TaskQueue.processNext ?q2)) =>
      pose proof (processNext_continues q2) as Hcont;
      pose proof (tally_set_phase q2 (TaskQueue.processNext q2) h
                    (TaskQueue.Polling (TaskQueue.Entry j priority))
                    (TaskQueue.Settled (TaskQueue.Rejected NotAFunction))
                    Hcont Hh) as Ht;
      destruct Hcont as (Hc' & Hr' & _ & (log & Hl & Hb))
    end.
    cbn in Hc', Hr', Hl, Hb, Ht.
    repeat split; cbn.
    + congruence.
    + rewrite Hr'. lia.
    + rewrite Hr'. lia.
    + rewrite Hl. apply Forall_app. split.
      * apply Forall_app. split; [exact Hd | constructor; [exact Hlt | constructor]].
      * now rewrite <- Hc.
Qed.

Lemma poll_bounded (limit : Z) (c : TaskQueue.callee) (h : nat)
    (q : TaskQueue.t V) :
  bounded limit q ->
  TaskQueue.calls q !! h = Some (TaskQueue.Polling c) ->
  bounded limit (TaskQueue.poll TaskQueue.processNext c h q).
Proof.
  intros Hq Hh. unfold TaskQueue.poll.
  destruct (Z.geb_spec (TaskQueue.running q) (TaskQueue.concurrency q)) as [_|Hlt];
    [exact Hq|].
  apply dispatch_bounded; [exact Hq | | exact Hh].
  destruct Hq as (Hc & _). lia.
Qed.

Lemma add_bounded (limit : Z) (c : TaskQueue.callee) (q : TaskQueue.t V) :
  bounded limit q -> bounded limit (TaskQueue.add c q).
Proof.
  intros (Hc & Hr & Hle & Hd). unfold TaskQueue.add, TaskQueue.add_with.
  apply poll_bounded.
  - repeat split; cbn; [exact Hc | | exact Hle | exact Hd].
    rewrite tally_app.
    change (tally in_flight [TaskQueue.Polling c]) with 0%nat. lia.
  - cbn. now apply list_lookup_middle.
Qed.

Lemma settle_bounded (limit : Z) (h : nat) (o : TaskQueue.settlement V)
    (q : TaskQueue.t V) :
  bounded limit q -> bounded limit (TaskQueue.settle h o q).
Proof.
  intros Hq. unfold TaskQueue.settle.
  destruct (TaskQueue.calls q !! h) as [[c|j|o']|] eqn:Hh; try exact Hq.
  destruct Hq as (Hc & Hr & Hle & Hd).
  unfold TaskQueue.release, TaskQueue.set_phase.
  match goal with |- bounded _ (TaskQueue.with_calls _ (TaskQueue.processNext ?q2)) =>
    assert (TaskQueue.calls q2 !! h = Some (TaskQueue.Awaiting j)) as Hh2
      by (destruct o; exact Hh);
    pose proof (processNext_continues q2) as Hcont;
    pose proof (tally_set_phase q2 (TaskQueue.processNext q2) h
                  (TaskQueue.Awaiting j)
                  (TaskQueue.Settled (TaskQueue.caught (TaskQueue.logger q) o))
                  Hcont Hh2) as Ht;
    destruct Hcont as (Hc' & Hr' & _ & (log & Hl & Hb))
  end.
  assert (forall q0 : TaskQueue.t V,
             TaskQueue.calls (match o with
                              | TaskQueue.Resolved _ => TaskQueue.count_completed q0
                              | TaskQueue.Rejected _ => TaskQueue.count_failed q0
                              end) = TaskQueue.calls q0) as Hcalls
    by (intros q0; now destruct o).
  assert (forall q0 : TaskQueue.t V,
             TaskQueue.dispatched_at
               (match o with
                | TaskQueue.Resolved _ => TaskQueue.count_completed q0
                | TaskQueue.Rejected _ => TaskQueue.count_failed q0
                end) = TaskQueue.dispatched_at q0) as Hlog
    by (intros q0; now destruct o).
  assert (forall q0 : TaskQueue.t V,
             TaskQueue.concurrency
               (match o with
                | TaskQueue.Resolved _ => TaskQueue.count_completed q0
                | TaskQueue.Rejected _ => TaskQueue.count_failed q0
                end) = TaskQueue.concurrency q0) as Hlim
    by (intros q0; now destruct o).
  assert (forall q0 : TaskQueue.t V,
             TaskQueue.running
               (match o with
                | TaskQueue.Resolved _ => TaskQueue.count_completed q0
                | TaskQueue.Rejected _ => TaskQueue.count_failed q0
                end) = TaskQueue.running q0) as Hrun
    by (intros q0; now destruct o).
  cbn in Hc', Hr', Hl, Hb, Ht.
  rewrite ?Hcalls, ?Hlog, ?Hlim, ?Hrun in *.
  repeat split; cbn.
  - congruence.
  - rewrite Hr'. lia.
  - rewrite Hr'. lia.
  - rewrite Hl. apply Forall_app. split; [exact Hd | now rewrite <- Hc].
Qed.

Lemma step_bounded (limit : Z) (q : TaskQueue.t V) (i : TaskQueue.input) :
  bounded limit q -> bounded limit (TaskQueue.step q i).
Proof.
  intros Hq. destruct i as [j | j priority | h | h o]; cbn [TaskQueue.step].
  - now apply add_bounded.
  - unfold TaskQueue.enqueue.
    eapply bounded_continues; [|apply processNext_continues].
    destruct Hq as (Hc & Hr & Hle & Hd). now repeat split.
  - unfold TaskQueue.wake.
    destruct (TaskQueue.calls q !! h) as [[c|j|o]|] eqn:Hh; try exact Hq.
    now apply poll_bounded.
  - now apply settle_bounded.
Qed.

Lemma run_bounded (limit : Z) (inputs : list TaskQueue.input)
    (q : TaskQueue.t V) :
  bounded limit q -> bounded limit (TaskQueue.run q inputs).
Proof.
  revert q. induction inputs as [|i inputs IH]; intros q Hq; [exact Hq|].
  cbn. apply IH. now apply step_bounded.
Qed.

Lemma create_bounded (limit : Z) (logger : bool) :
  (0 < limit)%Z -> bounded (V := V) limit (TaskQueue.create limit logger).
Proof. intros Hl. repeat split; cbn; [lia | constructor]. Qed.

End QueueBound.

(** C2.  Whatever is submitted to a queue created with a positive limit,
    with a logger or without one, by [add] or by [enqueue], and however
    timers fire and jobs settle, the running count is the number of jobs
    in flight and lies between 0 and the limit, and every [running++] the
    queue ever made found the count strictly below the limit. *)
Theorem running_within_limit {V : Type} (limit : Z) (logger : bool)
    (inputs : list (@TaskQueue.input V)) :
  (0 < limit)%Z ->
  let q := TaskQueue.run (TaskQueue.create limit logger) inputs in
  TaskQueue.concurrency q = limit
  /\ (0 <= TaskQueue.running q <= limit)%Z
  /\ TaskQueue.running q = Z.of_nat (tally in_flight (TaskQueue.calls q))
  /\ Forall (fun r => (r < limit)%Z) (TaskQueue.dispatched_at q).
Proof.
  intros Hl q.
  destruct (run_bounded limit inputs (TaskQueue.create limit logger)
              (create_bounded limit logger Hl)) as (Hc & Hr & Hle & Hd).
  fold q in Hc, Hr, Hle, Hd. repeat split; try assumption. lia.
Qed.

Lemma running_within_limit_witness :
  let q := TaskQueue.run (TaskQueue.create 2 true)
             [TaskQueue.Add 0; TaskQueue.Add 1; TaskQueue.Add 2;
              TaskQueue.Enqueue 3 5; TaskQueue.Timer 2;
              TaskQueue.Settle 0 (TaskQueue.Resolved tt); TaskQueue.Timer 2;
              TaskQueue.Settle 1 (TaskQueue.Rejected Unreachable)] in
  TaskQueue.concurrency q = 2%Z
  /\ (0 <= TaskQueue.running q <= 2)%Z
  /\ TaskQueue.running q = Z.of_nat (tally in_flight (TaskQueue.calls q))
  /\ Forall (fun r => (r < 2)%Z) (TaskQueue.dispatched_at q).
Proof.
  apply (running_within_limit (V := unit) 2 true). reflexivity.
Defined.

(** ** The task queue: what the caller of [add] gets back *)

Section QueueHandles.
Context {V : Type}.

Lemma continues_lookup (q q' : TaskQueue.t V) (h : nat) (p : TaskQueue.phase V) :
  continues q q' ->
  TaskQueue.calls q !! h = Some p ->
  TaskQueue.calls q' !! h = Some p.
Proof.
  intros (_ & _ & (extra & He & _) & _) Hh.
  rewrite He, lookup_app_l; [exact Hh | now apply lookup_lt_Some in Hh].
Qed.

Lemma set_phase_lookup_ne (q : TaskQueue.t V) (h h' : nat)
    (p : TaskQueue.phase V) :
  h' <> h ->
  TaskQueue.calls (TaskQueue.set_phase h' p q) !! h = TaskQueue.calls q !! h.
Proof. intros Hne. cbn. now apply list_lookup_insert_ne. Qed.

Lemma set_phase_lookup_eq (q : TaskQueue.t V) (h : nat) (p : TaskQueue.phase V) :
  (h < length (TaskQueue.calls q))%nat ->
  TaskQueue.calls (TaskQueue.set_phase h p q) !! h = Some p.
Proof. intros Hlt. cbn. now apply list_lookup_insert_eq. Qed.

(** A dispatch of the call [h'] leaves every other call as it was. *)
Lemma dispatch_lookup_ne (c : TaskQueue.callee) (h h' : nat)
    (q : TaskQueue.t V) (p : TaskQueue.phase V) :
  h' <> h ->
  TaskQueue.calls q !! h = Some p ->
  TaskQueue.calls (TaskQueue.dispatch TaskQueue.processNext c h' q) !! h = Some p.
Proof.
  intros Hne Hh. unfold TaskQueue.dispatch. destruct c as [j | j priority].
  - now rewrite set_phase_lookup_ne.
  - rewrite set_phase_lookup_ne by exact Hne. unfold TaskQueue.release.
    eapply continues_lookup; [apply processNext_continues | exact Hh].
Qed.

Lemma poll_lookup_ne (c : TaskQueue.callee) (h h' : nat)
    (q : TaskQueue.t V) (p : TaskQueue.phase V) :
  h' <> h ->
  TaskQueue.calls q !! h = Some p ->
  TaskQueue.calls (TaskQueue.poll TaskQueue.processNext c h' q) !! h = Some p.
Proof.
  intros Hne Hh. unfold TaskQueue.poll.
  destruct (TaskQueue.running q >=? TaskQueue.concurrency q)%Z; [exact Hh|].
  now apply dispatch_lookup_ne.
Qed.

Lemma settle_lookup_ne (h h' : nat) (o : TaskQueue.settlement V)
    (q : TaskQueue.t V) (p : TaskQueue.phase V) :
  h' <> h ->
  TaskQueue.calls q !! h = Some p ->
  TaskQueue.calls (TaskQueue.settle h' o q) !! h = Some p.
Proof.
  intros Hne Hh. unfold TaskQueue.settle.
  destruct (TaskQueue.calls q !! h') as [[c|j|o']|]; try exact Hh.
  rewrite set_phase_lookup_ne by exact Hne. unfold TaskQueue.release.
  eapply continues_lookup; [apply processNext_continues|].
  destruct o; exact Hh.
Qed.

(** The logger of a queue is the one it was created with. *)
Lemma processNext_on_logger (waiting : list (nat * Z)) (q : TaskQueue.t V) :
  TaskQueue.logger (TaskQueue.processNext_on waiting q) = TaskQueue.logger q.
Proof.
  revert q. induction waiting as [|[j priority] rest IH]; intros q;
    [reflexivity|].
  cbn [TaskQueue.processNext_on].
  destruct (TaskQueue.running q <? TaskQueue.concurrency q)%Z; [|reflexivity].
  unfold TaskQueue.add_with, TaskQueue.poll.
  match goal with |- context [if ?b then _ else _] => destruct b end;
    [reflexivity|].
  unfold TaskQueue.dispatch, TaskQueue.release. cbn. now rewrite IH.
Qed.

Lemma step_logger (q : TaskQueue.t V) (i : TaskQueue.input) :
  TaskQueue.logger (TaskQueue.step q i) = TaskQueue.logger q.
Proof.
  assert (forall c h (q0 : TaskQueue.t V),
             TaskQueue.logger (TaskQueue.poll TaskQueue.processNext c h q0)
             = TaskQueue.logger q0) as Hpoll.
  { intros c h q0. unfold TaskQueue.poll.
    destruct (TaskQueue.running q0 >=? TaskQueue.concurrency q0)%Z;
      [reflexivity|].
    unfold TaskQueue.dispatch, TaskQueue.release, TaskQueue.processNext.
    destruct c as [j | j priority]; cbn; [reflexivity|].
    now rewrite processNext_on_logger. }
  destruct i as [j | j priority | h | h o]; cbn [TaskQueue.step].
  - unfold TaskQueue.add, TaskQueue.add_with. now rewrite Hpoll.
  - unfold TaskQueue.enqueue, TaskQueue.processNext.
    now rewrite processNext_on_logger.
  - unfold TaskQueue.wake.
    destruct (TaskQueue.calls q !! h) as [[c|j|o]|]; try reflexivity.
    apply Hpoll.
  - unfold TaskQueue.settle.
    destruct (TaskQueue.calls q !! h) as [[c|j|o']|]; try reflexivity.
    unfold TaskQueue.release, TaskQueue.processNext. cbn.
    rewrite processNext_on_logger. now destruct o.
Qed.

Lemma run_logger (inputs : list TaskQueue.input) (q : TaskQueue.t V) :
  TaskQueue.logger (TaskQueue.run q inputs) = TaskQueue.logger q.
Proof.
  revert q. induction inputs as [|i inputs IH]; intros q; [reflexivity|].
  unfold TaskQueue.run in *. cbn [fold_left]. now rewrite IH, step_logger.
Qed.

(** The promise of [add] settles as the job does, but for what [catch]
    does to a rejection. *)
Lemma settle_mirrors (h j : nat) (o : TaskQueue.settlement V)
    (q : TaskQueue.t V) :
  TaskQueue.calls q !! h = Some (TaskQueue.Awaiting j) ->
  TaskQueue.calls (TaskQueue.settle h o q) !! h
  = Some (TaskQueue.Settled (TaskQueue.caught (TaskQueue.logger q) o)).
Proof.
  intros Hh. unfold TaskQueue.settle. rewrite Hh.
  apply set_phase_lookup_eq. unfold TaskQueue.release.
  match goal with |- (_ < length (TaskQueue.calls (TaskQueue.processNext ?q2)))%nat =>
    assert (TaskQueue.calls q2 !! h = Some (TaskQueue.Awaiting j)) as Hh2
      by (destruct o; exact Hh);
    pose proof (continues_lookup q2 _ h _ (processNext_continues q2) Hh2) as Hh3
  end.
  now apply lookup_lt_Some in Hh3.
Qed.

(** What one step does to the call [h], by the phase it is in. *)
Lemma step_phase (q : TaskQueue.t V) (i : TaskQueue.input) (h : nat)
    (p : TaskQueue.phase V) :
  TaskQueue.calls q !! h = Some p ->
  match p with
  | TaskQueue.Settled o =>
      TaskQueue.calls (TaskQueue.step q i) !! h = Some (TaskQueue.Settled o)
  | TaskQueue.Awaiting j =>
      match i with
      | TaskQueue.Settle h' o =>
          if decide (h' = h)
          then TaskQueue.calls (TaskQueue.step q i) !! h
               = Some (TaskQueue.Settled
                         (TaskQueue.caught (TaskQueue.logger q) o))
          else TaskQueue.calls (TaskQueue.step q i) !! h = Some (TaskQueue.Awaiting j)
      | _ => TaskQueue.calls (TaskQueue.step q i) !! h = Some (TaskQueue.Awaiting j)
      end
  | TaskQueue.Polling (TaskQueue.Job j) =>
      TaskQueue.calls (TaskQueue.step q i) !! h
        = Some (TaskQueue.Polling (TaskQueue.Job j))
      \/ TaskQueue.calls (TaskQueue.step q i) !! h = Some (TaskQueue.Awaiting j)
  | TaskQueue.Polling (TaskQueue.Entry _ _) => True
  end.
Proof.
  intros Hh.
  assert (forall c, TaskQueue.calls (TaskQueue.add c q) !! h = Some p) as Hadd.
  { intros c. unfold TaskQueue.add, TaskQueue.add_with.
    apply poll_lookup_ne.
    - apply lookup_lt_Some in Hh. lia.
    - cbn. rewrite lookup_app_l; [exact Hh | now apply lookup_lt_Some in Hh]. }
  assert (forall j priority,
             TaskQueue.calls (TaskQueue.enqueue j priority q) !! h = Some p) as Henq.
  { intros j priority. unfold TaskQueue.enqueue.
    eapply continues_lookup; [apply processNext_continues | exact Hh]. }
  assert (forall h', h' <> h ->
             TaskQueue.calls (TaskQueue.wake h' q) !! h = Some p) as Hwake.
  { intros h' Hne. unfold TaskQueue.wake.
    destruct (TaskQueue.calls q !! h') as [[c|j|o]|]; try exact Hh.
    now apply poll_lookup_ne. }
  destruct p as [[j | j priority] | j | o]; [| exact I | |].
  - destruct i as [j' | j' priority | h' | h' o]; cbn [TaskQueue.step].
    + left. apply Hadd.
    + left. apply Henq.
    + destruct (decide (h' = h)) as [->|Hne]; [|left; now apply Hwake].
      unfold TaskQueue.wake, TaskQueue.poll. rewrite Hh.
      destruct (TaskQueue.running q >=? TaskQueue.concurrency q)%Z;
        [left; exact Hh|].
      right. unfold TaskQueue.dispatch. apply set_phase_lookup_eq.
      cbn. now apply lookup_lt_Some in Hh.
    + destruct (decide (h' = h)) as [->|Hne].
      * left. unfold TaskQueue.settle. now rewrite Hh.
      * left. now apply settle_lookup_ne.
  - destruct i as [j' | j' priority | h' | h' o]; cbn [TaskQueue.step].
    + apply Hadd.
    + apply Henq.
    + destruct (decide (h' = h)) as [->|Hne]; [|now apply Hwake].
      unfold TaskQueue.wake. now rewrite Hh.
    + destruct (decide (h' = h)) as [->|Hne].
      * now apply (settle_mirrors h j).
      * now apply settle_lookup_ne.
  - destruct i as [j' | j' priority | h' | h' o']; cbn [TaskQueue.step].
    + apply Hadd.
    + apply Henq.
    + destruct (decide (h' = h)) as [->|Hne]; [|now apply Hwake].
      unfold TaskQueue.wake. now rewrite Hh.
    + destruct (decide (h' = h)) as [->|Hne].
      * unfold TaskQueue.settle. now rewrite Hh.
      * now apply settle_lookup_ne.
Qed.

(** Once settled, the promise of a call keeps its settlement. *)
Lemma settled_for_good (inputs : list TaskQueue.input) (q : TaskQueue.t V)
    (h : nat) (o : TaskQueue.settlement V) :
  TaskQueue.calls q !! h = Some (TaskQueue.Settled o) ->
  TaskQueue.calls (TaskQueue.run q inputs) !! h = Some (TaskQueue.Settled o).
Proof.
  revert q. induction inputs as [|i inputs IH]; intros q Hh; [exact Hh|].
  cbn. apply IH. exact (step_phase q i h _ Hh).
Qed.

(** [add(job)]: the call is given the next handle, and it is polling or
    has the job in flight. *)
Lemma add_job_handle (j : nat) (q : TaskQueue.t V) :
  let h := length (TaskQueue.calls q) in
  TaskQueue.calls (TaskQueue.add (TaskQueue.Job j) q) !! h
    = Some (if (TaskQueue.running q >=? TaskQueue.concurrency q)%Z
            then TaskQueue.Polling (TaskQueue.Job j)
            else TaskQueue.Awaiting j).
Proof.
  intros h. unfold TaskQueue.add, TaskQueue.add_with, TaskQueue.poll.
  cbn [TaskQueue.running TaskQueue.concurrency TaskQueue.with_calls
       TaskQueue.count_total TaskQueue.with_stats].
  destruct (TaskQueue.running q >=? TaskQueue.concurrency q)%Z.
  - cbn. now apply list_lookup_middle.
  - unfold TaskQueue.dispatch. apply set_phase_lookup_eq.
    cbn. rewrite length_app. cbn. lia.
Qed.

Lemma run_snoc (q : TaskQueue.t V) (inputs : list TaskQueue.input)
    (i : TaskQueue.input) :
  TaskQueue.run q (inputs ++ [i]) = TaskQueue.step (TaskQueue.run q inputs) i.
Proof. unfold TaskQueue.run. now rewrite fold_left_app. Qed.

End QueueHandles.

(** The promise that [add(job)] returns mirrors the job, but for what
    the [catch] of [add] does to a rejection.  Whatever happens to the
    queue after the call, the call is still polling for a slot, or has its
    own job in flight, or is settled.  When it is settled, it was settled
    when its job settled while it was in flight; it is settled with the
    outcome of the job, except that on a queue with a logger a job that
    rejects with [null] or [undefined] leaves the call rejected with the
    [TypeError] of reading [error.message]; and it is so for good. *)
Theorem add_handle_mirrors_job {V : Type} (q : TaskQueue.t V) (j : nat)
    (inputs : list TaskQueue.input) :
  let h := length (TaskQueue.calls q) in
  let q' := TaskQueue.run (TaskQueue.add (TaskQueue.Job j) q) inputs in
  TaskQueue.calls q' !! h = Some (TaskQueue.Polling (TaskQueue.Job j))
  \/ TaskQueue.calls q' !! h = Some (TaskQueue.Awaiting j)
  \/ exists o before after,
       inputs = before ++ TaskQueue.Settle h o :: after
       /\ TaskQueue.calls
            (TaskQueue.run (TaskQueue.add (TaskQueue.Job j) q) before) !! h
          = Some (TaskQueue.Awaiting j)
       /\ TaskQueue.calls q' !! h
          = Some (TaskQueue.Settled
                    (match o with
                     | TaskQueue.Rejected Nullish =>
                         if TaskQueue.logger q
                         then TaskQueue.Rejected NoMessage
                         else o
                     | _ => o
                     end))
       /\ forall more,
            TaskQueue.calls (TaskQueue.run q' more) !! h
            = TaskQueue.calls q' !! h.
Proof.
  intros h q'. subst q'.
  change (match ?o with
          | TaskQueue.Rejected Nullish =>
              if TaskQueue.logger q then TaskQueue.Rejected NoMessage else ?o
          | _ => ?o
          end) with (TaskQueue.caught (TaskQueue.logger q) o).
  induction inputs as [|i inputs IH] using rev_ind.
  - cbn. pose proof (add_job_handle j q) as Hh. cbn in Hh. fold h in Hh.
    destruct (TaskQueue.running q >=? TaskQueue.concurrency q)%Z; auto.
  - rewrite run_snoc.
    destruct IH as [Hp | [Ha | (o & before & after & Hin & Hbefore & Hs & _)]].
    + pose proof (step_phase _ i h _ Hp) as Hstep. cbn in Hstep.
      destruct Hstep; auto.
    + pose proof (step_phase _ i h _ Ha) as Hstep. cbn beta iota in Hstep.
      destruct i as [j' | j' priority | h' | h' o]; auto.
      destruct (decide (h' = h)) as [->|Hne]; auto.
      rewrite run_logger in Hstep.
      pose proof (step_logger q (TaskQueue.Add j)) as Hl.
      cbn [TaskQueue.step] in Hl. rewrite Hl in Hstep.
      right. right. exists o, inputs, []. repeat split; try assumption.
      intros more. rewrite Hstep. now apply settled_for_good.
    + pose proof (step_phase _ i h _ Hs) as Hstep. cbn in Hstep.
      right. right. exists o, before, (after ++ [i]).
      repeat split; try assumption.
      * now rewrite Hin, <- app_assoc.
      * intros more. rewrite Hstep. now apply settled_for_good.
Qed.

(** A job that rejects with [null] on a queue with a logger: the call
    is rejected with the [TypeError], and the task is counted as failed;
    without a logger the call is rejected with [null]. *)
Example add_handle_of_null_rejection :
  TaskQueue.calls
    (TaskQueue.run (V := unit) (TaskQueue.create 2 true)
       [TaskQueue.Add 0; TaskQueue.Settle 0 (TaskQueue.Rejected Nullish)])
  = [TaskQueue.Settled (TaskQueue.Rejected NoMessage)]
  /\ TaskQueue.calls
       (TaskQueue.run (V := unit) (TaskQueue.create 2 false)
          [TaskQueue.Add 0; TaskQueue.Settle 0 (TaskQueue.Rejected Nullish)])
     = [TaskQueue.Settled (TaskQueue.Rejected Nullish)].
Proof. split; reflexivity. Qed.

(** ** The batch: the queue of a request *)

Lemma tally_le_length {A : Type} (f : A -> bool) (l : list A) :
  (tally f l <= length l)%nat.
Proof. unfold tally. apply List.filter_length_le. Qed.

Lemma tally_all {A : Type} (f : A -> bool) (l : list A) :
  forallb f l = true -> tally f l = length l.
Proof. intros Hall. unfold tally. now rewrite List.forallb_filter_id. Qed.

Lemma tally_lt_length {A : Type} (f : A -> bool) (l : list A) (h : nat) (x : A) :
  l !! h = Some x -> f x = false -> (tally f l < length l)%nat.
Proof.
  revert h. induction l as [|a l IH]; intros [|h] Hh Hx; try discriminate.
  - injection Hh as ->. unfold tally. cbn [List.filter]. rewrite Hx.
    pose proof (List.filter_length_le f l). cbn [length]. lia.
  - specialize (IH h Hh Hx). unfold tally in *. cbn [List.filter].
    destruct (f a); cbn [length]; lia.
Qed.

Section RequestQueue.

Lemma processNext_idle (q : TaskQueue.t unit) :
  TaskQueue.queue q = [] -> TaskQueue.processNext q = q.
Proof. intros Hq. unfold TaskQueue.processNext. now rewrite Hq. Qed.

(** A rejection stays a rejection in [catch]. *)
Lemma caught_rejected {V : Type} (logger : bool) (e : error) :
  exists e', TaskQueue.caught (V := V) logger (TaskQueue.Rejected e)
             = TaskQueue.Rejected e'.
Proof. destruct e, logger; cbn; eauto. Qed.

Lemma settle_idle (h j : nat) (o : TaskQueue.settlement unit)
    (q : TaskQueue.t unit) :
  TaskQueue.queue q = [] ->
  TaskQueue.calls q !! h = Some (TaskQueue.Awaiting j) ->
  TaskQueue.calls (TaskQueue.settle h o q)
    = <[h := TaskQueue.Settled (TaskQueue.caught (TaskQueue.logger q) o)]>
        (TaskQueue.calls q)
  /\ TaskQueue.queue (TaskQueue.settle h o q) = [].
Proof.
  intros Hq Hh. unfold TaskQueue.settle, TaskQueue.release. rewrite Hh.
  rewrite processNext_idle by (destruct o; exact Hq).
  destruct o; cbn; now rewrite Hq.
Qed.

Lemma wake_idle (h : nat) (q : TaskQueue.t unit) :
  jobs_only q ->
  TaskQueue.queue (TaskQueue.wake h q) = []
  /\ (TaskQueue.calls (TaskQueue.wake h q) = TaskQueue.calls q
      \/ exists j, TaskQueue.calls q !! h
                     = Some (TaskQueue.Polling (TaskQueue.Job j))
                   /\ TaskQueue.calls (TaskQueue.wake h q)
                     = <[h := TaskQueue.Awaiting j]> (TaskQueue.calls q)).
Proof.
  intros [Hq Hjobs]. unfold TaskQueue.wake.
  destruct (TaskQueue.calls q !! h) as [[[j | j priority] | j | o]|] eqn:Hh;
    try (split; [exact Hq | now left]).
  - unfold TaskQueue.poll.
    destruct (TaskQueue.running q >=? TaskQueue.concurrency q)%Z;
      [split; [exact Hq | now left]|].
    cbn. split; [exact Hq|]. right. now exists j.
  - now destruct (Hjobs h j priority).
Qed.

Lemma add_job_idle (j : nat) (q : TaskQueue.t unit) :
  TaskQueue.queue q = [] ->
  TaskQueue.queue (TaskQueue.add (TaskQueue.Job j) q) = []
  /\ TaskQueue.concurrency (TaskQueue.add (TaskQueue.Job j) q)
     = TaskQueue.concurrency q
  /\ exists p, TaskQueue.calls (TaskQueue.add (TaskQueue.Job j) q)
                = TaskQueue.calls q ++ [p]
              /\ (p = TaskQueue.Polling (TaskQueue.Job j)
                  \/ p = TaskQueue.Awaiting j).
Proof.
  intros Hq. unfold TaskQueue.add, TaskQueue.add_with, TaskQueue.poll. cbn.
  destruct (TaskQueue.running q >=? TaskQueue.concurrency q)%Z; cbn.
  - split; [exact Hq | split; [reflexivity|]].
    exists (TaskQueue.Polling (TaskQueue.Job j)). split; [reflexivity | now left].
  - split; [exact Hq | split; [reflexivity|]].
    exists (TaskQueue.Awaiting j). split; [|now right].
    replace (length (TaskQueue.calls q))
      with (length (TaskQueue.calls q) + 0)%nat by lia.
    now rewrite insert_app_r.
Qed.

Lemma submit_all (js : list nat) (q : TaskQueue.t unit) :
  TaskQueue.queue q = [] ->
  Forall unsettled (TaskQueue.calls q) ->
  Forall job_call (TaskQueue.calls q) ->
  let q' := fold_left (fun q j => TaskQueue.add (TaskQueue.Job j) q) js q in
  TaskQueue.queue q' = []
  /\ TaskQueue.concurrency q' = TaskQueue.concurrency q
  /\ length (TaskQueue.calls q') = (length (TaskQueue.calls q) + length js)%nat
  /\ Forall unsettled (TaskQueue.calls q')
  /\ Forall job_call (TaskQueue.calls q').
Proof.
  revert q. induction js as [|j js IH]; intros q Hq Hu Hj; cbn.
  - repeat split; try assumption. lia.
  - destruct (add_job_idle j q Hq) as (Hq1 & Hc1 & p & Hp & Hkind).
    destruct (IH (TaskQueue.add (TaskQueue.Job j) q)) as (Hq2 & Hc2 & Hl2 & Hu2 & Hj2).
    + exact Hq1.
    + rewrite Hp. apply Forall_app. split; [exact Hu|].
      constructor; [|constructor]. now destruct Hkind as [-> | ->].
    + rewrite Hp. apply Forall_app. split; [exact Hj|].
      constructor; [|constructor]. now destruct Hkind as [-> | ->].
    + repeat split; try assumption; [congruence|].
      rewrite Hl2, Hp, length_app. cbn. lia.
Qed.

End RequestQueue.

(** ** The batch: accounting *)

Section Accounting.

Lemma jobs_only_insert (q : TaskQueue.t unit) (h : nat)
    (p : TaskQueue.phase unit) (q' : TaskQueue.t unit) :
  jobs_only q ->
  job_call p ->
  TaskQueue.queue q' = [] ->
  TaskQueue.calls q' = <[h := p]> (TaskQueue.calls q) ->
  jobs_only q'.
Proof.
  intros [Hq Hjobs] Hp Hq' Hcalls. split; [exact Hq'|].
  intros h' j priority Hh'. rewrite Hcalls in Hh'.
  destruct (decide (h = h')) as [->|Hne].
  - destruct (decide (h' < length (TaskQueue.calls q))%nat) as [Hlt|Hge].
    + rewrite list_lookup_insert_eq in Hh' by exact Hlt.
      injection Hh' as ->. exact Hp.
    + rewrite list_insert_ge in Hh' by lia. now apply Hjobs in Hh'.
  - rewrite list_lookup_insert_ne in Hh' by exact Hne. now apply Hjobs in Hh'.
Qed.

Lemma promise_all_orderly (strict : bool) (s : VideoRoutes.t) :
  orderly strict s -> orderly strict (VideoRoutes.promise_all s).
Proof.
  intros Hs. pose proof Hs as (Hjobs & Hlen & Hacc & Hproc & Hstream).
  unfold VideoRoutes.promise_all.
  destruct (VideoRoutes.handler s); try exact Hs.
  destruct (omap VideoRoutes.rejection (TaskQueue.calls (VideoRoutes.q s)));
    [|exact Hs].
  destruct (forallb VideoRoutes.resolved (TaskQueue.calls (VideoRoutes.q s)))
    eqn:Hall; [|exact Hs].
  split; [exact Hjobs | split; [exact Hlen | split; [exact Hacc | split; [exact Hproc|]]]].
  cbn. apply Forall_app. split; [exact Hstream|].
  constructor; [|constructor]. cbn.
  destruct Hacc as (Ht & _). cbn in Ht.
  split; [exact Ht|]. rewrite Hproc, tally_all by exact Hall. now rewrite Hlen.
Qed.

Lemma orderly_with_q (strict : bool) (s : VideoRoutes.t) (q' : TaskQueue.t unit) :
  orderly strict s ->
  jobs_only q' ->
  length (TaskQueue.calls q') = length (TaskQueue.calls (VideoRoutes.q s)) ->
  tally VideoRoutes.resolved (TaskQueue.calls q')
    = tally VideoRoutes.resolved (TaskQueue.calls (VideoRoutes.q s)) ->
  orderly strict (VideoRoutes.with_q q' s).
Proof.
  intros (Hjobs & Hlen & Hacc & Hproc & Hstream) Hjobs' Hlen' Htally.
  unfold orderly. cbn [VideoRoutes.with_q VideoRoutes.q VideoRoutes.files
                       VideoRoutes.counters VideoRoutes.stream].
  rewrite Hlen', Htally.
  split; [exact Hjobs' | split; [exact Hlen | split; [exact Hacc | split; [exact Hproc | exact Hstream]]]].
Qed.

Lemma orderly_sendEvent (strict : bool) (s : VideoRoutes.t) (e : event) :
  orderly strict s ->
  accounted strict (Z.of_nat (length (VideoRoutes.files s))) e ->
  orderly strict (VideoRoutes.sendEvent e s).
Proof.
  intros (Hjobs & Hlen & Hacc & Hproc & Hstream) He.
  split; [exact Hjobs | split; [exact Hlen | split; [exact Hacc | split; [exact Hproc|]]]].
  cbn. apply Forall_app. split; [exact Hstream | now repeat constructor].
Qed.

Lemma tally_resolved_insert (l : list (TaskQueue.phase unit)) (h : nat)
    (old new : TaskQueue.phase unit) :
  l !! h = Some old ->
  VideoRoutes.resolved old = false ->
  tally VideoRoutes.resolved (<[h := new]> l)
  = (tally VideoRoutes.resolved l
     + (if VideoRoutes.resolved new then 1 else 0))%nat.
Proof.
  intros Hh Hold.
  pose proof (tally_insert VideoRoutes.resolved l h old new Hh) as Ht.
  rewrite Hold in Ht. lia.
Qed.

(** The counters after the closure, against those before it. *)
Lemma on_result_counters (file : string) (result : VideoService.outcome)
    (s : VideoRoutes.t) :
  let c := VideoRoutes.counters s in
  let c' := VideoRoutes.counters (VideoRoutes.on_result file result s) in
  total c' = total c
  /\ processed c' = (processed c + 1)%Z
  /\ (success c <= success c')%Z /\ (failed c <= failed c')%Z
  /\ (success c' + failed c' <= success c + failed c + 1)%Z
  /\ ((VideoService.success result = true -> VideoService.skipped result = false) ->
      (success c' + failed c' = success c + failed c + 1)%Z).
Proof.
  unfold VideoRoutes.on_result.
  destruct (VideoService.success result) eqn:Hsucc;
    [destruct (VideoService.skipped result) eqn:Hskip|]; cbn;
    repeat split; try lia; intros Hc; try lia;
    specialize (Hc eq_refl); discriminate.
Qed.

Lemma on_result_rest (file : string) (result : VideoService.outcome)
    (s : VideoRoutes.t) :
  let s' := VideoRoutes.on_result file result s in
  VideoRoutes.q s' = VideoRoutes.q s
  /\ VideoRoutes.files s' = VideoRoutes.files s
  /\ VideoRoutes.handler s' = VideoRoutes.handler s
  /\ (VideoRoutes.stream s'
        = VideoRoutes.stream s ++ [Progress (VideoRoutes.counters s')]
      \/ VideoRoutes.stream s'
        = VideoRoutes.stream s ++ [Failed file; Progress (VideoRoutes.counters s')]).
Proof.
  unfold VideoRoutes.on_result.
  destruct (VideoService.success result);
    [destruct (VideoService.skipped result)|]; cbn;
    repeat split; try (now left).
  right. now rewrite <- app_assoc.
Qed.

Lemma step_orderly (strict : bool) (s : VideoRoutes.t) (i : VideoRoutes.input) :
  orderly strict s ->
  (strict = true -> counted i) ->
  orderly strict (VideoRoutes.step s i).
Proof.
  intros Hs Hi. pose proof Hs as (Hjobs & Hlen & Hacc & Hproc & Hstream).
  destruct i as [h | h m l | h result | h e]; cbn [VideoRoutes.step].
  - (* a timer fires *)
    destruct (wake_idle h (VideoRoutes.q s) Hjobs) as [Hq' [Hsame | (j & Hh & Hnew)]].
    + apply orderly_with_q; [exact Hs | | now rewrite Hsame | now rewrite Hsame].
      split; [exact Hq'|]. rewrite Hsame. apply Hjobs.
    + apply orderly_with_q; [exact Hs | | |].
      * now apply (jobs_only_insert (VideoRoutes.q s) h (TaskQueue.Awaiting j)
                     _ Hjobs I Hq' Hnew).
      * now rewrite Hnew, length_insert.
      * rewrite Hnew, (tally_resolved_insert _ h _ _ Hh eq_refl). cbn. lia.
  - (* a job sends a log line *)
    destruct (TaskQueue.calls (VideoRoutes.q s) !! h) as [[c|j|o]|]; try exact Hs.
    now apply orderly_sendEvent.
  - (* processVideo returns *)
    destruct (TaskQueue.calls (VideoRoutes.q s) !! h) as [[c|j|o]|] eqn:Hh;
      try exact Hs.
    destruct (VideoRoutes.files s !! j) as [file|]; [|exact Hs].
    apply promise_all_orderly.
    destruct (on_result_rest file result s) as (Hq1 & Hfiles1 & _ & Hstream1).
    destruct (on_result_counters file result s)
      as (Htot1 & Hproc1 & Hs1 & Hf1 & Hsum1 & Hexact1).
    set (s1 := VideoRoutes.on_result file result s) in *. clearbody s1.
    destruct Hjobs as [Hq Hj].
    rewrite Hq1.
    destruct (settle_idle h j (TaskQueue.Resolved tt) (VideoRoutes.q s) Hq Hh)
      as [Hcalls Hq'].
    cbn [TaskQueue.caught] in Hcalls.
    pose proof (tally_resolved_insert _ h _
                  (TaskQueue.Settled (TaskQueue.Resolved tt)) Hh eq_refl) as Ht.
    pose proof (tally_lt_length VideoRoutes.resolved _ h _ Hh eq_refl) as Hlt.
    cbn in Ht.
    destruct Hacc as (Ht0 & Hs0 & Hf0 & Hsum & Hle & Hstrict).
    cbn [total processed success failed] in *.
    assert (accounted strict (Z.of_nat (length (VideoRoutes.files s)))
              (Progress (VideoRoutes.counters s1))) as Hsnap.
    { cbn. rewrite Htot1, Hproc1, Hproc.
      repeat split; try lia. intros Hst. specialize (Hstrict Hst).
      rewrite Hexact1; [lia|]. exact (Hi Hst). }
    unfold orderly.
    cbn [VideoRoutes.with_q VideoRoutes.q VideoRoutes.files
         VideoRoutes.counters VideoRoutes.stream].
    rewrite Hfiles1, Hcalls, length_insert, Ht.
    split; [|split; [exact Hlen | split; [|split]]].
    + apply (jobs_only_insert (VideoRoutes.q s) h
               (TaskQueue.Settled (TaskQueue.Resolved tt)) _
               (conj Hq Hj) I Hq' Hcalls).
    + cbn. rewrite Htot1. cbn in Hsnap. rewrite Htot1, Hproc1, Hproc in Hsnap.
      destruct Hsnap as (_ & ? & ? & ? & ? & Hst').
      repeat split; try lia. intros Hst. specialize (Hst' Hst). lia.
    + rewrite Hproc1, Hproc. lia.
    + destruct Hstream1 as [-> | ->]; apply Forall_app; (split; [exact Hstream|]).
      * constructor; [exact Hsnap | constructor].
      * constructor; [exact I | constructor; [exact Hsnap | constructor]].
  - (* processVideo throws *)
    destruct (TaskQueue.calls (VideoRoutes.q s) !! h) as [[c|j|o]|] eqn:Hh;
      try exact Hs.
    apply promise_all_orderly.
    destruct Hjobs as [Hq Hj].
    destruct (settle_idle h j (TaskQueue.Rejected e) (VideoRoutes.q s) Hq Hh)
      as [Hcalls Hq'].
    destruct (caught_rejected (V := unit)
                (TaskQueue.logger (VideoRoutes.q s)) e) as [e' He'].
    rewrite He' in Hcalls.
    apply orderly_with_q; [exact Hs | | |].
    + now apply (jobs_only_insert (VideoRoutes.q s) h
                   (TaskQueue.Settled (TaskQueue.Rejected e')) _
                   (conj Hq Hj) I Hq' Hcalls).
    + now rewrite Hcalls, length_insert.
    + rewrite Hcalls, (tally_resolved_insert _ h _ _ Hh eq_refl). cbn. lia.
Qed.

Lemma run_orderly (strict : bool) (inputs : list VideoRoutes.input)
    (s : VideoRoutes.t) :
  orderly strict s ->
  (strict = true -> Forall counted inputs) ->
  orderly strict (VideoRoutes.run s inputs).
Proof.
  revert s. induction inputs as [|i inputs IH]; intros s Hs Hc; [exact Hs|].
  cbn. apply IH.
  - apply step_orderly; [exact Hs|].
    intros Hst. specialize (Hc Hst). now inversion Hc.
  - intros Hst. specialize (Hc Hst). now inversion Hc.
Qed.

Lemma start_with_orderly (logger : bool) (strict : bool) (cfg : VideoRoutes.settings)
    (requested : option Z) (batch : list string) :
  orderly strict (VideoRoutes.start_with logger cfg requested batch).
Proof.
  unfold VideoRoutes.start_with. apply promise_all_orderly.
  cbn [VideoRoutes.q].
  destruct (submit_all (seq 0 (length batch))
              (TaskQueue.create
                 (VideoRoutes.resolve_concurrency cfg requested (length batch))
                 logger)
              eq_refl (List.Forall_nil _) (List.Forall_nil _))
    as (Hq & _ & Hlen & Hunsettled & Hjobs).
  rewrite length_seq in Hlen. cbn in Hlen.
  set (q1 := fold_left (fun q j => TaskQueue.add (TaskQueue.Job j) q)
               (seq 0 (length batch))
               (TaskQueue.create
                  (VideoRoutes.resolve_concurrency cfg requested (length batch))
                  logger))
    in *.
  assert (tally VideoRoutes.resolved (TaskQueue.calls q1) = 0%nat) as Hnone.
  { apply tally_none. eapply Forall_impl; [exact Hunsettled|].
    now intros [c|j|[v|e]]. }
  unfold orderly.
  cbn [VideoRoutes.with_q VideoRoutes.q VideoRoutes.files
       VideoRoutes.counters VideoRoutes.stream].
  rewrite Hnone, Hlen.
  split; [|split; [reflexivity | split; [|split; [reflexivity|]]]].
  - split; [exact Hq|]. intros h j priority Hh.
    rewrite Forall_lookup in Hjobs. exact (Hjobs _ _ Hh).
  - cbn. repeat split; lia.
  - constructor; [exact I | constructor].
Qed.

Lemma start_orderly (strict : bool) (cfg : VideoRoutes.settings)
    (requested : option Z) (batch : list string) :
  orderly strict (VideoRoutes.start cfg requested batch).
Proof. apply start_with_orderly. Qed.

End Accounting.

Lemma step_files (s : VideoRoutes.t) (i : VideoRoutes.input) :
  VideoRoutes.files (VideoRoutes.step s i) = VideoRoutes.files s.
Proof.
  assert (forall s0, VideoRoutes.files (VideoRoutes.promise_all s0)
                     = VideoRoutes.files s0) as Hall.
  { intros s0. unfold VideoRoutes.promise_all.
    destruct (VideoRoutes.handler s0); try reflexivity.
    destruct (omap _ _); [|reflexivity].
    now destruct (forallb _ _). }
  destruct i as [h | h m l | h result | h e]; cbn [VideoRoutes.step].
  - reflexivity.
  - now destruct (TaskQueue.calls (VideoRoutes.q s) !! h) as [[c|j|o]|].
  - destruct (TaskQueue.calls (VideoRoutes.q s) !! h) as [[c|j|o]|]; try reflexivity.
    destruct (VideoRoutes.files s !! j) as [file|]; [|reflexivity].
    rewrite Hall. cbn. apply on_result_rest.
  - destruct (TaskQueue.calls (VideoRoutes.q s) !! h) as [[c|j|o]|]; try reflexivity.
    now rewrite Hall.
Qed.

Lemma run_files (inputs : list VideoRoutes.input) (s : VideoRoutes.t) :
  VideoRoutes.files (VideoRoutes.run s inputs) = VideoRoutes.files s.
Proof.
  revert s. induction inputs as [|i inputs IH]; intros s; [reflexivity|].
  unfold VideoRoutes.run in *. cbn [fold_left]. now rewrite IH, step_files.
Qed.

Lemma start_with_files (logger : bool) (cfg : VideoRoutes.settings) (requested : option Z)
    (batch : list string) :
  VideoRoutes.files (VideoRoutes.start_with logger cfg requested batch) = batch.
Proof.
  unfold VideoRoutes.start_with, VideoRoutes.promise_all. cbn.
  destruct (omap _ _); [|reflexivity]. now destruct (forallb _ _).
Qed.

Lemma start_files (cfg : VideoRoutes.settings) (requested : option Z)
    (batch : list string) :
  VideoRoutes.files (VideoRoutes.start cfg requested batch) = batch.
Proof. apply start_with_files. Qed.

Lemma batch_accounted (strict : bool) (cfg : VideoRoutes.settings)
    (requested : option Z) (batch : list string)
    (inputs : list VideoRoutes.input) :
  (strict = true -> Forall counted inputs) ->
  Forall (accounted strict (Z.of_nat (length batch)))
    (VideoRoutes.stream (VideoRoutes.run (VideoRoutes.start cfg requested batch) inputs)).
Proof.
  intros Hc.
  destruct (run_orderly strict inputs _ (start_orderly strict cfg requested batch) Hc)
    as (_ & _ & _ & _ & Hstream).
  now rewrite run_files, start_files in Hstream.
Qed.

Lemma promise_all_progress (s : VideoRoutes.t) :
  VideoRoutes.counters (VideoRoutes.promise_all s) = VideoRoutes.counters s
  /\ exists extra,
       VideoRoutes.stream (VideoRoutes.promise_all s)
       = VideoRoutes.stream s ++ extra
       /\ forall p, ~ In (Progress p) extra.
Proof.
  unfold VideoRoutes.promise_all.
  destruct (VideoRoutes.handler s);
    try (split; [reflexivity | exists []; rewrite app_nil_r; now split]).
  destruct (omap _ _);
    [|split; [reflexivity | exists []; rewrite app_nil_r; now split]].
  destruct (forallb _ _);
    [|split; [reflexivity | exists []; rewrite app_nil_r; now split]].
  split; [reflexivity|]. cbn.
  exists [Complete (VideoRoutes.counters s) (VideoRoutes.failedFiles s)].
  split; [reflexivity|]. intros p [Hp|[]]. discriminate.
Qed.

(** One step: the snapshots it sends are the counters it leaves, and
    [processed] moves away from [success + failed] by one exactly when the
    step is the return of a skipped job. *)
Lemma step_snapshots (s : VideoRoutes.t) (i : VideoRoutes.input) :
  let s' := VideoRoutes.step s i in
  uncounted (VideoRoutes.counters s')
  = (uncounted (VideoRoutes.counters s)
     + (if returns_skipped s i then 1 else 0))%Z
  /\ (exists extra,
        VideoRoutes.stream s' = VideoRoutes.stream s ++ extra
        /\ forall p, In (Progress p) extra -> p = VideoRoutes.counters s')
  /\ (returns_skipped s i = true ->
      In (Progress (VideoRoutes.counters s')) (VideoRoutes.stream s')).
Proof.
  assert (forall s0 : VideoRoutes.t,
             uncounted (VideoRoutes.counters s0)
             = (uncounted (VideoRoutes.counters s0) + 0)%Z
             /\ (exists extra,
                    VideoRoutes.stream s0 = VideoRoutes.stream s0 ++ extra
                    /\ forall p, In (Progress p) extra
                                 -> p = VideoRoutes.counters s0)
             /\ (false = true ->
                 In (Progress (VideoRoutes.counters s0)) (VideoRoutes.stream s0)))
    as Hsame.
  { intros s0. split; [lia | split; [|discriminate]].
    exists []. rewrite app_nil_r. now split. }
  destruct i as [h | h m l | h result | h e];
    cbn [VideoRoutes.step returns_skipped].
  - cbn [VideoRoutes.with_q VideoRoutes.counters VideoRoutes.stream].
    apply (Hsame s).
  - destruct (TaskQueue.calls (VideoRoutes.q s) !! h) as [[c|j|o]|];
      try apply (Hsame s).
    cbn. split; [lia | split; [|discriminate]].
    exists [Log m l]. split; [reflexivity|]. intros p [Hp|[]]. discriminate.
  - destruct (TaskQueue.calls (VideoRoutes.q s) !! h) as [[c|j|o]|];
      try apply (Hsame s).
    destruct (VideoRoutes.files s !! j) as [file|]; [|apply (Hsame s)].
    set (s1 := VideoRoutes.on_result file result s).
    set (s2 := VideoRoutes.with_q _ s1).
    destruct (promise_all_progress s2) as (Hc & extra & Hstream & Hnone).
    rewrite Hc, Hstream.
    change (VideoRoutes.counters s2) with (VideoRoutes.counters s1).
    change (VideoRoutes.stream s2) with (VideoRoutes.stream s1).
    assert (uncounted (VideoRoutes.counters s1)
            = (uncounted (VideoRoutes.counters s)
               + (if VideoService.success result && VideoService.skipped result
                  then 1 else 0))%Z
            /\ exists sent,
                 VideoRoutes.stream s1
                 = VideoRoutes.stream s ++ sent ++ [Progress (VideoRoutes.counters s1)]
                 /\ forall p, ~ In (Progress p) sent) as (Hu & sent & Hs1 & Hsent).
    { subst s1. unfold VideoRoutes.on_result, uncounted.
      destruct (VideoService.success result);
        [destruct (VideoService.skipped result)|]; cbn.
      - split; [lia|]. exists []. now split.
      - split; [lia|]. exists []. now split.
      - split; [lia|]. exists [Failed file]. split.
        + now rewrite <- app_assoc.
        + intros p [Hp|[]]. discriminate. }
    split; [exact Hu | split].
    + exists (sent ++ [Progress (VideoRoutes.counters s1)] ++ extra). split.
      * rewrite Hs1. now rewrite <- !app_assoc.
      * intros p Hp. apply in_app_or in Hp as [Hp|Hp]; [now destruct (Hsent p)|].
        apply in_app_or in Hp as [[Hp|[]]|Hp]; [congruence | now destruct (Hnone p)].
    + intros _. rewrite Hs1. apply in_or_app. left. apply in_or_app. right.
      apply in_or_app. right. now left.
  - destruct (TaskQueue.calls (VideoRoutes.q s) !! h) as [[c|j|o]|];
      try apply (Hsame s).
    set (s2 := VideoRoutes.with_q _ s).
    destruct (promise_all_progress s2) as (Hc & extra & Hstream & Hnone).
    rewrite Hc, Hstream.
    change (VideoRoutes.counters s2) with (VideoRoutes.counters s).
    change (VideoRoutes.stream s2) with (VideoRoutes.stream s).
    split; [lia | split; [|discriminate]].
    exists extra. split; [reflexivity|]. intros p Hp. now destruct (Hnone p).
Qed.

Lemma skipped_jobs_app (l1 l2 : list VideoRoutes.input) (s : VideoRoutes.t) :
  skipped_jobs s (l1 ++ l2)
  = (skipped_jobs s l1 + skipped_jobs (VideoRoutes.run s l1) l2)%nat.
Proof.
  revert s. induction l1 as [|i l1 IH]; intros s; [reflexivity|].
  cbn [app skipped_jobs]. rewrite IH.
  unfold VideoRoutes.run. cbn [fold_left]. lia.
Qed.

(** The counters after a run. *)
Lemma run_uncounted (inputs : list VideoRoutes.input) (s : VideoRoutes.t) :
  uncounted (VideoRoutes.counters (VideoRoutes.run s inputs))
  = (uncounted (VideoRoutes.counters s) + Z.of_nat (skipped_jobs s inputs))%Z.
Proof.
  revert s. induction inputs as [|i inputs IH]; intros s; [cbn; lia|].
  unfold VideoRoutes.run in *. cbn [fold_left skipped_jobs]. rewrite IH.
  destruct (step_snapshots s i) as (-> & _). destruct (returns_skipped s i); lia.
Qed.

(** The stream only grows. *)
Lemma run_stream_grows (inputs : list VideoRoutes.input) (s : VideoRoutes.t) (e : event) :
  In e (VideoRoutes.stream s) ->
  In e (VideoRoutes.stream (VideoRoutes.run s inputs)).
Proof.
  revert s. induction inputs as [|i inputs IH]; intros s He; [exact He|].
  unfold VideoRoutes.run in *. cbn [fold_left]. apply IH.
  destruct (step_snapshots s i) as (_ & (extra & -> & _) & _).
  apply in_or_app. now left.
Qed.

(** Every snapshot of a run is the counters after some part of it. *)
Lemma run_snapshots (inputs : list VideoRoutes.input) (s : VideoRoutes.t)
    (p : progress) :
  In (Progress p) (VideoRoutes.stream (VideoRoutes.run s inputs)) ->
  In (Progress p) (VideoRoutes.stream s)
  \/ exists before after,
       inputs = before ++ after
       /\ p = VideoRoutes.counters (VideoRoutes.run s before).
Proof.
  revert s. induction inputs as [|i inputs IH]; intros s Hp; [now left|].
  unfold VideoRoutes.run in Hp. cbn [fold_left] in Hp.
  destruct (IH _ Hp) as [Hin | (before & after & -> & ->)].
  - destruct (step_snapshots s i) as (_ & (extra & Hstream & Hextra) & _).
    rewrite Hstream in Hin. apply in_app_or in Hin as [Hin|Hin]; [now left|].
    right. exists [i], inputs. split; [reflexivity|]. now apply Hextra.
  - right. exists (i :: before), after. split; reflexivity.
Qed.

(** A run in which a job returns skipped sends a snapshot in which
    [processed] is more than [success + failed]. *)
Lemma skipped_job_shows (inputs : list VideoRoutes.input) (s : VideoRoutes.t) :
  (0 <= uncounted (VideoRoutes.counters s))%Z ->
  skipped_jobs s inputs <> 0%nat ->
  exists p, In (Progress p) (VideoRoutes.stream (VideoRoutes.run s inputs))
            /\ (0 < uncounted p)%Z.
Proof.
  revert s. induction inputs as [|i inputs IH]; intros s Hs Hk; [now destruct Hk|].
  unfold VideoRoutes.run. cbn [fold_left]. cbn [skipped_jobs] in Hk.
  destruct (step_snapshots s i) as (Hu & _ & Hemit).
  destruct (returns_skipped s i) eqn:Hi.
  - exists (VideoRoutes.counters (VideoRoutes.step s i)). split.
    + apply run_stream_grows. now apply Hemit.
    + cbn zeta in Hu. lia.
  - apply IH; [cbn zeta in Hu; lia | exact Hk].
Qed.

Lemma start_snapshots (cfg : VideoRoutes.settings) (requested : option Z)
    (batch : list string) :
  uncounted (VideoRoutes.counters (VideoRoutes.start cfg requested batch)) = 0%Z
  /\ forall p, ~ In (Progress p)
                 (VideoRoutes.stream (VideoRoutes.start cfg requested batch)).
Proof.
  unfold VideoRoutes.start, VideoRoutes.start_with.
  set (s := VideoRoutes.with_q _ _).
  destruct (promise_all_progress s) as (-> & extra & -> & Hnone).
  subst s. cbn. split; [reflexivity|].
  intros p [Hp|Hp]; [discriminate | now destruct (Hnone p)].
Qed.

(** C1, as the code has it.  In every batch, under every schedule, each
    progress snapshot carries the batch total, has [processed] at most the
    total, and is the state of the counters after some part of the
    schedule; in it [processed] is [success + failed] plus the number of
    jobs that have returned the skipped outcome by then, since the closure
    of a skipped job increments [processed] only.  So all snapshots have
    [processed = success + failed] exactly when no job of the batch returns
    the skipped outcome.  A complete event has [processed = total]. *)
Theorem progress_accounting (cfg : VideoRoutes.settings) (requested : option Z)
    (batch : list string) (inputs : list VideoRoutes.input) :
  let s0 := VideoRoutes.start cfg requested batch in
  let s := VideoRoutes.run s0 inputs in
  let n := Z.of_nat (length batch) in
  (forall p, In (Progress p) (VideoRoutes.stream s) ->
             total p = n /\ (0 <= success p)%Z /\ (0 <= failed p)%Z
             /\ (processed p <= n)%Z
             /\ exists before after,
                  inputs = before ++ after
                  /\ p = VideoRoutes.counters (VideoRoutes.run s0 before)
                  /\ processed p
                     = (success p + failed p
                        + Z.of_nat (skipped_jobs s0 before))%Z)
  /\ ((forall p, In (Progress p) (VideoRoutes.stream s) ->
                 processed p = (success p + failed p)%Z)
      <-> skipped_jobs s0 inputs = 0%nat)
  /\ (forall p failedFiles,
        In (Complete p failedFiles) (VideoRoutes.stream s) ->
        processed p = total p /\ total p = n).
Proof.
  intros s0 s n. subst s n.
  pose proof (batch_accounted false cfg requested batch inputs
                ltac:(discriminate)) as Hall.
  rewrite List.Forall_forall in Hall. fold s0 in Hall.
  destruct (start_snapshots cfg requested batch) as [Hu0 Hnone]. fold s0 in Hu0, Hnone.
  assert (forall p, In (Progress p) (VideoRoutes.stream (VideoRoutes.run s0 inputs)) ->
            exists before after,
              inputs = before ++ after
              /\ p = VideoRoutes.counters (VideoRoutes.run s0 before)
              /\ processed p
                 = (success p + failed p
                    + Z.of_nat (skipped_jobs s0 before))%Z) as Hexact.
  { intros p Hp.
    destruct (run_snapshots inputs s0 p Hp) as [Hin | (before & after & Hsplit & Heq)];
      [now destruct (Hnone p)|].
    exists before, after. split; [exact Hsplit | split; [exact Heq|]].
    pose proof (run_uncounted before s0) as Hu. rewrite <- Heq, Hu0 in Hu.
    unfold uncounted in Hu. lia. }
  split; [|split].
  - intros p Hp. specialize (Hall _ Hp). cbn in Hall.
    destruct Hall as (Ht & Hs & Hf & _ & Hn & _).
    split; [exact Ht | split; [exact Hs | split; [exact Hf | split; [exact Hn|]]]].
    now apply Hexact.
  - split.
    + intros Heq. destruct (Nat.eq_dec (skipped_jobs s0 inputs) 0) as [Hk|Hk];
        [exact Hk|].
      destruct (skipped_job_shows inputs s0 ltac:(lia) Hk) as (p & Hp & Hpos).
      specialize (Heq p Hp). unfold uncounted in Hpos. lia.
    + intros Hk p Hp.
      destruct (Hexact p Hp) as (before & after & Hsplit & _ & Heq).
      rewrite Hsplit, skipped_jobs_app in Hk. lia.
  - intros p failedFiles Hp. specialize (Hall _ Hp). cbn in Hall.
    destruct Hall as [Ht Hpr]. split; congruence.
Qed.

(** A batch of one file whose cover exists, in the mode that keeps
    existing covers: the job is skipped, and the snapshot sent for it has
    [processed = 1] with [success = 0] and [failed = 0]. *)
Lemma skipped_job_snapshot :
  VideoRoutes.stream
    (VideoRoutes.process (H := SimplePlatform.platform)
       (Example.world_of "http://example.com/movie.mp4" 120 true)
       Example.settings (Example.options "1") ["/media/movie.strm"])
  = [Log (MsgConcurrency 2 1) info;
     Log (MsgSkipped "movie") info;
     Progress {| total := 1; processed := 1; success := 0; failed := 0 |};
     Complete {| total := 1; processed := 1; success := 0; failed := 0 |} []].
Proof. reflexivity. Qed.

(** In that batch one job returns skipped. *)
Example skipped_jobs_of_kept_cover :
  skipped_jobs
    (VideoRoutes.start Example.settings
       (VideoService.concurrency (Example.options "1")) ["/media/movie.strm"])
    (VideoRoutes.sequential (H := SimplePlatform.platform)
       (Example.world_of "http://example.com/movie.mp4" 120 true)
       (Example.options "1") CacheService.create 0 ["/media/movie.strm"])
  = 1%nat.
Proof. reflexivity. Qed.

(** ** The batch: how a request ends *)

Section Closing.

Lemma omap_rejection (l : list (TaskQueue.phase unit)) :
  match omap VideoRoutes.rejection l with
  | [] => forall i e, l !! i <> Some (TaskQueue.Settled (TaskQueue.Rejected e))
  | _ :: _ => exists i e, l !! i = Some (TaskQueue.Settled (TaskQueue.Rejected e))
  end.
Proof.
  induction l as [|p l IH]; cbn [omap list_omap].
  - intros i e. now rewrite lookup_nil.
  - change (omap VideoRoutes.rejection (p :: l))
      with (match VideoRoutes.rejection p with
            | Some e => e :: omap VideoRoutes.rejection l
            | None => omap VideoRoutes.rejection l
            end).
    destruct p as [c | j | [v | e0]]; cbn [VideoRoutes.rejection];
      [| | | now exists 0%nat, e0];
      (destruct (omap VideoRoutes.rejection l) as [|e1 rest];
       [ intros [|i] e; [discriminate | apply IH]
       | destruct IH as (i & e & Hi); now exists (S i), e ]).
Qed.

Lemma forallb_resolved (l : list (TaskQueue.phase unit)) :
  if forallb VideoRoutes.resolved l
  then forall i p, l !! i = Some p -> VideoRoutes.resolved p = true
  else exists i p, l !! i = Some p /\ VideoRoutes.resolved p = false.
Proof.
  induction l as [|p l IH]; cbn [forallb].
  - intros i p. now rewrite lookup_nil.
  - destruct (VideoRoutes.resolved p) eqn:Hp; cbn [andb].
    + destruct (forallb VideoRoutes.resolved l).
      * intros [|i] p' Hi; [now injection Hi as <- | now apply (IH i)].
      * destruct IH as (i & p' & Hi & Hp'). now exists (S i), p'.
    + now exists 0%nat, p.
Qed.

Lemma promise_all_closing (s : VideoRoutes.t) :
  VideoRoutes.handler s = VideoRoutes.Waiting ->
  VideoRoutes.failedFiles s = failed_of (VideoRoutes.stream s) ->
  no_complete (VideoRoutes.stream s) ->
  closing (VideoRoutes.promise_all s).
Proof.
  intros Hw Hfailed Hnone. unfold VideoRoutes.promise_all. rewrite Hw.
  pose proof (omap_rejection (TaskQueue.calls (VideoRoutes.q s))) as Hrej.
  destruct (omap VideoRoutes.rejection (TaskQueue.calls (VideoRoutes.q s))).
  - pose proof (forallb_resolved (TaskQueue.calls (VideoRoutes.q s))) as Hres.
    destruct (forallb VideoRoutes.resolved (TaskQueue.calls (VideoRoutes.q s))).
    + split; cbn.
      * unfold failed_of. rewrite omap_app. cbn. now rewrite app_nil_r.
      * split; [exact Hres|]. now exists (VideoRoutes.stream s).
    + split; [exact Hfailed|]. rewrite Hw. now repeat split.
  - split; [exact Hfailed|]. cbn. now split.
Qed.

Lemma on_result_closing (file : string) (result : VideoService.outcome)
    (s : VideoRoutes.t) :
  let s' := VideoRoutes.on_result file result s in
  (VideoRoutes.failedFiles s = failed_of (VideoRoutes.stream s) ->
   VideoRoutes.failedFiles s' = failed_of (VideoRoutes.stream s'))
  /\ (no_complete (VideoRoutes.stream s) -> no_complete (VideoRoutes.stream s')).
Proof.
  unfold VideoRoutes.on_result, failed_of, no_complete.
  destruct (VideoService.success result);
    [destruct (VideoService.skipped result)|]; cbn; split.
  all: try (intros ->; rewrite ?omap_app; cbn; now rewrite ?app_nil_r).
  all: intros Hn; repeat (apply Forall_app; split); try exact Hn;
    now repeat constructor.
Qed.

Lemma closing_calls_changed (s : VideoRoutes.t) (q' : TaskQueue.t unit)
    (h : nat) (old new : TaskQueue.phase unit) :
  closing s ->
  VideoRoutes.handler s <> VideoRoutes.Waiting ->
  TaskQueue.calls (VideoRoutes.q s) !! h = Some old ->
  VideoRoutes.resolved old = false ->
  VideoRoutes.rejection old = None ->
  TaskQueue.calls q' = <[h := new]> (TaskQueue.calls (VideoRoutes.q s)) ->
  closing (VideoRoutes.with_q q' s).
Proof.
  intros [Hfailed Hc] Hnw Hold Hres Hrej Hcalls. split; [exact Hfailed|].
  cbn [VideoRoutes.handler VideoRoutes.with_q VideoRoutes.stream
       VideoRoutes.q VideoRoutes.counters VideoRoutes.failedFiles].
  destruct (VideoRoutes.handler s) as [| |e]; [contradiction | |].
  - destruct Hc as [Hall _]. specialize (Hall h old Hold). congruence.
  - destruct Hc as [Hnone (i & e' & Hi)]. split; [exact Hnone|].
    exists i, e'. rewrite Hcalls, list_lookup_insert_ne; [exact Hi|].
    intros ->. rewrite Hold in Hi. injection Hi as ->. discriminate.
Qed.

Lemma step_closing (s : VideoRoutes.t) (i : VideoRoutes.input) :
  jobs_only (VideoRoutes.q s) ->
  closing s ->
  closing (VideoRoutes.step s i).
Proof.
  intros Hjobs Hs. pose proof Hs as [Hfailed Hc].
  destruct i as [h | h m l | h result | h e]; cbn [VideoRoutes.step].
  - (* a timer fires *)
    destruct (wake_idle h (VideoRoutes.q s) Hjobs) as [_ [Hsame | (j & Hh & Hnew)]].
    + split; [exact Hfailed|]. cbn. now rewrite Hsame.
    + destruct (VideoRoutes.handler s) eqn:Hhandler.
      * split; [exact Hfailed|]. cbn. rewrite Hhandler, Hnew.
        destruct Hc as (Hnone & Hrej & _). split; [exact Hnone | split].
        -- intros i e Hi. destruct (decide (h = i)) as [->|Hne].
           ++ rewrite list_lookup_insert_eq in Hi
                by (now apply lookup_lt_Some in Hh).
              discriminate.
           ++ rewrite list_lookup_insert_ne in Hi by exact Hne.
              now apply Hrej in Hi.
        -- exists h, (TaskQueue.Awaiting j). split; [|reflexivity].
           apply list_lookup_insert_eq. now apply lookup_lt_Some in Hh.
      * apply (closing_calls_changed s _ h (TaskQueue.Polling (TaskQueue.Job j))
                 (TaskQueue.Awaiting j));
          [exact Hs | congruence | exact Hh | reflexivity | reflexivity | exact Hnew].
      * apply (closing_calls_changed s _ h (TaskQueue.Polling (TaskQueue.Job j))
                 (TaskQueue.Awaiting j));
          [exact Hs | congruence | exact Hh | reflexivity | reflexivity | exact Hnew].
  - (* a job sends a log line *)
    destruct (TaskQueue.calls (VideoRoutes.q s) !! h) as [[c|j|o]|] eqn:Hh;
      try exact Hs.
    split.
    + cbn. unfold failed_of. rewrite omap_app. cbn. now rewrite app_nil_r.
    + cbn. destruct (VideoRoutes.handler s).
      * destruct Hc as (Hnone & Hrest). split; [|exact Hrest].
        apply Forall_app. split; [exact Hnone | now repeat constructor].
      * destruct Hc as [Hall _]. now specialize (Hall h _ Hh).
      * destruct Hc as [Hnone Hrest]. split; [|exact Hrest].
        apply Forall_app. split; [exact Hnone | now repeat constructor].
  - (* processVideo returns *)
    destruct (TaskQueue.calls (VideoRoutes.q s) !! h) as [[c|j|o]|] eqn:Hh;
      try exact Hs.
    destruct (VideoRoutes.files s !! j) as [file|]; [|exact Hs].
    destruct (on_result_rest file result s) as (Hq1 & _ & Hhandler1 & _).
    destruct (on_result_closing file result s) as [Hfailed1 Hnone1].
    specialize (Hfailed1 Hfailed).
    set (s1 := VideoRoutes.on_result file result s) in *. clearbody s1.
    rewrite Hq1.
    destruct (settle_idle h j (TaskQueue.Resolved tt) (VideoRoutes.q s)
                (proj1 Hjobs) Hh) as [Hcalls _].
    destruct (VideoRoutes.handler s) eqn:Hhandler.
    + apply promise_all_closing; cbn; [congruence | exact Hfailed1|].
      apply Hnone1, Hc.
    + destruct Hc as [Hall _]. now specialize (Hall h _ Hh).
    + unfold VideoRoutes.promise_all.
      cbn [VideoRoutes.handler VideoRoutes.with_q]. rewrite Hhandler1.
      split; [exact Hfailed1|].
      cbn [VideoRoutes.handler VideoRoutes.with_q VideoRoutes.stream
           VideoRoutes.q]. rewrite Hhandler1.
      destruct Hc as [Hnone (i & e' & Hi)]. split; [now apply Hnone1|].
      exists i, e'. rewrite Hcalls, list_lookup_insert_ne; [exact Hi|].
      intros ->. rewrite Hh in Hi. discriminate.
  - (* processVideo throws *)
    destruct (TaskQueue.calls (VideoRoutes.q s) !! h) as [[c|j|o]|] eqn:Hh;
      try exact Hs.
    destruct (settle_idle h j (TaskQueue.Rejected e) (VideoRoutes.q s)
                (proj1 Hjobs) Hh) as [Hcalls _].
    destruct (VideoRoutes.handler s) eqn:Hhandler.
    + apply promise_all_closing; cbn; [exact Hhandler | exact Hfailed | apply Hc].
    + destruct Hc as [Hall _]. now specialize (Hall h _ Hh).
    + unfold VideoRoutes.promise_all.
      cbn [VideoRoutes.handler VideoRoutes.with_q]. rewrite Hhandler.
      apply (closing_calls_changed s _ h (TaskQueue.Awaiting j)
               (TaskQueue.Settled
                  (TaskQueue.caught (TaskQueue.logger (VideoRoutes.q s))
                     (TaskQueue.Rejected e))));
        [ split; [exact Hfailed | now rewrite Hhandler] | congruence | exact Hh
        | reflexivity | reflexivity | exact Hcalls].
Qed.

Lemma run_closing (inputs : list VideoRoutes.input) (s : VideoRoutes.t) :
  orderly false s -> closing s ->
  closing (VideoRoutes.run s inputs).
Proof.
  revert s. induction inputs as [|i inputs IH]; intros s Ho Hs; [exact Hs|].
  unfold VideoRoutes.run in *. cbn [fold_left]. apply IH.
  - apply step_orderly; [exact Ho | discriminate].
  - apply step_closing; [apply Ho | exact Hs].
Qed.

Lemma start_with_closing (logger : bool) (cfg : VideoRoutes.settings) (requested : option Z)
    (batch : list string) :
  closing (VideoRoutes.start_with logger cfg requested batch).
Proof.
  unfold VideoRoutes.start_with. apply promise_all_closing; cbn; try reflexivity.
  now repeat constructor.
Qed.

Lemma start_closing (cfg : VideoRoutes.settings) (requested : option Z)
    (batch : list string) :
  closing (VideoRoutes.start cfg requested batch).
Proof. apply start_with_closing. Qed.

End Closing.

Section Completion.

Lemma promise_all_same (s : VideoRoutes.t) :
  VideoRoutes.q (VideoRoutes.promise_all s) = VideoRoutes.q s
  /\ VideoRoutes.counters (VideoRoutes.promise_all s) = VideoRoutes.counters s
  /\ VideoRoutes.failedFiles (VideoRoutes.promise_all s)
     = VideoRoutes.failedFiles s.
Proof.
  unfold VideoRoutes.promise_all.
  destruct (VideoRoutes.handler s); try (now repeat split).
  destruct (omap _ _); [|now repeat split].
  now destruct (forallb _ _).
Qed.

Lemma lookup_insert_unrejected (l : list (TaskQueue.phase unit)) (h : nat)
    (new : TaskQueue.phase unit) :
  (forall i e, l !! i <> Some (TaskQueue.Settled (TaskQueue.Rejected e))) ->
  VideoRoutes.rejection new = None ->
  forall i e, <[h := new]> l !! i <> Some (TaskQueue.Settled (TaskQueue.Rejected e)).
Proof.
  intros Hl Hnew i e Hi. destruct (decide (h = i)) as [->|Hne].
  - destruct (decide (i < length l)%nat) as [Hlt|Hge].
    + rewrite list_lookup_insert_eq in Hi by exact Hlt.
      injection Hi as ->. discriminate.
    + rewrite list_insert_ge in Hi by lia. now apply Hl in Hi.
  - rewrite list_lookup_insert_ne in Hi by exact Hne. now apply Hl in Hi.
Qed.

Lemma step_unrejected (s : VideoRoutes.t) (i : VideoRoutes.input) :
  jobs_only (VideoRoutes.q s) ->
  contained i -> unrejected s -> unrejected (VideoRoutes.step s i).
Proof.
  intros Hjobs Hi Hs. unfold unrejected in *.
  destruct i as [h | h m l | h result | h e]; cbn [VideoRoutes.step];
    [| | |contradiction].
  - destruct (wake_idle h (VideoRoutes.q s) Hjobs) as [_ [Hsame | (j & Hh & Hnew)]];
      cbn; [now rewrite Hsame|].
    rewrite Hnew. now apply lookup_insert_unrejected.
  - now destruct (TaskQueue.calls (VideoRoutes.q s) !! h) as [[c|j|o]|].
  - destruct (TaskQueue.calls (VideoRoutes.q s) !! h) as [[c|j|o]|] eqn:Hh;
      try exact Hs.
    destruct (VideoRoutes.files s !! j) as [file|]; [|exact Hs].
    destruct (promise_all_same
                (VideoRoutes.with_q
                   (TaskQueue.settle h (TaskQueue.Resolved tt)
                      (VideoRoutes.q (VideoRoutes.on_result file result s)))
                   (VideoRoutes.on_result file result s))) as [-> _].
    destruct (on_result_rest file result s) as (-> & _).
    destruct (settle_idle h j (TaskQueue.Resolved tt) (VideoRoutes.q s)
                (proj1 Hjobs) Hh) as [Hcalls _].
    cbn. rewrite Hcalls. now apply lookup_insert_unrejected.
Qed.

Lemma step_failures_counted (s : VideoRoutes.t) (i : VideoRoutes.input) :
  failures_counted s -> failures_counted (VideoRoutes.step s i).
Proof.
  intros Hs. unfold failures_counted in *.
  destruct i as [h | h m l | h result | h e]; cbn [VideoRoutes.step].
  - exact Hs.
  - now destruct (TaskQueue.calls (VideoRoutes.q s) !! h) as [[c|j|o]|].
  - destruct (TaskQueue.calls (VideoRoutes.q s) !! h) as [[c|j|o]|];
      try exact Hs.
    destruct (VideoRoutes.files s !! j) as [file|]; [|exact Hs].
    match goal with |- context [VideoRoutes.promise_all ?s2] =>
      destruct (promise_all_same s2) as (_ & -> & ->)
    end.
    cbn. unfold VideoRoutes.on_result.
    destruct (VideoService.success result);
      [destruct (VideoService.skipped result)|]; cbn; try exact Hs.
    rewrite length_app. cbn. lia.
  - destruct (TaskQueue.calls (VideoRoutes.q s) !! h) as [[c|j|o]|];
      try exact Hs.
    match goal with |- context [VideoRoutes.promise_all ?s2] =>
      destruct (promise_all_same s2) as (_ & -> & ->)
    end.
    exact Hs.
Qed.

Lemma run_completion (inputs : list VideoRoutes.input) (s : VideoRoutes.t) :
  orderly false s -> failures_counted s ->
  failures_counted (VideoRoutes.run s inputs)
  /\ (Forall contained inputs -> unrejected s ->
      unrejected (VideoRoutes.run s inputs)).
Proof.
  revert s. induction inputs as [|i inputs IH]; intros s Ho Hf; [now split|].
  unfold VideoRoutes.run in *. cbn [fold_left].
  destruct (IH (VideoRoutes.step s i)) as [Hf' Hu'].
  - apply step_orderly; [exact Ho | discriminate].
  - now apply step_failures_counted.
  - split; [exact Hf'|]. intros Hc Hu. inversion Hc; subst.
    apply Hu'; [assumption|]. apply step_unrejected; [apply Ho | assumption..].
Qed.

Lemma start_unrejected (cfg : VideoRoutes.settings) (requested : option Z)
    (batch : list string) :
  unrejected (VideoRoutes.start cfg requested batch)
  /\ failures_counted (VideoRoutes.start cfg requested batch).
Proof.
  unfold unrejected, failures_counted, VideoRoutes.start,
    VideoRoutes.start_with.
  match goal with |- context [VideoRoutes.promise_all ?s2] =>
    destruct (promise_all_same s2) as (-> & -> & ->)
  end.
  split; [|reflexivity]. cbn [VideoRoutes.q VideoRoutes.with_q].
  destruct (submit_all (seq 0 (length batch))
              (TaskQueue.create
                 (VideoRoutes.resolve_concurrency cfg requested (length batch))
                 true)
              eq_refl (List.Forall_nil _) (List.Forall_nil _))
    as (_ & _ & _ & Hunsettled & _).
  intros i e Hi. rewrite Forall_lookup in Hunsettled.
  exact (Hunsettled _ _ Hi).
Qed.

End Completion.

Lemma ended_when_settled (s : VideoRoutes.t) :
  closing s -> unrejected s ->
  (forall i p, TaskQueue.calls (VideoRoutes.q s) !! i = Some p ->
               is_settled p = true) ->
  VideoRoutes.handler s = VideoRoutes.Ended.
Proof.
  intros [_ Hc] Hunrej Hall.
  destruct (VideoRoutes.handler s) as [| |e]; [|reflexivity|].
  - destruct Hc as (_ & _ & (i & p & Hi & Hp)).
    specialize (Hall i p Hi).
    destruct p as [c|j|[[]|e]]; try discriminate.
    now apply Hunrej in Hi.
  - destruct Hc as [_ (i & e' & Hi)]. now apply Hunrej in Hi.
Qed.

(** ** The batch: the sequential schedule *)

Section Sequential.

Lemma promise_all_files (s : VideoRoutes.t) :
  VideoRoutes.files (VideoRoutes.promise_all s) = VideoRoutes.files s.
Proof.
  unfold VideoRoutes.promise_all.
  destruct (VideoRoutes.handler s); try reflexivity.
  destruct (omap _ _); [|reflexivity]. now destruct (forallb _ _).
Qed.

Lemma staged_same (limit : Z) (h : nat) (s s' : VideoRoutes.t) :
  VideoRoutes.q s' = VideoRoutes.q s ->
  VideoRoutes.files s' = VideoRoutes.files s ->
  staged limit h s -> staged limit h s'.
Proof. unfold staged. now intros -> ->. Qed.

(** The queue after the first [n] jobs were submitted to a new queue. *)
Lemma submit_staged (limit : Z) (logger : bool) (n : nat) :
  let q := fold_left (fun q j => TaskQueue.add (TaskQueue.Job j) q) (seq 0 n)
             (TaskQueue.create (V := unit) limit logger) in
  TaskQueue.queue q = []
  /\ TaskQueue.concurrency q = limit
  /\ length (TaskQueue.calls q) = n
  /\ exists k,
       (k <= n)%nat
       /\ TaskQueue.running q = Z.of_nat k
       /\ ((k < n)%nat -> (limit <= Z.of_nat k)%Z)
       /\ (forall i, (i < k)%nat ->
                     TaskQueue.calls q !! i = Some (TaskQueue.Awaiting i))
       /\ (forall i, (k <= i < n)%nat ->
                     TaskQueue.calls q !! i
                     = Some (TaskQueue.Polling (TaskQueue.Job i))).
Proof.
  induction n as [|n IH].
  - cbn. repeat split. exists 0%nat. repeat split; try lia; intros i Hi; lia.
  - rewrite seq_S, fold_left_app. cbn [fold_left Nat.add].
    cbn zeta in IH.
    set (q := fold_left (fun q j => TaskQueue.add (TaskQueue.Job j) q) (seq 0 n)
                (TaskQueue.create limit logger)) in *.
    destruct IH as (Hq & Hc & Hlen & k & Hk & Hr & Hfull & Hfly & Hpoll).
    unfold TaskQueue.add, TaskQueue.add_with, TaskQueue.poll. cbn.
    destruct (Z.geb_spec (TaskQueue.running q) (TaskQueue.concurrency q)) as [Hge|Hlt].
    + cbn. rewrite length_app, Hlen. cbn.
      split; [exact Hq | split; [exact Hc | split; [lia|]]].
      exists k. split; [lia | split; [exact Hr | split; [lia | split]]].
      * intros i Hi. rewrite lookup_app_l by lia. now apply Hfly.
      * intros i Hi. destruct (decide (i = n)) as [->|Hne].
        -- now apply list_lookup_middle.
        -- rewrite lookup_app_l by lia. apply Hpoll. lia.
    + assert (k = n) as -> by (destruct (decide (k < n)%nat); lia).
      cbn. rewrite length_insert, length_app, Hlen. cbn.
      split; [exact Hq | split; [exact Hc | split; [lia|]]].
      exists (S n). split; [lia | split; [lia | split; [lia | split]]].
      * intros i Hi. rewrite <- Hlen at 1.
        replace (length (TaskQueue.calls q))
          with (length (TaskQueue.calls q) + 0)%nat by lia.
        rewrite insert_app_r. cbn.
        destruct (decide (i = n)) as [->|Hne].
        -- now apply list_lookup_middle.
        -- rewrite lookup_app_l by lia. apply Hfly. lia.
      * intros i Hi. lia.
Qed.

Lemma start_with_staged (logger : bool) (cfg : VideoRoutes.settings) (requested : option Z)
    (batch : list string) :
  staged (VideoRoutes.resolve_concurrency cfg requested (length batch)) 0
    (VideoRoutes.start_with logger cfg requested batch).
Proof.
  unfold VideoRoutes.start_with.
  match goal with |- staged _ _ (VideoRoutes.promise_all ?s2) =>
    apply (staged_same _ _ s2);
      [apply promise_all_same | apply promise_all_files |]
  end.
  pose proof (submit_staged
                (VideoRoutes.resolve_concurrency cfg requested (length batch))
                logger (length batch)) as Hsub.
  cbn zeta in Hsub.
  destruct Hsub as (Hq & Hc & Hlen & k & Hk & Hr & _ & Hfly & Hpoll).
  unfold staged. cbn [VideoRoutes.q VideoRoutes.with_q VideoRoutes.files].
  split; [exact Hq | split; [exact Hc | split; [exact Hlen|]]].
  exists k. rewrite Hlen, Nat.sub_0_r.
  split; [lia | split; [exact Hk | split; [exact Hr | split; [|split]]]].
  - intros i Hi. lia.
  - intros i Hi. apply Hfly. lia.
  - exact Hpoll.
Qed.

Lemma start_staged (cfg : VideoRoutes.settings) (requested : option Z)
    (batch : list string) :
  staged (VideoRoutes.resolve_concurrency cfg requested (length batch)) 0
    (VideoRoutes.start cfg requested batch).
Proof. apply start_with_staged. Qed.

(** The timer of the job whose turn it is: the job is, or is put, in
    flight. *)
Lemma timer_staged (limit : Z) (h : nat) (s : VideoRoutes.t) :
  (1 <= limit)%Z ->
  (h < length (VideoRoutes.files s))%nat ->
  staged limit h s ->
  staged limit h (VideoRoutes.step s (VideoRoutes.Timer h))
  /\ TaskQueue.calls (VideoRoutes.q (VideoRoutes.step s (VideoRoutes.Timer h))) !! h
     = Some (TaskQueue.Awaiting h).
Proof.
  intros Hlimit Hh (Hq & Hc & Hlen & k & Hhk & Hk & Hr & Hdone & Hfly & Hpoll).
  cbn [VideoRoutes.step]. unfold TaskQueue.wake.
  destruct (decide (h < k)%nat) as [Hlt|Hge].
  - rewrite (Hfly h) by lia. split; [|cbn; apply Hfly; lia].
    unfold staged. cbn [VideoRoutes.q VideoRoutes.with_q VideoRoutes.files].
    split; [exact Hq | split; [exact Hc | split; [exact Hlen|]]].
    exists k. now repeat split.
  - assert (k = h) as -> by lia.
    rewrite (Hpoll h) by lia. unfold TaskQueue.poll.
    destruct (Z.geb_spec (TaskQueue.running (VideoRoutes.q s))
                (TaskQueue.concurrency (VideoRoutes.q s))) as [Hfull|_]; [lia|].
    unfold TaskQueue.dispatch.
    assert (h < length (TaskQueue.calls (VideoRoutes.q s)))%nat as Hin by lia.
    split; [|cbn; now apply list_lookup_insert_eq].
    unfold staged. cbn [VideoRoutes.q VideoRoutes.with_q VideoRoutes.files].
    cbn. rewrite length_insert.
    split; [exact Hq | split; [exact Hc | split; [exact Hlen|]]].
    exists (S h). split; [lia | split; [lia | split; [lia | split; [|split]]]].
    + intros i Hi. rewrite list_lookup_insert_ne by lia. now apply Hdone.
    + intros i Hi. assert (i = h) as -> by lia. now apply list_lookup_insert_eq.
    + intros i Hi. rewrite list_lookup_insert_ne by lia. apply Hpoll. lia.
Qed.

Lemma settle_exact (h j : nat) (o : TaskQueue.settlement unit)
    (q : TaskQueue.t unit) :
  TaskQueue.queue q = [] ->
  TaskQueue.calls q !! h = Some (TaskQueue.Awaiting j) ->
  let q' := TaskQueue.settle h o q in
  TaskQueue.queue q' = []
  /\ TaskQueue.concurrency q' = TaskQueue.concurrency q
  /\ TaskQueue.running q' = (TaskQueue.running q - 1)%Z
  /\ TaskQueue.calls q'
     = <[h := TaskQueue.Settled (TaskQueue.caught (TaskQueue.logger q) o)]>
         (TaskQueue.calls q).
Proof.
  intros Hq Hh. cbn zeta. unfold TaskQueue.settle, TaskQueue.release.
  rewrite Hh, processNext_idle by (destruct o; exact Hq).
  destruct o; cbn; now rewrite Hq.
Qed.

(** The job whose turn it is returns or throws: its call is settled and
    the turn passes to the next job. *)
Lemma settled_staged (limit : Z) (h : nat) (s : VideoRoutes.t)
    (q' : TaskQueue.t unit) (o : TaskQueue.settlement unit) :
  staged limit h s ->
  TaskQueue.calls (VideoRoutes.q s) !! h = Some (TaskQueue.Awaiting h) ->
  q' = TaskQueue.settle h o (VideoRoutes.q s) ->
  staged limit (S h) (VideoRoutes.with_q q' s).
Proof.
  intros (Hq & Hc & Hlen & k & Hhk & Hk & Hr & Hdone & Hfly & Hpoll) Hh ->.
  destruct (settle_exact h h o (VideoRoutes.q s) Hq Hh) as (Hq' & Hc' & Hr' & Hcalls).
  assert (h < k)%nat as Hlt.
  { destruct (decide (h < k)%nat) as [|Hge]; [assumption|].
    assert (h < length (TaskQueue.calls (VideoRoutes.q s)))%nat
      by (now apply lookup_lt_Some in Hh).
    rewrite (Hpoll h) in Hh by lia. discriminate. }
  unfold staged. cbn [VideoRoutes.q VideoRoutes.with_q VideoRoutes.files].
  rewrite Hcalls, length_insert.
  split; [exact Hq' | split; [congruence | split; [exact Hlen|]]].
  exists k. split; [lia | split; [lia | split; [lia | split; [|split]]]].
  - intros i Hi. destruct (decide (i = h)) as [->|Hne].
    + eexists. apply list_lookup_insert_eq. lia.
    + rewrite list_lookup_insert_ne by lia. apply Hdone. lia.
  - intros i Hi. rewrite list_lookup_insert_ne by lia. apply Hfly. lia.
  - intros i Hi. rewrite list_lookup_insert_ne by lia. now apply Hpoll.
Qed.

Lemma finish_staged (limit : Z) (h : nat) (s : VideoRoutes.t)
    (final : VideoRoutes.input) :
  staged limit h s ->
  (h < length (VideoRoutes.files s))%nat ->
  TaskQueue.calls (VideoRoutes.q s) !! h = Some (TaskQueue.Awaiting h) ->
  (exists result, final = VideoRoutes.Returns h result)
    \/ (exists e, final = VideoRoutes.Throws h e) ->
  staged limit (S h) (VideoRoutes.step s final).
Proof.
  intros Hs Hlt Hh [[result ->] | [e ->]]; cbn [VideoRoutes.step]; rewrite Hh.
  - destruct (lookup_lt_is_Some_2 (VideoRoutes.files s) h Hlt) as [file ->].
    destruct (on_result_rest file result s) as (Hq1 & Hfiles1 & _).
    set (s1 := VideoRoutes.on_result file result s) in *. clearbody s1.
    match goal with |- staged _ _ (VideoRoutes.promise_all ?s2) =>
      apply (staged_same _ _ s2);
        [apply promise_all_same | apply promise_all_files |]
    end.
    apply (settled_staged limit h s1 _ (TaskQueue.Resolved tt));
      [apply (staged_same _ _ s); auto | now rewrite Hq1 | reflexivity].
  - match goal with |- staged _ _ (VideoRoutes.promise_all ?s2) =>
      apply (staged_same _ _ s2);
        [apply promise_all_same | apply promise_all_files |]
    end.
    now apply (settled_staged limit h s _ (TaskQueue.Rejected e)).
Qed.

Lemma says_staged (limit : Z) (h : nat) (says : list VideoRoutes.input)
    (s : VideoRoutes.t) :
  Forall (says_of h) says ->
  VideoRoutes.q (VideoRoutes.run s says) = VideoRoutes.q s
  /\ VideoRoutes.files (VideoRoutes.run s says) = VideoRoutes.files s.
Proof.
  revert s. induction says as [|i says IH]; intros s Hsays; [now split|].
  apply Forall_cons in Hsays as [Hi Hsays].
  unfold VideoRoutes.run in *. cbn [fold_left].
  destruct (IH (VideoRoutes.step s i) Hsays) as [-> ->].
  destruct i as [h' | h' m l | h' result | h' e]; try contradiction.
  cbn [VideoRoutes.step].
  now destruct (TaskQueue.calls (VideoRoutes.q s) !! h') as [[c|j|o]|].
Qed.

Lemma run_app (s : VideoRoutes.t) (l1 l2 : list VideoRoutes.input) :
  VideoRoutes.run s (l1 ++ l2) = VideoRoutes.run (VideoRoutes.run s l1) l2.
Proof. unfold VideoRoutes.run. apply fold_left_app. Qed.

Lemma says_of_trace (h : nat) (tr : list effect) :
  Forall (says_of h)
    (omap (fun e => match e with
                    | Send (Log m l) => Some (VideoRoutes.Says h m l)
                    | _ => None
                    end) tr).
Proof.
  induction tr as [|e tr IH]; [constructor|].
  change (e :: tr) with ([e] ++ tr). rewrite omap_app.
  apply Forall_app. split; [|exact IH].
  destruct e as [| | | | | | | | |[m l| | |]]; cbn; now repeat constructor.
Qed.

Context `{Platform}.
Variable w : world.
Variable options : VideoService.config.

(** The inputs of one job under the sequential schedule. *)
Lemma job_inputs_shape (cache : CacheService.t) (h : nat) (file : string) :
  exists says final,
    fst (VideoRoutes.job_inputs w options cache h file)
    = VideoRoutes.Timer h :: says ++ [final]
    /\ Forall (says_of h) says
    /\ ((exists result, final = VideoRoutes.Returns h result)
        \/ (exists e, final = VideoRoutes.Throws h e
                      /\ VideoService.validatePath file = Throw e)).
Proof.
  unfold VideoRoutes.job_inputs.
  destruct (VideoService.processVideo w file options (Job.start cache))
    as [r st] eqn:Hrun.
  eexists _, _. split; [reflexivity|]. split; [apply says_of_trace|].
  destruct r as [result | e]; [left; now exists result|].
  right. exists e. split; [reflexivity|].
  unfold VideoService.processVideo, Job.bind, Job.lift, Job.try_catch in Hrun.
  destruct (VideoService.validatePath file) as [safe | e'].
  - match type of Hrun with
    | (match ?body with _ => _ end) = _ => destruct body as [[a | e1] st1]
    end; cbn in Hrun; discriminate.
  - now injection Hrun as -> _.
Qed.

Lemma job_staged (limit : Z) (cache : CacheService.t) (h : nat) (file : string)
    (s : VideoRoutes.t) :
  (1 <= limit)%Z ->
  (h < length (VideoRoutes.files s))%nat ->
  staged limit h s ->
  staged limit (S h)
    (VideoRoutes.run s (fst (VideoRoutes.job_inputs w options cache h file))).
Proof.
  intros Hlimit Hh Hs.
  destruct (job_inputs_shape cache h file) as (says & final & -> & Hsays & Hfinal).
  change (VideoRoutes.Timer h :: says ++ [final])
    with ([VideoRoutes.Timer h] ++ says ++ [final]).
  rewrite !run_app.
  destruct (timer_staged limit h s Hlimit Hh Hs) as [Hs1 Hfly].
  change (VideoRoutes.run s [VideoRoutes.Timer h])
    with (VideoRoutes.step s (VideoRoutes.Timer h)).
  set (s1 := VideoRoutes.step s (VideoRoutes.Timer h)) in *.
  assert (VideoRoutes.files s1 = VideoRoutes.files s) as Hfiles1
    by apply step_files.
  destruct (says_staged limit h says s1 Hsays) as [Hq2 Hfiles2].
  set (s2 := VideoRoutes.run s1 says) in *.
  change (VideoRoutes.run s2 [final]) with (VideoRoutes.step s2 final).
  apply finish_staged.
  - now apply (staged_same _ _ s1).
  - congruence.
  - now rewrite Hq2.
  - destruct Hfinal as [Hr | (e & -> & _)]; [now left | right; now exists e].
Qed.

Lemma sequential_staged (limit : Z) (batch : list string) :
  forall (cache : CacheService.t) (h : nat) (s : VideoRoutes.t),
    (1 <= limit)%Z ->
    (h + length batch <= length (VideoRoutes.files s))%nat ->
    staged limit h s ->
    staged limit (h + length batch)
      (VideoRoutes.run s (VideoRoutes.sequential w options cache h batch)).
Proof.
  induction batch as [|file rest IH]; intros cache h s Hlimit Hlen Hs.
  - cbn. now rewrite Nat.add_0_r.
  - cbn [VideoRoutes.sequential length] in *.
    pose proof (job_staged limit cache h file s Hlimit ltac:(lia) Hs) as Hjob.
    destruct (VideoRoutes.job_inputs w options cache h file) as [inputs cache'].
    cbn [fst] in Hjob. rewrite run_app.
    replace (h + S (length rest))%nat with (S h + length rest)%nat by lia.
    apply IH; [exact Hlimit | | exact Hjob].
    rewrite run_files. lia.
Qed.

(** The inputs of a job throw only when the path of its file is
    refused. *)
Lemma sequential_contained (batch : list string) :
  forall (cache : CacheService.t) (h : nat),
    Forall (fun file => VideoService.validatePath file
                        = Ok (path_resolve file)) batch ->
    Forall contained (VideoRoutes.sequential w options cache h batch).
Proof.
  induction batch as [|file rest IH]; intros cache h Hvalid; [constructor|].
  apply Forall_cons in Hvalid as [Hfile Hrest].
  cbn [VideoRoutes.sequential].
  destruct (job_inputs_shape cache h file) as (says & final & Hshape & Hsays & Hfinal).
  destruct (VideoRoutes.job_inputs w options cache h file) as [inputs cache'].
  cbn [fst] in Hshape. subst inputs.
  apply Forall_app. split; [|now apply IH].
  constructor; [exact I|]. apply Forall_app. split.
  - eapply Forall_impl; [exact Hsays|].
    now intros [h' | h' m l | h' result | h' e].
  - constructor; [|constructor].
    destruct Hfinal as [[result ->] | (e & -> & Hthrow)]; [exact I|].
    rewrite Hfile in Hthrow. discriminate.
Qed.

End Sequential.

(** When no [processVideo] throws, a batch is never aborted, and once all
    its calls are settled the handler has ended.  An ended batch has sent
    exactly one complete event, the last event of the stream; it carries
    the final counters, with [processed = total] and [failed] the number
    of failed files, and the files of all the failed events.  A batch
    that has not ended has sent no complete event. *)
Theorem batch_completion (cfg : VideoRoutes.settings) (requested : option Z)
    (batch : list string) (inputs : list VideoRoutes.input) :
  let s := VideoRoutes.run (VideoRoutes.start cfg requested batch) inputs in
  (VideoRoutes.handler s = VideoRoutes.Ended ->
     exists before,
       VideoRoutes.stream s
         = before ++ [Complete (VideoRoutes.counters s) (VideoRoutes.failedFiles s)]
       /\ no_complete before
       /\ VideoRoutes.failedFiles s = failed_of before
       /\ failed (VideoRoutes.counters s)
          = Z.of_nat (length (VideoRoutes.failedFiles s))
       /\ processed (VideoRoutes.counters s) = Z.of_nat (length batch)
       /\ total (VideoRoutes.counters s) = Z.of_nat (length batch))
  /\ (VideoRoutes.handler s <> VideoRoutes.Ended ->
      no_complete (VideoRoutes.stream s))
  /\ (Forall contained inputs ->
      (forall e, VideoRoutes.handler s <> VideoRoutes.Aborted e)
      /\ ((forall i p, TaskQueue.calls (VideoRoutes.q s) !! i = Some p ->
                       is_settled p = true) ->
          VideoRoutes.handler s = VideoRoutes.Ended)).
Proof.
  intros s.
  pose proof (start_orderly false cfg requested batch) as Ho0.
  pose proof (run_closing inputs _ Ho0 (start_closing cfg requested batch))
    as [Hfailed Hc].
  destruct (start_unrejected cfg requested batch) as [Hu0 Hf0].
  destruct (run_completion inputs _ Ho0 Hf0) as [Hcount Hunrej].
  pose proof (batch_accounted false cfg requested batch inputs
                ltac:(discriminate)) as Hacc.
  fold s in Hfailed, Hc, Hcount, Hunrej, Hacc.
  split; [|split].
  - intros He. rewrite He in Hc. destruct Hc as [_ (before & Hstream & Hnone)].
    exists before. split; [exact Hstream | split; [exact Hnone|]].
    rewrite Hstream in Hacc. apply Forall_app in Hacc as [_ Hlast].
    apply Forall_cons in Hlast as [[Ht Hp] _].
    split; [|split; [exact Hcount | split; [exact Hp | exact Ht]]].
    rewrite Hfailed at 1. rewrite Hstream. unfold failed_of.
    rewrite omap_app. cbn. now rewrite app_nil_r.
  - intros Hne. destruct (VideoRoutes.handler s); [apply Hc | contradiction | apply Hc].
  - intros Hcont. specialize (Hunrej Hcont Hu0). split.
    + intros e He. rewrite He in Hc. destruct Hc as [_ (i & e' & Hi)].
      now apply Hunrej in Hi.
    + intros Hall. apply ended_when_settled; [now split | exact Hunrej | exact Hall].
Qed.

Lemma batch_completion_witness :
  VideoRoutes.handler
    (VideoRoutes.process (H := SimplePlatform.platform) (Example.world_batch 120)
       Example.settings (Example.options "0")
       ["/media/a.strm"; "/media/bad.strm"; "/media/c.strm"])
  = VideoRoutes.Ended.
Proof.
  apply (proj2 (proj2 (batch_completion Example.settings None
                         ["/media/a.strm"; "/media/bad.strm"; "/media/c.strm"]
                         (VideoRoutes.sequential (H := SimplePlatform.platform)
                            (Example.world_batch 120) (Example.options "0")
                            CacheService.create 0
                            ["/media/a.strm"; "/media/bad.strm"; "/media/c.strm"])))).
  - vm_compute. repeat constructor.
  - vm_compute. intros [|[|[|i]]] p Hp; try discriminate;
      injection Hp as <-; reflexivity.
Defined.

(** A schedule that ends every batch exists.  When the queue of the
    request has at least one slot, running the jobs one after the other
    settles every call.  When, besides, [validatePath] accepts every file
    of the batch, so that no [processVideo] throws, the handler ends: the
    stream closes with its only complete event, which carries the final
    counters, with [processed] the size of the batch, and the files of
    all the failed events. *)
Theorem sequential_batch_completes `{Platform} (w : world)
    (cfg : VideoRoutes.settings) (options : VideoService.config)
    (batch : list string) :
  (1 <= VideoRoutes.resolve_concurrency cfg (VideoService.concurrency options)
          (length batch))%Z ->
  let s := VideoRoutes.process w cfg options batch in
  (forall i p, TaskQueue.calls (VideoRoutes.q s) !! i = Some p ->
               is_settled p = true)
  /\ (Forall (fun file => VideoService.validatePath file
                          = Ok (path_resolve file)) batch ->
      VideoRoutes.handler s = VideoRoutes.Ended
      /\ exists before,
          VideoRoutes.stream s
            = before ++ [Complete (VideoRoutes.counters s)
                           (VideoRoutes.failedFiles s)]
          /\ no_complete before
          /\ VideoRoutes.failedFiles s = failed_of before
          /\ processed (VideoRoutes.counters s) = Z.of_nat (length batch)).
Proof.
  intros Hlimit s.
  set (start := VideoRoutes.start cfg (VideoService.concurrency options) batch).
  set (inputs := VideoRoutes.sequential w options CacheService.create 0 batch).
  assert (s = VideoRoutes.run start inputs) as Hs by reflexivity.
  pose proof (start_staged cfg (VideoService.concurrency options) batch) as Hst0.
  assert (VideoRoutes.files start = batch) as Hfiles by apply start_files.
  pose proof (sequential_staged w options _ batch CacheService.create 0 start
                Hlimit ltac:(rewrite Hfiles; lia) Hst0) as Hst.
  cbn [Nat.add] in Hst. fold inputs in Hst. rewrite <- Hs in Hst.
  destruct Hst as (_ & _ & Hlen & k & _ & _ & _ & Hdone & _ & _).
  assert (VideoRoutes.files s = batch) as Hfiles'
    by (rewrite Hs, run_files; exact Hfiles).
  assert (forall i p, TaskQueue.calls (VideoRoutes.q s) !! i = Some p ->
                      is_settled p = true) as Hall.
  { intros i p Hi. pose proof (lookup_lt_Some _ _ _ Hi) as Hlt.
    rewrite Hlen, Hfiles' in Hlt. destruct (Hdone i Hlt) as [o Ho].
    rewrite Ho in Hi. now injection Hi as <-. }
  split; [exact Hall|]. intros Hvalid.
  pose proof (start_orderly false cfg (VideoService.concurrency options) batch)
    as Ho0.
  pose proof (run_closing inputs _ Ho0
                (start_closing cfg (VideoService.concurrency options) batch))
    as Hclosing.
  destruct (start_unrejected cfg (VideoService.concurrency options) batch)
    as [Hu0 Hf0].
  destruct (run_completion inputs _ Ho0 Hf0) as [_ Hunrej].
  specialize (Hunrej (sequential_contained w options batch _ 0 Hvalid) Hu0).
  fold start in Hclosing, Hunrej. rewrite <- Hs in Hclosing, Hunrej.
  pose proof (ended_when_settled s Hclosing Hunrej Hall) as Hended.
  split; [exact Hended|].
  destruct Hclosing as [Hfailed Hc]. rewrite Hended in Hc.
  destruct Hc as [_ (before & Hstream & Hnone)].
  exists before. split; [exact Hstream | split; [exact Hnone | split]].
  - rewrite Hfailed at 1. rewrite Hstream. unfold failed_of.
    rewrite omap_app. cbn. now rewrite app_nil_r.
  - pose proof (batch_accounted false cfg (VideoService.concurrency options)
                  batch inputs ltac:(discriminate)) as Hacc.
    fold start in Hacc. rewrite <- Hs, Hstream in Hacc.
    apply Forall_app in Hacc as [_ Hlast].
    now apply Forall_cons in Hlast as [[_ Hp] _].
Qed.

Lemma sequential_batch_completes_witness :
  VideoRoutes.handler
    (VideoRoutes.process (H := SimplePlatform.platform) (Example.world_batch 300)
       Example.settings (Example.options "0")
       ["/media/bad.strm"; "/media/also-bad.strm"])
  = VideoRoutes.Ended.
Proof.
  destruct (sequential_batch_completes (H := SimplePlatform.platform)
              (Example.world_batch 300) Example.settings (Example.options "0")
              ["/media/bad.strm"; "/media/also-bad.strm"])
    as [_ Hends]; [vm_compute; discriminate|].
  apply Hends. repeat constructor.
Defined.

(** A batch in which every job fails: the stream ends with the complete
    event, whose counters show [failed = total]. *)
Example all_jobs_fail :
  VideoRoutes.stream
    (VideoRoutes.process (H := SimplePlatform.platform) (Example.world_batch 300)
       Example.settings (Example.options "0")
       ["/media/bad.strm"; "/media/also-bad.strm"])
  = [Log (MsgConcurrency 2 2) info;
     Log (MsgStart "bad") info;
     Log (MsgFailure "bad" Unreachable) error_level;
     Failed "/media/bad.strm";
     Progress {| total := 2; processed := 1; success := 0; failed := 1 |};
     Log (MsgStart "also-bad") info;
     Log (MsgFailure "also-bad" Unreachable) error_level;
     Failed "/media/also-bad.strm";
     Progress {| total := 2; processed := 2; success := 0; failed := 2 |};
     Complete {| total := 2; processed := 2; success := 0; failed := 2 |}
       ["/media/bad.strm"; "/media/also-bad.strm"]].
Proof. reflexivity. Qed.

(** [processVideo] validates the path of the strm file before its [try]:
    a path under a blocked directory makes it throw, with no log line and
    no outcome. *)
Lemma processVideo_blocked_path `{Platform} (w : world) (strmFile : string)
    (cfg : VideoService.config) (st : Job.state) :
  VideoService.validatePath strmFile = Throw SystemDirectory ->
  VideoService.processVideo w strmFile cfg st = (Throw SystemDirectory, st).
Proof.
  intros Hpath. unfold VideoService.processVideo, Job.bind, Job.lift.
  now rewrite Hpath.
Qed.

Lemma handler_sticky (s : VideoRoutes.t) (i : VideoRoutes.input) :
  VideoRoutes.handler s <> VideoRoutes.Waiting ->
  VideoRoutes.handler (VideoRoutes.step s i) = VideoRoutes.handler s.
Proof.
  intros Hnw.
  assert (forall s0, VideoRoutes.handler s0 = VideoRoutes.handler s ->
                     VideoRoutes.handler (VideoRoutes.promise_all s0)
                     = VideoRoutes.handler s) as Hall.
  { intros s0 H0. unfold VideoRoutes.promise_all. rewrite H0.
    now destruct (VideoRoutes.handler s). }
  destruct i as [h | h m l | h result | h e]; cbn [VideoRoutes.step].
  - reflexivity.
  - now destruct (TaskQueue.calls (VideoRoutes.q s) !! h) as [[c|j|o]|].
  - destruct (TaskQueue.calls (VideoRoutes.q s) !! h) as [[c|j|o]|]; try reflexivity.
    destruct (VideoRoutes.files s !! j) as [file|]; [|reflexivity].
    apply Hall. cbn. apply on_result_rest.
  - destruct (TaskQueue.calls (VideoRoutes.q s) !! h) as [[c|j|o]|]; try reflexivity.
    now apply Hall.
Qed.

Lemma aborted_for_good (inputs : list VideoRoutes.input) (s : VideoRoutes.t)
    (e : error) :
  VideoRoutes.handler s = VideoRoutes.Aborted e ->
  VideoRoutes.handler (VideoRoutes.run s inputs) = VideoRoutes.Aborted e.
Proof.
  revert s. induction inputs as [|i inputs IH]; intros s Hs; [exact Hs|].
  unfold VideoRoutes.run in *. cbn [fold_left]. apply IH.
  rewrite handler_sticky; [exact Hs | congruence].
Qed.

(** C3, where the code departs from it.  Take any batch at any point of
    any schedule at which the handler still waits, and a job in flight
    whose [processVideo] throws.  The handler is left by the rejection of
    [Promise.all]: it is aborted, it stays so whatever the other jobs do
    afterwards, and the stream never holds a complete event. *)
Theorem throw_stops_stream (cfg : VideoRoutes.settings) (requested : option Z)
    (batch : list string) (before after : list VideoRoutes.input)
    (h j : nat) (e : error) :
  let s := VideoRoutes.run (VideoRoutes.start cfg requested batch) before in
  let s' := VideoRoutes.run (VideoRoutes.step s (VideoRoutes.Throws h e)) after in
  VideoRoutes.handler s = VideoRoutes.Waiting ->
  TaskQueue.calls (VideoRoutes.q s) !! h = Some (TaskQueue.Awaiting j) ->
  (exists e', VideoRoutes.handler s' = VideoRoutes.Aborted e')
  /\ no_complete (VideoRoutes.stream s').
Proof.
  intros s s' Hwait Hh.
  pose proof (start_orderly false cfg requested batch) as Ho0.
  pose proof (run_orderly false before _ Ho0 ltac:(discriminate)) as Ho.
  pose proof (run_closing before _ Ho0 (start_closing cfg requested batch))
    as Hc.
  fold s in Ho, Hc.
  pose proof (step_orderly false s (VideoRoutes.Throws h e) Ho
                ltac:(discriminate)) as Ho1.
  pose proof (step_closing s (VideoRoutes.Throws h e) (proj1 Ho) Hc) as Hc1.
  assert (exists e', VideoRoutes.handler
                       (VideoRoutes.step s (VideoRoutes.Throws h e))
                     = VideoRoutes.Aborted e') as [e' He'].
  { cbn [VideoRoutes.step]. rewrite Hh.
    destruct (settle_idle h j (TaskQueue.Rejected e) (VideoRoutes.q s)
                (proj1 (proj1 Ho)) Hh) as [Hcalls _].
    unfold VideoRoutes.promise_all.
    cbn [VideoRoutes.handler VideoRoutes.with_q VideoRoutes.q]. rewrite Hwait.
    pose proof (omap_rejection
                  (TaskQueue.calls
                     (TaskQueue.settle h (TaskQueue.Rejected e) (VideoRoutes.q s))))
      as Hrej.
    destruct (omap VideoRoutes.rejection _) as [|e1 rest]; [|now exists e1].
    destruct (caught_rejected (V := unit)
                (TaskQueue.logger (VideoRoutes.q s)) e) as [e2 He2].
    rewrite He2 in Hcalls.
    exfalso. apply (Hrej h e2). rewrite Hcalls.
    apply list_lookup_insert_eq. now apply lookup_lt_Some in Hh. }
  pose proof (aborted_for_good after _ e' He') as Hab. fold s' in Hab.
  split; [now exists e'|].
  pose proof (run_closing after _ Ho1 Hc1) as [_ Hc']. fold s' in Hc'.
  rewrite Hab in Hc'. apply Hc'.
Qed.

Lemma throw_stops_stream_witness :
  (exists e',
      VideoRoutes.handler
        (VideoRoutes.run
           (VideoRoutes.step
              (VideoRoutes.run
                 (VideoRoutes.start Example.settings None
                    ["/media/a.strm"; "/etc/b.strm"])
                 [VideoRoutes.Returns 0
                    {| VideoService.success := true;
                       VideoService.skipped := false;
                       VideoService.file := Some "/media/a.strm";
                       VideoService.reason := None |}])
              (VideoRoutes.Throws 1 SystemDirectory))
           [VideoRoutes.Timer 0])
      = VideoRoutes.Aborted e')
  /\ no_complete
       (VideoRoutes.stream
          (VideoRoutes.run
             (VideoRoutes.step
                (VideoRoutes.run
                   (VideoRoutes.start Example.settings None
                      ["/media/a.strm"; "/etc/b.strm"])
                   [VideoRoutes.Returns 0
                      {| VideoService.success := true;
                         VideoService.skipped := false;
                         VideoService.file := Some "/media/a.strm";
                         VideoService.reason := None |}])
                (VideoRoutes.Throws 1 SystemDirectory))
             [VideoRoutes.Timer 0])).
Proof.
  apply (throw_stops_stream Example.settings None
           ["/media/a.strm"; "/etc/b.strm"]
           [VideoRoutes.Returns 0
              {| VideoService.success := true;
                 VideoService.skipped := false;
                 VideoService.file := Some "/media/a.strm";
                 VideoService.reason := None |}]
           [VideoRoutes.Timer 0] 1 1 SystemDirectory); reflexivity.
Defined.

(** A batch of three files, the second of which lies under [/etc]:
    [processVideo] throws for it, and although every job of the batch has
    settled the stream holds no complete event. *)
Example blocked_path_stops_stream :
  let s := VideoRoutes.process (H := SimplePlatform.platform)
             (Example.world_batch 120) Example.settings (Example.options "0")
             ["/media/a.strm"; "/etc/b.strm"; "/media/c.strm"] in
  VideoRoutes.handler s = VideoRoutes.Aborted SystemDirectory
  /\ TaskQueue.calls (VideoRoutes.q s)
     = [TaskQueue.Settled (TaskQueue.Resolved tt);
        TaskQueue.Settled (TaskQueue.Rejected SystemDirectory);
        TaskQueue.Settled (TaskQueue.Resolved tt)]
  /\ VideoRoutes.stream s
     = [Log (MsgConcurrency 2 3) info;
        Log (MsgStart "a") info; Log MsgProbing info;
        Log MsgThumbnail info; Log (MsgNfo "a.nfo") info;
        Log (MsgSuccess "a") info;
        Progress {| total := 3; processed := 1; success := 1; failed := 0 |};
        Log (MsgStart "c") info; Log MsgProbing info;
        Log MsgThumbnail info; Log (MsgNfo "c.nfo") info;
        Log (MsgSuccess "c") info;
        Progress {| total := 3; processed := 2; success := 2; failed := 0 |}].
Proof. vm_compute. repeat split. Qed.

(** ** The empty batch *)

Lemma empty_batch_start (cfg : VideoRoutes.settings) (requested : option Z) :
  VideoRoutes.start cfg requested []
  = {| VideoRoutes.q :=
         TaskQueue.create (VideoRoutes.resolve_concurrency cfg requested 0)
           true;
       VideoRoutes.files := [];
       VideoRoutes.counters :=
         {| total := 0; processed := 0; success := 0; failed := 0 |};
       VideoRoutes.failedFiles := [];
       VideoRoutes.stream :=
         [Log (MsgConcurrency (VideoRoutes.resolve_concurrency cfg requested 0) 0)
            info;
          Complete {| total := 0; processed := 0; success := 0; failed := 0 |} []];
       VideoRoutes.handler := VideoRoutes.Ended |}.
Proof. reflexivity. Qed.

Lemma empty_batch_fixed (cfg : VideoRoutes.settings) (requested : option Z)
    (inputs : list VideoRoutes.input) :
  VideoRoutes.run (VideoRoutes.start cfg requested []) inputs
  = VideoRoutes.start cfg requested [].
Proof.
  rewrite empty_batch_start.
  induction inputs as [|i inputs IH]; [reflexivity|].
  unfold VideoRoutes.run in *. cbn [fold_left].
  destruct i as [h | h m l | h result | h e]; exact IH.
Qed.

(** C5, as the code has it.  A batch with no file writes two events and
    no more, whatever happens afterwards: the log line that announces the
    concurrency and the batch size, then one complete event whose counters
    are all zero and whose list of failed files is empty; the handler has
    ended. *)
Theorem empty_batch (cfg : VideoRoutes.settings) (requested : option Z)
    (inputs : list VideoRoutes.input) :
  let s := VideoRoutes.run (VideoRoutes.start cfg requested []) inputs in
  VideoRoutes.stream s
  = [Log (MsgConcurrency (VideoRoutes.resolve_concurrency cfg requested 0) 0) info;
     Complete {| total := 0; processed := 0; success := 0; failed := 0 |} []]
  /\ VideoRoutes.handler s = VideoRoutes.Ended.
Proof.
  intros s. subst s. rewrite empty_batch_fixed, empty_batch_start. now split.
Qed.

(** The stream of an empty batch opens with a log event. *)
Lemma empty_batch_logs :
  VideoRoutes.stream
    (VideoRoutes.process (H := SimplePlatform.platform) (Example.world_batch 120)
       Example.settings (Example.options "0") [])
  = [Log (MsgConcurrency 2 0) info;
     Complete {| total := 0; processed := 0; success := 0; failed := 0 |} []].
Proof. reflexivity. Qed.

(** ** A job handed to [enqueue] *)

(** C4, where the code departs from it.  [enqueue(job, priority)] on a
    queue with a free slot and nothing waiting: [processNext] passes the
    queue entry, not the job, to [add], and calling it throws a
    [TypeError].  The one call made is settled at once, rejected with
    that [TypeError], a promise the caller does not hold; the entry has
    left the queue, so the job is in no call and in no entry; no slot is
    taken; and the queue counts one more failed task, for an error that
    is not the job's. *)
Theorem enqueue_drops_job {V : Type} (j : nat) (priority : Z)
    (q : TaskQueue.t V) :
  (TaskQueue.running q < TaskQueue.concurrency q)%Z ->
  TaskQueue.queue q = [] ->
  let q' := TaskQueue.enqueue j priority q in
  TaskQueue.calls q'
    = TaskQueue.calls q ++ [TaskQueue.Settled (TaskQueue.Rejected NotAFunction)]
  /\ TaskQueue.queue q' = []
  /\ TaskQueue.running q' = TaskQueue.running q
  /\ TaskQueue.failed (TaskQueue.st q') = (TaskQueue.failed (TaskQueue.st q) + 1)%Z
  /\ TaskQueue.completed (TaskQueue.st q') = TaskQueue.completed (TaskQueue.st q)
  /\ TaskQueue.total (TaskQueue.st q') = (TaskQueue.total (TaskQueue.st q) + 1)%Z.
Proof.
  intros Hlt Hq q'. subst q'.
  unfold TaskQueue.enqueue, TaskQueue.processNext. rewrite Hq. cbn.
  destruct (Z.ltb_spec (TaskQueue.running q) (TaskQueue.concurrency q)) as [_|Hge];
    [|lia].
  unfold TaskQueue.add_with, TaskQueue.poll. cbn.
  destruct (Z.geb_spec (TaskQueue.running q) (TaskQueue.concurrency q)) as [Hge|_];
    [lia|].
  cbn. repeat split; try lia.
  replace (length (TaskQueue.calls q))
    with (length (TaskQueue.calls q) + 0)%nat by lia.
  now rewrite insert_app_r.
Qed.

Lemma enqueue_drops_job_witness :
  let q' := TaskQueue.enqueue 7 0 (TaskQueue.create (V := unit) 2 true) in
  TaskQueue.calls q' = [TaskQueue.Settled (TaskQueue.Rejected NotAFunction)]
  /\ TaskQueue.queue q' = []
  /\ TaskQueue.running q' = 0%Z
  /\ TaskQueue.failed (TaskQueue.st q') = 1%Z
  /\ TaskQueue.completed (TaskQueue.st q') = 0%Z
  /\ TaskQueue.total (TaskQueue.st q') = 1%Z.
Proof.
  apply (enqueue_drops_job (V := unit) 7 0 (TaskQueue.create 2 true));
    reflexivity.
Defined.

(** The same on a new queue with two slots, and on a queue whose only
    slot is taken when two jobs are enqueued. *)
Example enqueue_never_runs_job :
  TaskQueue.run (V := unit) (TaskQueue.create 2 true) [TaskQueue.Enqueue 7 0]
  = {| TaskQueue.concurrency := 2;
       TaskQueue.running := 0;
       TaskQueue.queue := [];
       TaskQueue.logger := true;
       TaskQueue.st := {| TaskQueue.total := 1; TaskQueue.completed := 0;
                          TaskQueue.failed := 1; TaskQueue.active := 0 |};
       TaskQueue.calls := [TaskQueue.Settled (TaskQueue.Rejected NotAFunction)];
       TaskQueue.dispatched_at := [0%Z] |}.
Proof. reflexivity. Qed.

Example enqueue_while_busy :
  TaskQueue.calls
    (TaskQueue.run (V := unit) (TaskQueue.create 1 true)
       [TaskQueue.Add 0; TaskQueue.Enqueue 7 0; TaskQueue.Enqueue 8 3;
        TaskQueue.Settle 0 (TaskQueue.Resolved tt)])
  = [TaskQueue.Settled (TaskQueue.Resolved tt);
     TaskQueue.Settled (TaskQueue.Rejected NotAFunction);
     TaskQueue.Settled (TaskQueue.Rejected NotAFunction)].
Proof. reflexivity. Qed.

(** ** The NFO file *)

Lemma escape_char_cases (c : ascii) :
  (c = "<"%char /\ Nfo.escape_char c = "&lt;")
  \/ (c = ">"%char /\ Nfo.escape_char c = "&gt;")
  \/ (c = "&"%char /\ Nfo.escape_char c = "&amp;")
  \/ (c = "'"%char /\ Nfo.escape_char c = "&apos;")
  \/ (c = Nfo.dquote /\ Nfo.escape_char c = "&quot;")
  \/ (c <> "<"%char /\ c <> ">"%char /\ c <> "&"%char /\ c <> "'"%char
      /\ c <> Nfo.dquote /\ Nfo.escape_char c = String c EmptyString).
Proof.
  unfold Nfo.escape_char.
  destruct (Ascii.eqb_spec c "<"); [now left|].
  destruct (Ascii.eqb_spec c ">"); [now right; left|].
  destruct (Ascii.eqb_spec c "&"); [now right; right; left|].
  destruct (Ascii.eqb_spec c "'"); [now right; right; right; left|].
  destruct (Ascii.eqb_spec c Nfo.dquote); [now right; right; right; right; left|].
  now right; right; right; right; right.
Qed.

Lemma append_cons (c : ascii) (a b : string) :
  String c a +:+ b = String c (a +:+ b).
Proof. reflexivity. Qed.

Lemma append_empty (b : string) : EmptyString +:+ b = b.
Proof. reflexivity. Qed.

Lemma chars_append (a b : string) :
  list_ascii_of_string (a +:+ b)
  = list_ascii_of_string a ++ list_ascii_of_string b.
Proof.
  induction a as [|c a IH]; [reflexivity|].
  rewrite append_cons. cbn. now rewrite IH.
Qed.

Lemma escape_append (a b : string) :
  Nfo.escape (a +:+ b) = Nfo.escape a +:+ Nfo.escape b.
Proof.
  induction a as [|c a IH]; [reflexivity|].
  rewrite append_cons. cbn [Nfo.escape]. rewrite IH.
  generalize (Nfo.escape_char c) as e. intros e.
  induction e as [|d e IHe]; [reflexivity|].
  now rewrite !append_cons, IHe.
Qed.

(** The text [escapeXml] returns holds none of the characters [<], [>],
    the apostrophe and the quotation mark, whatever it is given: they
    only occur in an NFO file as the markup of the template. *)
Theorem escapeXml_no_markup (unsafe : Js.value) :
  Forall (fun c => Nfo.is_markup c = false)
    (list_ascii_of_string (Nfo.escapeXml unsafe)).
Proof.
  destruct unsafe as [| | b | x | s]; try constructor.
  cbn [Nfo.escapeXml]. induction s as [|c s IH]; [constructor|].
  cbn [Nfo.escape]. rewrite chars_append. apply Forall_app. split; [|exact IH].
  destruct (escape_char_cases c)
    as [[_ ->]|[[_ ->]|[[_ ->]|[[_ ->]|[[_ ->]|(H1 & H2 & _ & H4 & H5 & ->)]]]]];
    try (cbn; repeat constructor).
  unfold Nfo.is_markup.
  destruct (Ascii.eqb_spec c "<"); [contradiction|].
  destruct (Ascii.eqb_spec c ">"); [contradiction|].
  destruct (Ascii.eqb_spec c "'"); [contradiction|].
  destruct (Ascii.eqb_spec c Nfo.dquote); [contradiction|].
  reflexivity.
Qed.

(** [escapeXml] loses nothing: two strings with the same escaped text are
    the same string. *)
Theorem escapeXml_injective (a b : string) :
  Nfo.escapeXml (Js.VStr a) = Nfo.escapeXml (Js.VStr b) -> a = b.
Proof.
  cbn [Nfo.escapeXml]. revert b.
  induction a as [|c a IH]; intros [|d b] Heq.
  - reflexivity.
  - exfalso. cbn [Nfo.escape] in Heq.
    destruct (escape_char_cases d)
      as [[_ E]|[[_ E]|[[_ E]|[[_ E]|[[_ E]|(_ & _ & _ & _ & _ & E)]]]]];
      rewrite E in Heq; discriminate Heq.
  - exfalso. cbn [Nfo.escape] in Heq.
    destruct (escape_char_cases c)
      as [[_ E]|[[_ E]|[[_ E]|[[_ E]|[[_ E]|(_ & _ & _ & _ & _ & E)]]]]];
      rewrite E in Heq; discriminate Heq.
  - cbn [Nfo.escape] in Heq.
    destruct (escape_char_cases c)
      as [[-> E]|[[-> E]|[[-> E]|[[-> E]|[[-> E]|(C1 & C2 & C3 & C4 & C5 & E)]]]]];
    destruct (escape_char_cases d)
      as [[-> F]|[[-> F]|[[-> F]|[[-> F]|[[-> F]|(D1 & D2 & D3 & D4 & D5 & F)]]]]];
    rewrite E in Heq; rewrite ?F in Heq; rewrite ?append_cons, ?append_empty in Heq;
    try discriminate Heq;
    try (injection Heq as Heq; f_equal; now apply IH);
    try (injection Heq as Hc Heq; congruence).
    injection Heq as Hc Heq. subst d. f_equal. now apply IH.
Qed.

Lemma escapeXml_injective_witness : "Tom & Jerry <1940>" = "Tom & Jerry <1940>".
Proof. apply (escapeXml_injective "Tom & Jerry <1940>"). reflexivity. Defined.

Lemma includes_cons_false (c : ascii) (s p : string) :
  Js.includes (String c s) p = false ->
  String.prefix p (String c s) = false /\ Js.includes s p = false.
Proof.
  cbn [Js.includes]. destruct (String.prefix p (String c s)); [discriminate|].
  now intros ->.
Qed.

Lemma replace_absent (s p r : string) :
  Js.includes s p = false -> Js.replace s p r = s.
Proof.
  induction s as [|c s IH]; intros Hs.
  - cbn [Js.includes Js.replace] in *.
    destruct (String.prefix p ""); [discriminate | reflexivity].
  - apply includes_cons_false in Hs as [Hp Hs].
    cbn [Js.replace]. rewrite Hp. now rewrite IH.
Qed.

(** An occurrence of [.strm] that starts in [a] cannot end in a [.strm]
    that follows it. *)
Lemma strm_no_straddle (c : ascii) (a x : string) :
  String.prefix ".strm" (String c a) = false ->
  String.prefix ".strm" (String c (a +:+ ".strm" +:+ x)) = false.
Proof.
  cbn [String.prefix]. destruct (ascii_dec "." c) as [_|]; [|reflexivity].
  do 4 (destruct a as [|? a]; [reflexivity|];
        rewrite append_cons; cbn [String.prefix];
        match goal with |- context [ascii_dec ?p ?d] =>
          destruct (ascii_dec p d) as [_|]; [|reflexivity]
        end).
  destruct a; discriminate.
Qed.

Lemma replace_prefix (s p r : string) :
  String.prefix p s = true ->
  Js.replace s p r = r +:+ Js.drop (String.length p) s.
Proof. intros Hp. destruct s; cbn [Js.replace]; now rewrite Hp. Qed.

Lemma drop_append (p b : string) : Js.drop (String.length p) (p +:+ b) = b.
Proof. induction p as [|c p IH]; [reflexivity | exact IH]. Qed.

Lemma replace_first_strm (a b : string) :
  Js.includes a ".strm" = false ->
  Js.replace (a +:+ ".strm" +:+ b) ".strm" ".nfo" = a +:+ ".nfo" +:+ b.
Proof.
  induction a as [|c a IH]; intros Ha.
  - rewrite !append_empty.
    now rewrite replace_prefix, drop_append by apply prefix_append.
  - apply includes_cons_false in Ha as [Hp Ha].
    rewrite !(append_cons c a). cbn [Js.replace].
    rewrite (strm_no_straddle c a b Hp). now rewrite IH.
Qed.

(** Where [generateNFO] writes.  The name of the NFO file is the path
    it is given with its first [.strm] replaced by [.nfo], wherever
    that stands: before it comes [a], which holds no [.strm], and after it
    [b].  A path that holds no [.strm] at all is the name of the NFO file
    itself, and [generateNFO] writes the NFO over the file it was made
    from. *)
Theorem generateNFO_target (w : world) (a b : string) (st : Job.state) :
  Js.includes a ".strm" = false ->
  VideoService.generateNFO w (a +:+ ".strm" +:+ b) st
  = (if fs_writeFile w (a +:+ ".nfo" +:+ b)
     then Ok (a +:+ ".nfo" +:+ b) else Throw WriteFailed,
     traced st [FsWriteFile (a +:+ ".nfo" +:+ b)])
  /\ VideoService.generateNFO w a st
     = (if fs_writeFile w a then Ok a else Throw WriteFailed,
        traced st [FsWriteFile a]).
Proof.
  intros Ha. unfold VideoService.generateNFO.
  rewrite (replace_first_strm a b Ha), (replace_absent a ".strm" ".nfo" Ha).
  unfold Job.bind, Job.perform, Job.ret, Job.throw, traced.
  split.
  - now destruct (fs_writeFile w (a +:+ ".nfo" +:+ b)).
  - now destruct (fs_writeFile w a).
Qed.

Lemma generateNFO_target_witness :
  VideoService.generateNFO (Example.world_of "http://example.com/v" 60 false)
    "/media/show.strm/e1.strm" (Job.start CacheService.create)
  = (Ok "/media/show.nfo/e1.strm",
     {| Job.cache := CacheService.create;
        Job.trace := [FsWriteFile "/media/show.nfo/e1.strm"] |})
  /\ VideoService.generateNFO (Example.world_of "http://example.com/v" 60 false)
       "/media/show" (Job.start CacheService.create)
     = (Ok "/media/show",
        {| Job.cache := CacheService.create;
           Job.trace := [FsWriteFile "/media/show"] |}).
Proof.
  apply (generateNFO_target (Example.world_of "http://example.com/v" 60 false)
           "/media/show" "/e1.strm" (Job.start CacheService.create)).
  reflexivity.
Defined.

(** A job whose file is not named [.strm] and that succeeds writes the
    NFO over the file it read the URL from. *)
Example processVideo_overwrites_its_source :
  Job.trace
    (snd (VideoService.processVideo (H := SimplePlatform.platform)
            (Example.world_of "http://example.com/v.mp4" 60 false)
            "/media/movie.txt" (Example.options "0")
            (Job.start CacheService.create)))
  = [FsReadFile "/media/movie.txt";
     Send (Log (MsgStart "movie.txt") info);
     HttpHead "http://example.com/v.mp4";
     Send (Log MsgProbing info);
     Ffprobe "http://example.com/v.mp4";
     Send (Log MsgThumbnail info);
     FfmpegFrame "http://example.com/v.mp4" (Js.Fin 30)
       "/media/movie.txt.jpg";
     FsStat "/media/movie.txt.jpg";
     FsWriteFile "/media/movie.txt";
     Send (Log (MsgNfo "movie.txt") info);
     Send (Log (MsgSuccess "movie.txt") info)].
Proof. vm_compute. reflexivity. Qed.

(** ** Path validation *)

Lemma prefix_split (p s : string) :
  String.prefix p s = true <-> exists rest, s = p +:+ rest.
Proof.
  split.
  - revert s. induction p as [|c p IH]; intros s Hp.
    + now exists s.
    + destruct s as [|d s]; [discriminate|]. cbn in Hp.
      destruct (ascii_dec c d) as [->|]; [|discriminate].
      destruct (IH s Hp) as [rest ->]. now exists rest.
  - intros [rest ->]. apply prefix_append.
Qed.

(** [validatePath] compares characters, not directories.  It throws
    exactly when the resolved path begins with the characters of a blocked
    entry, whatever follows them: a path under [/system], [/devices] or
    [/processed] is refused with [/sys], [/dev] and [/proc].  Any other
    path is returned resolved. *)
Theorem validatePath_prefix_match `{Platform} (filePath : string) :
  (VideoService.validatePath filePath = Throw SystemDirectory
   <-> exists blocked rest,
         In blocked VideoService.blockedPaths
         /\ path_resolve filePath = blocked +:+ rest)
  /\ (VideoService.validatePath filePath = Ok (path_resolve filePath)
      <-> forall blocked rest,
            In blocked VideoService.blockedPaths ->
            path_resolve filePath <> blocked +:+ rest).
Proof.
  unfold VideoService.validatePath.
  destruct (existsb (fun blocked => Js.startsWith (path_resolve filePath) blocked)
              VideoService.blockedPaths) eqn:Hex.
  - apply existsb_exists in Hex as (blocked & Hin & Hp).
    apply prefix_split in Hp as [rest Hrest].
    split; split; try discriminate.
    + intros _. now exists blocked, rest.
    + reflexivity.
    + intros Hnone. now destruct (Hnone blocked rest Hin).
  - assert (forall blocked rest,
               In blocked VideoService.blockedPaths ->
               path_resolve filePath <> blocked +:+ rest) as Hnone.
    { intros blocked rest Hin Heq.
      assert (existsb (fun blocked => Js.startsWith (path_resolve filePath) blocked)
                VideoService.blockedPaths = true) as Hyes; [|congruence].
      apply existsb_exists. exists blocked. split; [exact Hin|].
      apply prefix_split. now exists rest. }
    split; split; try discriminate; try reflexivity.
    + intros (blocked & rest & Hin & Heq). now destruct (Hnone blocked rest Hin).
    + intros _. exact Hnone.
Qed.

Example validatePath_refuses_system_media :
  VideoService.validatePath (H := SimplePlatform.platform)
    "/system/media/a.strm" = Throw SystemDirectory
  /\ VideoService.validatePath (H := SimplePlatform.platform)
       "/devices/nas/a.strm" = Throw SystemDirectory
  /\ VideoService.validatePath (H := SimplePlatform.platform)
       "/media/etc/a.strm" = Ok "/media/etc/a.strm".
Proof. repeat split. Qed.

(** ** The scan for strm files *)

Section Scanning.
Context `{Platform}.

Lemma entries_yield (extension dir p : string) (entries : list Scan.dirent) :
  (forall e, In e entries ->
             In p (Scan.scanEntry extension dir e)
             <-> entry_yields extension dir e p) ->
  In p (flat_map (Scan.scanEntry extension dir) entries)
  <-> reachable extension dir entries p.
Proof.
  intros Hall. rewrite in_flat_map. split.
  - intros (e & He & Hp). apply (Hall e He) in Hp.
    destruct e as [n | n [s|] | n]; try contradiction.
    + destruct Hp as [-> Hf]. now apply reachable_here.
    + now apply (reachable_below _ _ _ s n).
  - intros Hr. inversion Hr as [d es n Hin Hf | d es s n q Hin Hq]; subst.
    + exists (Scan.File n). split; [exact Hin|].
      apply (Hall _ Hin). now split.
    + exists (Scan.Directory n (Some s)). split; [exact Hin|].
      apply (Hall _ Hin). exact Hq.
Qed.

Lemma scanEntry_yields (extension : string) (entry : Scan.dirent) :
  forall (dir p : string),
    In p (Scan.scanEntry extension dir entry)
    <-> entry_yields extension dir entry p.
Proof.
  revert entry.
  fix IH 1. intros [name | name [sub|] | name] dir p;
    cbn [Scan.scanEntry entry_yields].
  - destruct (Scan.endsWith (path_join dir name) extension); cbn.
    + split; [intros [<-|[]]; now split | intros [-> _]; now left].
    + split; [intros [] | intros [_ Hf]; discriminate].
  - apply entries_yield.
    assert (List.Forall (fun e => forall dir p,
                           In p (Scan.scanEntry extension dir e)
                           <-> entry_yields extension dir e p) sub) as Hall.
    { induction sub as [|e sub IHsub]; constructor; [apply IH | exact IHsub]. }
    rewrite List.Forall_forall in Hall. intros e He. now apply Hall.
  - reflexivity.
  - reflexivity.
Qed.

Lemma scanDirectory_reachable (extension dir p : string)
    (entries : list Scan.dirent) :
  In p (Scan.scanDirectory dir (Some entries) extension)
  <-> reachable extension dir entries p.
Proof.
  apply entries_yield. intros e _. apply scanEntry_yields.
Qed.

End Scanning.

(** What [scanStrmFiles] returns.  It throws exactly when [validatePath]
    refuses the directory it is given.  Otherwise it returns a list, also
    for a directory that cannot be read, whose list is empty; the paths of
    the list are exactly the regular files whose full path ends in
    [.strm] and that are reached from the directory through directories
    that can be read.  Entries that are neither files nor directories are
    neither returned nor followed. *)
Theorem scanStrmFiles_exact `{Platform} (directory : string)
    (listing : option (list Scan.dirent)) :
  match VideoService.validatePath directory with
  | Throw e => Scan.scanStrmFiles directory listing = Throw e
  | Ok safeDirectory =>
      exists files,
        Scan.scanStrmFiles directory listing = Ok files
        /\ match listing with
           | None => files = []
           | Some entries =>
               forall p, In p files
                         <-> reachable ".strm" safeDirectory entries p
           end
  end.
Proof.
  unfold Scan.scanStrmFiles.
  destruct (VideoService.validatePath directory) as [safe|e]; [|reflexivity].
  eexists. split; [reflexivity|].
  destruct listing as [entries|]; [|reflexivity].
  intros p. apply scanDirectory_reachable.
Qed.

(** [validatePath] guards the directory the scan starts from and nothing
    below it: a strm file in a sub directory is returned also when
    [validatePath] refuses that sub directory. *)
Theorem scan_validates_root_only `{Platform} (directory safeDirectory : string)
    (entries sub : list Scan.dirent) (name file : string) :
  VideoService.validatePath directory = Ok safeDirectory ->
  VideoService.validatePath (path_join safeDirectory name)
    = Throw SystemDirectory ->
  In (Scan.Directory name (Some sub)) entries ->
  In (Scan.File file) sub ->
  Scan.endsWith (path_join (path_join safeDirectory name) file) ".strm" = true ->
  exists files,
    Scan.scanStrmFiles directory (Some entries) = Ok files
    /\ In (path_join (path_join safeDirectory name) file) files.
Proof.
  intros Hroot _ Hdir Hfile Hext.
  unfold Scan.scanStrmFiles. rewrite Hroot.
  eexists. split; [reflexivity|].
  apply scanDirectory_reachable.
  apply (reachable_below _ _ _ sub name); [exact Hdir|].
  now apply reachable_here.
Qed.

Lemma scan_validates_root_only_witness :
  exists files,
    Scan.scanStrmFiles (H := SimplePlatform.platform) "/usr"
      (Some [Scan.File "notes.txt";
             Scan.Directory "bin" (Some [Scan.File "tool.strm"]);
             Scan.Directory "lost+found" None])
    = Ok files
    /\ In "/usr/bin/tool.strm" files.
Proof.
  apply (scan_validates_root_only (H := SimplePlatform.platform)
           "/usr" "/usr"
           [Scan.File "notes.txt";
            Scan.Directory "bin" (Some [Scan.File "tool.strm"]);
            Scan.Directory "lost+found" None]
           [Scan.File "tool.strm"] "bin" "tool.strm").
  - reflexivity.
  - reflexivity.
  - cbn. auto.
  - cbn. auto.
  - reflexivity.
Defined.

(** ** A batch whose queue has no slot *)

Lemma add_polls {V : Type} (j : nat) (q : TaskQueue.t V) :
  (TaskQueue.concurrency q <= TaskQueue.running q)%Z ->
  TaskQueue.add (TaskQueue.Job j) q
  = TaskQueue.with_calls
      (TaskQueue.calls q ++ [TaskQueue.Polling (TaskQueue.Job j)])
      (TaskQueue.count_total q).
Proof.
  intros Hle. unfold TaskQueue.add, TaskQueue.add_with, TaskQueue.poll. cbn.
  destruct (Z.geb_spec (TaskQueue.running q) (TaskQueue.concurrency q));
    [reflexivity | lia].
Qed.

Lemma submit_all_polls (k a : nat) (q : TaskQueue.t unit) :
  (TaskQueue.concurrency q <= TaskQueue.running q)%Z ->
  TaskQueue.calls q = all_polling a ->
  let q' := fold_left (fun q j => TaskQueue.add (TaskQueue.Job j) q)
              (seq a k) q in
  TaskQueue.calls q' = all_polling (a + k)
  /\ TaskQueue.concurrency q' = TaskQueue.concurrency q
  /\ TaskQueue.running q' = TaskQueue.running q
  /\ TaskQueue.queue q' = TaskQueue.queue q.
Proof.
  revert a q. induction k as [|k IH]; intros a q Hle Hcalls; cbn [seq fold_left].
  - now rewrite Nat.add_0_r.
  - rewrite (add_polls a q Hle).
    match goal with |- context [fold_left _ _ ?q1] =>
      destruct (IH (S a) q1) as (Hc & Hl & Hr & Hq)
    end.
    + exact Hle.
    + unfold TaskQueue.with_calls. cbn [TaskQueue.calls].
      rewrite Hcalls. unfold all_polling.
      now rewrite seq_S, map_app.
    + cbn in Hl, Hr, Hq. cbn zeta.
      rewrite Hc, Hl, Hr, Hq. now rewrite Nat.add_succ_r.
Qed.

Lemma all_polling_lookup (n i : nat) :
  (i < n)%nat ->
  all_polling n !! i = Some (TaskQueue.Polling (TaskQueue.Job i)).
Proof.
  intros Hi. unfold all_polling. rewrite list_lookup_fmap.
  now rewrite lookup_seq_lt.
Qed.

Lemma all_polling_lookup_inv (n i : nat) (p : TaskQueue.phase unit) :
  all_polling n !! i = Some p -> exists c, p = TaskQueue.Polling c.
Proof.
  unfold all_polling. rewrite list_lookup_fmap.
  destruct (seq 0 n !! i) as [j|]; cbn; [|discriminate].
  intros [= <-]. now eexists.
Qed.

Lemma all_polling_unrejected (n : nat) :
  omap VideoRoutes.rejection (all_polling n) = [].
Proof.
  unfold all_polling. generalize (seq 0 n) as l.
  induction l as [|j l IH]; [reflexivity | exact IH].
Qed.

Lemma all_polling_unresolved (n : nat) :
  forallb VideoRoutes.resolved (all_polling (S n)) = false.
Proof. reflexivity. Qed.

Lemma with_q_same (s : VideoRoutes.t) : VideoRoutes.with_q (VideoRoutes.q s) s = s.
Proof. now destruct s. Qed.

(** A request whose queue has no slot and whose calls all poll stays as
    it is, whatever happens. *)
Lemma stalled_step (s : VideoRoutes.t) (n : nat) (i : VideoRoutes.input) :
  (TaskQueue.concurrency (VideoRoutes.q s)
   <= TaskQueue.running (VideoRoutes.q s))%Z ->
  TaskQueue.calls (VideoRoutes.q s) = all_polling n ->
  VideoRoutes.step s i = s.
Proof.
  intros Hle Hcalls.
  destruct i as [h | h m l | h result | h e]; cbn [VideoRoutes.step].
  - unfold TaskQueue.wake.
    destruct (TaskQueue.calls (VideoRoutes.q s) !! h) as [[c|j|o]|];
      try apply with_q_same.
    unfold TaskQueue.poll.
    destruct (Z.geb_spec (TaskQueue.running (VideoRoutes.q s))
                (TaskQueue.concurrency (VideoRoutes.q s)));
      [apply with_q_same | lia].
  - destruct (TaskQueue.calls (VideoRoutes.q s) !! h) as [p|] eqn:Hh;
      [|reflexivity].
    rewrite Hcalls in Hh. apply all_polling_lookup_inv in Hh as [c ->].
    reflexivity.
  - destruct (TaskQueue.calls (VideoRoutes.q s) !! h) as [p|] eqn:Hh;
      [|reflexivity].
    rewrite Hcalls in Hh. apply all_polling_lookup_inv in Hh as [c ->].
    reflexivity.
  - destruct (TaskQueue.calls (VideoRoutes.q s) !! h) as [p|] eqn:Hh;
      [|reflexivity].
    rewrite Hcalls in Hh. apply all_polling_lookup_inv in Hh as [c ->].
    reflexivity.
Qed.

Lemma stalled_run (inputs : list VideoRoutes.input) (s : VideoRoutes.t)
    (n : nat) :
  (TaskQueue.concurrency (VideoRoutes.q s)
   <= TaskQueue.running (VideoRoutes.q s))%Z ->
  TaskQueue.calls (VideoRoutes.q s) = all_polling n ->
  VideoRoutes.run s inputs = s.
Proof.
  intros Hle Hcalls. induction inputs as [|i inputs IH]; [reflexivity|].
  unfold VideoRoutes.run in *. cbn [fold_left].
  now rewrite (stalled_step s n i Hle Hcalls).
Qed.

(** A batch that is not empty and for which the handler resolves a
    concurrency of zero or less, which it does for a negative
    [concurrency] in the request, never makes progress: whatever timers
    fire and whatever is reported for its jobs, no job is ever started,
    every call of [add] polls for a slot for good, the handler waits at
    [Promise.all], and the stream holds the announcement and nothing
    else, so no progress and no complete event. *)
Theorem nonpositive_concurrency_stalls (cfg : VideoRoutes.settings)
    (requested : option Z) (batch : list string)
    (inputs : list VideoRoutes.input) :
  batch <> [] ->
  (VideoRoutes.resolve_concurrency cfg requested (length batch) <= 0)%Z ->
  let s := VideoRoutes.run (VideoRoutes.start cfg requested batch) inputs in
  VideoRoutes.handler s = VideoRoutes.Waiting
  /\ VideoRoutes.stream s
     = [Log (MsgConcurrency
               (VideoRoutes.resolve_concurrency cfg requested (length batch))
               (length batch)) info]
  /\ TaskQueue.calls (VideoRoutes.q s) = all_polling (length batch)
  /\ TaskQueue.running (VideoRoutes.q s) = 0%Z.
Proof.
  intros Hne Hc s.
  set (c := VideoRoutes.resolve_concurrency cfg requested (length batch)) in *.
  pose proof (submit_all_polls (length batch) 0 (TaskQueue.create c true)) as Hsub.
  cbn zeta in Hsub. destruct Hsub as (Hcalls & Hlim & Hrun & Hq);
    [cbn; lia | reflexivity |].
  cbn [TaskQueue.create TaskQueue.concurrency TaskQueue.running
       TaskQueue.queue] in Hlim, Hrun, Hq.
  rewrite Nat.add_0_l in Hcalls.
  assert (VideoRoutes.start cfg requested batch
          = VideoRoutes.with_q
              (fold_left (fun q j => TaskQueue.add (TaskQueue.Job j) q)
                 (seq 0 (length batch)) (TaskQueue.create c true))
              {| VideoRoutes.q := TaskQueue.create c true;
                 VideoRoutes.files := batch;
                 VideoRoutes.counters :=
                   {| total := Z.of_nat (length batch); processed := 0;
                      success := 0; failed := 0 |};
                 VideoRoutes.failedFiles := [];
                 VideoRoutes.stream := [Log (MsgConcurrency c (length batch)) info];
                 VideoRoutes.handler := VideoRoutes.Waiting |}) as Hstart.
  { unfold VideoRoutes.start, VideoRoutes.start_with. fold c.
    unfold VideoRoutes.promise_all.
    cbn [VideoRoutes.handler VideoRoutes.with_q VideoRoutes.q].
    rewrite Hcalls, all_polling_unrejected.
    destruct batch as [|file rest]; [contradiction|].
    cbn [length]. now rewrite all_polling_unresolved. }
  subst s. rewrite Hstart.
  rewrite (stalled_run inputs _ (length batch)); cbn; [| lia | exact Hcalls].
  now rewrite Hcalls, Hrun.
Qed.

Lemma nonpositive_concurrency_stalls_witness :
  let s := VideoRoutes.run
             (VideoRoutes.start Example.settings (Some (-1)%Z)
                ["/media/a.strm"; "/media/b.strm"])
             [VideoRoutes.Timer 0; VideoRoutes.Timer 1; VideoRoutes.Timer 0] in
  VideoRoutes.handler s = VideoRoutes.Waiting
  /\ VideoRoutes.stream s = [Log (MsgConcurrency (-1) 2) info]
  /\ TaskQueue.calls (VideoRoutes.q s) = all_polling 2
  /\ TaskQueue.running (VideoRoutes.q s) = 0%Z.
Proof.
  apply (nonpositive_concurrency_stalls Example.settings (Some (-1)%Z)
           ["/media/a.strm"; "/media/b.strm"]
           [VideoRoutes.Timer 0; VideoRoutes.Timer 1; VideoRoutes.Timer 0]).
  - discriminate.
  - vm_compute. discriminate.
Defined.

(** ** The task queue: what [processNext] does to the entries that wait *)

Section Flush.
Context {V : Type}.

Lemma processNext_on_flushes (waiting : list (nat * Z)) (q : TaskQueue.t V) :
  TaskQueue.queue q = waiting ->
  TaskQueue.processNext_on waiting q
  = if (TaskQueue.running q <? TaskQueue.concurrency q)%Z
       && (0 <? length waiting)%nat
    then flushed (length waiting) q
    else q.
Proof.
  revert q. induction waiting as [|[j priority] rest IH]; intros q Hq.
  - cbn. now rewrite andb_false_r.
  - cbn [TaskQueue.processNext_on length].
    destruct (Z.ltb_spec (TaskQueue.running q) (TaskQueue.concurrency q))
      as [Hlt|Hge]; [|reflexivity].
    cbn [andb Nat.ltb Nat.leb].
    unfold TaskQueue.add_with, TaskQueue.poll.
    cbn [TaskQueue.running TaskQueue.concurrency TaskQueue.with_calls
         TaskQueue.count_total TaskQueue.with_stats TaskQueue.with_queue
         TaskQueue.calls].
    destruct (Z.geb_spec (TaskQueue.running q) (TaskQueue.concurrency q));
      [lia|].
    unfold TaskQueue.dispatch, TaskQueue.release.
    rewrite IH by reflexivity.
    cbn [TaskQueue.running TaskQueue.concurrency TaskQueue.with_calls
         TaskQueue.count_total TaskQueue.count_failed TaskQueue.take_slot
         TaskQueue.with_running TaskQueue.with_stats TaskQueue.with_queue
         TaskQueue.calls TaskQueue.st TaskQueue.queue TaskQueue.dispatched_at
         TaskQueue.total TaskQueue.completed TaskQueue.failed TaskQueue.active].
    replace (TaskQueue.running q + 1 - 1)%Z with (TaskQueue.running q) by lia.
    destruct (Z.ltb_spec (TaskQueue.running q) (TaskQueue.concurrency q));
      [|lia].
    cbn [andb].
    assert (forall extra,
               <[length (TaskQueue.calls q) :=
                   TaskQueue.Settled (TaskQueue.Rejected NotAFunction)]>
                 ((TaskQueue.calls q
                   ++ [TaskQueue.Polling (TaskQueue.Entry j priority)]) ++ extra)
               = TaskQueue.calls q
                 ++ TaskQueue.Settled (TaskQueue.Rejected NotAFunction) :: extra)
      as Hins.
    { intros extra. rewrite <- app_assoc.
      replace (length (TaskQueue.calls q))
        with (length (TaskQueue.calls q) + 0)%nat at 1 by lia.
      now rewrite insert_app_r. }
    destruct rest as [|entry rest].
    + unfold TaskQueue.set_phase, flushed. cbn -[Z.add Z.of_nat].
      specialize (Hins []). rewrite app_nil_r in Hins. rewrite Hins.
      reflexivity.
    + unfold TaskQueue.set_phase, flushed. cbn -[Z.add Z.of_nat].
      rewrite Hins.
      unfold TaskQueue.with_calls. cbn -[Z.add Z.of_nat].
      f_equal; [f_equal; lia | now rewrite <- app_assoc].
Qed.

End Flush.

Section Control.
Context {V : Type}.

Lemma processNext_flushes (q : TaskQueue.t V) :
  TaskQueue.processNext q
  = if (TaskQueue.running q <? TaskQueue.concurrency q)%Z
       && (0 <? length (TaskQueue.queue q))%nat
    then flushed (length (TaskQueue.queue q)) q
    else q.
Proof. now apply processNext_on_flushes. Qed.

Lemma tally_replicate {A : Type} (f : A -> bool) (n : nat) (x : A) :
  tally f (replicate n x) = if f x then n else 0%nat.
Proof.
  unfold tally. induction n as [|n IH]; cbn; [now destruct (f x)|].
  destruct (f x); cbn; [now rewrite IH | exact IH].
Qed.

Lemma processNext_consistent (b : bool) (L : Z) (q : TaskQueue.t V) :
  consistent b L q -> consistent b L (TaskQueue.processNext q).
Proof.
  intros (Hr & HL & Hc & Ht). rewrite processNext_flushes.
  destruct ((TaskQueue.running q <? TaskQueue.concurrency q)%Z
            && (0 <? length (TaskQueue.queue q))%nat);
    [|exact (conj Hr (conj HL (conj Hc Ht)))].
  unfold consistent, tallied, flushed. cbn -[Z.add Z.of_nat].
  rewrite !tally_app, !tally_replicate, length_app, length_replicate.
  cbn [in_flight call_resolved call_rejected].
  repeat split; try lia.
  - destruct (Ht H) as (T1 & _). lia.
  - destruct (Ht H) as (_ & T2 & _). lia.
  - destruct (Ht H) as (_ & _ & T3 & _). lia.
Qed.

(** The end of a call of [add]: [finally] has given the slot back, in
    [q], [processNext] runs and the promise of call [h] settles. *)
Lemma released_consistent (b : bool) (L : Z) (h : nat)
    (old new : TaskQueue.phase V) (q : TaskQueue.t V) :
  TaskQueue.calls q !! h = Some old ->
  consistent b L (TaskQueue.with_calls (<[h := new]> (TaskQueue.calls q)) q) ->
  consistent b L (TaskQueue.set_phase h new (TaskQueue.processNext q)).
Proof.
  intros Hh Hq.
  apply processNext_consistent in Hq.
  rewrite processNext_flushes in *.
  cbn [TaskQueue.running TaskQueue.concurrency TaskQueue.queue
       TaskQueue.with_calls] in Hq.
  destruct ((TaskQueue.running q <? TaskQueue.concurrency q)%Z
            && (0 <? length (TaskQueue.queue q))%nat); [|exact Hq].
  unfold TaskQueue.set_phase, flushed in *.
  cbn -[Z.add Z.of_nat] in *.
  rewrite insert_app_l by (now apply lookup_lt_Some in Hh).
  exact Hq.
Qed.

(** The three counts of the calls after the call at [h] went from [old]
    to [new]. *)
Lemma tallies_insert (l : list (TaskQueue.phase V)) (h : nat)
    (old new : TaskQueue.phase V) :
  l !! h = Some old ->
  (tally in_flight (<[h := new]> l) + (if in_flight old then 1 else 0)
   = tally in_flight l + (if in_flight new then 1 else 0))%nat
  /\ (tally call_resolved (<[h := new]> l) + (if call_resolved old then 1 else 0)
      = tally call_resolved l + (if call_resolved new then 1 else 0))%nat
  /\ (tally call_rejected (<[h := new]> l) + (if call_rejected old then 1 else 0)
      = tally call_rejected l + (if call_rejected new then 1 else 0))%nat
  /\ length (<[h := new]> l) = length l.
Proof.
  intros Hh. repeat split; try now apply tally_insert.
  apply length_insert.
Qed.

Lemma dispatch_consistent (b : bool) (L : Z) (c : TaskQueue.callee) (h : nat)
    (q : TaskQueue.t V) :
  consistent b L q ->
  (TaskQueue.running q < TaskQueue.concurrency q)%Z ->
  TaskQueue.calls q !! h = Some (TaskQueue.Polling c) ->
  consistent b L (TaskQueue.dispatch TaskQueue.processNext c h q).
Proof.
  intros (Hr & HL & Hc & Ht) Hlt Hh.
  unfold TaskQueue.dispatch. destruct c as [j | j priority].
  - destruct (tallies_insert _ h _ (TaskQueue.Awaiting j) Hh)
      as (T1 & T2 & T3 & T4).
    cbn [in_flight call_resolved call_rejected] in T1, T2, T3.
    unfold consistent, tallied. cbn -[Z.add Z.of_nat].
    rewrite T4. repeat split; try lia.
    + destruct (Ht H) as (? & _). lia.
    + destruct (Ht H) as (_ & ? & _). lia.
    + destruct (Ht H) as (_ & _ & ? & _). lia.
  - unfold TaskQueue.release.
    apply (released_consistent b L h (TaskQueue.Polling (TaskQueue.Entry j priority)));
      [exact Hh|].
    destruct (tallies_insert _ h _
                (TaskQueue.Settled (V := V) (TaskQueue.Rejected NotAFunction)) Hh)
      as (T1 & T2 & T3 & T4).
    cbn [in_flight call_resolved call_rejected] in T1, T2, T3.
    unfold consistent, tallied. cbn -[Z.add Z.sub Z.of_nat].
    rewrite T4. repeat split; try lia.
    + destruct (Ht H) as (? & _). lia.
    + destruct (Ht H) as (_ & ? & _). lia.
    + destruct (Ht H) as (_ & _ & ? & _). lia.
Qed.

Lemma poll_consistent (b : bool) (L : Z) (c : TaskQueue.callee) (h : nat)
    (q : TaskQueue.t V) :
  consistent b L q ->
  TaskQueue.calls q !! h = Some (TaskQueue.Polling c) ->
  consistent b L (TaskQueue.poll TaskQueue.processNext c h q).
Proof.
  intros Hq Hh. unfold TaskQueue.poll.
  destruct (Z.geb_spec (TaskQueue.running q) (TaskQueue.concurrency q));
    [exact Hq | now apply dispatch_consistent].
Qed.

Lemma add_consistent (b : bool) (L : Z) (c : TaskQueue.callee)
    (q : TaskQueue.t V) :
  consistent b L q -> consistent b L (TaskQueue.add c q).
Proof.
  intros (Hr & HL & Hc & Ht). unfold TaskQueue.add, TaskQueue.add_with.
  apply poll_consistent.
  - unfold consistent, tallied. cbn -[Z.add Z.of_nat].
    rewrite !tally_app, length_app.
    change (tally in_flight [TaskQueue.Polling c]) with 0%nat.
    change (tally call_resolved [TaskQueue.Polling (V := V) c]) with 0%nat.
    change (tally call_rejected [TaskQueue.Polling (V := V) c]) with 0%nat.
    cbn [length]. repeat split; try lia.
    + destruct (Ht H) as (? & _). lia.
    + destruct (Ht H) as (_ & ? & _). lia.
    + destruct (Ht H) as (_ & _ & ? & _). lia.
    + now destruct (Ht H) as (_ & _ & _ & ?).
  - cbn. now apply list_lookup_middle.
Qed.

Lemma settle_consistent (b : bool) (L : Z) (h : nat)
    (o : TaskQueue.settlement V) (q : TaskQueue.t V) :
  consistent b L q -> consistent b L (TaskQueue.settle h o q).
Proof.
  intros Hq. unfold TaskQueue.settle.
  destruct (TaskQueue.calls q !! h) as [[c|j|o']|] eqn:Hh; try exact Hq.
  destruct Hq as (Hr & HL & Hc & Ht).
  unfold TaskQueue.release.
  apply (released_consistent b L h (TaskQueue.Awaiting j));
    [now destruct o|].
  set (o2 := TaskQueue.caught (TaskQueue.logger q) o).
  assert (call_resolved (TaskQueue.Settled o2)
          = call_resolved (TaskQueue.Settled o)
          /\ call_rejected (TaskQueue.Settled o2)
             = call_rejected (TaskQueue.Settled o)) as [R1 R2].
  { subst o2. destruct o as [v|[]]; destruct (TaskQueue.logger q);
      split; reflexivity. }
  destruct (tallies_insert _ h _ (TaskQueue.Settled o2) Hh)
    as (T1 & T2 & T3 & T4).
  cbn [in_flight] in T1. rewrite R1 in T2. rewrite R2 in T3. clearbody o2.
  unfold consistent, tallied.
  destruct o as [v|e]; cbn [call_resolved call_rejected] in T2, T3;
    cbn -[Z.add Z.sub Z.of_nat]; rewrite T4; repeat split; try lia.
  all: try (destruct (Ht H) as (? & ? & ? & ?); lia).
Qed.

Lemma step_consistent (b : bool) (L : Z) (q : TaskQueue.t V)
    (i : TaskQueue.input) :
  consistent b L q -> consistent b L (TaskQueue.step q i).
Proof.
  intros Hq. destruct i as [j | j priority | h | h o]; cbn [TaskQueue.step].
  - now apply add_consistent.
  - unfold TaskQueue.enqueue. apply processNext_consistent. exact Hq.
  - unfold TaskQueue.wake.
    destruct (TaskQueue.calls q !! h) as [[c|j|o]|] eqn:Hh; try exact Hq.
    now apply poll_consistent.
  - now apply settle_consistent.
Qed.

End Control.

(** ** The task queue under its control methods *)

Section Commands.
Context {V : Type}.

Lemma processWaiting_consistent (b : bool) (L : Z) (turns : nat)
    (q : TaskQueue.t V) :
  consistent b L q -> consistent b L (QueueControl.processWaiting turns q).
Proof.
  revert q. induction turns as [|turns IH]; intros q Hq; [exact Hq|].
  cbn [QueueControl.processWaiting].
  destruct ((TaskQueue.running q <? TaskQueue.concurrency q)%Z
            && (0 <? length (TaskQueue.queue q))%nat); [|exact Hq].
  apply IH. now apply processNext_consistent.
Qed.

Lemma command_consistent (b : bool) (L : Z) (q : QueueControl.t V)
    (c : QueueControl.command) :
  consistent b L (QueueControl.base q) ->
  within L c ->
  (b = true -> keeps_stats c) ->
  consistent b L (QueueControl.base (QueueControl.step q c)).
Proof.
  intros Hq HL Hb.
  destruct c as [i | x | | | |];
    cbn [QueueControl.step QueueControl.on_base QueueControl.base
         QueueControl.pause QueueControl.resume].
  - now apply step_consistent.
  - unfold QueueControl.setConcurrency.
    destruct (x <? 1)%Z; [exact Hq|]. cbn [default].
    apply processWaiting_consistent.
    destruct Hq as (Hr & Hl & Hc & Ht). cbn in HL.
    exact (conj Hr (conj Hl (conj HL Ht))).
  - exact Hq.
  - now apply processNext_consistent.
  - exact Hq.
  - destruct b; [now destruct (Hb eq_refl)|].
    destruct Hq as (Hr & Hl & Hc & Ht).
    repeat split; try assumption; discriminate.
Qed.

Lemma run_consistent (b : bool) (L : Z) (commands : list QueueControl.command)
    (q : QueueControl.t V) :
  consistent b L (QueueControl.base q) ->
  Forall (within L) commands ->
  (b = true -> Forall keeps_stats commands) ->
  consistent b L (QueueControl.base (QueueControl.run q commands)).
Proof.
  revert q. induction commands as [|c commands IH]; intros q Hq HL Hb;
    [exact Hq|].
  unfold QueueControl.run in *. cbn [fold_left].
  apply Forall_cons in HL as [HLc HL].
  apply IH; [|exact HL|].
  - apply command_consistent; [exact Hq | exact HLc |].
    intros ->. specialize (Hb eq_refl). now apply Forall_cons in Hb as [? _].
  - intros ->. specialize (Hb eq_refl). now apply Forall_cons in Hb as [_ ?].
Qed.

Lemma largest_limit_least (limit : Z) (commands : list QueueControl.command) :
  (0 <= largest_limit (V := V) limit commands)%Z
  /\ (limit <= largest_limit limit commands)%Z.
Proof.
  unfold largest_limit.
  induction commands as [|c commands IH]; cbn [fold_right]; [lia|].
  destruct c; try exact IH. lia.
Qed.

Lemma largest_limit_within (limit : Z) (commands : list QueueControl.command) :
  Forall (within (V := V) (largest_limit limit commands)) commands.
Proof.
  unfold largest_limit.
  induction commands as [|c commands IH]; [constructor|].
  cbn [fold_right]. constructor.
  - destruct c; cbn [within]; try exact I. lia.
  - eapply Forall_impl; [exact IH|].
    intros c' Hc'. destruct c'; try exact I.
    cbn [within] in *. destruct c; try exact Hc'. lia.
Qed.

Lemma create_consistent (b : bool) (L limit : Z) (logger : bool) :
  (0 <= L)%Z -> (limit <= L)%Z ->
  consistent (V := V) b L (TaskQueue.create limit logger).
Proof.
  intros H0 Hl. repeat split; cbn; try lia; reflexivity.
Qed.

Lemma phases_partition (l : list (TaskQueue.phase V)) :
  length l
  = (tally call_resolved l + tally call_rejected l
     + tally in_flight l + tally call_polling l)%nat.
Proof.
  unfold tally. induction l as [|p l IH]; [reflexivity|].
  destruct p as [c | j | [v|e]]; cbn; lia.
Qed.

End Commands.

(** The statistics of a queue.  Whatever is submitted to a new queue and
    whatever control methods are called on it, [resetStats] apart:
    [stats.total] is the number of calls of [add] made, by callers and by
    [processNext]; [stats.completed] and [stats.failed] are the numbers of
    those that are resolved and rejected; [stats.active] is [running]; so
    the calls not yet counted as completed or failed are the jobs in
    flight and the callers that poll for a slot. *)
Theorem stats_agree_with_calls {V : Type} (limit : Z) (logger : bool)
    (commands : list (@QueueControl.command V)) :
  Forall keeps_stats commands ->
  let q := QueueControl.base
             (QueueControl.run (QueueControl.create limit logger) commands) in
  let s := TaskQueue.st q in
  TaskQueue.total s = Z.of_nat (length (TaskQueue.calls q))
  /\ TaskQueue.completed s = Z.of_nat (tally call_resolved (TaskQueue.calls q))
  /\ TaskQueue.failed s = Z.of_nat (tally call_rejected (TaskQueue.calls q))
  /\ TaskQueue.active s = TaskQueue.running q
  /\ TaskQueue.total s
     = (TaskQueue.completed s + TaskQueue.failed s + TaskQueue.running q
        + Z.of_nat (tally call_polling (TaskQueue.calls q)))%Z.
Proof.
  intros Hk q s.
  destruct (largest_limit_least (V := V) limit commands) as [H0 Hl].
  destruct (run_consistent true (largest_limit limit commands) commands
              (QueueControl.create limit logger)
              (create_consistent true _ limit logger H0 Hl)
              (largest_limit_within limit commands)
              (fun _ => Hk)) as (Hr & _ & _ & Ht).
  destruct (Ht eq_refl) as (T1 & T2 & T3 & T4).
  fold q in Hr, T1, T2, T3, T4. fold s in T1, T2, T3, T4.
  repeat split; try assumption.
  rewrite T1, T2, T3, Hr, (phases_partition (TaskQueue.calls q)). lia.
Qed.

Lemma stats_agree_with_calls_witness :
  let q := QueueControl.base
             (QueueControl.run (V := unit) (QueueControl.create 1 true)
                [QueueControl.Plain (TaskQueue.Add 0);
                 QueueControl.Plain (TaskQueue.Add 1);
                 QueueControl.Plain (TaskQueue.Enqueue 2 0);
                 QueueControl.SetConcurrency 2;
                 QueueControl.Plain (TaskQueue.Settle 0 (TaskQueue.Rejected Unreachable));
                 QueueControl.Clear]) in
  let s := TaskQueue.st q in
  TaskQueue.total s = Z.of_nat (length (TaskQueue.calls q))
  /\ TaskQueue.completed s = Z.of_nat (tally call_resolved (TaskQueue.calls q))
  /\ TaskQueue.failed s = Z.of_nat (tally call_rejected (TaskQueue.calls q))
  /\ TaskQueue.active s = TaskQueue.running q
  /\ TaskQueue.total s
     = (TaskQueue.completed s + TaskQueue.failed s + TaskQueue.running q
        + Z.of_nat (tally call_polling (TaskQueue.calls q)))%Z.
Proof.
  apply (stats_agree_with_calls (V := unit) 1 true). repeat constructor.
Defined.

(** The running count under the control methods.  Whatever is submitted
    to a new queue and whatever control methods are called on it,
    [running] is the number of jobs in flight, and it lies between zero
    and the largest limit that was ever in force: after [setConcurrency]
    has lowered the limit it may exceed the limit of the moment.  When the
    loop of [drain] ends no job is in flight and no entry waits. *)
Theorem running_under_control {V : Type} (limit : Z) (logger : bool)
    (commands : list (@QueueControl.command V)) :
  let q := QueueControl.base
             (QueueControl.run (QueueControl.create limit logger) commands) in
  TaskQueue.running q = Z.of_nat (tally in_flight (TaskQueue.calls q))
  /\ (0 <= TaskQueue.running q <= largest_limit limit commands)%Z
  /\ (QueueControl.drained q = true ->
      tally in_flight (TaskQueue.calls q) = 0%nat /\ TaskQueue.queue q = []).
Proof.
  intros q.
  destruct (largest_limit_least (V := V) limit commands) as [H0 Hl].
  destruct (run_consistent false (largest_limit limit commands) commands
              (QueueControl.create limit logger)
              (create_consistent false _ limit logger H0 Hl)
              (largest_limit_within limit commands)
              (fun H => False_ind _ (Bool.diff_false_true H)))
    as (Hr & HL & _ & _).
  fold q in Hr, HL. repeat split; try assumption; try lia.
  - unfold QueueControl.drained in H.
    apply negb_true_iff, orb_false_iff in H as [Hrun _].
    apply Z.ltb_ge in Hrun. lia.
  - unfold QueueControl.drained in H.
    apply negb_true_iff, orb_false_iff in H as [_ Hlen].
    apply Nat.ltb_ge in Hlen. destruct (TaskQueue.queue q); [reflexivity|].
    cbn in Hlen. lia.
Qed.

Section Limits.
Context {V : Type}.

Lemma processWaiting_done (turns : nat) (q : TaskQueue.t V) :
  TaskQueue.queue q = [] -> QueueControl.processWaiting turns q = q.
Proof.
  intros Hq. destruct turns as [|turns]; [reflexivity|].
  cbn [QueueControl.processWaiting]. rewrite Hq. cbn [length Nat.ltb Nat.leb].
  now rewrite andb_false_r.
Qed.

End Limits.

(** [setConcurrency].  Below 1 it throws and the queue is as it was.
    Otherwise the limit is set; if that leaves a slot free while entries
    wait, [processNext] hands every one of them to [add], where each is
    counted as a failed task and rejected with a [TypeError]: the queue is
    left empty and none of the jobs that waited is run.  The loop of
    [setConcurrency] has then come to its end: its test is false. *)
Theorem setConcurrency_flushes {V : Type} (concurrency : Z)
    (q : TaskQueue.t V) :
  let waiting := length (TaskQueue.queue q) in
  let q' := QueueControl.with_concurrency concurrency q in
  QueueControl.setConcurrency concurrency q
  = (if (concurrency <? 1)%Z then None
     else if (TaskQueue.running q <? concurrency)%Z && (0 <? waiting)%nat
          then Some (flushed waiting q')
          else Some q')
  /\ forall q'', QueueControl.setConcurrency concurrency q = Some q'' ->
       (TaskQueue.running q'' <? TaskQueue.concurrency q'')%Z
       && (0 <? length (TaskQueue.queue q''))%nat = false.
Proof.
  intros waiting q'.
  assert (QueueControl.setConcurrency concurrency q
          = (if (concurrency <? 1)%Z then None
             else if (TaskQueue.running q <? concurrency)%Z && (0 <? waiting)%nat
                  then Some (flushed waiting q')
                  else Some q')) as Heq.
  { unfold QueueControl.setConcurrency. fold q'.
    destruct (concurrency <? 1)%Z; [reflexivity|].
    change (TaskQueue.queue q') with (TaskQueue.queue q). fold waiting.
    destruct waiting as [|n] eqn:Hw.
    - cbn. now rewrite andb_false_r.
    - cbn [QueueControl.processWaiting].
      change (TaskQueue.running q') with (TaskQueue.running q).
      change (TaskQueue.concurrency q') with concurrency.
      change (TaskQueue.queue q') with (TaskQueue.queue q).
      fold waiting. rewrite Hw.
      destruct ((TaskQueue.running q <? concurrency)%Z && (0 <? S n)%nat) eqn:Hc;
        [|reflexivity].
      rewrite processNext_flushes.
      change (TaskQueue.running q') with (TaskQueue.running q).
      change (TaskQueue.concurrency q') with concurrency.
      change (TaskQueue.queue q') with (TaskQueue.queue q).
      fold waiting. rewrite Hw, Hc.
      now rewrite processWaiting_done. }
  split; [exact Heq|].
  intros q'' Hq''. rewrite Heq in Hq''.
  destruct (concurrency <? 1)%Z; [discriminate|].
  destruct ((TaskQueue.running q <? concurrency)%Z && (0 <? waiting)%nat) eqn:Hc;
    injection Hq'' as <-.
  - cbn. now rewrite andb_false_r.
  - exact Hc.
Qed.

(** [pause] does not pause.  A queue on which [pause] was called goes
    through any sequence of submissions, timer ticks, settlements and
    control calls exactly as the queue on which it was not called, and
    calls of [pause] can be left out of the sequence: jobs are dispatched
    all the same. *)
Theorem pause_never_pauses {V : Type} (q : QueueControl.t V)
    (commands : list QueueControl.command) :
  QueueControl.base (QueueControl.run (QueueControl.pause q) commands)
  = QueueControl.base (QueueControl.run q commands)
  /\ QueueControl.base (QueueControl.run q commands)
     = QueueControl.base
         (QueueControl.run q (List.filter not_pause commands)).
Proof.
  assert (forall (commands : list QueueControl.command) (a b : QueueControl.t V),
             QueueControl.base a = QueueControl.base b ->
             QueueControl.base (QueueControl.run a commands)
             = QueueControl.base
                 (QueueControl.run b (List.filter not_pause commands))) as Hrun.
  { clear. intros commands.
    induction commands as [|c commands IH]; intros a b Hab; [exact Hab|].
    unfold QueueControl.run in *. cbn [fold_left List.filter].
    destruct c as [i | x | | | |]; cbn [not_pause fold_left];
      apply IH; cbn; now rewrite Hab. }
  assert (forall (commands : list QueueControl.command) (a b : QueueControl.t V),
             QueueControl.base a = QueueControl.base b ->
             QueueControl.base (QueueControl.run a commands)
             = QueueControl.base (QueueControl.run b commands)) as Hsame.
  { intros cs a b Hab.
    rewrite (Hrun cs a b Hab). symmetry. now apply Hrun. }
  split; [now apply Hsame | now apply Hrun].
Qed.

(** ** The waiting queue is ordered by priority *)

Lemma insert_entry_Forall (P : nat * Z -> Prop) (x : nat * Z)
    (l : list (nat * Z)) :
  P x -> List.Forall P l -> List.Forall P (TaskQueue.insert_entry x l).
Proof.
  intros Hx Hl. induction Hl as [|y l Hy Hl IH]; cbn.
  - now repeat constructor.
  - destruct (snd y <=? snd x)%Z; repeat constructor; assumption.
Qed.

Lemma insert_entry_sorted (x : nat * Z) (l : list (nat * Z)) :
  StronglySorted outranks l ->
  StronglySorted outranks (TaskQueue.insert_entry x l).
Proof.
  induction 1 as [|y l Hs IH Hy]; cbn.
  - repeat constructor.
  - destruct (Z.leb_spec (snd y) (snd x)) as [Hle|Hlt].
    + constructor; [now constructor|].
      constructor; [exact Hle|].
      eapply List.Forall_impl; [|exact Hy].
      unfold outranks. intros z Hz. lia.
    + constructor; [exact IH|].
      apply insert_entry_Forall; [unfold outranks; lia | exact Hy].
Qed.

Lemma sort_entries_sorted (l : list (nat * Z)) :
  StronglySorted outranks (TaskQueue.sort_entries l).
Proof.
  unfold TaskQueue.sort_entries.
  induction l as [|x l IH]; cbn; [constructor | now apply insert_entry_sorted].
Qed.

Section Order.
Context {V : Type}.

Lemma processNext_queue (q : TaskQueue.t V) :
  TaskQueue.queue (TaskQueue.processNext q) = TaskQueue.queue q
  \/ TaskQueue.queue (TaskQueue.processNext q) = [].
Proof.
  rewrite processNext_flushes.
  destruct ((TaskQueue.running q <? TaskQueue.concurrency q)%Z
            && (0 <? length (TaskQueue.queue q))%nat); [now right | now left].
Qed.

Lemma sorted_or_empty (l l' : list (nat * Z)) :
  StronglySorted outranks l -> l' = l \/ l' = [] ->
  StronglySorted outranks l'.
Proof. intros Hl [-> | ->]; [exact Hl | constructor]. Qed.

Lemma dispatch_queue (c : TaskQueue.callee) (h : nat) (q : TaskQueue.t V) :
  TaskQueue.queue (TaskQueue.dispatch TaskQueue.processNext c h q)
  = TaskQueue.queue q
  \/ TaskQueue.queue (TaskQueue.dispatch TaskQueue.processNext c h q) = [].
Proof.
  unfold TaskQueue.dispatch. destruct c as [j | j priority]; [now left|].
  unfold TaskQueue.release, TaskQueue.set_phase. cbn [TaskQueue.queue TaskQueue.with_calls].
  match goal with |- context [TaskQueue.processNext ?q2] =>
    destruct (processNext_queue q2) as [-> | ->]; [now left | now right]
  end.
Qed.

Lemma poll_queue (c : TaskQueue.callee) (h : nat) (q : TaskQueue.t V) :
  TaskQueue.queue (TaskQueue.poll TaskQueue.processNext c h q)
  = TaskQueue.queue q
  \/ TaskQueue.queue (TaskQueue.poll TaskQueue.processNext c h q) = [].
Proof.
  unfold TaskQueue.poll.
  destruct (TaskQueue.running q >=? TaskQueue.concurrency q)%Z;
    [now left | apply dispatch_queue].
Qed.

Lemma step_sorted (q : TaskQueue.t V) (i : TaskQueue.input) :
  StronglySorted outranks (TaskQueue.queue q) ->
  StronglySorted outranks (TaskQueue.queue (TaskQueue.step q i)).
Proof.
  intros Hq. destruct i as [j | j priority | h | h o]; cbn [TaskQueue.step].
  - unfold TaskQueue.add, TaskQueue.add_with.
    eapply sorted_or_empty; [|apply poll_queue]. exact Hq.
  - unfold TaskQueue.enqueue.
    eapply sorted_or_empty; [|apply processNext_queue].
    apply sort_entries_sorted.
  - unfold TaskQueue.wake.
    destruct (TaskQueue.calls q !! h) as [[c|j|o]|]; try exact Hq.
    eapply sorted_or_empty; [|apply poll_queue]. exact Hq.
  - unfold TaskQueue.settle.
    destruct (TaskQueue.calls q !! h) as [[c|j|o']|]; try exact Hq.
    unfold TaskQueue.release, TaskQueue.set_phase.
    cbn [TaskQueue.queue TaskQueue.with_calls].
    eapply sorted_or_empty; [|apply processNext_queue].
    now destruct o.
Qed.

Lemma processWaiting_sorted (turns : nat) (q : TaskQueue.t V) :
  StronglySorted outranks (TaskQueue.queue q) ->
  StronglySorted outranks
    (TaskQueue.queue (QueueControl.processWaiting turns q)).
Proof.
  revert q. induction turns as [|turns IH]; intros q Hq; [exact Hq|].
  cbn [QueueControl.processWaiting].
  destruct ((TaskQueue.running q <? TaskQueue.concurrency q)%Z
            && (0 <? length (TaskQueue.queue q))%nat); [|exact Hq].
  apply IH. eapply sorted_or_empty; [|apply processNext_queue]. exact Hq.
Qed.

End Order.

(** The entries that wait are in the order of their priorities, highest
    first, whatever was submitted to the queue and whatever control
    methods were called: the entry [processNext] takes is one of the
    highest priority. *)
Theorem queue_priority_order {V : Type} (limit : Z) (logger : bool)
    (commands : list (@QueueControl.command V)) :
  StronglySorted outranks
    (TaskQueue.queue
       (QueueControl.base
          (QueueControl.run (QueueControl.create limit logger) commands))).
Proof.
  assert (forall (commands : list (@QueueControl.command V)) q,
             StronglySorted outranks (TaskQueue.queue (QueueControl.base q)) ->
             StronglySorted outranks
               (TaskQueue.queue
                  (QueueControl.base (QueueControl.run q commands)))) as Hrun.
  { clear. intros commands.
    induction commands as [|c commands IH]; intros q Hq; [exact Hq|].
    unfold QueueControl.run in *. cbn [fold_left]. apply IH.
    destruct c as [i | x | | | |];
      cbn [QueueControl.step QueueControl.on_base QueueControl.base
           QueueControl.pause QueueControl.resume].
    - now apply step_sorted.
    - unfold QueueControl.setConcurrency.
      destruct (x <? 1)%Z; [exact Hq|]. cbn [default].
      now apply processWaiting_sorted.
    - exact Hq.
    - eapply sorted_or_empty; [|apply processNext_queue]. exact Hq.
    - constructor.
    - exact Hq. }
  apply Hrun. constructor.
Qed.

(** [drain] does not wait for the callers of [add] that poll for a
    slot: with one slot, a job in flight and a second caller polling, the
    loop of [drain] ends when the first job has settled, before the second
    is started. *)
Example drain_ignores_pollers :
  let q := TaskQueue.run (V := unit) (TaskQueue.create 1 true)
             [TaskQueue.Add 0; TaskQueue.Add 1;
              TaskQueue.Settle 0 (TaskQueue.Resolved tt)] in
  QueueControl.drained q = true
  /\ TaskQueue.calls q
     = [TaskQueue.Settled (TaskQueue.Resolved tt);
        TaskQueue.Polling (TaskQueue.Job 1)].
Proof. repeat split. Qed.

(** After [resetStats] with a job in flight the statistics no longer
    agree with the calls: the job is counted as completed in a total of
    zero. *)
Example resetStats_forgets_jobs_in_flight :
  TaskQueue.st
    (QueueControl.base
       (QueueControl.run (V := unit) (QueueControl.create 2 true)
          [QueueControl.Plain (TaskQueue.Add 0);
           QueueControl.ResetStats;
           QueueControl.Plain (TaskQueue.Settle 0 (TaskQueue.Resolved tt))]))
  = {| TaskQueue.total := 0; TaskQueue.completed := 1;
       TaskQueue.failed := 0; TaskQueue.active := 0 |}.
Proof. reflexivity. Qed.

(** ** The duration cache: its life cycle *)

Lemma fold_insert_empty (data : gmap string Js.value) :
  map_fold (fun k v m => <[k := v]> m) ∅ data = data.
Proof.
  apply map_eq. intros key. rewrite fold_insert_lookup.
  destruct (data !! key); [reflexivity | apply lookup_empty].
Qed.

Lemma stringify_idempotent (m : gmap string Js.value) :
  CacheService.stringify (CacheService.stringify m) = CacheService.stringify m.
Proof.
  apply map_eq. intros key. rewrite !stringify_lookup.
  destruct (m !! key) as [v|]; [|reflexivity]. cbn.
  destruct v as [| | b | [| n | q] | s]; reflexivity.
Qed.

Lemma load_create_document (members : gmap string Js.value) (w : bool) :
  CacheService.cache
    (CacheService.load CacheService.create
       {| CacheService.content := CacheService.Document members;
          CacheService.writable := w |})
  = members.
Proof. cbn. apply fold_insert_empty. Qed.

Lemma save_keeps_saved (c : CacheService.t) (d : CacheService.disk) :
  (CacheService.isDirty c = false -> saved c d) ->
  let '(_, c', d') := CacheService.save c d in
  CacheService.isDirty c' = false -> saved c' d'.
Proof.
  intros Hinv. unfold CacheService.save.
  destruct (CacheService.isDirty c) eqn:Hd; cbn [negb].
  - destruct (CacheService.writable d) eqn:Hw.
    + intros _. unfold saved. now rewrite load_create_document.
    + intros Hc. congruence.
  - intros _. now apply Hinv.
Qed.

Lemma step_keeps_saved (s : CacheControl.state) (o : CacheControl.op) :
  (CacheService.isDirty (CacheControl.service s) = false ->
   saved (CacheControl.service s) (CacheControl.disk s)) ->
  CacheService.isDirty (CacheControl.service (CacheControl.step s o)) = false ->
  saved (CacheControl.service (CacheControl.step s o))
        (CacheControl.disk (CacheControl.step s o)).
Proof.
  intros Hinv.
  destruct o as [key value | key | | | | | b]; cbn [CacheControl.step].
  - discriminate.
  - cbn [CacheControl.service CacheControl.disk].
    unfold CacheControl.delete.
    destruct (CacheService.has (CacheControl.service s) key);
      cbn [snd]; [discriminate | exact Hinv].
  - discriminate.
  - pose proof (save_keeps_saved _ _ Hinv) as Hs.
    now destruct (CacheService.save (CacheControl.service s) (CacheControl.disk s))
      as [[r c'] d'].
  - unfold CacheControl.autoSave.
    pose proof (save_keeps_saved _ _ Hinv) as Hs.
    destruct (CacheService.isDirty (CacheControl.service s)) eqn:Hd;
      [|cbn; intros _; now apply Hinv].
    now destruct (CacheService.save (CacheControl.service s) (CacheControl.disk s))
      as [[r c'] d'].
  - pose proof (save_keeps_saved _ _ Hinv) as Hs.
    now destruct (CacheService.save (CacheControl.service s) (CacheControl.disk s))
      as [[r c'] d'].
  - cbn [CacheControl.service CacheControl.disk]. intros Hc.
    specialize (Hinv Hc). unfold saved in *.
    unfold CacheService.load in *. cbn [CacheService.content] in *.
    exact Hinv.
Qed.

Lemma init_saved (d : CacheService.disk) :
  json_document d ->
  saved (CacheControl.service (CacheControl.init d))
        (CacheControl.disk (CacheControl.init d)).
Proof.
  intros Hjson. unfold saved, CacheControl.init.
  cbn [CacheControl.service CacheControl.disk].
  unfold json_document in Hjson.
  destruct d as [[| | members] w]; [reflexivity | reflexivity |].
  cbn [CacheService.content] in Hjson.
  now rewrite !load_create_document.
Qed.

(** [isDirty] can be trusted.  An instance is started with [init] on a
    disk whose cache file is absent, unreadable or a JSON document, and
    then goes through any sequence of [set], [delete], [clear], [save],
    timer ticks and [close], the disk being writable at some times and not
    at others, each [save] running to its end before the next step.
    Whenever [isDirty] is false the file holds the whole cache: a new
    instance would load from it every entry of the [Map], as
    [JSON.stringify] renders it, and nothing else. *)
Theorem clean_means_saved (d : CacheService.disk)
    (ops : list CacheControl.op) :
  json_document d ->
  let s := CacheControl.run (CacheControl.init d) ops in
  CacheService.isDirty (CacheControl.service s) = false ->
  CacheService.cache (CacheService.load CacheService.create (CacheControl.disk s))
  = CacheService.stringify (CacheService.cache (CacheControl.service s)).
Proof.
  intros Hjson.
  assert (forall ops s,
             (CacheService.isDirty (CacheControl.service s) = false ->
              saved (CacheControl.service s) (CacheControl.disk s)) ->
             CacheService.isDirty
               (CacheControl.service (CacheControl.run s ops)) = false ->
             saved (CacheControl.service (CacheControl.run s ops))
                   (CacheControl.disk (CacheControl.run s ops))) as Hrun.
  { clear. intros ops. induction ops as [|o ops IH]; intros s Hs; [exact Hs|].
    unfold CacheControl.run in *. cbn [fold_left]. apply IH.
    now apply step_keeps_saved. }
  intros s. apply Hrun. intros _. now apply init_saved.
Qed.

Lemma clean_means_saved_witness :
  CacheService.cache
    (CacheService.load CacheService.create
       (CacheControl.disk
          (CacheControl.run
             (CacheControl.init
                {| CacheService.content := CacheService.Missing;
                   CacheService.writable := false |})
             [CacheControl.OpSet "duration:http://a/1" (Js.VNum (Js.Fin 90));
              CacheControl.OpAutoSave;
              CacheControl.OpWritable true;
              CacheControl.OpSet "duration:http://a/2" (Js.VNum (Js.Fin 30));
              CacheControl.OpDelete "duration:http://a/1";
              CacheControl.OpClose])))
  = CacheService.stringify
      (CacheService.cache
         (CacheControl.service
            (CacheControl.run
               (CacheControl.init
                  {| CacheService.content := CacheService.Missing;
                     CacheService.writable := false |})
               [CacheControl.OpSet "duration:http://a/1" (Js.VNum (Js.Fin 90));
                CacheControl.OpAutoSave;
                CacheControl.OpWritable true;
                CacheControl.OpSet "duration:http://a/2" (Js.VNum (Js.Fin 30));
                CacheControl.OpDelete "duration:http://a/1";
                CacheControl.OpClose]))).
Proof.
  apply (clean_means_saved
           {| CacheService.content := CacheService.Missing;
              CacheService.writable := false |}
           [CacheControl.OpSet "duration:http://a/1" (Js.VNum (Js.Fin 90));
            CacheControl.OpAutoSave;
            CacheControl.OpWritable true;
            CacheControl.OpSet "duration:http://a/2" (Js.VNum (Js.Fin 30));
            CacheControl.OpDelete "duration:http://a/1";
            CacheControl.OpClose]).
  - exact I.
  - vm_compute. reflexivity.
Defined.

(** [save] is its three parts run one after the other. *)
Lemma save_in_parts (c : CacheService.t) (d : CacheService.disk) :
  CacheService.save c d
  = match CacheControl.save_begin c with
    | None => (true, c, d)
    | Some document =>
        let '(written, d') := CacheControl.writeFile document d in
        let '(r, c') := CacheControl.save_end written c in
        (r, c', d')
    end.
Proof.
  unfold CacheService.save, CacheControl.save_begin, CacheControl.writeFile,
    CacheControl.save_end.
  destruct (CacheService.isDirty c); cbn [negb]; [|reflexivity].
  destruct d as [content [|]]; reflexivity.
Qed.

(** A [set] that arrives while [save] waits for [fs.writeFile] is
    lost to the file.  [save] has handed over the text of the cache as it
    was; the entry is put in the [Map] and marks it dirty; when the write
    is done [save] marks the cache clean.  The file then holds the cache
    as it was before the [set], the cache holds the new entry, [isDirty]
    is false, and a further [save] writes nothing. *)
Theorem set_during_save_is_lost (c : CacheService.t) (d : CacheService.disk)
    (document : gmap string Js.value) (key : string) (value : Js.value) :
  CacheControl.save_begin c = Some document ->
  CacheService.writable d = true ->
  let c1 := CacheService.set c key value in
  let '(written, d') := CacheControl.writeFile document d in
  let '(returned, c2) := CacheControl.save_end written c1 in
  returned = true
  /\ CacheService.isDirty c2 = false
  /\ CacheService.get c2 key = value
  /\ CacheService.content d'
     = CacheService.Document (CacheService.stringify (CacheService.cache c))
  /\ CacheService.save c2 d' = (true, c2, d').
Proof.
  intros Hbegin Hw c1.
  unfold CacheControl.save_begin in Hbegin.
  destruct (CacheService.isDirty c); [|discriminate].
  injection Hbegin as <-.
  unfold CacheControl.writeFile. rewrite Hw.
  cbn [CacheControl.save_end].
  repeat split.
  unfold CacheService.get, c1. cbn. now rewrite lookup_insert_eq.
Qed.

Lemma set_during_save_is_lost_witness :
  let c := CacheService.set CacheService.create "duration:http://a/1"
             (Js.VNum (Js.Fin 90)) in
  let d := {| CacheService.content := CacheService.Missing;
              CacheService.writable := true |} in
  let c1 := CacheService.set c "duration:http://a/2" (Js.VNum (Js.Fin 30)) in
  let '(written, d') :=
    CacheControl.writeFile (CacheService.stringify (CacheService.cache c)) d in
  let '(returned, c2) := CacheControl.save_end written c1 in
  returned = true
  /\ CacheService.isDirty c2 = false
  /\ CacheService.get c2 "duration:http://a/2" = Js.VNum (Js.Fin 30)
  /\ CacheService.content d'
     = CacheService.Document (CacheService.stringify (CacheService.cache c))
  /\ CacheService.save c2 d' = (true, c2, d').
Proof.
  apply (set_during_save_is_lost
           (CacheService.set CacheService.create "duration:http://a/1"
              (Js.VNum (Js.Fin 90)))
           {| CacheService.content := CacheService.Missing;
              CacheService.writable := true |}
           (CacheService.stringify
              (CacheService.cache
                 (CacheService.set CacheService.create "duration:http://a/1"
                    (Js.VNum (Js.Fin 90)))))
           "duration:http://a/2" (Js.VNum (Js.Fin 30))); reflexivity.
Defined.

(** [load] merges and marks clean.  When the cache file is a JSON
    document its members are put in the [Map] over what is there: a key of
    the file gets the value of the file, any other key keeps its entry;
    and [isDirty] is set to false, also when the [Map] holds entries that
    were never saved, so that a [save] that follows writes nothing.  When
    the file is absent or cannot be parsed the instance is as it was. *)
Theorem load_merges (c : CacheService.t) (d : CacheService.disk) :
  match CacheService.content d with
  | CacheService.Document members =>
      (forall key,
          CacheService.cache (CacheService.load c d) !! key
          = match members !! key with
            | Some value => Some value
            | None => CacheService.cache c !! key
            end)
      /\ CacheService.isDirty (CacheService.load c d) = false
      /\ CacheService.save (CacheService.load c d) d
         = (true, CacheService.load c d, d)
  | _ => CacheService.load c d = c
  end.
Proof.
  unfold CacheService.load.
  destruct (CacheService.content d) as [| | members]; try reflexivity.
  repeat split. intros key. cbn. apply fold_insert_lookup.
Qed.

Section Cleaning.
Context `{Platform}.

Lemma cleanLoop_filters (now maxAge : Z) (rest : list (string * CacheControl.stored)) :
  forall (cleaned : nat) (kept : list (string * CacheControl.stored)),
    List.Forall readable rest ->
    CacheControl.cleanLoop now maxAge cleaned kept rest
    = (Some (cleaned + length (List.filter (expired now maxAge) rest))%nat,
       kept ++ List.filter (fun e => negb (expired now maxAge e)) rest).
Proof.
  induction rest as [|[key value] rest IH]; intros cleaned kept Hr.
  - cbn. now rewrite Nat.add_0_r, app_nil_r.
  - apply List.Forall_cons_iff in Hr as [Hv Hr].
    cbn [CacheControl.cleanLoop List.filter].
    unfold readable in Hv. cbn [snd] in Hv.
    destruct value as [v | timestamp].
    + change (expired now maxAge (key, CacheControl.Scalar v)) with false.
      cbn [negb].
      destruct v as [| | b | x | s]; try (now destruct Hv);
        cbn [CacheControl.timestamp_of CacheControl.truthy andb];
        rewrite IH by exact Hr; now rewrite <- app_assoc.
    + change (expired now maxAge (key, CacheControl.Object timestamp))
        with (CacheControl.truthy timestamp
              && CacheControl.older now maxAge timestamp).
      cbn [CacheControl.timestamp_of].
      destruct (CacheControl.truthy timestamp
                && CacheControl.older now maxAge timestamp);
        cbn [negb length]; rewrite IH by exact Hr.
      * f_equal. f_equal. lia.
      * now rewrite <- app_assoc.
Qed.

End Cleaning.

(** [cleanOldEntries] on a cache none of whose values is [null] or
    [undefined].  The entries deleted are the objects that have a truthy
    [timestamp] older than [maxAge], the others stay in their order, the
    number of those deleted is returned, and [isDirty] is set when it is
    not zero.  An entry whose value is a number, as are all the durations
    that [getVideoDuration] stores, is never deleted, whatever [maxAge]
    and the time. *)
Theorem cleanOldEntries_spares_durations `{Platform} (now maxAge : Z)
    (c : CacheControl.entries) :
  List.Forall readable (CacheControl.listed c) ->
  let cleaned := length (List.filter (expired now maxAge) (CacheControl.listed c)) in
  CacheControl.cleanOldEntries now maxAge c
  = (Some cleaned,
     {| CacheControl.listed :=
          List.filter (fun e => negb (expired now maxAge e))
            (CacheControl.listed c);
        CacheControl.dirty :=
          if (0 <? cleaned)%nat then true else CacheControl.dirty c |})
  /\ forall key x,
       In (key, CacheControl.Scalar (Js.VNum x)) (CacheControl.listed c) ->
       In (key, CacheControl.Scalar (Js.VNum x))
          (CacheControl.listed (snd (CacheControl.cleanOldEntries now maxAge c))).
Proof.
  intros Hr cleaned.
  assert (CacheControl.cleanOldEntries now maxAge c
          = (Some cleaned,
             {| CacheControl.listed :=
                  List.filter (fun e => negb (expired now maxAge e))
                    (CacheControl.listed c);
                CacheControl.dirty :=
                  if (0 <? cleaned)%nat then true else CacheControl.dirty c |}))
    as Heq.
  { unfold CacheControl.cleanOldEntries.
    now rewrite (cleanLoop_filters now maxAge _ 0 [] Hr). }
  split; [exact Heq|].
  intros key x Hin. rewrite Heq. cbn [snd CacheControl.listed].
  apply filter_In. split; [exact Hin | reflexivity].
Qed.

Lemma cleanOldEntries_spares_durations_witness :
  CacheControl.cleanOldEntries (H := SimplePlatform.platform)
    1000000 1000
    {| CacheControl.listed :=
         [("duration:http://a/1", CacheControl.Scalar (Js.VNum (Js.Fin 90)));
          ("probe:http://a/1", CacheControl.Object (Js.VNum (Js.Fin 5)));
          ("probe:http://a/2", CacheControl.Object (Js.VNum (Js.Fin 999500)))];
       CacheControl.dirty := false |}
  = (Some 1%nat,
     {| CacheControl.listed :=
          [("duration:http://a/1", CacheControl.Scalar (Js.VNum (Js.Fin 90)));
           ("probe:http://a/2", CacheControl.Object (Js.VNum (Js.Fin 999500)))];
        CacheControl.dirty := true |}).
Proof.
  apply (proj1 (cleanOldEntries_spares_durations (H := SimplePlatform.platform)
                  1000000 1000
                  {| CacheControl.listed :=
                       [("duration:http://a/1", CacheControl.Scalar (Js.VNum (Js.Fin 90)));
                        ("probe:http://a/1", CacheControl.Object (Js.VNum (Js.Fin 5)));
                        ("probe:http://a/2", CacheControl.Object (Js.VNum (Js.Fin 999500)))];
                     CacheControl.dirty := false |}
                  ltac:(repeat constructor; discriminate))).
Defined.

(** A value [null] in the cache, which is what [JSON.stringify] writes
    for a number that is not finite, makes [cleanOldEntries] throw, after
    the deletions made so far and before [isDirty] is set. *)
Example cleanOldEntries_throws_on_null :
  CacheControl.cleanOldEntries (H := SimplePlatform.platform)
    1000000 1000
    {| CacheControl.listed :=
         [("probe:http://a/1", CacheControl.Object (Js.VNum (Js.Fin 5)));
          ("duration:http://a/1", CacheControl.Scalar Js.VNull);
          ("probe:http://a/3", CacheControl.Object (Js.VNum (Js.Fin 7)))];
       CacheControl.dirty := false |}
  = (None,
     {| CacheControl.listed :=
          [("duration:http://a/1", CacheControl.Scalar Js.VNull);
           ("probe:http://a/3", CacheControl.Object (Js.VNum (Js.Fin 7)))];
        CacheControl.dirty := false |}).
Proof. reflexivity. Qed.

(** ** Sessions *)

Section Sessions.
Context `{AuthService.Crypto}.

Lemma verify_live (now : Z) (tok user : string) (expires : Z)
    (s : AuthService.t) :
  tok <> EmptyString ->
  AuthService.sessions s !! tok
    = Some {| AuthService.username := user; AuthService.expiresAt := expires |} ->
  (now <= expires)%Z ->
  AuthService.verifySession now (Some tok) s
  = (AuthService.Valid user,
     {| AuthService.sessions :=
          <[tok := {| AuthService.username := user;
                      AuthService.expiresAt := now + AuthService.sessionExpiry s |}]>
            (AuthService.sessions s);
        AuthService.sessionExpiry := AuthService.sessionExpiry s |}).
Proof.
  intros Htok Hs Hle. unfold AuthService.verifySession, AuthService.present.
  destruct (String.eqb_spec tok EmptyString) as [->|_]; [contradiction|].
  rewrite Hs. cbn [AuthService.expiresAt AuthService.username].
  destruct (Z.gtb_spec now expires); [lia | reflexivity].
Qed.

Lemma verifications_live (times : list Z) :
  forall (tok user : string) (expires : Z) (s : AuthService.t),
    tok <> EmptyString ->
    AuthService.sessions s !! tok
      = Some {| AuthService.username := user; AuthService.expiresAt := expires |} ->
    in_time (AuthService.sessionExpiry s) (expires - AuthService.sessionExpiry s) times ->
    Forall (fun v => v = AuthService.Valid user)
      (fst (AuthService.verifications times (Some tok) s)).
Proof.
  induction times as [|now later IH]; intros tok user expires s Htok Hs Htimes.
  - constructor.
  - cbn [in_time] in Htimes. destruct Htimes as [Hnow Hlater].
    cbn [AuthService.verifications].
    rewrite (verify_live now tok user expires s Htok Hs) by lia.
    match goal with |- context [AuthService.verifications later _ ?s1] =>
      specialize (IH tok user (now + AuthService.sessionExpiry s)%Z s1 Htok);
      destruct (AuthService.verifications later (Some tok) s1) as [vs s2]
    end.
    cbn [fst] in *. constructor; [reflexivity|].
    apply IH.
    + cbn. apply lookup_insert_eq.
    + cbn [AuthService.sessionExpiry].
      now replace (now + AuthService.sessionExpiry s - AuthService.sessionExpiry s)%Z
        with now by lia.
Qed.

End Sessions.

(** A session slides.  After a login at the time [t0], every request
    that carries the token is accepted as long as it comes at most
    [sessionExpiry] after the request before it (the first at most
    [sessionExpiry] after the login), however long the login is past:
    every verification moves the end of the session. *)
Theorem session_slides `{AuthService.Crypto} (t0 : Z) (token : string)
    (username password : string) (d : AuthService.disk) (s s' : AuthService.t)
    (times : list Z) :
  token <> EmptyString ->
  AuthService.login t0 token username password d s
    = (AuthService.LoggedIn token username, s') ->
  in_time (AuthService.sessionExpiry s) t0 times ->
  Forall (fun v => v = AuthService.Valid username)
    (fst (AuthService.verifications times (Some token) s')).
Proof.
  intros Htok Hlogin Htimes.
  unfold AuthService.login in Hlogin.
  destruct (AuthService.file d) as [config|]; [|discriminate].
  destruct (String.eqb username (AuthService.config_username config)
            && String.eqb (AuthService.sha256 password)
                 (AuthService.passwordHash config)); [|discriminate].
  injection Hlogin as <-.
  apply (verifications_live times token username (t0 + AuthService.sessionExpiry s)%Z).
  - exact Htok.
  - cbn. apply lookup_insert_eq.
  - cbn [AuthService.sessionExpiry].
    now replace (t0 + AuthService.sessionExpiry s - AuthService.sessionExpiry s)%Z
      with t0 by lia.
Qed.

(** A session that has run out is gone.  The first request that carries
    its token after its end is answered as expired and deletes it; any
    request with the token after that, at whatever time, finds no
    session. *)
Theorem expired_session_is_gone (now : Z) (token : string)
    (session : AuthService.session) (s : AuthService.t) :
  token <> EmptyString ->
  AuthService.sessions s !! token = Some session ->
  (AuthService.expiresAt session < now)%Z ->
  let '(v, s') := AuthService.verifySession now (Some token) s in
  v = AuthService.Expired
  /\ AuthService.sessions s' !! token = None
  /\ forall later,
       AuthService.verifySession later (Some token) s'
       = (AuthService.Unauthorized, s').
Proof.
  intros Htok Hs Hlt. unfold AuthService.verifySession, AuthService.present.
  destruct (String.eqb_spec token EmptyString) as [->|_]; [contradiction|].
  rewrite Hs. destruct (Z.gtb_spec now (AuthService.expiresAt session)); [|lia].
  repeat split.
  - cbn. apply lookup_delete_eq.
  - intros later. cbn. now rewrite lookup_delete_eq.
Qed.

Lemma expired_session_is_gone_witness :
  let s := {| AuthService.sessions :=
                {[ "c0ffee" := {| AuthService.username := "admin";
                                  AuthService.expiresAt := 5000 |} ]};
              AuthService.sessionExpiry := 1000 |} in
  let '(v, s') := AuthService.verifySession 5001 (Some "c0ffee") s in
  v = AuthService.Expired
  /\ AuthService.sessions s' !! "c0ffee" = None
  /\ forall later,
       AuthService.verifySession later (Some "c0ffee") s'
       = (AuthService.Unauthorized, s').
Proof.
  apply (expired_session_is_gone 5001 "c0ffee"
           {| AuthService.username := "admin"; AuthService.expiresAt := 5000 |}
           {| AuthService.sessions :=
                {[ "c0ffee" := {| AuthService.username := "admin";
                                  AuthService.expiresAt := 5000 |} ]};
              AuthService.sessionExpiry := 1000 |}).
  - discriminate.
  - reflexivity.
  - reflexivity.
Defined.

(** [changePassword] with the right old password.  It answers that the
    password was changed and drops every session, so that no token is
    accepted any more.  When the authentication file cannot be written the
    answer is the same although nothing was saved: the file is as it was
    and the old password still logs in.  When it can be written the new
    password logs in. *)
Theorem changePassword_outcome `{AuthService.Crypto}
    (oldPassword newPassword : string) (config : AuthService.authConfig)
    (d : AuthService.disk) (s : AuthService.t) :
  AuthService.file d = Some config ->
  AuthService.sha256 oldPassword = AuthService.passwordHash config ->
  let '(answer, s', d') :=
    AuthService.changePassword oldPassword newPassword d s in
  answer = AuthService.Changed
  /\ (forall now token,
        AuthService.verifySession now token s' = (AuthService.Unauthorized, s'))
  /\ (forall now token,
        fst (AuthService.login now token (AuthService.config_username config)
               (if AuthService.writable d then newPassword else oldPassword)
               d' s')
        = AuthService.LoggedIn token (AuthService.config_username config))
  /\ (AuthService.writable d = false -> d' = d).
Proof.
  intros Hfile Hold. unfold AuthService.changePassword.
  rewrite Hfile, Hold, String.eqb_refl. cbn [negb].
  repeat split.
  - intros now token. unfold AuthService.verifySession.
    destruct (AuthService.present token) as [tok|]; [|reflexivity].
    cbn. now rewrite lookup_empty.
  - intros now token. unfold AuthService.login.
    destruct (AuthService.writable d) eqn:Hw.
    + cbn. now rewrite !String.eqb_refl.
    + rewrite Hfile, Hold. now rewrite !String.eqb_refl.
  - now intros ->.
Qed.

Lemma changePassword_outcome_witness :
  let '(answer, s', d') :=
    AuthService.changePassword (H := AuthExample.crypto)
      "emby123456" "s3cret-and-long" (AuthExample.disk false)
      AuthExample.service in
  answer = AuthService.Changed
  /\ (forall now token,
        AuthService.verifySession now token s' = (AuthService.Unauthorized, s'))
  /\ (forall now token,
        fst (AuthService.login (H := AuthExample.crypto) now token "admin"
               "emby123456" d' s')
        = AuthService.LoggedIn token "admin")
  /\ (false = false -> d' = AuthExample.disk false).
Proof.
  apply (changePassword_outcome (H := AuthExample.crypto)
           "emby123456" "s3cret-and-long"
           {| AuthService.config_username := "admin";
              AuthService.passwordHash := "sha256:emby123456" |}
           (AuthExample.disk false) AuthExample.service); reflexivity.
Defined.

Lemma session_slides_witness :
  Forall (fun v => v = AuthService.Valid "admin")
    (fst (AuthService.verifications [900; 1800; 2500]%Z (Some "c0ffee")
            (snd (AuthService.login (H := AuthExample.crypto) 0 "c0ffee"
                    "admin" "emby123456" (AuthExample.disk true)
                    AuthExample.service)))).
Proof.
  apply (session_slides (H := AuthExample.crypto) 0 "c0ffee" "admin"
           "emby123456" (AuthExample.disk true) AuthExample.service).
  - discriminate.
  - reflexivity.
  - cbn [in_time].
    change (AuthService.sessionExpiry AuthExample.service) with 1000%Z. lia.
Defined.

Lemma filter_live_lookup (now : Z) (m : gmap string AuthService.session)
    (token : string) :
  base.filter (fun entry => AuthService.lapsed now (snd entry) = false) m !! token
  = match m !! token with
    | Some session =>
        if AuthService.lapsed now session then None else Some session
    | None => None
    end.
Proof.
  rewrite map_lookup_filter.
  destruct (m !! token) as [session|]; [|reflexivity]. cbn.
  destruct (AuthService.lapsed now session); cbn.
  - now rewrite option_guard_False.
  - now rewrite option_guard_True.
Qed.

Lemma filter_lapsed_partition (now : Z) (m : gmap string AuthService.session) :
  (base.size (base.filter (fun entry => AuthService.lapsed now (snd entry) = true) m)
   + base.size (base.filter (fun entry => AuthService.lapsed now (snd entry) = false) m)
   = base.size m)%nat.
Proof.
  rewrite <- (map_filter_union_complement
                (fun entry => AuthService.lapsed now (snd entry) = true) m) at 3.
  rewrite map_size_disj_union by apply map_disjoint_filter_complement.
  f_equal. f_equal. apply map_filter_ext. intros token session _. cbn.
  now destruct (AuthService.lapsed now session).
Qed.

(** [cleanExpiredSessions].  It deletes the sessions whose end is past
    and no other: a session that has not run out is as it was.  The
    number it returns is the number of sessions deleted, which is [total]
    less [active] of the statistics before it; after it every session is
    active. *)
Theorem cleanExpiredSessions_exact (now : Z) (s : AuthService.t) :
  let '(cleaned, s') := AuthService.cleanExpiredSessions now s in
  (forall token,
      AuthService.sessions s' !! token
      = match AuthService.sessions s !! token with
        | Some session =>
            if (now >? AuthService.expiresAt session)%Z then None
            else Some session
        | None => None
        end)
  /\ (cleaned + snd (AuthService.getSessionStats now s)
      = fst (AuthService.getSessionStats now s))%nat
  /\ snd (AuthService.getSessionStats now s')
     = fst (AuthService.getSessionStats now s').
Proof.
  unfold AuthService.cleanExpiredSessions, AuthService.getSessionStats.
  cbn [fst snd AuthService.sessions].
  repeat split.
  - intros token. apply filter_live_lookup.
  - apply filter_lapsed_partition.
  - f_equal. apply map_filter_id. intros token session Hs.
    now apply map_lookup_filter_Some_1_2 in Hs.
Qed.

(** What [requireAuth] accepts.  A request whose header [Authorization]
    is the word [Bearer], a space and the token of a session that has not
    run out is passed on with the user of the session; so is a request
    whose header is the token alone, the scheme being taken off the header
    where it is found and not asked for; a request without the header is
    answered 401. *)
Theorem requireAuth_accepts (now : Z) (token : string)
    (session : AuthService.session) (s : AuthService.t) :
  token <> EmptyString ->
  Js.includes token "Bearer " = false ->
  AuthService.sessions s !! token = Some session ->
  (now <= AuthService.expiresAt session)%Z ->
  fst (AuthService.requireAuth now (Some ("Bearer " +:+ token)) s)
    = Some (AuthService.username session)
  /\ fst (AuthService.requireAuth now (Some token) s)
     = Some (AuthService.username session)
  /\ fst (AuthService.requireAuth now None s) = None.
Proof.
  intros Htok Hplain Hs Hle.
  assert (AuthService.verifySession now (Some token) s
          = (AuthService.Valid (AuthService.username session),
             {| AuthService.sessions :=
                  <[token := {| AuthService.username := AuthService.username session;
                                AuthService.expiresAt :=
                                  now + AuthService.sessionExpiry s |}]>
                    (AuthService.sessions s);
                AuthService.sessionExpiry := AuthService.sessionExpiry s |}))
    as Hv.
  { apply (verify_live now token _ (AuthService.expiresAt session));
      [exact Htok | now destruct session | exact Hle]. }
  unfold AuthService.requireAuth, AuthService.bearer.
  rewrite (replace_prefix ("Bearer " +:+ token) "Bearer " "")
    by apply prefix_append.
  rewrite drop_append, append_empty.
  rewrite (replace_absent token "Bearer " "" Hplain).
  rewrite Hv. repeat split.
Qed.

Lemma requireAuth_accepts_witness :
  let s := {| AuthService.sessions :=
                {[ "c0ffee" := {| AuthService.username := "admin";
                                  AuthService.expiresAt := 5000 |} ]};
              AuthService.sessionExpiry := 1000 |} in
  fst (AuthService.requireAuth 4000 (Some "Bearer c0ffee") s) = Some "admin"
  /\ fst (AuthService.requireAuth 4000 (Some "c0ffee") s) = Some "admin"
  /\ fst (AuthService.requireAuth 4000 None s) = None.
Proof.
  apply (requireAuth_accepts 4000 "c0ffee"
           {| AuthService.username := "admin"; AuthService.expiresAt := 5000 |}
           {| AuthService.sessions :=
                {[ "c0ffee" := {| AuthService.username := "admin";
                                  AuthService.expiresAt := 5000 |} ]};
              AuthService.sessionExpiry := 1000 |}).
  - discriminate.
  - reflexivity.
  - reflexivity.
  - cbn. lia.
Defined.

(** After [logout] the token is not accepted. *)
Lemma logout_ends_session (now : Z) (token : string) (s : AuthService.t) :
  token <> EmptyString ->
  fst (AuthService.verifySession now (Some token)
         (AuthService.logout (Some token) s))
  = AuthService.Unauthorized.
Proof.
  intros Htok. unfold AuthService.logout, AuthService.verifySession,
    AuthService.present.
  destruct (String.eqb_spec token EmptyString) as [->|_]; [contradiction|].
  cbn. destruct (String.eqb_spec token EmptyString) as [->|_]; [contradiction|].
  now rewrite lookup_delete_eq.
Qed.

(** ** The legacy server: accounting and completion *)

Section Legacy.
Context `{Platform}.

Lemma legacy_jobs_only (s : LegacyRoutes.t) :
  legacy_orderly s -> jobs_only (VideoRoutes.q (LegacyRoutes.request s)).
Proof.
  intros (Hq & _ & _ & Hcalls & _). split; [exact Hq|].
  intros h j priority Hh. now specialize (Hcalls _ _ Hh).
Qed.

(** While a call has its job in flight the handler has not ended. *)
Lemma legacy_open (s : LegacyRoutes.t) (h j : nat) :
  legacy_orderly s ->
  TaskQueue.calls (VideoRoutes.q (LegacyRoutes.request s)) !! h
    = Some (TaskQueue.Awaiting j) ->
  VideoRoutes.handler (LegacyRoutes.request s) <> VideoRoutes.Ended.
Proof.
  intros (_ & _ & _ & _ & _ & _ & _ & _ & _ & _ & _ & Hc) Hh Hended.
  rewrite Hended in Hc. destruct Hc as [Hall _].
  now specialize (Hall _ _ Hh).
Qed.

Lemma failed_of_app (a b : list event) :
  failed_of (a ++ b) = failed_of a ++ failed_of b.
Proof. unfold failed_of. apply omap_app. Qed.

(** Events other than [complete] sent while the handler has not ended. *)
Lemma closing_grows (r r' : VideoRoutes.t) (events : list event) :
  closing r ->
  VideoRoutes.handler r <> VideoRoutes.Ended ->
  VideoRoutes.q r' = VideoRoutes.q r ->
  VideoRoutes.handler r' = VideoRoutes.handler r ->
  VideoRoutes.stream r' = VideoRoutes.stream r ++ events ->
  VideoRoutes.failedFiles r' = VideoRoutes.failedFiles r ++ failed_of events ->
  no_complete events ->
  closing r'.
Proof.
  intros [Hfailed Hc] Hopen Hq Hh Hstream Hff Hnone. split.
  - now rewrite Hff, Hstream, failed_of_app, Hfailed.
  - rewrite Hh, Hq, Hstream.
    destruct (VideoRoutes.handler r) as [| |e]; [|contradiction|].
    + destruct Hc as (Hn & Hrej & Hsome).
      split; [|split; [exact Hrej | exact Hsome]].
      apply Forall_app. now split.
    + destruct Hc as [Hn Hrej]. split; [|exact Hrej].
      apply Forall_app. now split.
Qed.

(** The job of a call in flight settles. *)
Lemma closing_settles (r : VideoRoutes.t) (q' : TaskQueue.t unit) (h j : nat)
    (o : TaskQueue.settlement unit) :
  closing r ->
  TaskQueue.calls (VideoRoutes.q r) !! h = Some (TaskQueue.Awaiting j) ->
  TaskQueue.calls q'
    = <[h := TaskQueue.Settled o]> (TaskQueue.calls (VideoRoutes.q r)) ->
  closing (VideoRoutes.promise_all (VideoRoutes.with_q q' r)).
Proof.
  intros Hc Hh Hcalls.
  destruct (VideoRoutes.handler r) as [| |e] eqn:Hhandler.
  - destruct Hc as [Hfailed Hc]. rewrite Hhandler in Hc.
    apply promise_all_closing; [exact Hhandler | exact Hfailed | apply Hc].
  - destruct Hc as [_ Hc]. rewrite Hhandler in Hc. destruct Hc as [Hall _].
    now specialize (Hall _ _ Hh).
  - replace (VideoRoutes.promise_all (VideoRoutes.with_q q' r))
      with (VideoRoutes.with_q q' r)
      by (unfold VideoRoutes.promise_all; cbn [VideoRoutes.handler VideoRoutes.with_q];
          now rewrite Hhandler).
    apply (closing_calls_changed r q' h (TaskQueue.Awaiting j)
             (TaskQueue.Settled o)); try easy.
    now rewrite Hhandler.
Qed.

Lemma all_counted (stages : list LegacyRoutes.stage) :
  (forall h, (h < length stages)%nat ->
             exists pending, stages !! h = Some (LegacyRoutes.Counted pending)) ->
  tally is_counted stages = length stages.
Proof.
  induction stages as [|st stages IH]; intros Hall; [reflexivity|].
  destruct (Hall 0%nat ltac:(cbn; lia)) as [pending Hst]. injection Hst as ->.
  change (LegacyRoutes.Counted pending :: stages)
    with ([LegacyRoutes.Counted pending] ++ stages).
  rewrite tally_app, IH; [reflexivity|].
  intros h Hh. apply (Hall (S h)). cbn. lia.
Qed.

Lemma tally_fresh (n : nat) :
  tally is_counted (replicate n LegacyRoutes.Fresh) = 0%nat.
Proof. unfold tally. induction n as [|n IH]; [reflexivity | exact IH]. Qed.

Lemma start_legacy_orderly (requested : option Z) (batch : list string) :
  legacy_orderly (LegacyRoutes.start requested batch).
Proof.
  pose proof (start_with_orderly false true LegacyRoutes.settings requested batch)
    as (Hjobs & Hlen & Hacc & Hproc & Hstream).
  pose proof (start_with_staged false LegacyRoutes.settings requested batch)
    as (Hq & _ & _ & k & _ & Hk & _ & _ & Hfly & Hpoll).
  pose proof (start_with_closing false LegacyRoutes.settings requested batch) as Hc.
  pose proof (start_with_files false LegacyRoutes.settings requested batch) as Hfiles.
  assert (forall h p,
             TaskQueue.calls
               (VideoRoutes.q
                  (VideoRoutes.start_with false LegacyRoutes.settings requested batch))
               !! h = Some p ->
             legacy_call (replicate (length batch) LegacyRoutes.Fresh) h p)
    as Hcalls.
  { intros h p Hh. pose proof (lookup_lt_Some _ _ _ Hh) as Hlt.
    destruct (decide (h < k)%nat) as [Hhk|Hhk].
    - rewrite Hfly in Hh by lia. now injection Hh as <-.
    - rewrite Hpoll in Hh by lia. now injection Hh as <-. }
  assert (tally VideoRoutes.resolved
            (TaskQueue.calls
               (VideoRoutes.q
                  (VideoRoutes.start_with false LegacyRoutes.settings requested batch)))
          = 0%nat) as Hnone.
  { apply tally_none. apply Forall_lookup. intros h p Hh.
    specialize (Hcalls h p Hh). destruct p as [c|j|[[]|e]]; try reflexivity.
    destruct Hcalls as [pending Hst].
    apply lookup_replicate in Hst as [Hst _]. discriminate. }
  unfold legacy_orderly, LegacyRoutes.start.
  cbn [LegacyRoutes.request LegacyRoutes.stages].
  cbn [accounted total processed success failed] in Hacc.
  destruct Hacc as (Ht & Hs0 & Hf0 & _ & _ & Hstrict).
  specialize (Hstrict eq_refl). rewrite Hnone in Hproc, Hstrict.
  rewrite Hfiles in *.
  repeat split; try assumption.
  - apply length_replicate.
  - rewrite tally_fresh. exact Hproc.
  - lia.
  - apply Hc.
  - apply Hc.
Qed.

Lemma legacy_timer (s : LegacyRoutes.t) (h : nat) :
  legacy_orderly s -> legacy_orderly (LegacyRoutes.step s (LegacyRoutes.Timer h)).
Proof.
  intros Hs. pose proof (legacy_jobs_only s Hs) as Hjobs.
  destruct Hs as (Hq & Hlen & Hst & Hcalls & Htot & Hproc & Heq & Hs0 & Hf0
                  & Hstream & Hc).
  pose proof (step_closing (LegacyRoutes.request s) (VideoRoutes.Timer h)
                Hjobs Hc) as Hc'.
  cbn [VideoRoutes.step] in Hc'.
  destruct (wake_idle h (VideoRoutes.q (LegacyRoutes.request s)) Hjobs)
    as [Hq' Hwake].
  unfold legacy_orderly.
  cbn [LegacyRoutes.step LegacyRoutes.request LegacyRoutes.stages
       VideoRoutes.with_q VideoRoutes.q VideoRoutes.files VideoRoutes.counters
       VideoRoutes.stream].
  assert (length (TaskQueue.calls
                    (TaskQueue.wake h (VideoRoutes.q (LegacyRoutes.request s))))
          = length (VideoRoutes.files (LegacyRoutes.request s))
          /\ forall i p,
               TaskQueue.calls
                 (TaskQueue.wake h (VideoRoutes.q (LegacyRoutes.request s))) !! i
               = Some p ->
               legacy_call (LegacyRoutes.stages s) i p) as [Hlen' Hcalls'].
  { destruct Hwake as [-> | (j & Hh & ->)]; [now split|].
    split; [now rewrite length_insert|].
    intros i p Hi. destruct (decide (i = h)) as [->|Hne].
    - rewrite list_lookup_insert_eq in Hi by (now apply lookup_lt_Some in Hh).
      injection Hi as <-. specialize (Hcalls _ _ Hh). cbn in Hcalls.
      now injection Hcalls as ->.
    - rewrite list_lookup_insert_ne in Hi by congruence. now apply Hcalls. }
  repeat split; try assumption; apply Hc'.
Qed.

Lemma legacy_says (s : LegacyRoutes.t) (h : nat) (m : message) (l : level) :
  legacy_orderly s ->
  legacy_orderly (LegacyRoutes.step s (LegacyRoutes.Says h m l)).
Proof.
  intros Hs. pose proof (legacy_jobs_only s Hs) as Hjobs.
  pose proof Hs as (Hq & Hlen & Hst & Hcalls & Htot & Hproc & Heq & Hs0 & Hf0
                    & Hstream & Hc).
  pose proof (step_closing (LegacyRoutes.request s) (VideoRoutes.Says h m l)
                Hjobs Hc) as Hc'.
  cbn [VideoRoutes.step LegacyRoutes.step] in *.
  destruct (TaskQueue.calls (VideoRoutes.q (LegacyRoutes.request s)) !! h)
    as [[c|j|o]|]; try exact Hs.
  destruct (LegacyRoutes.stages s !! j) as [[|pending]|]; try exact Hs.
  unfold legacy_orderly.
  cbn [LegacyRoutes.request LegacyRoutes.stages VideoRoutes.sendEvent
       VideoRoutes.q VideoRoutes.files VideoRoutes.counters VideoRoutes.stream].
  assert (Forall (accounted true
                    (Z.of_nat (length (VideoRoutes.files (LegacyRoutes.request s)))))
            (VideoRoutes.stream (LegacyRoutes.request s) ++ [Log m l])) as Hstream'.
  { apply Forall_app. split; [exact Hstream | now repeat constructor]. }
  repeat split; try assumption; apply Hc'.
Qed.

Lemma count_rest (file : string) (e : LegacyRoutes.ending) (r : VideoRoutes.t) :
  VideoRoutes.q (LegacyRoutes.count file e r) = VideoRoutes.q r
  /\ VideoRoutes.files (LegacyRoutes.count file e r) = VideoRoutes.files r
  /\ VideoRoutes.handler (LegacyRoutes.count file e r) = VideoRoutes.handler r.
Proof. now destruct e. Qed.

Lemma count_counters (file : string) (e : LegacyRoutes.ending)
    (r : VideoRoutes.t) :
  let c := VideoRoutes.counters r in
  let c' := VideoRoutes.counters (LegacyRoutes.count file e r) in
  total c' = total c
  /\ processed c' = (processed c + 1)%Z
  /\ (success c' + failed c' = success c + failed c + 1)%Z
  /\ (success c <= success c')%Z /\ (failed c <= failed c')%Z.
Proof. destruct e; cbn; repeat split; lia. Qed.

Lemma count_stream (file : string) (e : LegacyRoutes.ending)
    (r : VideoRoutes.t) :
  exists events,
    VideoRoutes.stream (LegacyRoutes.count file e r)
    = VideoRoutes.stream r ++ events
    /\ VideoRoutes.failedFiles (LegacyRoutes.count file e r)
       = VideoRoutes.failedFiles r ++ failed_of events
    /\ no_complete events
    /\ Forall (fun ev => match ev with
                         | Progress p =>
                             p = VideoRoutes.counters (LegacyRoutes.count file e r)
                         | Complete _ _ => False
                         | _ => True
                         end) events.
Proof.
  destruct e as [| |e].
  - exists [Log (MsgSkipped (path_basename file ".strm")) info;
            Progress (VideoRoutes.counters
                        (LegacyRoutes.count file LegacyRoutes.Skips r))].
    cbn. rewrite <- app_assoc, app_nil_r.
    repeat split; repeat constructor.
  - exists [Log (MsgNfo (path_basename (Js.replace file ".strm" ".nfo") "")) info;
            Log (MsgSuccess (path_basename file ".strm")) success_level].
    cbn. rewrite <- app_assoc, app_nil_r.
    repeat split; repeat constructor.
  - exists [Log (MsgFailure (path_basename file ".strm") e) error_level;
            Failed file].
    cbn. rewrite <- app_assoc.
    repeat split; repeat constructor.
Qed.

Lemma legacy_snapshot (s : LegacyRoutes.t) :
  legacy_orderly s ->
  accounted true
    (Z.of_nat (length (VideoRoutes.files (LegacyRoutes.request s))))
    (Progress (VideoRoutes.counters (LegacyRoutes.request s))).
Proof.
  intros (Hq & Hlen & Hst & Hcalls & Htot & Hproc & Heq & Hs0 & Hf0 & _).
  cbn [accounted]. repeat split; try assumption; try lia.
  rewrite Hproc, <- Hst. apply inj_le, tally_le_length.
Qed.

Lemma legacy_ends (s : LegacyRoutes.t) (h : nat) (e : LegacyRoutes.ending) :
  legacy_orderly s ->
  legacy_orderly (LegacyRoutes.step s (LegacyRoutes.Ends h e)).
Proof.
  intros Hs. cbn [LegacyRoutes.step].
  destruct (TaskQueue.calls (VideoRoutes.q (LegacyRoutes.request s)) !! h)
    as [[c|j|o]|] eqn:Hh; try exact Hs.
  destruct (LegacyRoutes.stages s !! j) as [[|pending]|] eqn:Hj; try exact Hs.
  destruct (VideoRoutes.files (LegacyRoutes.request s) !! j) as [file|] eqn:Hf;
    try exact Hs.
  pose proof (legacy_open s h j Hs Hh) as Hopen.
  pose proof Hs as (Hq & Hlen & Hst & Hcalls & Htot & Hproc & Heq & Hs0 & Hf0
                    & Hstream & Hc).
  set (pending := match e with LegacyRoutes.Skips => false | _ => true end).
  destruct (count_rest file e (LegacyRoutes.request s)) as (Cq & Cf & Ch).
  destruct (count_counters file e (LegacyRoutes.request s))
    as (Ct & Cp & Csum & Cs & Cfl).
  destruct (count_stream file e (LegacyRoutes.request s))
    as (events & Cstream & Cfailed & Cnone & Csnap).
  pose proof (tally_insert is_counted (LegacyRoutes.stages s) j
                LegacyRoutes.Fresh (LegacyRoutes.Counted pending) Hj) as Htally.
  cbn [is_counted] in Htally.
  pose proof (tally_le_length is_counted
                (<[j := LegacyRoutes.Counted pending]> (LegacyRoutes.stages s)))
    as Hle.
  rewrite length_insert in Hle.
  pose proof (closing_grows _ _ events Hc Hopen Cq Ch Cstream Cfailed Cnone)
    as Hc'.
  unfold legacy_orderly.
  cbn [LegacyRoutes.request LegacyRoutes.stages].
  rewrite Cq, Cf, Ct, Cp, length_insert.
  split; [exact Hq|]. split; [exact Hlen|]. split; [exact Hst|].
  split.
  { intros i p Hi. specialize (Hcalls i p Hi).
    destruct p as [c|k|[u|e']]; try exact Hcalls.
    destruct Hcalls as [b Hb].
    destruct (decide (i = j)) as [->|Hne].
    - exists pending. apply list_lookup_insert_eq. now apply lookup_lt_Some in Hj.
    - exists b. now rewrite list_lookup_insert_ne by congruence. }
  split; [exact Htot|]. split; [lia|]. split; [lia|].
  split; [lia|]. split; [lia|]. split; [|exact Hc'].
  rewrite Cstream. apply Forall_app. split; [exact Hstream|].
  eapply Forall_impl; [exact Csnap|].
  intros [m l | p | f | p fs] Hev; try exact I; [|contradiction].
  subst p. cbn [accounted]. rewrite Ct, Cp.
  repeat split; try lia.
Qed.

Lemma promise_all_stream (s : VideoRoutes.t) :
  VideoRoutes.stream (VideoRoutes.promise_all s) = VideoRoutes.stream s
  \/ (VideoRoutes.stream (VideoRoutes.promise_all s)
        = VideoRoutes.stream s
          ++ [Complete (VideoRoutes.counters s) (VideoRoutes.failedFiles s)]
      /\ forall i p, TaskQueue.calls (VideoRoutes.q s) !! i = Some p ->
                     VideoRoutes.resolved p = true).
Proof.
  unfold VideoRoutes.promise_all.
  destruct (VideoRoutes.handler s); try now left.
  destruct (omap _ _); [|now left].
  pose proof (forallb_resolved (TaskQueue.calls (VideoRoutes.q s))) as Hres.
  destruct (forallb _ _); [right | now left]. now split.
Qed.

(** The invariant when the job of call [h], in flight, settles with [o]
    after the request went from [s] to [r1] by sending events only. *)
Lemma legacy_settles (s : LegacyRoutes.t) (r1 : VideoRoutes.t) (h j : nat)
    (o : TaskQueue.settlement unit) :
  legacy_orderly s ->
  TaskQueue.calls (VideoRoutes.q (LegacyRoutes.request s)) !! h
    = Some (TaskQueue.Awaiting j) ->
  (forall u, o = TaskQueue.Resolved u ->
             exists pending,
               LegacyRoutes.stages s !! h = Some (LegacyRoutes.Counted pending)) ->
  VideoRoutes.q r1 = VideoRoutes.q (LegacyRoutes.request s) ->
  VideoRoutes.files r1 = VideoRoutes.files (LegacyRoutes.request s) ->
  VideoRoutes.counters r1 = VideoRoutes.counters (LegacyRoutes.request s) ->
  closing r1 ->
  Forall (accounted true
            (Z.of_nat (length (VideoRoutes.files (LegacyRoutes.request s)))))
    (VideoRoutes.stream r1) ->
  legacy_orderly
    {| LegacyRoutes.request :=
         VideoRoutes.promise_all
           (VideoRoutes.with_q (TaskQueue.settle h o (VideoRoutes.q r1)) r1);
       LegacyRoutes.stages := LegacyRoutes.stages s |}.
Proof.
  intros Hs Hh Hstage R1q R1f R1c R1closing R1s.
  pose proof Hs as (Hq & Hlen & Hst & Hcalls & Htot & Hproc & Heq & Hs0 & Hf0
                    & Hstream & Hc).
  set (r := LegacyRoutes.request s) in *.
  set (q' := TaskQueue.settle h o (VideoRoutes.q r1)).
  destruct (settle_idle h j o (VideoRoutes.q r1)) as [Hcalls' Hq'].
  { now rewrite R1q. }
  { now rewrite R1q. }
  fold q' in Hcalls', Hq'. clearbody q'.
  set (o' := TaskQueue.caught (TaskQueue.logger (VideoRoutes.q r1)) o) in *.
  assert (forall u, o' = TaskQueue.Resolved u -> exists u', o = TaskQueue.Resolved u')
    as Hres.
  { intros u Hu. subst o'. destruct o as [u'|e]; [now exists u'|].
    destruct (caught_rejected (V := unit)
                (TaskQueue.logger (VideoRoutes.q r1)) e) as [e' He'].
    rewrite He' in Hu. discriminate. }
  clearbody o'.
  set (r2 := VideoRoutes.with_q q' r1).
  assert (forall i p, TaskQueue.calls q' !! i = Some p ->
                      legacy_call (LegacyRoutes.stages s) i p) as Hcalls2.
  { intros i p Hi. rewrite Hcalls', R1q in Hi.
    destruct (decide (i = h)) as [->|Hne].
    - rewrite list_lookup_insert_eq in Hi by (now apply lookup_lt_Some in Hh).
      injection Hi as <-. destruct o' as [u|e]; [|exact I].
      destruct (Hres u eq_refl) as [u' Hu']. now apply (Hstage u').
    - rewrite list_lookup_insert_ne in Hi by congruence. now apply Hcalls. }
  assert (closing (VideoRoutes.promise_all r2)) as Hc2.
  { apply (closing_settles r1 q' h j o' R1closing); [now rewrite R1q|].
    exact Hcalls'. }
  destruct (promise_all_same r2) as (Pq & Pc & Pff).
  pose proof (promise_all_files r2) as Pf.
  unfold legacy_orderly.
  cbn [LegacyRoutes.request LegacyRoutes.stages].
  fold r2. rewrite Pq, Pc, Pf.
  change (VideoRoutes.q r2) with q'.
  change (VideoRoutes.files r2) with (VideoRoutes.files r1).
  change (VideoRoutes.counters r2) with (VideoRoutes.counters r1).
  rewrite R1f, R1c.
  split; [exact Hq'|].
  split; [now rewrite Hcalls', R1q, length_insert|].
  split; [exact Hst|]. split; [exact Hcalls2|].
  split; [exact Htot|]. split; [exact Hproc|]. split; [exact Heq|].
  split; [exact Hs0|]. split; [exact Hf0|]. split; [|exact Hc2].
  destruct (promise_all_stream r2) as [-> | [-> Hall]]; [exact R1s|].
  apply Forall_app. split; [exact R1s|]. constructor; [|constructor].
  cbn [accounted]. change (VideoRoutes.counters r2) with (VideoRoutes.counters r1).
  rewrite R1c. split; [exact Htot|].
  rewrite Hproc, <- Hst. f_equal. apply all_counted.
  intros i Hi.
  assert (i < length (TaskQueue.calls q'))%nat as Hi'
    by (rewrite Hcalls', R1q, length_insert; lia).
  apply lookup_lt_is_Some in Hi' as [p Hp].
  specialize (Hall i p Hp). specialize (Hcalls2 i p Hp).
  now destruct p as [c|k|[u|e]].
Qed.

Lemma legacy_finishes (s : LegacyRoutes.t) (h : nat) :
  legacy_orderly s ->
  legacy_orderly (LegacyRoutes.step s (LegacyRoutes.Finishes h)).
Proof.
  intros Hs. cbn [LegacyRoutes.step].
  destruct (TaskQueue.calls (VideoRoutes.q (LegacyRoutes.request s)) !! h)
    as [[c|j|o]|] eqn:Hh; try exact Hs.
  destruct (LegacyRoutes.stages s !! j) as [[|pending]|] eqn:Hj; try exact Hs.
  pose proof (legacy_open s h j Hs Hh) as Hopen.
  pose proof (legacy_snapshot s Hs) as Hsnap.
  pose proof Hs as (Hq & Hlen & Hst & Hcalls & Htot & Hproc & Heq & Hs0 & Hf0
                    & Hstream & Hc).
  assert (j = h) as -> by (now specialize (Hcalls _ _ Hh)).
  set (r := LegacyRoutes.request s) in *.
  set (r1 := if pending
             then VideoRoutes.sendEvent (Progress (VideoRoutes.counters r)) r
             else r).
  assert (VideoRoutes.q r1 = VideoRoutes.q r
          /\ VideoRoutes.files r1 = VideoRoutes.files r
          /\ VideoRoutes.counters r1 = VideoRoutes.counters r
          /\ closing r1
          /\ Forall (accounted true (Z.of_nat (length (VideoRoutes.files r))))
               (VideoRoutes.stream r1))
    as (R1q & R1f & R1c & R1closing & R1s).
  { subst r1. split; [now destruct pending|]. split; [now destruct pending|].
    split; [now destruct pending|]. destruct pending; [|now split]. split.
    - apply (closing_grows r _ [Progress (VideoRoutes.counters r)] Hc Hopen);
        try reflexivity.
      + cbn. now rewrite app_nil_r.
      + now repeat constructor.
    - cbn. apply Forall_app. split; [exact Hstream|].
      constructor; [exact Hsnap | constructor]. }
  clearbody r1.
  apply (legacy_settles s r1 h h (TaskQueue.Resolved tt)); try assumption.
  intros _ _. now exists pending.
Qed.

Lemma legacy_rejects (s : LegacyRoutes.t) (h : nat) (e : error) :
  legacy_orderly s ->
  legacy_orderly (LegacyRoutes.step s (LegacyRoutes.Rejects h e)).
Proof.
  intros Hs. cbn [LegacyRoutes.step].
  destruct (TaskQueue.calls (VideoRoutes.q (LegacyRoutes.request s)) !! h)
    as [[c|j|o]|] eqn:Hh; try exact Hs.
  apply (legacy_settles s (LegacyRoutes.request s) h j (TaskQueue.Rejected e));
    try easy; apply Hs.
Qed.

Lemma legacy_step (s : LegacyRoutes.t) (i : LegacyRoutes.input) :
  legacy_orderly s -> legacy_orderly (LegacyRoutes.step s i).
Proof.
  intros Hs. destruct i as [h | h m l | h e | h | h e].
  - now apply legacy_timer.
  - now apply legacy_says.
  - now apply legacy_ends.
  - now apply legacy_finishes.
  - now apply legacy_rejects.
Qed.

Lemma legacy_run (inputs : list LegacyRoutes.input) (s : LegacyRoutes.t) :
  legacy_orderly s -> legacy_orderly (LegacyRoutes.run s inputs).
Proof.
  revert s. induction inputs as [|i inputs IH]; intros s Hs; [exact Hs|].
  unfold LegacyRoutes.run in *. cbn [fold_left]. apply IH.
  now apply legacy_step.
Qed.

Lemma legacy_files (inputs : list LegacyRoutes.input) (s : LegacyRoutes.t) :
  VideoRoutes.files (LegacyRoutes.request (LegacyRoutes.run s inputs))
  = VideoRoutes.files (LegacyRoutes.request s).
Proof.
  revert s. induction inputs as [|i inputs IH]; intros s; [reflexivity|].
  unfold LegacyRoutes.run in *. cbn [fold_left]. rewrite IH.
  destruct i as [h | h m l | h e | h | h e]; cbn [LegacyRoutes.step].
  - reflexivity.
  - destruct (TaskQueue.calls _ !! h) as [[c|j|o]|]; try reflexivity.
    now destruct (LegacyRoutes.stages s !! j) as [[|pending]|].
  - destruct (TaskQueue.calls _ !! h) as [[c|j|o]|]; try reflexivity.
    destruct (LegacyRoutes.stages s !! j) as [[|pending]|]; try reflexivity.
    destruct (VideoRoutes.files _ !! j); [|reflexivity].
    apply count_rest.
  - destruct (TaskQueue.calls _ !! h) as [[c|j|o]|]; try reflexivity.
    destruct (LegacyRoutes.stages s !! j) as [[|pending]|]; try reflexivity.
    cbn [LegacyRoutes.request]. rewrite promise_all_files. now destruct pending.
  - destruct (TaskQueue.calls _ !! h) as [[c|j|o]|]; try reflexivity.
    cbn [LegacyRoutes.request]. now rewrite promise_all_files.
Qed.

(** A step other than a rejection rejects no call. *)
Lemma legacy_step_unrejected (s : LegacyRoutes.t) (i : LegacyRoutes.input) :
  legacy_orderly s ->
  returning i ->
  unrejected (LegacyRoutes.request s) ->
  unrejected (LegacyRoutes.request (LegacyRoutes.step s i)).
Proof.
  intros Hs Hi Hun. pose proof (legacy_jobs_only s Hs) as Hjobs.
  destruct i as [h | h m l | h e | h | h e]; [| | | |contradiction];
    cbn [LegacyRoutes.step].
  - destruct (wake_idle h (VideoRoutes.q (LegacyRoutes.request s)) Hjobs)
      as [_ [Hsame | (j & Hh & Hnew)]]; intros i e;
      cbn [LegacyRoutes.request VideoRoutes.with_q VideoRoutes.q].
    + rewrite Hsame. apply Hun.
    + rewrite Hnew. destruct (decide (i = h)) as [->|Hne].
      * rewrite list_lookup_insert_eq by (now apply lookup_lt_Some in Hh).
        discriminate.
      * rewrite list_lookup_insert_ne by congruence. apply Hun.
  - destruct (TaskQueue.calls _ !! h) as [[c|j|o]|]; try exact Hun.
    now destruct (LegacyRoutes.stages s !! j) as [[|pending]|].
  - destruct (TaskQueue.calls _ !! h) as [[c|j|o]|]; try exact Hun.
    destruct (LegacyRoutes.stages s !! j) as [[|pending]|]; try exact Hun.
    destruct (VideoRoutes.files _ !! j) as [file|]; [|exact Hun].
    intros i e'. cbn [LegacyRoutes.request].
    destruct (count_rest file e (LegacyRoutes.request s)) as (-> & _).
    apply Hun.
  - destruct (TaskQueue.calls _ !! h) as [[c|j|o]|] eqn:Hh; try exact Hun.
    destruct (LegacyRoutes.stages s !! j) as [[|pending]|]; try exact Hun.
    intros i e. cbn [LegacyRoutes.request].
    destruct (promise_all_same
                (VideoRoutes.with_q
                   (TaskQueue.settle h (TaskQueue.Resolved tt)
                      (VideoRoutes.q
                         (if pending
                          then VideoRoutes.sendEvent
                                 (Progress
                                    (VideoRoutes.counters (LegacyRoutes.request s)))
                                 (LegacyRoutes.request s)
                          else LegacyRoutes.request s)))
                   (if pending
                    then VideoRoutes.sendEvent
                           (Progress
                              (VideoRoutes.counters (LegacyRoutes.request s)))
                           (LegacyRoutes.request s)
                    else LegacyRoutes.request s))) as (-> & _).
    cbn [VideoRoutes.with_q VideoRoutes.q].
    replace (VideoRoutes.q
               (if pending
                then VideoRoutes.sendEvent
                       (Progress (VideoRoutes.counters (LegacyRoutes.request s)))
                       (LegacyRoutes.request s)
                else LegacyRoutes.request s))
      with (VideoRoutes.q (LegacyRoutes.request s)) by (now destruct pending).
    destruct (settle_idle h j (TaskQueue.Resolved tt)
                (VideoRoutes.q (LegacyRoutes.request s)) (proj1 Hjobs) Hh)
      as [-> _].
    cbn [TaskQueue.caught].
    destruct (decide (i = h)) as [->|Hne].
    + rewrite list_lookup_insert_eq by (now apply lookup_lt_Some in Hh).
      discriminate.
    + rewrite list_lookup_insert_ne by congruence. apply Hun.
Qed.

Lemma legacy_run_unrejected (inputs : list LegacyRoutes.input)
    (s : LegacyRoutes.t) :
  legacy_orderly s ->
  Forall returning inputs ->
  unrejected (LegacyRoutes.request s) ->
  unrejected (LegacyRoutes.request (LegacyRoutes.run s inputs)).
Proof.
  revert s. induction inputs as [|i inputs IH]; intros s Hs Hin Hun;
    [exact Hun|].
  apply Forall_cons in Hin as [Hi Hin].
  unfold LegacyRoutes.run in *. cbn [fold_left].
  apply IH; [now apply legacy_step | exact Hin|].
  now apply legacy_step_unrejected.
Qed.

Lemma start_legacy_unrejected (requested : option Z) (batch : list string) :
  unrejected (LegacyRoutes.request (LegacyRoutes.start requested batch)).
Proof.
  pose proof (start_with_staged false LegacyRoutes.settings requested batch)
    as (_ & _ & _ & k & _ & _ & _ & _ & Hfly & Hpoll).
  intros i e Hi. pose proof (lookup_lt_Some _ _ _ Hi) as Hlt.
  cbn [LegacyRoutes.start LegacyRoutes.request] in *.
  destruct (decide (i < k)%nat) as [Hik|Hik].
  - rewrite Hfly in Hi by lia. discriminate.
  - rewrite Hpoll in Hi by lia. discriminate.
Qed.

(** [processVideo] returns whatever the world answers: what is thrown in
    its [try] is caught, and neither [catch] nor [finally] throws. *)
Lemma processVideo_returns (w : world) (tmpDir file : string)
    (cfg : VideoService.config) (st : Job.state) :
  exists e st', LegacyRoutes.processVideo w tmpDir file cfg st = (Ok e, st').
Proof.
  unfold LegacyRoutes.processVideo.
  unfold Job.bind at 1. unfold Job.try_catch.
  match goal with
  | |- exists _ _, match (match ?body with _ => _ end) with _ => _ end = _ =>
      destruct body as [[e | e] st1]
  end; cbn; eauto.
Qed.

Lemma job_inputs_returning (w : world) (tmpDir : string)
    (cfg : VideoService.config) (cache : CacheService.t) (h : nat)
    (file : string) :
  Forall returning (fst (LegacyRoutes.job_inputs w tmpDir cfg cache h file)).
Proof.
  unfold LegacyRoutes.job_inputs.
  destruct (processVideo_returns w tmpDir file cfg (Job.start cache))
    as (e & st' & ->).
  cbn [fst]. constructor; [exact I|]. apply Forall_app. split.
  - induction (Job.trace st') as [|ev l IH]; [constructor|].
    cbn [omap]. destruct ev as [| | | | | | | | |[m lv| | |]]; try exact IH.
    constructor; [exact I | exact IH].
  - now repeat constructor.
Qed.

Lemma sequential_returning (w : world) (tmpDir : string)
    (cfg : VideoService.config) (batch : list string) :
  forall (cache : CacheService.t) (h : nat),
    Forall returning (LegacyRoutes.sequential w tmpDir cfg cache h batch).
Proof.
  induction batch as [|file rest IH]; intros cache h; [constructor|].
  cbn [LegacyRoutes.sequential].
  pose proof (job_inputs_returning w tmpDir cfg cache h file) as Hjob.
  destruct (LegacyRoutes.job_inputs w tmpDir cfg cache h file)
    as [inputs cache'].
  apply Forall_app. split; [exact Hjob | apply IH].
Qed.

End Legacy.

(** The accounting of the legacy server.  For every batch and every
    order in which timers fire and jobs log, end and return, every
    progress snapshot of [POST /api/process] carries the batch total and
    has [processed] equal to [success] plus [failed], a skipped job being
    counted as a success, with [processed] at most the total; the complete
    event has [processed] equal to the total. *)
Theorem legacy_accounting `{Platform} (requested : option Z)
    (batch : list string) (inputs : list LegacyRoutes.input) :
  Forall (accounted true (Z.of_nat (length batch)))
    (VideoRoutes.stream
       (LegacyRoutes.request
          (LegacyRoutes.run (LegacyRoutes.start requested batch) inputs))).
Proof.
  pose proof (legacy_run inputs _ (start_legacy_orderly requested batch))
    as (_ & _ & _ & _ & _ & _ & _ & _ & _ & Hstream & _).
  rewrite legacy_files in Hstream.
  cbn [LegacyRoutes.start LegacyRoutes.request] in Hstream.
  now rewrite start_with_files in Hstream.
Qed.

(** The legacy server completes unless the promise of a job is rejected,
    and [processVideo] rejects for no file that is a string.  Whatever
    the world answers and whatever the cache holds, [processVideo]
    returns: what its [try] throws is caught, and [catch] and [finally]
    do not throw; so the inputs of the jobs of a batch, run one after
    the other, hold no rejection.  In every order of timers, log lines,
    endings and returns that holds no rejection, no call of [add] is
    rejected and the handler is never left by a rejection; once every
    call has settled the handler has ended and the stream is a stream
    without a complete event followed by one complete event, which
    carries the counters and the failed files, these being the files of
    the failed events in order. *)
Theorem legacy_completes `{Platform} (w : world) (tmpDir : string)
    (cfg : VideoService.config) (requested : option Z)
    (batch : list string) (inputs : list LegacyRoutes.input) :
  (forall file st,
      exists e st', LegacyRoutes.processVideo w tmpDir file cfg st = (Ok e, st'))
  /\ (forall cache h,
         Forall returning (LegacyRoutes.sequential w tmpDir cfg cache h batch))
  /\ (Forall returning inputs ->
      let r := LegacyRoutes.request
                 (LegacyRoutes.run (LegacyRoutes.start requested batch) inputs) in
      (forall i e, TaskQueue.calls (VideoRoutes.q r) !! i
                   <> Some (TaskQueue.Settled (TaskQueue.Rejected e)))
      /\ (forall e, VideoRoutes.handler r <> VideoRoutes.Aborted e)
      /\ ((forall i p, TaskQueue.calls (VideoRoutes.q r) !! i = Some p ->
                       is_settled p = true) ->
          VideoRoutes.handler r = VideoRoutes.Ended
          /\ exists before,
              VideoRoutes.stream r
              = before ++ [Complete (VideoRoutes.counters r)
                             (VideoRoutes.failedFiles r)]
              /\ no_complete before
              /\ VideoRoutes.failedFiles r = failed_of before
              /\ processed (VideoRoutes.counters r) = Z.of_nat (length batch))).
Proof.
  split; [intros file st; apply processVideo_returns|].
  split; [intros cache h; apply sequential_returning|].
  intros Hin r.
  pose proof (legacy_run inputs _ (start_legacy_orderly requested batch)) as Hs.
  pose proof (legacy_run_unrejected inputs _
                (start_legacy_orderly requested batch) Hin
                (start_legacy_unrejected requested batch)) as Hrej.
  assert (Forall (accounted true (Z.of_nat (length batch)))
            (VideoRoutes.stream
               (LegacyRoutes.request
                  (LegacyRoutes.run (LegacyRoutes.start requested batch) inputs))))
    as Hacc.
  { destruct Hs as (_ & _ & _ & _ & _ & _ & _ & _ & _ & Hstream & _).
    rewrite legacy_files in Hstream.
    cbn [LegacyRoutes.start LegacyRoutes.request] in Hstream.
    now rewrite start_with_files in Hstream. }
  destruct Hs as (_ & _ & _ & Hcalls & _ & _ & _ & _ & _ & _ & Hfailed & Hc).
  fold r in Hrej, Hacc, Hcalls, Hfailed, Hc.
  split; [exact Hrej|].
  assert (forall e, VideoRoutes.handler r <> VideoRoutes.Aborted e) as Hnever.
  { intros e He. rewrite He in Hc. destruct Hc as [_ (i & e' & Hi)].
    now destruct (Hrej i e'). }
  split; [exact Hnever|].
  intros Hall.
  destruct (VideoRoutes.handler r) as [| |e] eqn:Hh.
  - destruct Hc as (_ & _ & i & p & Hi & Hp).
    specialize (Hall i p Hi).
    destruct p as [c|j|[u|e]]; try discriminate.
    now destruct (Hrej i e).
  - split; [reflexivity|]. destruct Hc as [_ (before & Hstream & Hnone)].
    exists before. split; [exact Hstream|]. split; [exact Hnone|]. split.
    + rewrite Hfailed, Hstream, failed_of_app. cbn. now rewrite app_nil_r.
    + rewrite Hstream in Hacc. apply Forall_app in Hacc as [_ Hlast].
      apply Forall_cons in Hlast as [[_ Hp] _]. exact Hp.
  - now destruct (Hnever e).
Qed.

(** A batch of two files on the legacy server, the first of which has
    its cover already: the skipped job is counted as a success. *)
Example legacy_counts_skip_as_success :
  VideoRoutes.stream
    (LegacyRoutes.request
       (LegacyRoutes.run (H := SimplePlatform.platform)
          (LegacyRoutes.start None ["/media/a.strm"; "/media/b.strm"])
          [LegacyRoutes.Ends 0 LegacyRoutes.Skips;
           LegacyRoutes.Says 1 (MsgStart "b") info;
           LegacyRoutes.Finishes 0;
           LegacyRoutes.Ends 1 (LegacyRoutes.Fails Unreachable);
           LegacyRoutes.Finishes 1]))
  = [Log (MsgConcurrency 2 2) info;
     Log (MsgSkipped "a") info;
     Progress {| total := 2; processed := 1; success := 1; failed := 0 |};
     Log (MsgStart "b") info;
     Log (MsgFailure "b" Unreachable) error_level;
     Failed "/media/b.strm";
     Progress {| total := 2; processed := 2; success := 1; failed := 1 |};
     Complete {| total := 2; processed := 2; success := 1; failed := 1 |}
       ["/media/b.strm"]].
Proof. reflexivity. Qed.

(** The jobs of a batch of two files run one after the other, the host
    of the second not answering: both return, the second through
    [catch], and the handler completes. *)
Example legacy_sequential_batch :
  let inputs :=
    LegacyRoutes.sequential (H := SimplePlatform.platform)
      (Example.world_batch 300) "/tmp/emby_thumb_temp" (Example.options "1")
      CacheService.create 0 ["/media/a.strm"; "/media/bad.strm"] in
  let r := LegacyRoutes.request
             (LegacyRoutes.run (H := SimplePlatform.platform)
                (LegacyRoutes.start None ["/media/a.strm"; "/media/bad.strm"])
                inputs) in
  inputs = [LegacyRoutes.Timer 0; LegacyRoutes.Says 0 (MsgStart "a") info;
            LegacyRoutes.Ends 0 LegacyRoutes.Succeeds;
            LegacyRoutes.Finishes 0; LegacyRoutes.Timer 1;
            LegacyRoutes.Says 1 (MsgStart "bad") info;
            LegacyRoutes.Ends 1 (LegacyRoutes.Fails Unreachable);
            LegacyRoutes.Finishes 1]
  /\ VideoRoutes.handler r = VideoRoutes.Ended
  /\ VideoRoutes.stream r
     = [Log (MsgConcurrency 2 2) info; Log (MsgStart "a") info;
        Log (MsgNfo "a.nfo") info; Log (MsgSuccess "a") success_level;
        Progress {| total := 2; processed := 1; success := 1; failed := 0 |};
        Log (MsgStart "bad") info;
        Log (MsgFailure "bad" Unreachable) error_level;
        Failed "/media/bad.strm";
        Progress {| total := 2; processed := 2; success := 1; failed := 1 |};
        Complete {| total := 2; processed := 2; success := 1; failed := 1 |}
          ["/media/bad.strm"]].
Proof. vm_compute. repeat split. Qed.

(** A batch whose first element is not a string: the promise of its job
    is rejected, the handler is left at [Promise.all] and no complete
    event is ever sent, while the other job goes on and reports. *)
Example legacy_rejection_aborts :
  let r := LegacyRoutes.request
             (LegacyRoutes.run (H := SimplePlatform.platform)
                (LegacyRoutes.start None ["42"; "/media/b.strm"])
                [LegacyRoutes.Rejects 0 NotAString;
                 LegacyRoutes.Ends 1 LegacyRoutes.Succeeds;
                 LegacyRoutes.Finishes 1]) in
  VideoRoutes.handler r = VideoRoutes.Aborted NotAString
  /\ TaskQueue.calls (VideoRoutes.q r)
     = [TaskQueue.Settled (TaskQueue.Rejected NotAString);
        TaskQueue.Settled (TaskQueue.Resolved tt)]
  /\ VideoRoutes.stream r
     = [Log (MsgConcurrency 2 2) info; Log (MsgNfo "b.nfo") info;
        Log (MsgSuccess "b") success_level;
        Progress {| total := 2; processed := 1; success := 1; failed := 0 |}].
Proof. vm_compute. repeat split. Qed.

